(** * DOCS DB: a shallow embedding of the tiered LSM storage engine

    The development follows the C++ sources of the engine:
    - [REPL::GET], [REPL::SET], [REPL::DELETE] (REPL.cpp);
    - [BloomFilter], [Database::FLUSH], [merge], [Database::compact],
      [Database::binary_search], [Database::Find],
      [Database::initializer_helper], [Database::initialize_memtable],
      [Database::initialize_filter], [Database::initialize_folder] and the
      constructor [Database::Database] (database.cpp);
    - the constants [MAX], [MIN_TH], [NOFILTERS] (database.h);
    - [handle_client] (server.cpp), [serialize_command] and
      [parse_response] (client.cpp).

    Conventions.  A C++ [std::string] is a [string] (a sequence of 8-bit
    characters, compared as unsigned bytes, which is what [String.compare]
    does).  A [size_t] is an [N]; where the source can wrap around, the
    reduction modulo [2^64] is written out.  A [std::map<string,string>] is a
    key-sorted association list, so that iterating it visits the keys in
    increasing order as the flush does.  A data file is the [string] of its
    bytes, an index (metadata) file is the list of the [u64] words it holds. *)

From Stdlib Require Import Strings.String Strings.Ascii.
From Stdlib Require Import NArith ZArith List Bool Lia.
From Stdlib Require Import DecimalString DecimalN.
Import ListNotations.

Local Open Scope string_scope.
Local Open Scope N_scope.

(** ** Strings *)

(** [key.length()], a [size_t]. *)
Definition strlen (s : string) : N := N.of_nat (String.length s).

(** The first [n] bytes of [s] (all of [s] when it is shorter). *)
Fixpoint take (n : nat) (s : string) : string :=
  match n, s with
  | O, _ => EmptyString
  | S _, EmptyString => EmptyString
  | S n', String c s' => String c (take n' s')
  end.

(** [s] without its first [n] bytes. *)
Fixpoint drop (n : nat) (s : string) : string :=
  match n, s with
  | O, _ => s
  | S _, EmptyString => EmptyString
  | S n', String _ s' => drop n' s'
  end.

(** [n] zero bytes: what [std::string::resize] appends when it grows. *)
Fixpoint zeros (n : nat) : string :=
  match n with
  | O => EmptyString
  | S n' => String Ascii.zero (zeros n')
  end.

(** [s.resize(n)]: keeps the first [n] bytes, pads with zero bytes. *)
Definition resize (n : nat) (s : string) : string :=
  take n s ++ zeros (n - String.length s).

(** [string empty_string="",TOMBSTONE="\r\n";] (database.cpp).  The sentinel
    is the two bytes 13 and 10. *)
Definition TOMBSTONE : string :=
  String (ascii_of_nat 13) (String (ascii_of_nat 10) EmptyString).

(** ** Constants of database.h *)

Definition MAX : N := 4000000.
Definition MIN_TH : nat := 4.
Definition NOFILTERS : nat := 3.
Definition BITS : N := 10000.

(** Reduction of an unsigned value to 64 bits. *)
Definition wrap64 (x : N) : N := x mod 2 ^ 64.

(** A stand-in for [std::hash<std::string>], used to run the engine on
    concrete inputs: the standard does not fix the function, and every
    statement below that mentions a hash is proved for all of them. *)
Definition sample_hash (s : string) : N :=
  fold_right (fun c h => N_of_ascii c + 31 * h) 7 (list_ascii_of_string s).

(** ** std::map<string,string> *)

Definition record : Type := string * string.
Definition map : Type := list record.

(** [m.find(k)]: the mapped value, [None] for [m.end()].  The list is sorted,
    so the search stops at the first larger key. *)
Fixpoint map_find (k : string) (m : map) : option string :=
  match m with
  | [] => None
  | (k', v') :: m' =>
      match String.compare k k' with
      | Eq => Some v'
      | Lt => None
      | Gt => map_find k m'
      end
  end.

(** [m[k] = v]: inserts in key order, overwriting the value of a key that is
    already there. *)
Fixpoint map_insert (k v : string) (m : map) : map :=
  match m with
  | [] => [(k, v)]
  | (k', v') :: m' =>
      match String.compare k k' with
      | Eq => (k, v) :: m'
      | Lt => (k, v) :: (k', v') :: m'
      | Gt => (k', v') :: map_insert k v m'
      end
  end.

(** Strictly increasing keys: the representation invariant of a map, and the
    order invariant of a sorted run. *)
Fixpoint sorted_keys (m : list record) : Prop :=
  match m with
  | [] => True
  | (k, _) :: m' =>
      match m' with
      | [] => True
      | (k', _) :: _ => String.ltb k k' = true
      end /\ sorted_keys m'
  end.

(** Boolean version of [sorted_keys], for running it on concrete runs. *)
Fixpoint sorted_keysb (m : list record) : bool :=
  match m with
  | [] => true
  | (k, _) :: m' =>
      match m' with
      | [] => true
      | (k', _) :: _ => String.ltb k k'
      end && sorted_keysb m'
  end.

(** ** Outcomes of the fallible parts of the engine *)

(** [Ret a]: the call returns [a].  [Fault]: the execution leaves defined
    behaviour ([std::string::resize] is asked for a size that wrapped around
    and throws, or an indeterminate value is read).  [OutOfFuel]: the loop
    was cut before it terminated. *)
Inductive outcome (A : Type) : Type :=
| Ret (a : A)
| Fault
| OutOfFuel.
Arguments Ret {A} a.
Arguments Fault {A}.
Arguments OutOfFuel {A}.

Definition bind {A B : Type} (x : outcome A) (f : A -> outcome B) : outcome B :=
  match x with
  | Ret a => f a
  | Fault => Fault
  | OutOfFuel => OutOfFuel
  end.

Notation "x <- c1 ;; c2" := (bind c1 (fun x => c2))
  (at level 61, c1 at next level, right associativity).
Notation "' pat <- c1 ;; c2" := (bind c1 (fun x => match x with pat => c2 end))
  (at level 61, pat pattern, c1 at next level, right associativity).

(** ** Input streams *)

(** A [std::ifstream] on a data file: the bytes of the file, the read
    position, and whether the stream is still good (no [eofbit], no
    [failbit]). *)
Record ifstream : Type := mk_ifstream {
  f_bytes : string;
  f_pos : N;
  f_good : bool
}.

(** A [std::ifstream] on an index file, read one [u64] at a time: the words
    of the file, the position counted in words, and the state. *)
Record mstream : Type := mk_mstream {
  m_words : list N;
  m_pos : N;
  m_good : bool
}.

Definition open_data (bytes : string) : ifstream := mk_ifstream bytes 0 true.
Definition open_meta (words : list N) : mstream := mk_mstream words 0 true.

(** The bytes between the read position and the end of the file. *)
Definition f_rest (f : ifstream) : string := drop (N.to_nat (f_pos f)) (f_bytes f).

(** The words between the read position and the end of the file. *)
Definition m_rest (m : mstream) : list N := skipn (N.to_nat (m_pos m)) (m_words m).

(** [f.peek() != EOF]. *)
Definition peek_not_eof (f : ifstream) : bool :=
  f_good f && negb (f_rest f =? "")%string.

(** [buf.resize(n); f.read(&buf[0], n)]: the bytes read replace the front of
    the resized buffer; a short read keeps the tail of the buffer and leaves
    the stream failed; a failed stream reads nothing. *)
Definition fread (n : N) (buf : string) (f : ifstream) : string * ifstream :=
  let buf' := resize (N.to_nat n) buf in
  if f_good f then
    let rest := f_rest f in
    if n <=? strlen rest then
      (take (N.to_nat n) rest, mk_ifstream (f_bytes f) (f_pos f + n) true)
    else
      (rest ++ drop (String.length rest) buf',
       mk_ifstream (f_bytes f) (f_pos f + strlen rest) false)
  else (buf', f).

(** [f.seekg(off, ios::beg)] with a [size_t] offset: an offset of [2^63] or
    more is negative as a stream offset and the seek fails. *)
Definition fseek (off : N) (f : ifstream) : ifstream :=
  if f_good f then
    if off <? 2 ^ 63 then mk_ifstream (f_bytes f) off true
    else mk_ifstream (f_bytes f) (f_pos f) false
  else f.

(** [m.read(reinterpret_cast<char*>(&x), sizeof(x))]: at the end of the file
    [x] keeps its value [cur] and the stream fails. *)
Definition mread (cur : N) (m : mstream) : N * mstream :=
  if m_good m then
    match m_rest m with
    | w :: _ => (w, mk_mstream (m_words m) (m_pos m + 1) true)
    | [] => (cur, mk_mstream (m_words m) (m_pos m) false)
    end
  else (cur, m).

(** ** BloomFilter *)

(** [bitset<10000> bitArray]: bit [i] of the number is [bitArray[i]]. *)
Record BloomFilter : Type := mk_BloomFilter { bitArray : N }.

(** A fresh filter: all bits clear. *)
Definition BloomFilter_new : BloomFilter := mk_BloomFilter 0.

(** [BloomFilter::clear]. *)
Definition BloomFilter_clear (f : BloomFilter) : BloomFilter := mk_BloomFilter 0.

(** ** Sorted runs and tiers *)

(** The file pair [j.bin] / [metadataj.bin]. *)
Record SortedRun : Type := mk_SortedRun {
  run_data : string;
  run_meta : list N
}.

(** [Tier_i] for [i >= 1]: its runs, oldest first, each with the filter that
    [filters[i]] holds at the same index; [levels_main[i]] is the length. *)
Definition Tier : Type := list (SortedRun * BloomFilter).

(** ** Write-ahead log files *)

Inductive wal_path : Type := WAL_bin | WAL_temp_bin | WAL_temp1_bin.

Definition wal_path_eqb (p q : wal_path) : bool :=
  match p, q with
  | WAL_bin, WAL_bin | WAL_temp_bin, WAL_temp_bin | WAL_temp1_bin, WAL_temp1_bin => true
  | _, _ => false
  end.

(** The three log files of [./Database]: [None] when the file does not
    exist, else its records [<u64 klen><k><u64 vlen><v>] in file order. *)
Record wal_dir : Type := mk_wal_dir {
  file_WAL : option (list record);
  file_WAL_temp : option (list record);
  file_WAL_temp1 : option (list record)
}.

Definition dir_get (p : wal_path) (d : wal_dir) : option (list record) :=
  match p with
  | WAL_bin => file_WAL d
  | WAL_temp_bin => file_WAL_temp d
  | WAL_temp1_bin => file_WAL_temp1 d
  end.

Definition dir_set (p : wal_path) (c : option (list record)) (d : wal_dir) : wal_dir :=
  match p with
  | WAL_bin => mk_wal_dir c (file_WAL_temp d) (file_WAL_temp1 d)
  | WAL_temp_bin => mk_wal_dir (file_WAL d) c (file_WAL_temp1 d)
  | WAL_temp1_bin => mk_wal_dir (file_WAL d) (file_WAL_temp d) c
  end.

(** [exists(p)]. *)
Definition dir_exists (p : wal_path) (d : wal_dir) : bool :=
  match dir_get p d with Some _ => true | None => false end.

(** [rename(p, q)] for an existing [p]: [q] takes the content of [p], which
    is gone, unless both name the same file. *)
Definition dir_rename (p q : wal_path) (d : wal_dir) : wal_dir :=
  if wal_path_eqb p q then d
  else match dir_get p d with
       | Some c => dir_set p None (dir_set q (Some c) d)
       | None => d
       end.

(** ** The state of the engine *)

Record Database : Type := mk_Database {
  filter_write : BloomFilter;      (* filters[0][0] *)
  filter_read : BloomFilter;       (* filters[0][1] *)
  write_memtable : map;            (* the active buffer ([memtable] in REPL.cpp) *)
  read_memtable : map;             (* the frozen buffer *)
  mem_size : N;
  flushrunning : bool;
  ifread_memtable : bool;
  tiers : list Tier;               (* Tier_1, Tier_2, ... *)
  WAL : wal_path;                  (* the path variable [WAL] *)
  wal : option wal_path;           (* the stream [wal]: the file it is open on *)
  dir : wal_dir;
  flush_temp : BloomFilter;        (* the local [temp] of [FLUSH], never reset *)
  semid0 : N;                      (* semids[0], the token that wakes the Flusher *)
  flushid : N;
  compactid : N
}.

(** [levels_main.size()]: tier 0 and the tiers on disk. *)
Definition levels_main_size (st : Database) : nat := S (List.length (tiers st)).

Definition set_filter_write (x : BloomFilter) (st : Database) : Database :=
  mk_Database x (filter_read st) (write_memtable st) (read_memtable st) (mem_size st)
    (flushrunning st) (ifread_memtable st) (tiers st) (WAL st) (wal st) (dir st)
    (flush_temp st) (semid0 st) (flushid st) (compactid st).

Definition set_filter_read (x : BloomFilter) (st : Database) : Database :=
  mk_Database (filter_write st) x (write_memtable st) (read_memtable st) (mem_size st)
    (flushrunning st) (ifread_memtable st) (tiers st) (WAL st) (wal st) (dir st)
    (flush_temp st) (semid0 st) (flushid st) (compactid st).

Definition set_write_memtable (x : map) (st : Database) : Database :=
  mk_Database (filter_write st) (filter_read st) x (read_memtable st) (mem_size st)
    (flushrunning st) (ifread_memtable st) (tiers st) (WAL st) (wal st) (dir st)
    (flush_temp st) (semid0 st) (flushid st) (compactid st).

Definition set_read_memtable (x : map) (st : Database) : Database :=
  mk_Database (filter_write st) (filter_read st) (write_memtable st) x (mem_size st)
    (flushrunning st) (ifread_memtable st) (tiers st) (WAL st) (wal st) (dir st)
    (flush_temp st) (semid0 st) (flushid st) (compactid st).

Definition set_mem_size (x : N) (st : Database) : Database :=
  mk_Database (filter_write st) (filter_read st) (write_memtable st) (read_memtable st) x
    (flushrunning st) (ifread_memtable st) (tiers st) (WAL st) (wal st) (dir st)
    (flush_temp st) (semid0 st) (flushid st) (compactid st).

Definition set_flushrunning (x : bool) (st : Database) : Database :=
  mk_Database (filter_write st) (filter_read st) (write_memtable st) (read_memtable st)
    (mem_size st) x (ifread_memtable st) (tiers st) (WAL st) (wal st) (dir st)
    (flush_temp st) (semid0 st) (flushid st) (compactid st).

Definition set_ifread_memtable (x : bool) (st : Database) : Database :=
  mk_Database (filter_write st) (filter_read st) (write_memtable st) (read_memtable st)
    (mem_size st) (flushrunning st) x (tiers st) (WAL st) (wal st) (dir st)
    (flush_temp st) (semid0 st) (flushid st) (compactid st).

Definition set_tiers (x : list Tier) (st : Database) : Database :=
  mk_Database (filter_write st) (filter_read st) (write_memtable st) (read_memtable st)
    (mem_size st) (flushrunning st) (ifread_memtable st) x (WAL st) (wal st) (dir st)
    (flush_temp st) (semid0 st) (flushid st) (compactid st).

Definition set_WAL (x : wal_path) (st : Database) : Database :=
  mk_Database (filter_write st) (filter_read st) (write_memtable st) (read_memtable st)
    (mem_size st) (flushrunning st) (ifread_memtable st) (tiers st) x (wal st) (dir st)
    (flush_temp st) (semid0 st) (flushid st) (compactid st).

Definition set_wal (x : option wal_path) (st : Database) : Database :=
  mk_Database (filter_write st) (filter_read st) (write_memtable st) (read_memtable st)
    (mem_size st) (flushrunning st) (ifread_memtable st) (tiers st) (WAL st) x (dir st)
    (flush_temp st) (semid0 st) (flushid st) (compactid st).

Definition set_dir (x : wal_dir) (st : Database) : Database :=
  mk_Database (filter_write st) (filter_read st) (write_memtable st) (read_memtable st)
    (mem_size st) (flushrunning st) (ifread_memtable st) (tiers st) (WAL st) (wal st) x
    (flush_temp st) (semid0 st) (flushid st) (compactid st).

Definition set_flush_temp (x : BloomFilter) (st : Database) : Database :=
  mk_Database (filter_write st) (filter_read st) (write_memtable st) (read_memtable st)
    (mem_size st) (flushrunning st) (ifread_memtable st) (tiers st) (WAL st) (wal st)
    (dir st) x (semid0 st) (flushid st) (compactid st).

Definition set_semid0 (x : N) (st : Database) : Database :=
  mk_Database (filter_write st) (filter_read st) (write_memtable st) (read_memtable st)
    (mem_size st) (flushrunning st) (ifread_memtable st) (tiers st) (WAL st) (wal st)
    (dir st) (flush_temp st) x (flushid st) (compactid st).

Definition set_flushid (x : N) (st : Database) : Database :=
  mk_Database (filter_write st) (filter_read st) (write_memtable st) (read_memtable st)
    (mem_size st) (flushrunning st) (ifread_memtable st) (tiers st) (WAL st) (wal st)
    (dir st) (flush_temp st) (semid0 st) x (compactid st).

Definition set_compactid (x : N) (st : Database) : Database :=
  mk_Database (filter_write st) (filter_read st) (write_memtable st) (read_memtable st)
    (mem_size st) (flushrunning st) (ifread_memtable st) (tiers st) (WAL st) (wal st)
    (dir st) (flush_temp st) (semid0 st) (flushid st) x.

(** ** The engine, for a given [std::hash<std::string>] *)

Section Engine.

(** [hash<string>]: the three entries of [BloomFilter::filter] are the same
    function object. *)
Variable std_hash : string -> N.

(** [(filter[i](key) + i) % bitArray.size()], computed on [size_t]. *)
Definition bit_index (key : string) (i : nat) : N :=
  wrap64 (wrap64 (std_hash key) + N.of_nat i) mod BITS.

(** [BloomFilter::add]. *)
Definition BloomFilter_add (key : string) (f : BloomFilter) : BloomFilter :=
  fold_left (fun g i => mk_BloomFilter (N.setbit (bitArray g) (bit_index key i)))
            (seq 0 NOFILTERS) f.

(** [BloomFilter::contains]. *)
Definition BloomFilter_contains (key : string) (f : BloomFilter) : bool :=
  forallb (fun i => N.testbit (bitArray f) (bit_index key i)) (seq 0 NOFILTERS).

(** A sequence of [add] calls on one filter. *)
Definition BloomFilter_add_all (keys : list string) (f : BloomFilter) : BloomFilter :=
  fold_left (fun g k => BloomFilter_add k g) keys f.

(** *** Lookup in a sorted run *)

(** [(long long)(entries)]. *)
Definition sint64 (x : N) : Z :=
  let z := (Z.of_N x mod 2 ^ 64)%Z in
  if (z <? 2 ^ 63)%Z then z else (z - 2 ^ 64)%Z.

(** The [long long mid] passed to the [int] parameter of [find_idx]. *)
Definition sint32 (z : Z) : Z := ((z + 2 ^ 31) mod 2 ^ 32 - 2 ^ 31)%Z.

(** [metadata.seekg(2*sizeof(size_t)*mid, ios::beg)]: word [2*mid]; a
    negative [mid] gives a negative offset and the seek fails. *)
Definition mseek (mid : Z) (m : mstream) : mstream :=
  if m_good m then
    if (sint32 mid <? 0)%Z then mk_mstream (m_words m) (m_pos m) false
    else mk_mstream (m_words m) (2 * Z.to_N (sint32 mid)) true
  else m.

(** [metadata.read(reinterpret_cast<char*>(&idx[0]), 3*sizeof(idx[0]))]: a
    short read fills the front of [idx] and fails the stream. *)
Definition mread3 (idx : N * N * N) (m : mstream) : (N * N * N) * mstream :=
  let '(i0, i1, i2) := idx in
  if m_good m then
    match m_rest m with
    | a :: b :: c :: _ => ((a, b, c), mk_mstream (m_words m) (m_pos m + 3) true)
    | [a; b] => ((a, b, i2), mk_mstream (m_words m) (m_pos m + 2) false)
    | [a] => ((a, i1, i2), mk_mstream (m_words m) (m_pos m + 1) false)
    | [] => (idx, mk_mstream (m_words m) (m_pos m) false)
    end
  else (idx, m).

(** The result of an operation on [long long]: outside the range of the
    type the behaviour is undefined. *)
Definition long_long (z : Z) : outcome Z :=
  if ((- 2 ^ 63 <=? z) && (z <? 2 ^ 63))%Z then Ret z else Fault.

(** The loop of [Database::binary_search].  [value] is the caller's buffer,
    which receives the probed key and, on a match, the value. *)
Fixpoint binary_search_loop (fuel : nat) (key : string) (In : ifstream)
    (metadata : mstream) (idx : N * N * N) (lo hi : Z) (value : string)
    : outcome (bool * string) :=
  if (lo <=? hi)%Z then
    match fuel with
    | O => OutOfFuel
    | S fuel' =>
        sum <- long_long (lo + hi) ;;
        let mid := Z.shiftr sum 1 in
        let '(idx', metadata') := mread3 idx (mseek mid metadata) in
        let '(i0, i1, i2) := idx' in
        let In1 := fseek i0 In in
        if i1 <? i0 then Fault
        else
          let '(value1, In2) := fread (i1 - i0) value In1 in
          if String.ltb key value1 then
            hi' <- long_long (mid - 1) ;;
            binary_search_loop fuel' key In2 metadata' idx' lo hi' value1
          else if (key =? value1)%string then
            if i2 <? i1 then Fault
            else Ret (true, fst (fread (i2 - i1) value1 In2))
          else
            lo' <- long_long (mid + 1) ;;
            binary_search_loop fuel' key In2 metadata' idx' lo' hi value1
    end
  else Ret (false, value).

(** [Database::binary_search]: [lo] and [hi] are [long long], the interval
    halves at each probe, so 64 probes are the most the loop makes. *)
Definition binary_search (In : ifstream) (metadata : mstream) (entries : N)
    (key value : string) : outcome (bool * string) :=
  hi <- long_long (sint64 entries - 1) ;;
  binary_search_loop 64 key In metadata (0, 0, 0) 0%Z hi value.

(** [Database::Find] on the run [j] of a tier: the last word of the index is
    the number of entries; an index without a last word leaves [entries]
    indeterminate. *)
Definition Find (run : SortedRun) (key value : string) : outcome (bool * string) :=
  match rev (run_meta run) with
  | [] => Fault
  | entries :: _ =>
      binary_search (open_data (run_data run))
        (mk_mstream (run_meta run) (N.of_nat (List.length (run_meta run))) true)
        entries key value
  end.

(** *** REPL.cpp *)

(** The inner loop of [REPL::GET] on one tier, [j] from [levels_main[i]] down
    to 1, given the runs newest first.  [Some true]: found, [Some false]:
    found deleted, [None]: go on with the next tier. *)
Fixpoint GET_tier (key : string) (runs : list (SortedRun * BloomFilter))
    (value : string) : outcome (option bool * string) :=
  match runs with
  | [] => Ret (None, value)
  | (run, filter) :: older =>
      if BloomFilter_contains key filter then
        '(res, value') <- Find run key value ;;
        if res && (value' =? TOMBSTONE)%string then Ret (Some false, value')
        else if res then Ret (Some true, value')
        else GET_tier key older value'
      else GET_tier key older value
  end.

(** The outer loop of [REPL::GET], [i] from 1 to [levels_main.size() - 1]. *)
Fixpoint GET_tiers (key : string) (ts : list Tier) (value : string)
    : outcome (bool * string) :=
  match ts with
  | [] => Ret (false, value)
  | t :: ts' =>
      '(res, value') <- GET_tier key (rev t) value ;;
      match res with
      | Some b => Ret (b, value')
      | None => GET_tiers key ts' value'
      end
  end.

(** [REPL::GET(key, value)]: the result and the content of [value].
    [memtable] of REPL.cpp is the buffer that [SET] writes, [write_memtable]
    of database.cpp; this lookup reads no other buffer. *)
Definition GET (key value : string) (st : Database) : outcome (bool * string) :=
  match (if BloomFilter_contains key (filter_write st)
         then map_find key (write_memtable st) else None) with
  | Some v =>
      if negb (v =? TOMBSTONE)%string then Ret (true, v) else Ret (false, value)
  | None => GET_tiers key (tiers st) value
  end.

(** The interface [GET(k)] of the engine, as the server and the command loop
    call it: a fresh [value], looked at only when [GET] returns true. *)
Definition get (key : string) (st : Database) : outcome (option string) :=
  '(res, value) <- GET key "" st ;;
  Ret (if res then Some value else None).

(** Modelled from the spec: [REPL::GET] of the engine with two buffers.
    The [REPL.cpp] under src/ is the one of the engine with the single
    buffer [memtable]; the one that reads [read_memtable], [filters[0][1]]
    and [ifread_memtable] under [read_lock1] of database.cpp is missing.  By
    the spec the lookup asks the active filter and, if it answers true, the
    active buffer; then, if the engine has a frozen buffer (a flush is in
    progress), the frozen filter and the frozen buffer; a tombstone found in
    a buffer ends the lookup with no value, the tiers are not read; then
    the tiers, the newest run first. *)
Definition GET_two_buffers (key value : string) (st : Database)
  : outcome (bool * string) :=
  match (if BloomFilter_contains key (filter_write st)
         then map_find key (write_memtable st) else None) with
  | Some v =>
      if negb (v =? TOMBSTONE)%string then Ret (true, v) else Ret (false, value)
  | None =>
      match (if ifread_memtable st && BloomFilter_contains key (filter_read st)
             then map_find key (read_memtable st) else None) with
      | Some v =>
          if negb (v =? TOMBSTONE)%string then Ret (true, v) else Ret (false, value)
      | None => GET_tiers key (tiers st) value
      end
  end.

(** The interface [GET(k)] on [GET_two_buffers]. *)
Definition get_two_buffers (key : string) (st : Database) : outcome (option string) :=
  '(res, value) <- GET_two_buffers key "" st ;;
  Ret (if res then Some value else None).

(** [Database::append_to_WAL]: writes the record to the stream [wal]; a
    closed stream drops it. *)
Definition append_to_WAL (key val : string) (st : Database) : Database :=
  match wal st with
  | Some p =>
      match dir_get p (dir st) with
      | Some recs => set_dir (dir_set p (Some (recs ++ [(key, val)])%list) (dir st)) st
      | None => st
      end
  | None => st
  end.

(** [REPL::SET(key, value)] once the caller is past the [flushrunning] gate:
    the result and the new state.  [memtable] of REPL.cpp is the active
    buffer, [write_memtable] of database.cpp. *)
Definition SET (key value : string) (st : Database) : bool * Database :=
  if MAX <=? strlen key + strlen value then (false, st)
  else
    let st1 := append_to_WAL key value st in
    let st2 := set_write_memtable (map_insert key value (write_memtable st1)) st1 in
    let st3 := set_mem_size (mem_size st2 + (strlen key + strlen value)) st2 in
    let st4 := set_filter_write (BloomFilter_add key (filter_write st3)) st3 in
    if MAX <=? mem_size st4 then
      (true, set_semid0 (semid0 st4 + 1)
               (set_flushid (flushid st4 + 1) (set_flushrunning true st4)))
    else (true, st4).

(** [REPL::DELETE(key)]. *)
Definition DELETE (key : string) (st : Database) : bool * Database :=
  SET key TOMBSTONE st.

(** The record of [key] in the active buffer, with the filter bit set: what a
    later write on another key preserves. *)
Definition active_holds (key v : string) (st : Database) : Prop :=
  BloomFilter_contains key (filter_write st) = true /\
  map_find key (write_memtable st) = Some v.

(** *** The Flusher *)

(** The loop of [FLUSH] over [read_memtable]: the bytes of the data file and
    the offsets of the index, [tot_size] being the running offset. *)
Fixpoint FLUSH_entries (m : map) (tot_size : N) : string * list N :=
  match m with
  | [] => ("", [])
  | (i, j) :: m' =>
      let t1 := tot_size + strlen i in
      let t2 := t1 + strlen j in
      let '(bytes, words) := FLUSH_entries m' t2 in
      (i ++ j ++ bytes, t1 :: t2 :: words)
  end.

(** The run that [FLUSH] writes to [temp.bin] / [temp1.bin]: a leading zero
    offset, two offsets per entry, and [nentries = read_memtable.size()]. *)
Definition FLUSH_run (m : map) : SortedRun :=
  let '(bytes, words) := FLUSH_entries m 0 in
  mk_SortedRun bytes (0 :: words ++ [N.of_nat (List.length m)])%list.

(** The first critical section of [FLUSH], from [merge_lock(0)] to
    [P(flushid)]: the buffers and their filters are swapped, the log is
    staged as [WAL_temp.bin] and a fresh [WAL.bin] is opened. *)
Definition FLUSH_swap (st : Database) : Database :=
  mk_Database
    (filter_read st) (filter_write st)
    (read_memtable st) (write_memtable st)
    0
    false true
    (tiers st)
    (WAL st) (Some WAL_bin)
    (dir_set WAL_bin (Some []) (dir_rename (WAL st) WAL_temp_bin (dir st)))
    (flush_temp st)
    (semid0 st - 1) (flushid st - 1) (compactid st).

(** [get_folder(1, folder)] on the tier table: [Tier_1] is created when the
    engine has no tier on disk yet. *)
Definition get_folder_1 (ts : list Tier) : list Tier :=
  match ts with
  | [] => [[]]
  | _ :: _ => ts
  end.

(** [filters[1].push_back(temp); Rename(folder, folder, 1)]. *)
Definition push_run_1 (run : SortedRun) (filter : BloomFilter) (ts : list Tier)
    : list Tier :=
  match ts with
  | [] => []
  | t1 :: ts' => (t1 ++ [(run, filter)])%list :: ts'
  end.

(** The rest of the body of the loop of [FLUSH]: the frozen buffer is written
    as a run of Tier 1, the buffer and its filter are cleared, the staged log
    is removed, and the Compactor is signalled when Tier 1 is full. *)
Definition FLUSH_write (st : Database) : Database :=
  let run := FLUSH_run (read_memtable st) in
  let temp := BloomFilter_add_all (List.map fst (read_memtable st)) (flush_temp st) in
  let ts := push_run_1 run temp (get_folder_1 (tiers st)) in
  mk_Database
    (filter_write st) (BloomFilter_clear (filter_read st))
    (write_memtable st) []
    (mem_size st)
    (flushrunning st) false
    ts
    (WAL st) (wal st)
    (dir_set WAL_temp_bin None (dir st))
    temp
    (semid0 st) (flushid st)
    (if (MIN_TH <=? List.length (hd [] ts))%nat then compactid st + 1 else compactid st).

(** *** The Compactor *)

(** One input of [merge]: [src[j]], [meta_src[j]], [pre_idx[j]], [data[j]]. *)
Record cursor : Type := mk_cursor {
  c_src : ifstream;
  c_meta : mstream;
  c_pre_idx : N;
  c_data : string * string
}.

(** The output of [merge]: [dest], [meta_dest], [tot_len], [count], [temp]. *)
Record merge_out : Type := mk_merge_out {
  dest : string;
  meta_dest : list N;
  tot_len : N;
  count : N;
  temp : BloomFilter
}.

(** The lambda [Write] of [merge]. *)
Definition Write (key val : string) (o : merge_out) : merge_out :=
  let t1 := tot_len o + strlen key in
  let t2 := t1 + strlen val in
  mk_merge_out (dest o ++ key ++ val)
               (meta_dest o ++ [t1; t2])%list
               t2
               (count o + 1)
               (BloomFilter_add key (temp o)).

(** [if (!key || data[j].first < *key) { key = ...; val = ...; }]. *)
Definition select (sel : option (string * string)) (d : string * string)
    : option (string * string) :=
  match sel with
  | None => Some d
  | Some (k, _) => if String.ltb (fst d) k then Some d else sel
  end.

(** The scratch variables [key_idx] and [val_idx] of [merge], which start
    indeterminate. *)
Definition scratch : Type := (option N * option N)%type.

(** A read into a scratch variable. *)
Definition mread_scratch (cur : option N) (m : mstream) : option N * mstream :=
  if m_good m then
    match m_rest m with
    | w :: _ => (Some w, mk_mstream (m_words m) (m_pos m + 1) true)
    | [] => (cur, mk_mstream (m_words m) (m_pos m) false)
    end
  else (cur, m).

(** The body of the inner loop of [merge] for one input: a head above [prev]
    is a candidate; otherwise the next record is read, if the data file has
    bytes left, and is a candidate. *)
Definition merge_visit (prev : string) (c : cursor)
    (acc : scratch * option (string * string))
    : outcome (cursor * (scratch * option (string * string))) :=
  let '((key_idx, val_idx), sel) := acc in
  if String.ltb prev (fst (c_data c)) then
    Ret (c, ((key_idx, val_idx), select sel (c_data c)))
  else if peek_not_eof (c_src c) then
    let '(key_idx', m1) := mread_scratch key_idx (c_meta c) in
    let '(val_idx', m2) := mread_scratch val_idx m1 in
    match key_idx', val_idx' with
    | Some ki, Some vi =>
        if ki <? c_pre_idx c then Fault
        else
          let '(k, s1) := fread (ki - c_pre_idx c) (fst (c_data c)) (c_src c) in
          if vi <? ki then Fault
          else
            let '(v, s2) := fread (vi - ki) (snd (c_data c)) s1 in
            Ret (mk_cursor s2 m2 vi (k, v),
                 ((key_idx', val_idx'), select sel (k, v)))
    | _, _ => Fault
    end
  else Ret (c, acc).

(** The inner loop of [merge], [j] from [src.size() - 1] down to 0. *)
Fixpoint merge_scan (prev : string) (cs : list cursor)
    (acc : scratch * option (string * string))
    : outcome (list cursor * (scratch * option (string * string))) :=
  match cs with
  | [] => Ret ([], acc)
  | c :: cs' =>
      '(cs'', acc') <- merge_scan prev cs' acc ;;
      '(c', acc'') <- merge_visit prev c acc' ;;
      Ret (c' :: cs'', acc'')
  end.

(** The [while (1)] loop of [merge].  [flag] is set exactly when [key] is,
    so the loop ends when the scan selects nothing. *)
Fixpoint merge_loop (fuel : nat) (last : bool) (cs : list cursor) (prev : string)
    (sc : scratch) (o : merge_out) : outcome merge_out :=
  match fuel with
  | O => OutOfFuel
  | S fuel' =>
      '(cs', (sc', sel)) <- merge_scan prev cs (sc, None) ;;
      match sel with
      | None => Ret o
      | Some (key, val) =>
          let o' :=
            if last && (val =? TOMBSTONE)%string then o
            else Write key val
                   (mk_merge_out (dest o) (meta_dest o) (tot_len o) (count o + 1) (temp o)) in
          merge_loop fuel' last cs' key sc' o'
      end
  end.

(** The cursor of an input once its first offset is read into [pre_idx]. *)
Definition open_cursor (run : SortedRun) : cursor :=
  let '(pre, m) := mread 0 (open_meta (run_meta run)) in
  mk_cursor (open_data (run_data run)) m pre ("", "").

(** Every turn of the loop but the last selects a record that no later turn
    selects, and a record takes two words of an index. *)
Definition merge_fuel (src : list SortedRun) : nat :=
  S (fold_right (fun r n => (List.length (run_meta r) + n)%nat) O src).

(** [merge(dest, meta_dest, src, meta_src, temp, last)]: the run written to
    the destination streams and the filter [temp]. *)
Definition merge (src : list SortedRun) (temp0 : BloomFilter) (last : bool)
    : outcome (SortedRun * BloomFilter) :=
  o <- merge_loop (merge_fuel src) last (List.map open_cursor src) "" (None, None)
         (mk_merge_out "" [0] 0 0 temp0) ;;
  Ret (mk_SortedRun (dest o) (meta_dest o ++ [count o])%list, temp o).

(** [l] with its element [n] replaced by [x]. *)
Fixpoint list_set {A : Type} (n : nat) (x : A) (l : list A) : list A :=
  match l, n with
  | [], _ => []
  | _ :: l', O => x :: l'
  | y :: l', S n' => y :: list_set n' x l'
  end.

(** The flag [last] of [Database::compact(i)], computed before
    [get_folder(i + 1, folder1)] creates the target:
    [i == (int)(levels_main.size()) - 1]. *)
Definition compact_last (i : nat) (st : Database) : bool :=
  Nat.eqb i (levels_main_size st - 1).

(** The body of [Database::compact(i)] up to its recursive call, for an
    existing tier [i >= 1]: the target tier is created if it is missing, the
    runs of tier [i] are merged into one run, tier [i] is emptied and the run
    is appended to tier [i + 1]. *)
Definition compact_step (i : nat) (st : Database) : outcome Database :=
  let last := compact_last i st in
  match i, nth_error (tiers st) (i - 1) with
  | S _, Some tier_i =>
      (* get_folder(i + 1, folder1) *)
      let ts1 := if last then (tiers st ++ [[]])%list else tiers st in
      '(run, temp1) <- merge (List.map fst tier_i) BloomFilter_new last ;;
      (* filters[i].clear(); levels_main[i] = 0; *)
      let ts2 := list_set (i - 1) [] ts1 in
      (* filters[i + 1].push_back(temp1); Rename(folder1, folder1, i + 1); *)
      let tier_next := (nth i ts2 [] ++ [(run, temp1)])%list in
      Ret (set_tiers (list_set i tier_next ts2) st)
  | _, _ => Fault
  end.

(** [Database::compact(i)] with its recursion on [i + 1] when the target
    tier has reached [MIN_TH] runs; the first argument bounds the depth. *)
Fixpoint compact_rec (fuel : nat) (i : nat) (st : Database) : outcome Database :=
  match fuel with
  | O => OutOfFuel
  | S fuel' =>
      st' <- compact_step i st ;;
      if (MIN_TH <=? List.length (nth i (tiers st') []))%nat
      then compact_rec fuel' (i + 1) st'
      else Ret st'
  end.

(** [Database::compact(i)]: each call moves one tier down and the recursion
    stops at the latest on the tier it creates. *)
Definition compact (i : nat) (st : Database) : outcome Database :=
  compact_rec (S (List.length (tiers st))) i st.

(** *** Start-up *)

(** The loop of [Database::initializer_helper] over the records of a log. *)
Definition replay (recs : list record) (st : Database) : Database :=
  fold_left
    (fun s '(key, val) =>
       let s1 := set_mem_size (mem_size s + strlen key + strlen val) s in
       let s2 := set_write_memtable (map_insert key val (write_memtable s1)) s1 in
       set_filter_write (BloomFilter_add key (filter_write s2)) s2)
    recs st.

(** [flushrunning = 1; V(flushid); merge_unlock(0);]: the Flusher is woken. *)
Definition signal_flush (st : Database) : Database :=
  set_semid0 (semid0 st + 1) (set_flushid (flushid st + 1) (set_flushrunning true st)).

(** [T(flushid)] in [initializer_helper]: the caller waits until the Flusher
    has made its swap; the Flusher is sequential, so a flush whose run is
    still to be written is completed first. *)
Definition await_swap (st : Database) : Database :=
  FLUSH_swap (if ifread_memtable st then FLUSH_write st else st).

(** The end of [Database::initializer_helper]:
    [if (mem_size >= MAX) { flushrunning = 1; V(flushid); merge_unlock(0);
    T(flushid); }]. *)
Definition flush_if_full (st : Database) : Database :=
  if MAX <=? mem_size st then await_swap (signal_flush st) else st.

(** [Database::initializer_helper], called where the file [WAL] exists: the
    log is replayed, reopened for writing (which truncates it), and a flush
    is triggered and awaited when [mem_size] has reached [MAX]. *)
Definition initializer_helper (st : Database) : Database :=
  let recs := match dir_get (WAL st) (dir st) with Some r => r | None => [] end in
  let st1 := replay recs st in
  let st2 := set_wal (Some (WAL st1))
               (set_dir (dir_set (WAL st1) (Some []) (dir st1)) st1) in
  flush_if_full st2.

(** The first statement of [Database::initialize_memtable] after the paths
    are set: when a staged [WAL_temp.bin] and an active [WAL.bin] both exist,
    the active log is renamed to [WAL_temp1.bin]; the result is the state
    and the path [WAL1] of the log to replay second. *)
Definition stage_logs (st : Database) : Database * wal_path :=
  if dir_exists WAL_temp_bin (dir st) && dir_exists WAL_bin (dir st) then
    (set_dir (dir_rename WAL_bin WAL_temp1_bin (dir st)) st, WAL_temp1_bin)
  else if negb (dir_exists WAL_bin (dir st)) then (st, WAL_temp1_bin)
  else (st, WAL_bin).

(** [Database::initialize_memtable]. *)
Definition initialize_memtable (st : Database) : Database :=
  let '(st1, WAL1) := stage_logs (set_WAL WAL_temp_bin st) in
  (* if (exists(WAL)) { initializer_helper(); wal.close(); remove(WAL.bin); } *)
  let st2 := if dir_exists WAL_temp_bin (dir st1) then
               let s := initializer_helper st1 in
               set_dir (dir_set WAL_bin None (dir s)) (set_wal None s)
             else st1 in
  let st3 := set_WAL WAL_bin st2 in
  if dir_exists WAL1 (dir st3) then
    initializer_helper (set_dir (dir_rename WAL1 WAL_bin (dir st3)) st3)
  else if negb (dir_exists WAL_bin (dir st3)) then
    set_wal (Some WAL_bin) (set_dir (dir_set WAL_bin (Some []) (dir st3)) st3)
  else st3.

(** The part of the state that is not about the log files: filters,
    buffers, [mem_size], flags, tiers, the filter of the Flusher and the
    semaphores. *)
Definition memory (st : Database) :=
  (filter_write st, filter_read st, write_memtable st, read_memtable st,
   mem_size st, (flushrunning st, ifread_memtable st), tiers st, flush_temp st,
   (semid0 st, flushid st, compactid st)).

(** The value that the last record of a log for the key [k] holds. *)
Fixpoint last_value (k : string) (recs : list record) : option string :=
  match recs with
  | [] => None
  | (k', v') :: recs' =>
      match last_value k recs' with
      | Some v => Some v
      | None => if (k =? k')%string then Some v' else None
      end
  end.

(** The engine as the constructor leaves it before [initialize_memtable]:
    two clear filters for tier 0, empty buffers, the tiers found on disk, the
    log files found in [./Database], a closed [wal], semaphores at zero. *)
Definition Database_boot (ts : list Tier) (d : wal_dir) : Database :=
  mk_Database BloomFilter_new BloomFilter_new [] [] 0 false false ts
    WAL_bin None d BloomFilter_new 0 0 0.

(** The engine started on an empty directory. *)
Definition Database_init : Database :=
  initialize_memtable (Database_boot [] (mk_wal_dir None None None)).

(** *** The constructor: a start on the files of an earlier run *)

(** The loop of [Database::initialize_filter]: while the data file has bytes
    left, the end of the next key is read from the index, the key is read
    and added to the filter, and the data file is positioned after the value.
    [idx] starts indeterminate. *)
Fixpoint initialize_filter_loop (fuel : nat) (file : ifstream) (metadata : mstream)
    (idx : option N) (pre_idx : N) (key : string) (filter : BloomFilter)
    : outcome BloomFilter :=
  if peek_not_eof file then
    match fuel with
    | O => OutOfFuel
    | S fuel' =>
        let '(idx', m1) := mread_scratch idx metadata in
        match idx' with
        | None => Fault
        | Some i =>
            if i <? pre_idx then Fault
            else
              let '(key', file1) := fread (i - pre_idx) key file in
              let '(pre_idx', m2) := mread pre_idx m1 in
              initialize_filter_loop fuel' (fseek pre_idx' file1) m2 idx' pre_idx' key'
                (BloomFilter_add key' filter)
        end
    end
  else Ret filter.

(** [Database::initialize_filter] on the run [j] of a tier: the filter of the
    keys found in the data file. *)
Definition initialize_filter (run : SortedRun) : outcome BloomFilter :=
  let '(pre_idx, m) := mread 0 (open_meta (run_meta run)) in
  initialize_filter_loop (S (List.length (run_meta run))) (open_data (run_data run))
    m None pre_idx "" BloomFilter_new.

(** The loop of [Database::initialize_folder] on the runs found in a tier. *)
Fixpoint initialize_folder (runs : list SortedRun) : outcome Tier :=
  match runs with
  | [] => Ret []
  | run :: runs' =>
      filter <- initialize_filter run ;;
      t <- initialize_folder runs' ;;
      Ret ((run, filter) :: t)
  end.

(** [while (initialize_folder(++i));] on the tiers found on disk. *)
Fixpoint initialize_folders (ts : list (list SortedRun)) : outcome (list Tier) :=
  match ts with
  | [] => Ret []
  | runs :: ts' =>
      t <- initialize_folder runs ;;
      ts'' <- initialize_folders ts' ;;
      Ret (t :: ts'')
  end.

(** [for (int j = i - 1; j > 0; --j) if (levels_main[j] >= MIN_TH) compact(j);]
    for [j] from the given tier down to Tier 1. *)
Fixpoint startup_compactions (j : nat) (st : Database) : outcome Database :=
  match j with
  | O => Ret st
  | S j' =>
      st' <- (if (MIN_TH <=? List.length (nth j' (tiers st) []))%nat
              then compact j st else Ret st) ;;
      startup_compactions j' st'
  end.

(** [Database::Database()] on the files that the state [st] has on disk, its
    memory being lost: the tiers are read back with fresh filters, full tiers
    are compacted, the logs are replayed. *)
Definition Database_restart (st : Database) : outcome Database :=
  ts <- initialize_folders (List.map (List.map fst) (tiers st)) ;;
  st1 <- startup_compactions (List.length ts) (Database_boot ts (dir st)) ;;
  Ret (initialize_memtable st1).

(** *** Traces *)

(** The atomic steps of the engine: the writes of the clients, the two
    critical sections of the Flusher, a compaction of Tier 1, and the end of
    the process followed by a new start on the files it leaves. *)
Inductive event : Type :=
| EvSET (key value : string)
| EvDELETE (key : string)
| EvFLUSH_swap
| EvFLUSH_write
| EvCompact
| EvRestart.

(** One step, [None] when the step cannot be taken: a write waits while
    [flushrunning] is set; the Flusher swaps when it is signalled and has
    written its previous run, and writes a run after a swap; the Compactor
    runs when it is signalled; the process can end at any time. *)
Definition exec_event (e : event) (st : Database) : option Database :=
  match e with
  | EvSET key value =>
      if flushrunning st then None else Some (snd (SET key value st))
  | EvDELETE key =>
      if flushrunning st then None else Some (snd (DELETE key st))
  | EvFLUSH_swap =>
      if (0 <? semid0 st) && negb (ifread_memtable st) then Some (FLUSH_swap st)
      else None
  | EvFLUSH_write =>
      if ifread_memtable st then Some (FLUSH_write st) else None
  | EvCompact =>
      if 0 <? compactid st then
        match compact 1 (set_compactid (compactid st - 1) st) with
        | Ret st' => Some st'
        | _ => None
        end
      else None
  | EvRestart =>
      match Database_restart st with
      | Ret st' => Some st'
      | _ => None
      end
  end.

(** A sequence of steps. *)
Fixpoint exec (es : list event) (st : Database) : option Database :=
  match es with
  | [] => Some st
  | e :: es' =>
      match exec_event e st with
      | Some st' => exec es' st'
      | None => None
      end
  end.

(** The key that a write is on. *)
Definition write_key (e : event) : option string :=
  match e with
  | EvSET key _ => Some key
  | EvDELETE key => Some key
  | _ => None
  end.

(** A write by a client, on a key other than [k]. *)
Definition write_off (k : string) (e : event) : bool :=
  match write_key e with
  | Some key => negb (key =? k)%string
  | None => false
  end.


(** *** The format of a sorted run *)

(** The bytes of a data file that holds the records [rs]: keys and values
    one after the other, without delimiters. *)
Fixpoint concat_records (rs : list record) : string :=
  match rs with
  | [] => ""
  | (k, v) :: rs' => k ++ v ++ concat_records rs'
  end.

(** The offsets that the index holds for the records [rs] when the first of
    them starts at [off]: the end of each key and the end of each value. *)
Fixpoint offsets (off : N) (rs : list record) : list N :=
  match rs with
  | [] => []
  | (k, v) :: rs' =>
      (off + strlen k) :: (off + strlen k + strlen v)
        :: offsets (off + strlen k + strlen v) rs'
  end.

(** The run [r] is the file pair of the records [rs]: the data file is their
    concatenation, the index starts at offset zero, lists their offsets and
    ends with one more word (the count). *)
Definition holds (r : SortedRun) (rs : list record) : Prop :=
  run_data r = concat_records rs /\
  exists c, run_meta r = (0 :: offsets 0 rs ++ [c])%list.

(** The records that the words of an index delimit in the bytes that follow
    offset [pre], as [merge] and [initialize_filter] read them: a key up to
    the next offset and a value up to the one after. *)
Fixpoint decode_entries (bytes : string) (pre : N) (words : list N) : list record :=
  match words with
  | ki :: vi :: words' =>
      (take (N.to_nat (ki - pre)) bytes,
       take (N.to_nat (vi - ki)) (drop (N.to_nat (ki - pre)) bytes))
        :: decode_entries (drop (N.to_nat (vi - pre)) bytes) vi words'
  | _ => []
  end.

(** The records stored in a run: those that the offsets of its index
    delimit, the last word of the index being the count. *)
Definition run_records (r : SortedRun) : list record :=
  match run_meta r with
  | pre :: words => decode_entries (run_data r) pre (removelast words)
  | [] => []
  end.

(** The last word of the index of a run. *)
Definition run_count (r : SortedRun) : N := last (run_meta r) 0.

(** [value != TOMBSTONE] on a record. *)
Definition live (r : record) : bool := negb (snd r =? TOMBSTONE)%string.

(** *** The merge, seen on records *)

(** An input of [merge] seen on records: the record in [data[j]] and the
    records of the run that are still to be read. *)
Definition acursor : Type := (record * list record)%type.

(** The record that an input offers in one scan: its head when the head is
    above [prev], else its next record when the data file has bytes left. *)
Definition acand (prev : string) (c : acursor) : option record :=
  let '(hd, rest) := c in
  if String.ltb prev (fst hd) then Some hd
  else match rest with
       | r :: _ => if negb (concat_records rest =? "")%string then Some r else None
       | [] => None
       end.

(** The input after the scan. *)
Definition anext (prev : string) (c : acursor) : acursor :=
  let '(hd, rest) := c in
  if String.ltb prev (fst hd) then c
  else match rest with
       | r :: rest' => if negb (concat_records rest =? "")%string then (r, rest') else c
       | [] => c
       end.

(** The record that a scan selects among the inputs [cs], visited from the
    last one to the first one. *)
Definition aselect (prev : string) (cs : list acursor) : option record :=
  fold_right (fun c sel => match acand prev c with
                           | Some d => select sel d
                           | None => sel
                           end) None cs.

(** The records that the loop of [merge] selects, in order. *)
Fixpoint aloop (fuel : nat) (cs : list acursor) (prev : string)
    : option (list record) :=
  match fuel with
  | O => None
  | S fuel' =>
      match aselect prev cs with
      | None => Some []
      | Some (key, val) =>
          option_map (cons (key, val)) (aloop fuel' (List.map (anext prev) cs) key)
      end
  end.

(** What [merge] does with a selected record. *)
Definition emit (last : bool) (o : merge_out) (r : record) : merge_out :=
  if last && (snd r =? TOMBSTONE)%string then o
  else Write (fst r) (snd r)
         (mk_merge_out (dest o) (meta_dest o) (tot_len o) (count o + 1) (temp o)).

(** The run that holds the key [k] in the highest position of [runs] holds
    it with the value [v]. *)
Definition newest (runs : list (list record)) (k v : string) : Prop :=
  exists older r newer,
    runs = (older ++ r :: newer)%list /\ In (k, v) r /\
    forall r', In r' newer -> ~ In k (List.map fst r').

(** The run whose only record has an empty key and an empty value: its data
    file is empty, so that [merge] finds it at its end before reading it. *)
Definition empty_record_run : list record := [("", "")].

(** The output holds the records [rs]: data, offsets, running offset, and a
    counter that has advanced by two for each record. *)
Definition out_holds (o : merge_out) (rs : list record) : Prop :=
  dest o = concat_records rs /\
  meta_dest o = (0 :: offsets 0 rs)%list /\
  tot_len o = strlen (concat_records rs) /\
  count o = 2 * N.of_nat (List.length rs).

(** The records that the loop of [merge] selects, [last] apart: the loop
    without its output. *)
Fixpoint merge_selects (fuel : nat) (cs : list cursor) (prev : string)
    (sc : scratch) : outcome (list record) :=
  match fuel with
  | O => OutOfFuel
  | S fuel' =>
      '(cs', (sc', sel)) <- merge_scan prev cs (sc, None) ;;
      match sel with
      | None => Ret []
      | Some (key, val) =>
          sels <- merge_selects fuel' cs' key sc' ;;
          Ret ((key, val) :: sels)
      end
  end.

(** The initial output of [merge]: the zero offset is written. *)
Definition merge_out_init (temp0 : BloomFilter) : merge_out :=
  mk_merge_out "" [0] 0 0 temp0.

(** A cursor on a run in the format stands for the record it holds and the
    records it has not read: both streams are good, the bytes left are those
    of the unread records, and the words left are their offsets and the
    count. *)
Definition crep (c : cursor) (a : acursor) : Prop :=
  c_data c = fst a /\
  f_good (c_src c) = true /\
  f_rest (c_src c) = concat_records (snd a) /\
  m_good (c_meta c) = true /\
  exists cw, m_rest (c_meta c) = (offsets (c_pre_idx c) (snd a) ++ [cw])%list.

(** The invariant of the loop of [merge] for one input, on a run [run] with
    increasing keys.  [first] holds until the first scan is made.  The
    records read are [done]; those before the head are not above [prev]; the
    head is not below [prev] unless the input is at its end; an unread input
    is at its end once the first scan is made. *)
Definition cinv (first : bool) (prev : string) (run : list record) (a : acursor)
    : Prop :=
  exists done,
    run = (done ++ snd a)%list /\
    fst a = last done ("", "") /\
    sorted_keys run /\
    (forall r, In r (removelast done) -> String.ltb prev (fst r) = false) /\
    (done <> [] -> concat_records (snd a) = "" \/ String.ltb (fst (fst a)) prev = false) /\
    (done = [] -> concat_records (snd a) = "" \/ first = true) /\
    (first = true -> done = []).

(** The measure that decreases at each turn of the loop of [merge]: the
    records not read, and the heads still to be selected. *)
Definition mu (prev : string) (a : acursor) : nat :=
  List.length (snd a) + (if String.ltb prev (fst (fst a)) then 1 else 0).

Definition mu_all (prev : string) (cs : list acursor) : nat :=
  fold_right (fun a n => (mu prev a + n)%nat) O cs.

(** The number of records of the inputs. *)
Definition total_records (runs : list (list record)) : nat :=
  fold_right (fun r n => (List.length r + n)%nat) O runs.

(** A run is a sorted run: its index ends with a count and delimits, in the
    data file, records whose keys are strictly increasing. *)
Definition run_sorted (run : SortedRun) : Prop :=
  holds run (run_records run) /\ sorted_keys (run_records run).

(** Every run of every tier is a sorted run. *)
Definition tiers_sorted (ts : list Tier) : Prop :=
  forall t, In t ts -> forall rf, In rf t -> run_sorted (fst rf).

(** The invariant of the engine that the order of its runs rests on: both
    buffers are maps (their keys increase) and the runs are sorted runs. *)
Definition engine_inv (st : Database) : Prop :=
  sorted_keys (write_memtable st) /\
  sorted_keys (read_memtable st) /\
  tiers_sorted (tiers st).

(** *** The streams of a lookup *)

(** The two streams that [Database::binary_search] works on, between two
    probes: both are open on the files of the run and neither has failed. *)
Definition search_streams (run : SortedRun) (In : ifstream) (metadata : mstream)
    : Prop :=
  f_bytes In = run_data run /\ f_good In = true /\
  m_words metadata = run_meta run /\ m_good metadata = true.

(** The offset at which the record [i] of [rs] starts in the data file. *)
Definition start_off (rs : list record) (i : nat) : N :=
  strlen (concat_records (firstn i rs)).

(** *** The buffers and their filters *)

(** Every key of the active buffer is in the filter [filters[0][0]], which
    [GET] asks before it looks into the buffer. *)
Definition filter_covers (st : Database) : Prop :=
  forall k v, map_find k (write_memtable st) = Some v ->
    BloomFilter_contains k (filter_write st) = true.

(** The filter of the active buffer covers it, and the frozen buffer is
    empty unless a flush is between its swap and the end of its write. *)
Definition buffers_inv (st : Database) : Prop :=
  filter_covers st /\ (ifread_memtable st = false -> read_memtable st = []).

(** Every key of the frozen buffer is in the filter [filters[0][1]]. *)
Definition frozen_covers (st : Database) : Prop :=
  forall k v, map_find k (read_memtable st) = Some v ->
    BloomFilter_contains k (filter_read st) = true.

(** [mem_size] bounds the bytes of the active buffer; it is below [MAX]
    unless a flush is signalled, and below [2 * MAX] always: a record has
    fewer than [MAX] bytes and no write is accepted once [flushrunning] is
    set. *)
Definition size_inv (st : Database) : Prop :=
  strlen (concat_records (write_memtable st)) <= mem_size st /\
  (flushrunning st = false -> mem_size st < MAX) /\
  mem_size st < 2 * MAX.

(** What holds in addition of the buffers in every state that the engine
    reaches. *)
Definition store_inv (st : Database) : Prop :=
  frozen_covers st /\ size_inv st.

(** Where a lookup finds the newest record of [key], with the value
    [value]: in the active buffer; or, the active buffer not holding the
    key, in the frozen buffer of a flush in progress; or, neither buffer
    holding the key, in the tiers.  A frozen buffer that the key has gone
    through or past is one that the Flusher has taken from an active buffer
    within the sizes of [size_inv]. *)
Definition record_visible (key value : string) (st : Database) : Prop :=
  active_holds key value st \/
  (map_find key (write_memtable st) = None /\ ifread_memtable st = true /\
   map_find key (read_memtable st) = Some value /\
   strlen (concat_records (read_memtable st)) < 2 * MAX) \/
  (map_find key (write_memtable st) = None /\
   map_find key (read_memtable st) = None /\
   (ifread_memtable st = true ->
    strlen (concat_records (read_memtable st)) < 2 * MAX) /\
   forall value0, GET_tiers key (tiers st) value0 = Ret (true, value)).

(** *** The shape of the tiers *)

(** Every tier below Tier 1 holds fewer than [MIN_TH] runs: a compaction
    that fills its target goes on with the target. *)
Definition tiers_bounded (ts : list Tier) : Prop :=
  forall j, (1 <= j)%nat -> (List.length (nth j ts []) < MIN_TH)%nat.

(** The Compactor is signalled only when Tier 1 exists. *)
Definition compaction_has_input (st : Database) : Prop :=
  tiers st = [] -> compactid st = 0.

(** What holds of the buffers and of the tiers in every state that the
    engine reaches. *)
Definition reach_inv (st : Database) : Prop :=
  buffers_inv st /\ tiers_bounded (tiers st) /\ compaction_has_input st.

(** *** Logs *)

(** A trace of client writes: [SET] and [DELETE] only. *)
Definition writes_only (es : list event) : bool :=
  forallb (fun e => match write_key e with Some _ => true | None => false end) es.

(** The buffer, the filter and the size that the records [recs] build when
    they are applied in order to an empty buffer. *)
Definition buffer_of (recs : list record) : map :=
  fold_left (fun m '(k, v) => map_insert k v m) recs [].

Definition size_of (recs : list record) : N :=
  fold_left (fun n '(k, v) => n + strlen k + strlen v) recs 0.

(** The engine has made no flush since it started on an empty directory:
    the active log holds the records written, the buffer, its filter and
    [mem_size] are those of the records, and there is no tier. *)
Definition logged (recs : list record) (st : Database) : Prop :=
  dir st = mk_wal_dir (Some recs) None None /\
  wal st = Some WAL_bin /\
  tiers st = [] /\
  write_memtable st = buffer_of recs /\
  filter_write st = BloomFilter_add_all (List.map fst recs) BloomFilter_new /\
  mem_size st = size_of recs /\
  (flushrunning st = false -> mem_size st < MAX).

(** *** The protocol: server.cpp and client.cpp *)

(** [std::to_string] on an unsigned value: its decimal digits. *)
Definition to_string (n : N) : string := NilEmpty.string_of_uint (N.to_uint n).

(** The decimal digit that a character stands for. *)
Definition digit_of (c : ascii) : option N :=
  let n := N_of_ascii c in
  if (48 <=? n) && (n <=? 57) then Some (n - 48) else None.

(** The leading decimal digits of [s]: their value on top of [acc], how
    many they are, and what follows them. *)
Fixpoint leading_digits (s : string) (acc : N) (count : nat) : N * nat * string :=
  match s with
  | String c s' =>
      match digit_of c with
      | Some d => leading_digits s' (10 * acc + d) (S count)
      | None => (acc, count, s)
      end
  | EmptyString => (acc, count, s)
  end.

(** [isspace] in the C locale: space, and the characters 9 to 13. *)
Definition is_space (c : ascii) : bool :=
  let n := N_of_ascii c in (n =? 32) || ((9 <=? n) && (n <=? 13)).

Fixpoint skip_spaces (s : string) : string :=
  match s with
  | String c s' => if is_space c then skip_spaces s' else s
  | EmptyString => s
  end.

(** [std::stoi(s)]: leading white space is skipped, a sign is accepted, the
    digits that follow are read.  Without a digit the call throws
    [std::invalid_argument], with a value that is not an [int] it throws
    [std::out_of_range]; nothing in the server catches either. *)
Definition stoi (s : string) : outcome Z :=
  let s1 := skip_spaces s in
  let '(negative, s2) :=
    match s1 with
    | String "-" r => (true, r)
    | String "+" r => (false, r)
    | _ => (false, s1)
    end in
  let '(v, count, _) := leading_digits s2 0 O in
  match count with
  | O => Fault
  | S _ =>
      let z := if negative then (- Z.of_N v)%Z else Z.of_N v in
      if ((z <? - 2 ^ 31) || (2 ^ 31 - 1 <? z))%Z then Fault else Ret z
  end.

(** Does [s] start with [p]? *)
Fixpoint starts_with (p s : string) : bool :=
  match p, s with
  | EmptyString, _ => true
  | String a p', String b s' => Ascii.eqb a b && starts_with p' s'
  | String _ _, EmptyString => false
  end.

(** The two bytes that end a line of the protocol. *)
Definition CRLF : string :=
  String (ascii_of_nat 13) (String (ascii_of_nat 10) EmptyString).

(** [s.find("\r\n")]: the position of the first occurrence, [None] for
    [npos]. *)
Fixpoint find_CRLF (s : string) : option nat :=
  match s with
  | EmptyString => None
  | String _ s' =>
      if starts_with CRLF s then Some O else option_map S (find_CRLF s')
  end.

(** [s.substr(pos, n)] for a position within [s]. *)
Definition substr (pos n : nat) (s : string) : string := take n (drop pos s).

(** [serialize_command] of client.cpp: the number of parts, then each part
    with its size. *)
Definition serialize_part (part : string) : string :=
  "$" ++ to_string (strlen part) ++ CRLF ++ part ++ CRLF.

Definition serialize_command (cmd_parts : list string) : string :=
  "*" ++ to_string (N.of_nat (List.length cmd_parts)) ++ CRLF
      ++ String.concat "" (List.map serialize_part cmd_parts).

(** [struct ClientContext] of server.cpp, without the descriptor. *)
Inductive parse_state : Type := PARSE_TYPE | PARSE_ARGUMENTS.

Record ClientContext : Type := mk_ClientContext {
  buffer : string;
  args : list string;
  expected_bulk_length : N;    (* a [size_t] *)
  expected_args : Z;           (* an [int] *)
  state : parse_state
}.

(** [ClientContext(fd)], with the bytes received so far in the buffer. *)
Definition ClientContext_new (received : string) : ClientContext :=
  mk_ClientContext received [] 0 0 PARSE_TYPE.

(** What [handle_client] works on: the context of the client, the engine
    [r], and the responses sent so far, oldest first. *)
Record server : Type := mk_server {
  ctx : ClientContext;
  r : Database;
  sent : list string
}.

Definition send_response (response : string) (s : server) : server :=
  mk_server (ctx s) (r s) (sent s ++ [response])%list.

Definition set_ctx (c : ClientContext) (s : server) : server :=
  mk_server c (r s) (sent s).

(** [REPL::SET] as a caller sees it: the call waits while [flushrunning] is
    set, that is until the Flusher has made its swap. *)
Definition SET_call (key value : string) (st : Database) : bool * Database :=
  SET key value (if flushrunning st then await_swap st else st).

(** The command of [handle_client], run when [expected_args] is zero. *)
Definition run_command (s : server) : outcome server :=
  match args (ctx s) with
  | [] => Ret (send_response ("-ERR Empty command" ++ CRLF) s)
  | command :: rest =>
      if (command =? "SET")%string && Nat.eqb (List.length rest) 2 then
        let '(ok, st) := SET_call (nth 0 rest "") (nth 1 rest "") (r s) in
        Ret (send_response (if ok then "+OK" ++ CRLF else "-ERR" ++ CRLF)
               (mk_server (ctx s) st (sent s)))
      else if (command =? "GET")%string && Nat.eqb (List.length rest) 1 then
        '(res, value) <- GET (nth 0 rest "") "" (r s) ;;
        Ret (send_response
               (if res then "$" ++ to_string (strlen value) ++ CRLF ++ value ++ CRLF
                else "$-1" ++ CRLF) s)
      else Ret (send_response ("-ERR Unknown command" ++ CRLF) s)
  end.

(** [(size_t) n] for an [int] [n]. *)
Definition size_t_of_int (z : Z) : N := Z.to_N (z mod 2 ^ 64).

(** The loop [while (ctx.state == PARSE_ARGUMENTS)] of [handle_client].
    Each turn that does not leave the loop removes the line of a size from
    the buffer, so the length of the buffer bounds the turns. *)
Fixpoint parse_arguments (fuel : nat) (s : server) : outcome server :=
  let c := ctx s in
  match state c with
  | PARSE_TYPE => Ret s
  | PARSE_ARGUMENTS =>
      if (expected_args c =? 0)%Z then
        s' <- run_command s ;;
        Ret (set_ctx (mk_ClientContext (buffer (ctx s')) (args (ctx s'))
                        (expected_bulk_length (ctx s')) (expected_args (ctx s'))
                        PARSE_TYPE) s')
      else if (String.length (buffer c) <? 4)%nat then Ret s
      else if negb (starts_with "$" (buffer c)) then
        Ret (set_ctx (mk_ClientContext "" (args c) (expected_bulk_length c)
                        (expected_args c) PARSE_TYPE)
               (send_response ("-ERR Protocol error" ++ CRLF) s))
      else
        match find_CRLF (buffer c) with
        | None => Ret s
        | Some pos =>
            n <- stoi (substr 1 (pos - 1) (buffer c)) ;;
            let len := size_t_of_int n in
            let buffer1 := drop (pos + 2) (buffer c) in
            if strlen buffer1 <? wrap64 (len + 2) then
              Ret (set_ctx (mk_ClientContext buffer1 (args c) len (expected_args c)
                              PARSE_ARGUMENTS) s)
            else if (expected_args c =? - 2 ^ 31)%Z then Fault
            else
              (* substr and erase clip their count to the size of the buffer *)
              let arg := substr 0 (N.to_nat (N.min len (strlen buffer1))) buffer1 in
              let c' := mk_ClientContext
                          (drop (N.to_nat (N.min (wrap64 (len + 2)) (strlen buffer1)))
                                buffer1)
                          (args c ++ [arg])%list len (expected_args c - 1)%Z
                          PARSE_ARGUMENTS in
              match fuel with
              | O => OutOfFuel
              | S fuel' => parse_arguments fuel' (set_ctx c' s)
              end
        end
  end.

(** One turn of the loop [while (true)] of [handle_client]: the result says
    whether the turn has left the loop. *)
Definition handle_client_turn (s : server) : outcome (bool * server) :=
  let c := ctx s in
  let after_type : outcome (bool * server) :=
    match state c with
    | PARSE_ARGUMENTS => Ret (false, s)
    | PARSE_TYPE =>
        match buffer c with
        | EmptyString => Ret (true, s)
        | String type buffer1 =>
            if Ascii.eqb type "*" then
              match find_CRLF buffer1 with
              | None =>
                  Ret (true, set_ctx (mk_ClientContext buffer1 (args c)
                                        (expected_bulk_length c) (expected_args c)
                                        PARSE_TYPE) s)
              | Some pos =>
                  n <- stoi (substr 0 pos buffer1) ;;
                  Ret (false, set_ctx (mk_ClientContext (drop (pos + 2) buffer1) []
                                         (expected_bulk_length c) n PARSE_ARGUMENTS) s)
              end
            else
              Ret (true, set_ctx (mk_ClientContext "" (args c)
                                    (expected_bulk_length c) (expected_args c)
                                    PARSE_TYPE)
                           (send_response ("-ERR Unsupported command" ++ CRLF) s))
        end
    end in
  '(leaves, s1) <- after_type ;;
  if leaves then Ret (true, s1)
  else
    s2 <- parse_arguments (String.length (buffer (ctx s1))) s1 ;;
    Ret (false, s2).

(** [handle_client]: the turns of the loop [while (true)], as many as [fuel]
    allows; the loop itself has no bound. *)
Fixpoint handle_client (fuel : nat) (s : server) : outcome server :=
  match fuel with
  | O => OutOfFuel
  | S fuel' =>
      '(leaves, s') <- handle_client_turn s ;;
      if leaves then Ret s' else handle_client fuel' s'
  end.

(** [s] does not start with a decimal digit. *)
Definition no_leading_digit (s : string) : bool :=
  match s with
  | String c _ => match digit_of c with Some _ => false | None => true end
  | EmptyString => true
  end.

(** [ctx.buffer.append(buffer, count)] of [main]: bytes that have arrived
    from the client. *)
Definition receive (data : string) (s : server) : server :=
  set_ctx (mk_ClientContext (buffer (ctx s) ++ data) (args (ctx s))
             (expected_bulk_length (ctx s)) (expected_args (ctx s))
             (state (ctx s))) s.

(** The engine and the responses after the command of [handle_client] on
    the arguments [parts]. *)
Definition answer (parts : list string) (db : Database * list string)
  : outcome (Database * list string) :=
  s' <- run_command (mk_server (mk_ClientContext "" parts 0 0 PARSE_ARGUMENTS)
                       (fst db) (snd db)) ;;
  Ret (r s', sent s').

Fixpoint answers (cmds : list (list string)) (db : Database * list string)
  : outcome (Database * list string) :=
  match cmds with
  | [] => Ret db
  | parts :: cmds' => db' <- answer parts db ;; answers cmds' db'
  end.

(** The engine, the responses and the buffer that [handle_client] leaves. *)
Definition leaves_behind (o : outcome server)
  : outcome (Database * list string * string) :=
  s <- o ;; Ret (r s, sent s, buffer (ctx s)).

(** A buffer on which the loop over the arguments stops with nothing done:
    shorter than four bytes, or the start of a size with no end of line. *)
Definition incomplete_size (b : string) : bool :=
  (String.length b <? 4)%nat
  || (starts_with "$" b
      && match find_CRLF b with None => true | Some _ => false end).

(** The loop over the arguments waits for more bytes: arguments are still
    expected and the buffer does not hold the next size. *)
Definition waits_for_bytes (c : ClientContext) : bool :=
  match state c with
  | PARSE_TYPE => false
  | PARSE_ARGUMENTS => negb (expected_args c =? 0)%Z && incomplete_size (buffer c)
  end.

(** ** The client's reading of a response *)

Definition LF : string := String (ascii_of_nat 10) EmptyString.

(** [std::string response(buffer)]: the bytes before the first zero byte. *)
Fixpoint c_string (s : string) : string :=
  match s with
  | EmptyString => EmptyString
  | String c s' => if Ascii.eqb c zero then EmptyString else String c (c_string s')
  end.

(** [parse_response] of client.cpp, on the bytes [pending] that wait on the
    socket ([None] when [recv] returns zero or less): the text it prints.
    [recv] takes at most [BUFFER_SIZE - 1] bytes, and at least one. *)
Definition parse_response (pending : option string) : outcome string :=
  match pending with
  | None | Some EmptyString => Ret ("(nil)" ++ LF)
  | Some data =>
      let response := c_string (take 4095 data) in
      (* [response.find(CRLF) - 1] as a count, where it is used the first
         byte is the type and the position is not 0; [npos - 1] is the
         whole rest *)
      let line := match find_CRLF response with
                  | Some pos => (pos - 1)%nat
                  | None => String.length response
                  end in
      match response with
      | EmptyString => Ret ("Unknown response" ++ LF)
      | String type _ =>
          if Ascii.eqb type "+" then Ret (substr 1 line response ++ LF)
          else if Ascii.eqb type "$" then
            if (substr 1 2 response =? "-1")%string then Ret ("(nil)" ++ LF)
            else
              length <- stoi (substr 1 line response) ;;
              (* [npos + 2] wraps to 1 *)
              let start := match find_CRLF response with
                           | Some pos => (pos + 2)%nat
                           | None => 1%nat
                           end in
              Ret (substr start
                     (N.to_nat (N.min (size_t_of_int length) (strlen response)))
                     response ++ LF)
          else if Ascii.eqb type "-" then
            Ret ("(error) " ++ substr 1 line response ++ LF)
          else Ret ("Unknown response" ++ LF)
      end
  end.

(** [s] holds no zero byte. *)
Fixpoint no_zero_byte (s : string) : bool :=
  match s with
  | EmptyString => true
  | String c s' => negb (Ascii.eqb c zero) && no_zero_byte s'
  end.

End Engine.

(** ** Concrete inputs *)

(** [n] bytes ["x"]. *)
Fixpoint pad (n : nat) : string :=
  match n with
  | O => EmptyString
  | S n' => String "x" (pad n')
  end.

(** A value of 3 999 998 bytes: with a one-byte key the record has 3 999 999
    bytes, the largest size that [SET] accepts. *)
Definition big_value : string := pad (N.to_nat 3999998).

(** A value of 3 999 999 bytes: with a one-byte key the record has [MAX]
    bytes. *)
Definition oversize_value : string := pad (N.to_nat 3999999).

(** Two writes that fill the active buffer, and the swap of the Flusher. *)
Definition trace_flush_in_progress : list event :=
  [EvSET "a" "1"; EvSET "b" big_value; EvFLUSH_swap].

(** The engine started on an empty directory, with the sample hash. *)
Definition init0 : Database := Database_init sample_hash.

(** Writes on keys other than ["a"]. *)
Definition trace_other_keys : list event := [EvSET "b" "2"; EvDELETE "c"].

(** Four buffers as four flushes write them, the key ["a"] in three of them
    and deleted in the newest one, the key ["b"] deleted in the oldest one. *)
Definition buffers4 : list map :=
  [ [("a", "1"); ("b", TOMBSTONE)];
    [("a", "2"); ("c", "3")];
    [("d", "4")];
    [("a", TOMBSTONE); ("e", "5")] ].

Definition runs4 : list SortedRun := List.map FLUSH_run buffers4.

(** Tier 1 with these four runs, each with the filter of its keys. *)
Definition tier4 : Tier :=
  List.map (fun m => (FLUSH_run m,
                      BloomFilter_add_all sample_hash (List.map fst m) BloomFilter_new))
           buffers4.

(** An engine whose only tier on disk is this full Tier 1. *)
Definition one_full_tier : Database :=
  Database_boot [tier4] (mk_wal_dir None None None).

(** Four runs that each hold the one record [("a", "1")]. *)
Definition runs_a1 : list SortedRun :=
  List.map FLUSH_run [ [("a", "1")]; [("a", "1")]; [("a", "1")]; [("a", "1")] ].

(** The active log that a start-up finds. *)
Definition active_log : list record := [("a", "3"); ("c", "4")].

(** Four flushes with two ends of the process in between.  The first run
    holds [("", "wx")].  The buffer of the second run is rebuilt at a start
    from the staged log [("", "xy")] and the active log
    [("", big_value); ("", "")]: the replay counts [MAX] bytes and triggers a
    flush of the one record [("", "")], whose data file is empty.  Two more
    flushes fill Tier 1. *)
Definition trace_empty_record_run : list event :=
  [EvSET "" big_value; EvSET "" "wx"; EvFLUSH_swap; EvFLUSH_write;
   EvSET "" big_value; EvRestart;
   EvSET "" "xy"; EvFLUSH_swap; EvSET "" big_value; EvSET "" ""; EvRestart;
   EvFLUSH_write;
   EvSET "c" big_value; EvSET "c" "1"; EvFLUSH_swap; EvFLUSH_write;
   EvSET "d" big_value; EvSET "d" "1"; EvFLUSH_swap; EvFLUSH_write].

(** The state that a sequence of steps leads to from [st] with the sample
    hash; [st] itself when a step cannot be taken. *)
Definition reached_from (st : Database) (es : list event) : Database :=
  match exec sample_hash es st with
  | Some st' => st'
  | None => st
  end.



(** A value written and flushed to Tier 1. *)
Definition trace_flushed : list event :=
  [EvSET "a" "1"; EvSET "b" big_value; EvFLUSH_swap; EvFLUSH_write].

(** The four flushes of [trace_empty_record_run], the compaction of Tier 1
    into a new Tier 2, and a fifth flush. *)
Definition trace_two_tiers : list event :=
  (trace_empty_record_run
   ++ [EvCompact; EvSET "e" big_value; EvSET "e" "1"; EvFLUSH_swap; EvFLUSH_write])%list.

(** A buffer with a deleted key. *)
Definition buffer_abc : map := [("a", "1"); ("b", TOMBSTONE); ("c", "3")].

(** The run and the filter that [merge] writes for the four runs of
    [runs4], tombstones retained. *)
Definition merged4 : SortedRun :=
  match merge sample_hash runs4 BloomFilter_new false with
  | Ret (run, _) => run
  | _ => mk_SortedRun "" []
  end.

Definition filter4 : BloomFilter :=
  match merge sample_hash runs4 BloomFilter_new false with
  | Ret (_, f) => f
  | _ => BloomFilter_new
  end.

(** One accepted write on the engine started on an empty directory, and the
    swap of the Flusher after it. *)
Definition after_SET_a : Database := snd (SET sample_hash "a" "1" init0).
Definition swapped_a : Database := FLUSH_swap after_SET_a.

(** Two accepted writes. *)
Definition trace_two_writes : list event := [EvSET "a" "1"; EvDELETE "b"].
Definition after_two_writes : Database :=
  snd (DELETE sample_hash "b" after_SET_a).

(** The server with a client that has just connected, on the engine started
    on an empty directory. *)
Definition server0 : server := mk_server (ClientContext_new "") init0 [].

(** The server about to run the command [GET a] after the write of
    [after_SET_a]. *)
Definition server_GET_a : server :=
  mk_server (mk_ClientContext "" ["GET"; "a"] 1 0 PARSE_ARGUMENTS) after_SET_a
    [("+OK" ++ CRLF)%string].

(** The serialized command [GET a] without its first two bytes. *)
Definition rest_GET_a : string := drop 2 (serialize_command ["GET"; "a"]).

(** An engine whose Tier 1 is full and whose Tier 2 exists already. *)
Definition full_tier_before_tier2 : Database :=
  Database_boot [tier4; [(merged4, filter4)]] (mk_wal_dir None None None).

(** A start-up that finds a staged log of more than [MAX] bytes and an
    active log. *)
Definition staged_full_log : list record := [("a", "1"); ("b", big_value)].
Definition boot_full_log : Database :=
  Database_boot [] (mk_wal_dir (Some active_log) (Some staged_full_log) None).

(** What the witnesses read off the states that these traces lead to. *)
Definition flush_in_progress_facts (st : Database) : Prop :=
  ifread_memtable st = true /\
  map_find "a" (write_memtable st) = None /\
  map_find "a" (read_memtable st) = Some "1" /\
  tiers st = [] /\
  GET_two_buffers sample_hash "a" "" st = Ret (true, "1").



Definition two_tiers_facts (st : Database) : Prop :=
  List.map (List.map (fun rf => List.map fst (run_records (fst rf)))) (tiers st) =
    [[["e"]]; [[""; "c"; "d"]]] /\
  List.map (@List.length (SortedRun * BloomFilter)) (tiers st) = [1%nat; 1%nat] /\
  ifread_memtable st = false.

Definition full_log_facts (st : Database) : Prop :=
  List.map fst (read_memtable st) = ["a"; "b"] /\
  map_find "a" (read_memtable st) = Some "1" /\
  ifread_memtable st = true /\
  write_memtable st = [("a", "3"); ("c", "4")] /\
  mem_size st = 4.


(** * Properties *)

(** ** Strings *)

Lemma compare_refl (s : string) : String.compare s s = Eq.
Proof.
  induction s as [|c s IH]; simpl; [reflexivity|].
  unfold Ascii.compare. rewrite N.compare_refl. exact IH.
Qed.

Lemma compare_eq (s t : string) : String.compare s t = Eq <-> s = t.
Proof.
  split; [apply String.compare_eq_iff|intros ->; apply compare_refl].
Qed.

Lemma compare_lt_gt (s t : string) :
  String.compare s t = Lt <-> String.compare t s = Gt.
Proof.
  rewrite (String.compare_antisym t s).
  destruct (String.compare s t); simpl; split; congruence.
Qed.

Lemma ascii_compare_trans (a b c : ascii) :
  Ascii.compare a b = Lt -> Ascii.compare b c = Lt -> Ascii.compare a c = Lt.
Proof.
  unfold Ascii.compare. rewrite !N.compare_lt_iff. lia.
Qed.

Lemma compare_trans (s t u : string) :
  String.compare s t = Lt -> String.compare t u = Lt -> String.compare s u = Lt.
Proof.
  revert t u. induction s as [|a s IH]; intros [|b t] [|c u]; simpl; try congruence.
  destruct (Ascii.compare a b) eqn:Hab; try congruence.
  - apply Ascii.compare_eq_iff in Hab. subst b.
    destruct (Ascii.compare a c); try congruence. apply IH.
  - intros _. destruct (Ascii.compare b c) eqn:Hbc; try congruence.
    + apply Ascii.compare_eq_iff in Hbc. subst c. now rewrite Hab.
    + intros _. now rewrite (ascii_compare_trans _ _ _ Hab Hbc).
Qed.

Lemma ltb_lt (s t : string) : String.ltb s t = true <-> String.compare s t = Lt.
Proof. unfold String.ltb. destruct (String.compare s t); split; congruence. Qed.

Lemma ltb_irrefl (s : string) : String.ltb s s = false.
Proof. unfold String.ltb. now rewrite compare_refl. Qed.

Lemma ltb_trans (s t u : string) :
  String.ltb s t = true -> String.ltb t u = true -> String.ltb s u = true.
Proof. rewrite !ltb_lt. apply compare_trans. Qed.

Lemma ltb_asym (s t : string) : String.ltb s t = true -> String.ltb t s = false.
Proof.
  unfold String.ltb. rewrite (String.compare_antisym t s).
  destruct (String.compare s t); simpl; congruence.
Qed.

Lemma ltb_neq (s t : string) : String.ltb s t = true -> s <> t.
Proof. intros H ->. rewrite ltb_irrefl in H. discriminate. Qed.

Lemma ltb_total (s t : string) :
  String.ltb s t = true \/ s = t \/ String.ltb t s = true.
Proof.
  unfold String.ltb. rewrite (String.compare_antisym t s).
  destruct (String.compare s t) eqn:H; simpl; auto.
  right; left. now apply String.compare_eq_iff.
Qed.

Lemma ltb_empty (s : string) : String.ltb s "" = false.
Proof. now destruct s. Qed.

Lemma compare_neq_sym (s t : string) :
  String.compare s t <> Eq -> String.compare t s <> Eq.
Proof. rewrite !compare_eq. congruence. Qed.

Lemma strlen_append (s t : string) : strlen (s ++ t) = strlen s + strlen t.
Proof.
  unfold strlen. rewrite <- Nat2N.inj_add. f_equal.
  induction s as [|c s IH]; simpl; [reflexivity|now rewrite IH].
Qed.

Lemma TOMBSTONE_length : strlen TOMBSTONE = 2.
Proof. reflexivity. Qed.

Lemma take_append (s t : string) : take (String.length s) (s ++ t) = s.
Proof. induction s as [|c s IH]; simpl; [now destruct t|now rewrite IH]. Qed.

Lemma drop_append (s t : string) : drop (String.length s) (s ++ t) = t.
Proof. induction s as [|c s IH]; simpl; [reflexivity|exact IH]. Qed.

Lemma drop_drop (a b : nat) (s : string) : drop b (drop a s) = drop (a + b) s.
Proof.
  revert s. induction a as [|a IH]; intros s; simpl; [reflexivity|].
  destruct s as [|c s]; [now destruct b|apply IH].
Qed.

Lemma take_all (s : string) : take (String.length s) s = s.
Proof. induction s as [|c s IH]; simpl; [reflexivity|now rewrite IH]. Qed.

Lemma append_empty_r (s : string) : s ++ "" = s.
Proof. induction s as [|c s IH]; simpl; [reflexivity|now rewrite IH]. Qed.

Lemma append_assoc (s t u : string) : (s ++ t) ++ u = s ++ t ++ u.
Proof. induction s as [|c s IH]; simpl; [reflexivity|now rewrite IH]. Qed.

Lemma append_is_empty (s t : string) : s ++ t = "" -> s = "" /\ t = "".
Proof. destruct s; simpl; [auto|discriminate]. Qed.

Lemma strlen_to_nat (s : string) : N.to_nat (strlen s) = String.length s.
Proof. unfold strlen. apply Nat2N.id. Qed.

Lemma strlen_zero (s : string) : strlen s = 0 -> s = "".
Proof. destruct s; [reflexivity|]. unfold strlen. simpl. lia. Qed.

(** ** std::map *)

Lemma map_find_insert_same (k v : string) (m : map) :
  map_find k (map_insert k v m) = Some v.
Proof.
  induction m as [|[k' v'] m IH]; simpl.
  - now rewrite compare_refl.
  - destruct (String.compare k k') eqn:E; simpl.
    + now rewrite compare_refl.
    + now rewrite compare_refl.
    + now rewrite E.
Qed.

Lemma map_find_insert_other (k k' v : string) (m : map) :
  k <> k' -> map_find k (map_insert k' v m) = map_find k m.
Proof.
  intros Hne. induction m as [|[k1 v1] m IH]; simpl.
  - destruct (String.compare k k') eqn:E; try reflexivity.
    now apply compare_eq in E.
  - destruct (String.compare k' k1) eqn:E1; simpl.
    + apply compare_eq in E1. subst k1.
      destruct (String.compare k k') eqn:E; try reflexivity.
      now apply compare_eq in E.
    + destruct (String.compare k k') eqn:E.
      * now apply compare_eq in E.
      * apply ltb_lt in E, E1. pose proof (ltb_trans _ _ _ E E1) as H.
        apply ltb_lt in H. now rewrite H.
      * reflexivity.
    + destruct (String.compare k k1); try reflexivity. exact IH.
Qed.

(** The head key of a sorted list is below the keys of its tail. *)
Lemma sorted_keys_head (k v : string) (m : list record) :
  sorted_keys ((k, v) :: m) ->
  forall k' v', In (k', v') m -> String.ltb k k' = true.
Proof.
  revert k v. induction m as [|[k1 v1] m IH]; intros k v [H1 H2] k' v' Hin.
  - destruct Hin.
  - destruct Hin as [E|Hin].
    + now inversion E; subst.
    + apply ltb_trans with k1; [exact H1|]. eapply IH; eauto.
Qed.

Lemma sorted_keys_tail (r : record) (m : list record) :
  sorted_keys (r :: m) -> sorted_keys m.
Proof. destruct r. simpl. tauto. Qed.

Lemma sorted_keysb_spec (m : list record) :
  sorted_keysb m = true <-> sorted_keys m.
Proof.
  induction m as [|[k v] m IH]; simpl; [tauto|].
  rewrite andb_true_iff, IH. destruct m as [|[k' v'] m]; tauto.
Qed.

Lemma map_insert_sorted (k v : string) (m : map) :
  sorted_keys m -> sorted_keys (map_insert k v m).
Proof.
  induction m as [|[k1 v1] m IH]; simpl; [tauto|].
  intros [H1 H2]. destruct (String.compare k k1) eqn:E.
  - apply compare_eq in E. subst k1. simpl. tauto.
  - simpl. apply ltb_lt in E. tauto.
  - specialize (IH H2). simpl. split; [|exact IH].
    destruct m as [|[k2 v2] m]; simpl.
    + apply compare_lt_gt in E. now apply ltb_lt.
    + destruct (String.compare k k2) eqn:E2.
      * apply compare_lt_gt in E. now apply ltb_lt.
      * apply compare_lt_gt in E. now apply ltb_lt.
      * exact H1.
Qed.

(** In a sorted map a key is found exactly when it is paired in the list. *)
Lemma map_find_In (k v : string) (m : map) :
  sorted_keys m -> (map_find k m = Some v <-> In (k, v) m).
Proof.
  induction m as [|[k1 v1] m IH]; intros Hs; simpl.
  - split; [discriminate|tauto].
  - pose proof (sorted_keys_head _ _ _ Hs) as Hhd.
    specialize (IH (sorted_keys_tail _ _ Hs)).
    destruct (String.compare k k1) eqn:E.
    + apply compare_eq in E. subst k1. split.
      * intros [= ->]. now left.
      * intros [[= ->]|Hin]; [reflexivity|].
        apply Hhd in Hin. now rewrite ltb_irrefl in Hin.
    + split; [discriminate|]. intros [[= -> ->]|Hin].
      * now rewrite compare_refl in E.
      * apply Hhd in Hin. apply ltb_lt in Hin. apply compare_lt_gt in Hin. congruence.
    + rewrite IH. split; [tauto|]. intros [[= -> ->]|Hin]; [|exact Hin].
      now rewrite compare_refl in E.
Qed.

Section EngineFacts.

Variable std_hash : string -> N.

Local Abbreviation add := (BloomFilter_add std_hash).
Local Abbreviation contains := (BloomFilter_contains std_hash).
Local Abbreviation add_all := (BloomFilter_add_all std_hash).

(** ** BloomFilter *)

(** Setting bits keeps the bits that are set. *)
Lemma set_bits_keeps (key : string) (l : list nat) (f : BloomFilter) (b : N) :
  N.testbit (bitArray f) b = true ->
  N.testbit
    (bitArray (fold_left
       (fun g i => mk_BloomFilter (N.setbit (bitArray g) (bit_index std_hash key i)))
       l f)) b = true.
Proof.
  revert f. induction l as [|i l IH]; intros f H; simpl; [exact H|].
  apply IH. simpl. rewrite N.setbit_eqb, H. apply orb_true_r.
Qed.

(** [add] only sets bits. *)
Lemma BloomFilter_add_keeps (key : string) (f : BloomFilter) (b : N) :
  N.testbit (bitArray f) b = true -> N.testbit (bitArray (add key f)) b = true.
Proof. apply set_bits_keeps. Qed.

(** [add] sets each of the bits that [contains] tests. *)
Lemma BloomFilter_add_sets (key : string) (f : BloomFilter) (i : nat) :
  In i (seq 0 NOFILTERS) ->
  N.testbit (bitArray (add key f)) (bit_index std_hash key i) = true.
Proof.
  unfold BloomFilter_add. generalize (seq 0 NOFILTERS). intros l. revert f.
  induction l as [|j l IH]; intros f Hin; simpl; [destruct Hin|].
  destruct Hin as [->|Hin]; [|now apply IH].
  apply set_bits_keeps. simpl. rewrite N.setbit_eqb, N.eqb_refl. reflexivity.
Qed.

Lemma BloomFilter_contains_add (key : string) (f : BloomFilter) :
  contains key (add key f) = true.
Proof.
  unfold BloomFilter_contains. apply forallb_forall. intros i Hi.
  now apply BloomFilter_add_sets.
Qed.

Lemma BloomFilter_contains_keeps (key key' : string) (f : BloomFilter) :
  contains key f = true -> contains key (add key' f) = true.
Proof.
  unfold BloomFilter_contains. rewrite !forallb_forall. intros H i Hi.
  apply BloomFilter_add_keeps. now apply H.
Qed.

Lemma BloomFilter_contains_add_all (key : string) (keys : list string) (f : BloomFilter) :
  contains key f = true -> contains key (add_all keys f) = true.
Proof.
  unfold BloomFilter_add_all. revert f.
  induction keys as [|k keys IH]; intros f H; simpl; [exact H|].
  apply IH. now apply BloomFilter_contains_keeps.
Qed.

(** A key added at some point of a sequence of [add] calls is reported. *)
Lemma BloomFilter_add_all_contains (key : string) (keys : list string)
    (f : BloomFilter) :
  In key keys -> contains key (add_all keys f) = true.
Proof.
  unfold BloomFilter_add_all. revert f.
  induction keys as [|k keys IH]; intros f Hin; simpl; [destruct Hin|].
  destruct Hin as [->|Hin].
  - apply (BloomFilter_contains_add_all key keys).
    apply BloomFilter_contains_add.
  - now apply IH.
Qed.

(** C8.  The filter has no false negatives: after any sequence of [add]
    calls that includes [add(key)], made on any filter and with no [clear]
    in between, [contains(key)] returns true. *)
Theorem BloomFilter_no_false_negative (key : string) (keys : list string)
    (f : BloomFilter) :
  In key keys -> contains key (add_all keys f) = true.
Proof. exact (BloomFilter_add_all_contains key keys f). Qed.

(** ** The order of keys

    [String.ltb s t = true] is [s < t]; [String.ltb t s = false] is
    [s <= t]. *)

Lemma le_lt_trans (a b c : string) :
  String.ltb b a = false -> String.ltb b c = true -> String.ltb a c = true.
Proof.
  intros H1 H2. destruct (ltb_total a b) as [H|[->|H]]; [|exact H2|congruence].
  now apply ltb_trans with b.
Qed.

Lemma lt_le_trans (a b c : string) :
  String.ltb a b = true -> String.ltb c b = false -> String.ltb a c = true.
Proof.
  intros H1 H2. destruct (ltb_total b c) as [H|[<-|H]]; [|exact H1|congruence].
  now apply ltb_trans with b.
Qed.

Lemma le_trans (a b c : string) :
  String.ltb b a = false -> String.ltb c b = false -> String.ltb c a = false.
Proof.
  intros H1 H2. destruct (String.ltb c a) eqn:E; [|reflexivity].
  rewrite (lt_le_trans c a b E H1) in H2. discriminate.
Qed.

Lemma le_antisym (a b : string) :
  String.ltb a b = false -> String.ltb b a = false -> a = b.
Proof. intros H1 H2. destruct (ltb_total a b) as [H|[H|H]]; congruence. Qed.

Lemma lt_le (a b : string) : String.ltb a b = true -> String.ltb b a = false.
Proof. apply ltb_asym. Qed.

(** ** Lists with increasing keys *)

Lemma sorted_keys_cons (r : record) (l : list record) :
  sorted_keys (r :: l) <->
  (forall r', In r' l -> String.ltb (fst r) (fst r') = true) /\ sorted_keys l.
Proof.
  destruct r as [k v]. split.
  - intros H. split; [|exact (sorted_keys_tail _ _ H)].
    intros [k' v'] Hin. exact (sorted_keys_head _ _ _ H _ _ Hin).
  - intros [H1 H2]. simpl. split; [|exact H2].
    destruct l as [|[k' v'] l]; [exact I|]. apply (H1 (k', v')). now left.
Qed.

Lemma sorted_keys_app (l1 l2 : list record) :
  sorted_keys (l1 ++ l2) <->
  sorted_keys l1 /\ sorted_keys l2 /\
  (forall r1 r2, In r1 l1 -> In r2 l2 -> String.ltb (fst r1) (fst r2) = true).
Proof.
  induction l1 as [|r l1 IH].
  - simpl. split; [intros H; repeat split; [exact H|intros ? ? []]|tauto].
  - change ((r :: l1) ++ l2)%list with (r :: (l1 ++ l2))%list.
    rewrite !sorted_keys_cons, IH. split.
    + intros (H1 & H2 & H3 & H4). repeat split; try assumption.
      * intros r' Hin. apply H1, in_or_app. now left.
      * intros r1 r2 [<-|Hin1] Hin2; [|now apply H4].
        apply H1, in_or_app. now right.
    + intros ((H1 & H2) & H3 & H4). repeat split; try assumption.
      * intros r' Hin. apply in_app_or in Hin. destruct Hin as [Hin|Hin].
        -- now apply H1.
        -- apply H4; [now left|exact Hin].
      * intros r1 r2 Hin1 Hin2. apply H4; [now right|exact Hin2].
Qed.

Lemma in_removelast {A : Type} (x : A) (l : list A) :
  In x (removelast l) -> In x l.
Proof.
  induction l as [|y l IH]; [tauto|]. simpl. destruct l as [|z l]; [tauto|].
  intros [->|H]; [now left|right; now apply IH].
Qed.

Lemma last_in {A : Type} (l : list A) (d : A) : l <> [] -> In (last l d) l.
Proof.
  induction l as [|y l IH]; [congruence|]. intros _. simpl.
  destruct l as [|z l]; [now left|]. right. apply IH. discriminate.
Qed.

Lemma in_removelast_or_last {A : Type} (x : A) (l : list A) (d : A) :
  In x l -> In x (removelast l) \/ x = last l d.
Proof.
  induction l as [|y l IH]; [tauto|]. intros [<-|H].
  - destruct l as [|z l]; [now right|left; now left].
  - destruct l as [|z l]; [destruct H|].
    destruct (IH H) as [H'|H']; [left; now right|now right].
Qed.

Lemma removelast_last_split {A : Type} (l : list A) (d : A) :
  l <> [] -> l = (removelast l ++ [last l d])%list.
Proof. intros H. now apply app_removelast_last. Qed.

(** In a list with increasing keys the records before the last one have
    smaller keys. *)
Lemma sorted_keys_removelast (l : list record) (d r : record) :
  sorted_keys l -> In r (removelast l) ->
  String.ltb (fst r) (fst (last l d)) = true.
Proof.
  intros Hs Hin. destruct l as [|x l]; [destruct Hin|].
  assert (Hne : x :: l <> []) by discriminate.
  rewrite (removelast_last_split _ d Hne) in Hs.
  apply sorted_keys_app in Hs. destruct Hs as (_ & _ & H).
  apply H; [exact Hin|now left].
Qed.

(** Records that take no bytes: a list with increasing keys has at most one,
    the record with the empty key and the empty value. *)
Lemma concat_records_empty (l : list record) :
  sorted_keys l -> concat_records l = "" -> l = [] \/ l = [("", "")].
Proof.
  destruct l as [|[k v] l]; [now left|]. intros Hs Hc. right.
  simpl in Hc. apply append_is_empty in Hc. destruct Hc as [-> Hc].
  apply append_is_empty in Hc. destruct Hc as [-> Hc].
  destruct l as [|[k' v'] l]; [reflexivity|].
  simpl in Hc. apply append_is_empty in Hc. destruct Hc as [-> _].
  destruct Hs as [Hs _]. discriminate.
Qed.

(** ** REPL::SET, REPL::GET, REPL::DELETE *)

Local Abbreviation SET' := (SET std_hash).
Local Abbreviation GET' := (GET std_hash).
Local Abbreviation get' := (get std_hash).
Local Abbreviation DELETE' := (DELETE std_hash).

Lemma append_to_WAL_fields (key val : string) (st : Database) :
  write_memtable (append_to_WAL key val st) = write_memtable st /\
  read_memtable (append_to_WAL key val st) = read_memtable st /\
  filter_write (append_to_WAL key val st) = filter_write st /\
  filter_read (append_to_WAL key val st) = filter_read st /\
  mem_size (append_to_WAL key val st) = mem_size st /\
  tiers (append_to_WAL key val st) = tiers st /\
  flushrunning (append_to_WAL key val st) = flushrunning st /\
  ifread_memtable (append_to_WAL key val st) = ifread_memtable st /\
  wal (append_to_WAL key val st) = wal st.
Proof.
  unfold append_to_WAL. destruct (wal st) as [p|] eqn:Ew; [|now rewrite ?Ew].
  destruct (dir_get p (dir st)); simpl; now rewrite ?Ew.
Qed.

(** What an open log receives. *)
Lemma append_to_WAL_dir (key val : string) (st : Database) (p : wal_path)
    (recs : list record) :
  wal st = Some p -> dir_get p (dir st) = Some recs ->
  dir_get p (dir (append_to_WAL key val st)) = Some (recs ++ [(key, val)])%list.
Proof.
  intros Hw Hd. unfold append_to_WAL. rewrite Hw, Hd. simpl. now destruct p.
Qed.

(** [SET] returns false exactly on an oversize record. *)
Lemma SET_result (key value : string) (st : Database) :
  fst (SET' key value st) = negb (MAX <=? strlen key + strlen value).
Proof.
  unfold SET. destruct (MAX <=? strlen key + strlen value); [reflexivity|].
  simpl. match goal with |- fst (if ?c then _ else _) = _ => destruct c end; reflexivity.
Qed.

(** A rejected [SET] returns the state it was given. *)
Lemma SET_rejected_state (key value : string) (st : Database) :
  fst (SET' key value st) = false -> snd (SET' key value st) = st.
Proof.
  rewrite SET_result. unfold SET.
  destruct (MAX <=? strlen key + strlen value); [reflexivity|discriminate].
Qed.

(** The buffers, the filter and the tiers after an accepted [SET]. *)
Lemma SET_accepted_fields (key value : string) (st : Database) :
  fst (SET' key value st) = true ->
  write_memtable (snd (SET' key value st)) = map_insert key value (write_memtable st) /\
  filter_write (snd (SET' key value st)) = BloomFilter_add std_hash key (filter_write st) /\
  mem_size (snd (SET' key value st)) = mem_size st + (strlen key + strlen value) /\
  read_memtable (snd (SET' key value st)) = read_memtable st /\
  tiers (snd (SET' key value st)) = tiers st /\
  dir (snd (SET' key value st)) = dir (append_to_WAL key value st).
Proof.
  rewrite SET_result. unfold SET.
  destruct (MAX <=? strlen key + strlen value); [discriminate|]. intros _.
  destruct (append_to_WAL_fields key value st) as (E1 & E2 & E3 & E4 & E5 & E6 & _).
  match goal with |- context [if ?c then _ else _] => destruct c end;
    simpl; rewrite ?E1, ?E2, ?E3, ?E4, ?E5, ?E6; tauto.
Qed.

(** [GET] on a key that the active buffer holds, with its filter set. *)
Lemma GET_active_hit (key v value : string) (st : Database) :
  BloomFilter_contains std_hash key (filter_write st) = true ->
  map_find key (write_memtable st) = Some v ->
  GET' key value st =
    if negb (v =? TOMBSTONE)%string then Ret (true, v) else Ret (false, value).
Proof. intros Hc Hf. unfold GET. now rewrite Hc, Hf. Qed.

Lemma get_active_hit (key v : string) (st : Database) :
  BloomFilter_contains std_hash key (filter_write st) = true ->
  map_find key (write_memtable st) = Some v ->
  get' key st = Ret (if (v =? TOMBSTONE)%string then None else Some v).
Proof.
  intros Hc Hf. unfold get. rewrite (GET_active_hit key v "" st Hc Hf).
  now destruct (v =? TOMBSTONE)%string.
Qed.

Local Abbreviation active_holds' := (active_holds std_hash).

Lemma SET_active_holds (key value : string) (st : Database) :
  fst (SET' key value st) = true -> active_holds' key value (snd (SET' key value st)).
Proof.
  intros H. destruct (SET_accepted_fields key value st H) as (E1 & E2 & _).
  split.
  - rewrite E2. apply BloomFilter_contains_add.
  - rewrite E1. apply map_find_insert_same.
Qed.

Lemma SET_other_active_holds (key v key' value : string) (st : Database) :
  key' <> key -> active_holds' key v st ->
  active_holds' key v (snd (SET' key' value st)).
Proof.
  intros Hne [Hc Hf]. destruct (fst (SET' key' value st)) eqn:E.
  - destruct (SET_accepted_fields key' value st E) as (E1 & E2 & _). split.
    + rewrite E2. now apply BloomFilter_contains_keeps.
    + rewrite E1. rewrite map_find_insert_other; [exact Hf|congruence].
  - rewrite (SET_rejected_state _ _ _ E). now split.
Qed.

Lemma exec_writes_active_holds (key v : string) (es : list event) (st st' : Database) :
  forallb (write_off key) es = true ->
  exec std_hash es st = Some st' ->
  active_holds' key v st -> active_holds' key v st'.
Proof.
  revert st. induction es as [|e es IH]; intros st Hall Hex Hinv; simpl in *.
  - now inversion Hex; subst.
  - apply andb_true_iff in Hall. destruct Hall as [He Hall].
    destruct (exec_event std_hash e st) as [st1|] eqn:E1; [|discriminate].
    apply (IH st1 Hall Hex).
    destruct e as [k' v'|k'| | | |]; simpl in He; try discriminate;
      apply negb_true_iff, String.eqb_neq in He; simpl in E1;
      destruct (flushrunning st); try discriminate; inversion E1; subst;
      now apply SET_other_active_holds.
Qed.

(** C6.  [SET(key, value)] returns false exactly when
    [|key| + |value| >= MAX]; and a [SET] that returns false changes nothing:
    the state is the one before, so the log files, the active buffer, its
    filter and [mem_size] are the same and [GET] answers as before. *)
Theorem SET_rejected_iff_oversize (key value : string) (st : Database) :
  (fst (SET' key value st) = false <-> MAX <= strlen key + strlen value) /\
  (fst (SET' key value st) = false ->
     snd (SET' key value st) = st /\
     dir (snd (SET' key value st)) = dir st /\
     write_memtable (snd (SET' key value st)) = write_memtable st /\
     filter_write (snd (SET' key value st)) = filter_write st /\
     mem_size (snd (SET' key value st)) = mem_size st /\
     forall k, get' k (snd (SET' key value st)) = get' k st).
Proof.
  split.
  - rewrite SET_result, negb_false_iff. apply N.leb_le.
  - intros H. rewrite (SET_rejected_state key value st H). repeat split.
Qed.

(** C10.  [DELETE(key)] is [SET(key, TOMBSTONE)]; it returns false exactly
    when [|key| + 2 >= MAX]; and for a key that [GET] reports absent (and
    below that size) it returns true, maps the key to the tombstone in the
    active buffer and appends the tombstone record to the open log. *)
Theorem DELETE_is_SET_TOMBSTONE (key : string) (st : Database) :
  DELETE' key st = SET' key TOMBSTONE st /\
  (fst (DELETE' key st) = false <-> MAX <= strlen key + 2) /\
  (get' key st = Ret None -> strlen key + 2 < MAX ->
     fst (DELETE' key st) = true /\
     map_find key (write_memtable (snd (DELETE' key st))) = Some TOMBSTONE /\
     forall p recs, wal st = Some p -> dir_get p (dir st) = Some recs ->
       dir_get p (dir (snd (DELETE' key st))) = Some (recs ++ [(key, TOMBSTONE)])%list).
Proof.
  unfold DELETE. split; [reflexivity|]. split.
  - rewrite SET_result, negb_false_iff, TOMBSTONE_length. apply N.leb_le.
  - intros _ Hlen.
    assert (Hok : fst (SET' key TOMBSTONE st) = true).
    { rewrite SET_result, TOMBSTONE_length. apply negb_true_iff, N.leb_gt, Hlen. }
    destruct (SET_accepted_fields key TOMBSTONE st Hok) as (E1 & _ & _ & _ & _ & E6).
    split; [exact Hok|]. split.
    + rewrite E1. apply map_find_insert_same.
    + intros p recs Hw Hd. rewrite E6. now apply append_to_WAL_dir.
Qed.

(** [GET] never hands out the tombstone: a value found in a run is checked
    against it as a value found in the active buffer is. *)
Lemma GET_tier_not_TOMBSTONE (key : string) (runs : list (SortedRun * BloomFilter))
    (value v : string) :
  GET_tier std_hash key runs value = Ret (Some true, v) -> v <> TOMBSTONE.
Proof.
  revert value. induction runs as [|[run filter] runs IH]; intros value; simpl.
  - discriminate.
  - destruct (BloomFilter_contains std_hash key filter); [|apply IH].
    destruct (Find run key value) as [[res value']| |]; simpl; try discriminate.
    destruct res; simpl; [|apply IH].
    destruct (value' =? TOMBSTONE)%string eqn:E; intros [= <-].
    now apply String.eqb_neq.
Qed.

Lemma GET_tiers_not_TOMBSTONE (key : string) (ts : list Tier) (value v : string) :
  GET_tiers std_hash key ts value = Ret (true, v) -> v <> TOMBSTONE.
Proof.
  revert value. induction ts as [|t ts IH]; intros value; simpl; [discriminate|].
  destruct (GET_tier std_hash key (rev t) value) as [[res value']| |] eqn:E; simpl;
    try discriminate.
  destruct res as [b|]; [|apply IH].
  intros [= -> <-]. now apply GET_tier_not_TOMBSTONE in E.
Qed.

Lemma GET_not_TOMBSTONE (key value v : string) (st : Database) :
  GET' key value st = Ret (true, v) -> v <> TOMBSTONE.
Proof.
  unfold GET.
  destruct (if BloomFilter_contains std_hash key (filter_write st)
            then map_find key (write_memtable st) else None) as [w|].
  - destruct (w =? TOMBSTONE)%string eqn:E; simpl; intros [= <-].
    now apply String.eqb_neq.
  - apply GET_tiers_not_TOMBSTONE.
Qed.

(** In every state, a value that [GET(k)] returns is not the tombstone. *)
Lemma get_not_TOMBSTONE (key v : string) (st : Database) :
  get' key st = Ret (Some v) -> v <> TOMBSTONE.
Proof.
  unfold get. destruct (GET' key "" st) as [[res value]| |] eqn:E; simpl;
    try discriminate.
  destruct res; intros [= <-]. now apply GET_not_TOMBSTONE in E.
Qed.

(** A key that the active buffer maps to the tombstone is reported absent. *)
Lemma get_after_DELETE (key : string) (st : Database) :
  fst (DELETE' key st) = true -> get' key (snd (DELETE' key st)) = Ret None.
Proof.
  unfold DELETE. intros H. destruct (SET_active_holds key TOMBSTONE st H) as [Hc Hf].
  rewrite (get_active_hit key TOMBSTONE _ Hc Hf). now rewrite String.eqb_refl.
Qed.

(** ** The binary search terminates *)

Lemma sint64_bound (x : N) : (sint64 x < 2 ^ 63)%Z.
Proof.
  unfold sint64. pose proof (Z.mod_pos_bound (Z.of_N x) (2 ^ 64) eq_refl) as H.
  destruct (Z.ltb_spec (Z.of_N x mod 2 ^ 64) (2 ^ 63)); lia.
Qed.

Lemma long_long_spec (z : Z) :
  (long_long z = Ret z /\ (- 2 ^ 63 <= z < 2 ^ 63)%Z) \/ long_long z = Fault.
Proof.
  unfold long_long. destruct (Z.leb_spec (- 2 ^ 63) z); [|now right].
  destruct (Z.ltb_spec z (2 ^ 63)); [left|now right]. split; [reflexivity|lia].
Qed.

Lemma long_long_small (z : Z) : (- 2 ^ 63 <= z < 2 ^ 63)%Z -> long_long z = Ret z.
Proof.
  intros H. destruct (long_long_spec z) as [[E _]|E]; [exact E|].
  unfold long_long in E. destruct (Z.leb_spec (- 2 ^ 63) z); [|lia].
  destruct (Z.ltb_spec z (2 ^ 63)); [discriminate|lia].
Qed.

(** The interval of the search halves at each probe. *)
Lemma binary_search_loop_fuel (fuel : nat) (key : string) (In : ifstream)
    (metadata : mstream) (idx : N * N * N) (lo hi : Z) (value : string) :
  (hi - lo + 1 < 2 ^ Z.of_nat fuel)%Z ->
  binary_search_loop fuel key In metadata idx lo hi value <> OutOfFuel.
Proof.
  revert In metadata idx lo hi value.
  induction fuel as [|fuel IH]; intros In metadata idx lo hi value Hsize.
  - simpl. destruct (Z.leb_spec lo hi); [|discriminate].
    change (2 ^ Z.of_nat 0)%Z with 1%Z in Hsize. lia.
  - cbn [binary_search_loop]. destruct (Z.leb_spec lo hi) as [Hle|]; [|discriminate].
    rewrite Nat2Z.inj_succ, Z.pow_succ_r in Hsize by lia.
    destruct (long_long_spec (lo + hi)) as [[-> _]| ->]; cbn [bind]; [|discriminate].
    cbv zeta.
    assert (Hmid : (lo <= Z.shiftr (lo + hi) 1 <= hi)%Z).
    { rewrite Z.shiftr_div_pow2 by lia. change (2 ^ 1)%Z with 2%Z.
      split; [apply Z.div_le_lower_bound|apply Z.div_le_upper_bound]; lia. }
    assert (Hlow : (2 * Z.shiftr (lo + hi) 1 <= lo + hi < 2 * Z.shiftr (lo + hi) 1 + 2)%Z).
    { rewrite Z.shiftr_div_pow2 by lia. change (2 ^ 1)%Z with 2%Z.
      pose proof (Z.div_mod (lo + hi) 2) as H1.
      pose proof (Z.mod_pos_bound (lo + hi) 2) as H2. lia. }
    destruct (mread3 idx (mseek (Z.shiftr (lo + hi) 1) metadata))
      as [[[i0 i1] i2] metadata'].
    destruct (i1 <? i0); [discriminate|].
    destruct (fread (i1 - i0) value (fseek i0 In)) as [value1 In2].
    destruct (String.ltb key value1).
    { destruct (long_long_spec (Z.shiftr (lo + hi) 1 - 1)) as [[-> _]| ->];
        cbn [bind]; [apply IH; lia|discriminate]. }
    destruct (key =? value1)%string.
    { destruct (i2 <? i1); discriminate. }
    destruct (long_long_spec (Z.shiftr (lo + hi) 1 + 1)) as [[-> _]| ->];
      cbn [bind]; [apply IH; lia|discriminate].
Qed.

Lemma binary_search_returns (In : ifstream) (metadata : mstream) (entries : N)
    (key value : string) :
  binary_search In metadata entries key value <> OutOfFuel.
Proof.
  unfold binary_search.
  destruct (long_long_spec (sint64 entries - 1)) as [[-> _]| ->]; cbn [bind];
    [|discriminate].
  apply binary_search_loop_fuel.
  pose proof (sint64_bound entries).
  change (2 ^ Z.of_nat 64)%Z with (2 * 2 ^ 63)%Z. lia.
Qed.

Lemma Find_returns (run : SortedRun) (key value : string) :
  Find run key value <> OutOfFuel.
Proof.
  unfold Find. destruct (rev (run_meta run)); [discriminate|].
  apply binary_search_returns.
Qed.

Lemma GET_tier_returns (key : string) (runs : list (SortedRun * BloomFilter))
    (value : string) :
  GET_tier std_hash key runs value <> OutOfFuel.
Proof.
  revert value. induction runs as [|[run filter] runs IH]; intros value; simpl;
    [discriminate|].
  destruct (BloomFilter_contains std_hash key filter); [|apply IH].
  pose proof (Find_returns run key value) as H.
  destruct (Find run key value) as [[res value']| |]; simpl; try congruence.
  destruct (res && _); [discriminate|]. destruct res; [discriminate|apply IH].
Qed.

Lemma GET_tiers_returns (key : string) (ts : list Tier) (value : string) :
  GET_tiers std_hash key ts value <> OutOfFuel.
Proof.
  revert value. induction ts as [|t ts IH]; intros value; simpl; [discriminate|].
  pose proof (GET_tier_returns key (rev t) value) as H.
  destruct (GET_tier std_hash key (rev t) value) as [[res value']| |]; simpl;
    try congruence.
  destruct res; [discriminate|apply IH].
Qed.

(** [GET] is not cut short by the bound on the probes: it returns, or it
    faults on a run that is not in the format. *)
Lemma GET_returns (key value : string) (st : Database) :
  GET' key value st <> OutOfFuel.
Proof.
  unfold GET. destruct (if BloomFilter_contains std_hash key (filter_write st)
                        then map_find key (write_memtable st) else None) as [w|].
  - destruct (negb _); discriminate.
  - apply GET_tiers_returns.
Qed.

(** ** The format of a sorted run *)

Lemma concat_records_app (rs rs' : list record) :
  concat_records (rs ++ rs') = concat_records rs ++ concat_records rs'.
Proof.
  induction rs as [|[k v] rs IH]; simpl; [reflexivity|].
  now rewrite IH, !append_assoc.
Qed.

Lemma offsets_app (off : N) (rs rs' : list record) :
  offsets off (rs ++ rs') =
  (offsets off rs ++ offsets (off + strlen (concat_records rs)) rs')%list.
Proof.
  revert off. induction rs as [|[k v] rs IH]; intros off; simpl.
  - now rewrite N.add_0_r.
  - rewrite IH, !strlen_append. do 2 f_equal.
    f_equal. f_equal. lia.
Qed.

Lemma offsets_length (off : N) (rs : list record) :
  List.length (offsets off rs) = (2 * List.length rs)%nat.
Proof.
  revert off. induction rs as [|[k v] rs IH]; intros off; simpl; [reflexivity|].
  rewrite IH. lia.
Qed.

(** The loop of [FLUSH] writes the records of the buffer in the format. *)
Lemma FLUSH_entries_format (m : map) (tot_size : N) :
  FLUSH_entries m tot_size = (concat_records m, offsets tot_size m).
Proof.
  revert tot_size. induction m as [|[i j] m IH]; intros t; simpl; [reflexivity|].
  now rewrite IH.
Qed.

(** The run written by the Flusher: it holds the records of the frozen
    buffer, and the last word of its index is their number. *)
Lemma FLUSH_run_holds (m : map) :
  holds (FLUSH_run m) m /\ run_count (FLUSH_run m) = N.of_nat (List.length m).
Proof.
  unfold FLUSH_run, holds, run_count. rewrite FLUSH_entries_format. simpl. split.
  - split; [reflexivity|]. now exists (N.of_nat (List.length m)).
  - destruct (offsets 0 m ++ [N.of_nat (List.length m)])%list eqn:E.
    + now destruct (offsets 0 m).
    + rewrite <- E. apply last_last.
Qed.

(** Decoding the concatenation of records with their offsets gives the
    records back, whatever follows them in the file. *)
Lemma decode_entries_format (rs : list record) (off : N) (tail : string) :
  decode_entries (concat_records rs ++ tail) off (offsets off rs) = rs.
Proof.
  revert off. induction rs as [|[k v] rs IH]; intros off; simpl; [reflexivity|].
  replace (off + strlen k - off) with (strlen k) by lia.
  replace (off + strlen k + strlen v - (off + strlen k)) with (strlen v) by lia.
  replace (off + strlen k + strlen v - off) with (strlen k + strlen v) by lia.
  rewrite N2Nat.inj_add, !strlen_to_nat, !append_assoc.
  rewrite take_append, drop_append, take_append.
  rewrite <- drop_drop, drop_append, drop_append. now rewrite IH.
Qed.

(** The records of a run in the format are the records it was written from. *)
Lemma run_records_holds (r : SortedRun) (rs : list record) :
  holds r rs -> run_records r = rs.
Proof.
  intros [Hd [c Hm]]. unfold run_records. rewrite Hm, Hd, removelast_last.
  rewrite <- (append_empty_r (concat_records rs)). apply decode_entries_format.
Qed.

Lemma run_count_holds (r : SortedRun) (rs : list record) (c : N) :
  run_meta r = (0 :: offsets 0 rs ++ [c])%list -> run_count r = c.
Proof.
  intros Hm. unfold run_count. rewrite Hm.
  change (0 :: offsets 0 rs ++ [c])%list with ((0 :: offsets 0 rs) ++ [c])%list.
  apply last_last.
Qed.

(** ** The output of [merge] *)


Local Abbreviation emit' := (emit std_hash).
Local Abbreviation merge' := (merge std_hash).
Local Abbreviation merge_loop' := (merge_loop std_hash).

(** The records that reach the output: all of them, or the live ones when
    [last] is set. *)
Lemma emit_out_holds (last : bool) (o : merge_out) (rs : list record) (r : record) :
  out_holds o rs ->
  out_holds (emit' last o r)
            (rs ++ (if last && negb (live r) then [] else [r]))%list.
Proof.
  intros (Hd & Hm & Ht & Hc). unfold emit, live. rewrite negb_involutive.
  destruct (last && (snd r =? TOMBSTONE)%string).
  - rewrite app_nil_r. repeat split; assumption.
  - destruct r as [k v]. unfold out_holds, Write. cbn -[N.mul N.add].
    rewrite concat_records_app, offsets_app, Hd, Hm, Ht, Hc. cbn -[N.mul N.add].
    rewrite !append_empty_r, ?N.add_0_l, !strlen_append, length_app.
    cbn -[N.mul N.add]. repeat split; try reflexivity; lia.
Qed.

Lemma fold_emit_out_holds (last : bool) (sels : list record) (o : merge_out)
    (rs : list record) :
  out_holds o rs ->
  out_holds (fold_left (emit' last) sels o)
            (rs ++ (if last then filter live sels else sels))%list.
Proof.
  revert o rs. induction sels as [|r sels IH]; intros o rs H; simpl.
  - destruct last; now rewrite app_nil_r.
  - specialize (IH _ _ (emit_out_holds last o rs r H)).
    rewrite <- app_assoc in IH.
    destruct last; simpl in *; [|exact IH].
    destruct (live r); simpl in *; exact IH.
Qed.

Lemma merge_out_init_holds (temp0 : BloomFilter) : out_holds (merge_out_init temp0) [].
Proof. repeat split. Qed.

(** The loop of [merge] writes the records that it selects, and [last] has
    no part in the selection. *)
Lemma merge_loop_selects (fuel : nat) (last : bool) (cs : list cursor)
    (prev : string) (sc : scratch) (o : merge_out) :
  merge_loop' fuel last cs prev sc o =
  (sels <- merge_selects fuel cs prev sc ;; Ret (fold_left (emit' last) sels o)).
Proof.
  revert cs prev sc o. induction fuel as [|fuel IH]; intros cs prev sc o; simpl.
  - reflexivity.
  - destruct (merge_scan prev cs (sc, None)) as [[cs' [sc' sel]]| |]; simpl;
      try reflexivity.
    destruct sel as [[key val]|]; [|reflexivity].
    rewrite IH. unfold emit at 2. simpl.
    destruct (merge_selects fuel cs' key sc'); reflexivity.
Qed.

(** [merge] in terms of the records selected: the run holds those that are
    kept, and the last word of its index is twice their number. *)
Lemma merge_selects_run (src : list SortedRun) (temp0 : BloomFilter) (last : bool) :
  match merge_selects (merge_fuel src) (List.map open_cursor src) "" (None, None) with
  | Ret sels =>
      exists run f,
        merge' src temp0 last = Ret (run, f) /\
        holds run (if last then filter live sels else sels) /\
        run_count run =
          2 * N.of_nat (List.length (if last then filter live sels else sels))
  | Fault => merge' src temp0 last = Fault
  | OutOfFuel => merge' src temp0 last = OutOfFuel
  end.
Proof.
  unfold merge. rewrite merge_loop_selects.
  destruct (merge_selects _ _ _ _) as [sels| |]; simpl; try reflexivity.
  pose proof (fold_emit_out_holds last sels _ [] (merge_out_init_holds temp0)) as H.
  rewrite app_nil_l in H. destruct H as (Hd & Hm & Ht & Hc).
  eexists. eexists. split; [reflexivity|].
  unfold holds, merge_out_init in *. cbn [run_data run_meta]. rewrite Hd, Hm. split.
  - split; [reflexivity|]. eexists. reflexivity.
  - etransitivity; [|exact Hc]. eapply run_count_holds. reflexivity.
Qed.

(** ** Reading a run in the format *)

Lemma skipn_next {A : Type} (n : nat) (l : list A) (w : A) (ws : list A) :
  skipn n l = w :: ws -> skipn (S n) l = ws.
Proof.
  assert (H : forall m (k : list A), skipn (S m) k = tl (skipn m k)).
  { induction m as [|m IH]; intros [|x k]; try reflexivity.
    change (skipn (S m) k = tl (skipn m k)). apply IH. }
  intros E. now rewrite H, E.
Qed.

Lemma m_rest_next (m : mstream) (w : N) (ws : list N) :
  m_rest m = w :: ws ->
  m_rest (mk_mstream (m_words m) (m_pos m + 1) true) = ws.
Proof.
  unfold m_rest. simpl. intros H.
  replace (N.to_nat (m_pos m + 1)) with (S (N.to_nat (m_pos m))) by lia.
  now apply skipn_next with w.
Qed.

Lemma mread_scratch_next (cur : option N) (m : mstream) (w : N) (ws : list N) :
  m_good m = true -> m_rest m = w :: ws ->
  exists m', mread_scratch cur m = (Some w, m') /\ m_good m' = true /\ m_rest m' = ws.
Proof.
  intros Hg Hr. unfold mread_scratch. rewrite Hg, Hr.
  eexists. split; [reflexivity|]. split; [reflexivity|]. now apply m_rest_next with w.
Qed.

(** A read of the bytes [s] that are next in a good stream returns them and
    leaves the stream good, whatever the buffer held. *)
Lemma fread_next (s t buf : string) (f : ifstream) :
  f_good f = true -> f_rest f = s ++ t ->
  exists f', fread (strlen s) buf f = (s, f') /\ f_good f' = true /\ f_rest f' = t.
Proof.
  intros Hg Hr. unfold fread. rewrite Hg, Hr, strlen_append.
  replace (strlen s <=? strlen s + strlen t) with true
    by (symmetry; apply N.leb_le; lia).
  rewrite strlen_to_nat, take_append.
  eexists. split; [reflexivity|]. split; [reflexivity|].
  unfold f_rest in *. simpl.
  rewrite N2Nat.inj_add, strlen_to_nat, <- drop_drop, Hr. apply drop_append.
Qed.

Local Abbreviation cand_select sel c :=
  (match c with Some d => select sel d | None => sel end).

(** One visit of the scan on a run in the format does on records what
    [acand] and [anext] say, and does not fault. *)
Lemma merge_visit_crep (prev : string) (c : cursor) (a : acursor) (sc : scratch)
    (sel : option record) :
  crep c a ->
  exists c' sc',
    merge_visit prev c (sc, sel) = Ret (c', (sc', cand_select sel (acand prev a))) /\
    crep c' (anext prev a).
Proof.
  destruct a as [hd rest]. intros (Hd & Hg & Hr & Hmg & cw & Hm). simpl in *.
  unfold merge_visit, acand, anext. destruct sc as [key_idx val_idx].
  rewrite Hd. destruct (String.ltb prev (fst hd)).
  - exists c, (key_idx, val_idx). split; [reflexivity|].
    repeat split; try assumption. now exists cw.
  - unfold peek_not_eof. rewrite Hg, Hr. simpl.
    destruct rest as [|[k v] rest'].
    + simpl. exists c, (key_idx, val_idx). split; [reflexivity|].
      repeat split; try assumption. now exists cw.
    + destruct (negb (concat_records ((k, v) :: rest') =? "")%string) eqn:Hne.
      * simpl in Hm, Hr.
        destruct (mread_scratch_next key_idx _ _ _ Hmg Hm) as (m1 & E1 & Hg1 & Hr1).
        destruct (mread_scratch_next val_idx _ _ _ Hg1 Hr1) as (m2 & E2 & Hg2 & Hr2).
        rewrite E1, E2.
        replace (c_pre_idx c + strlen k <? c_pre_idx c) with false
          by (symmetry; apply N.ltb_ge; lia).
        replace (c_pre_idx c + strlen k - c_pre_idx c) with (strlen k) by lia.
        destruct (fread_next k _ (fst hd) _ Hg Hr) as (s1 & F1 & Hsg1 & Hsr1).
        rewrite F1.
        replace (c_pre_idx c + strlen k + strlen v <? c_pre_idx c + strlen k)
          with false by (symmetry; apply N.ltb_ge; lia).
        replace (c_pre_idx c + strlen k + strlen v - (c_pre_idx c + strlen k))
          with (strlen v) by lia.
        destruct (fread_next v _ (snd hd) _ Hsg1 Hsr1) as (s2 & F2 & Hsg2 & Hsr2).
        rewrite F2. cbn in Hne |- *. rewrite ?Hne.
        eexists. eexists. split; [reflexivity|].
        repeat split; simpl; try assumption. now exists cw.
      * cbn in Hne |- *. rewrite ?Hne.
        exists c, (key_idx, val_idx). split; [reflexivity|].
        repeat split; try assumption. now exists cw.
Qed.

(** The scan on runs in the format. *)
Lemma merge_scan_crep (prev : string) (cs : list cursor) (acs : list acursor)
    (sc : scratch) :
  Forall2 crep cs acs ->
  exists cs' sc',
    merge_scan prev cs (sc, None) = Ret (cs', (sc', aselect prev acs)) /\
    Forall2 crep cs' (List.map (anext prev) acs).
Proof.
  induction 1 as [|c a cs acs Hc Hcs IH]; simpl.
  - exists [], sc. split; [reflexivity|constructor].
  - destruct IH as (cs' & sc' & E & Hcs'). rewrite E. cbn [bind].
    destruct (merge_visit_crep prev c a sc' (aselect prev acs) Hc)
      as (c' & sc'' & Ev & Hc').
    rewrite Ev. cbn [bind]. exists (c' :: cs'), sc''. split; [reflexivity|].
    now constructor.
Qed.

(** The loop on runs in the format selects what [aloop] selects, and does
    not fault. *)
Lemma merge_selects_crep (fuel : nat) (cs : list cursor) (acs : list acursor)
    (prev : string) (sc : scratch) :
  Forall2 crep cs acs ->
  merge_selects fuel cs prev sc =
  match aloop fuel acs prev with
  | Some sels => Ret sels
  | None => OutOfFuel
  end.
Proof.
  revert cs acs prev sc. induction fuel as [|fuel IH]; intros cs acs prev sc H.
  - reflexivity.
  - simpl. destruct (merge_scan_crep prev cs acs sc H) as (cs' & sc' & E & H').
    rewrite E. cbn [bind]. destruct (aselect prev acs) as [[key val]|]; [|reflexivity].
    rewrite (IH _ _ key sc' H').
    destruct (aloop fuel (List.map (anext prev) acs) key); reflexivity.
Qed.

(** The cursor that [merge] opens on a run in the format. *)
Lemma open_cursor_crep (r : SortedRun) (rs : list record) :
  holds r rs -> crep (open_cursor r) (("", ""), rs).
Proof.
  intros [Hd [c Hm]]. unfold open_cursor, mread, open_meta, m_rest. simpl.
  rewrite Hm. simpl. repeat split; try assumption. now exists c.
Qed.

Lemma open_cursors_crep (src : list SortedRun) (runs : list (list record)) :
  Forall2 holds src runs ->
  Forall2 crep (List.map open_cursor src) (List.map (fun rs => (("", ""), rs)) runs).
Proof.
  induction 1; simpl; constructor; [now apply open_cursor_crep|assumption].
Qed.

(** ** The selection of a scan *)

Lemma aselect_none (prev : string) (cs : list acursor) :
  aselect prev cs = None -> forall c, In c cs -> acand prev c = None.
Proof.
  induction cs as [|a cs IH]; simpl; [intros _ ? []|].
  destruct (acand prev a) as [d|] eqn:E.
  - unfold select. destruct (aselect prev cs) as [[k v]|]; [|discriminate].
    destruct (String.ltb (fst d) k); discriminate.
  - intros H c [<-|Hin]; auto.
Qed.

(** No record offered in the scan has a key below the selected one. *)
Lemma aselect_bound (prev : string) (cs : list acursor) (d : record) :
  aselect prev cs = Some d ->
  forall c d', In c cs -> acand prev c = Some d' ->
    String.ltb (fst d') (fst d) = false.
Proof.
  revert d. induction cs as [|a cs IH]; simpl; intros d H; [discriminate|].
  destruct (acand prev a) as [da|] eqn:Ea.
  - destruct (aselect prev cs) as [[k v]|] eqn:Es; simpl in H.
    + destruct (String.ltb (fst da) k) eqn:El; inversion H; subst d; clear H;
        intros c d' [<-|Hin] Hc.
      * rewrite Ea in Hc. inversion Hc; subst. apply ltb_irrefl.
      * specialize (IH _ eq_refl c d' Hin Hc). simpl in IH.
        apply lt_le. now apply lt_le_trans with k.
      * rewrite Ea in Hc. inversion Hc; subst. exact El.
      * exact (IH _ eq_refl c d' Hin Hc).
    + inversion H; subst d; clear H. intros c d' [<-|Hin] Hc.
      * rewrite Ea in Hc. inversion Hc; subst. apply ltb_irrefl.
      * rewrite (aselect_none _ _ Es c Hin) in Hc. discriminate.
  - intros c d' [<-|Hin] Hc; [congruence|]. now apply (IH d H c d').
Qed.

(** The selected record is offered by an input, and the inputs after it
    offer records with larger keys only: on a tie the last input wins. *)
Lemma aselect_split (prev : string) (cs : list acursor) (d : record) :
  aselect prev cs = Some d ->
  exists l1 c l2,
    cs = (l1 ++ c :: l2)%list /\ acand prev c = Some d /\
    forall c' d', In c' l2 -> acand prev c' = Some d' ->
      String.ltb (fst d) (fst d') = true.
Proof.
  revert d. induction cs as [|a cs IH]; simpl; intros d H; [discriminate|].
  destruct (acand prev a) as [da|] eqn:Ea.
  - destruct (aselect prev cs) as [[k v]|] eqn:Es; simpl in H.
    + destruct (String.ltb (fst da) k) eqn:El; inversion H; subst d; clear H.
      * exists [], a, cs. repeat split; try assumption.
        intros c' d' Hin Hc. pose proof (aselect_bound _ _ _ Es c' d' Hin Hc) as Hb.
        simpl in Hb. now apply lt_le_trans with k.
      * destruct (IH _ eq_refl) as (l1 & c & l2 & -> & Hc & Hl2).
        exists (a :: l1), c, l2. repeat split; assumption.
    + inversion H; subst d; clear H. exists [], a, cs. repeat split; try assumption.
      intros c' d' Hin Hc. rewrite (aselect_none _ _ Es c' Hin) in Hc. discriminate.
  - destruct (IH _ H) as (l1 & c & l2 & -> & Hc & Hl2).
    exists (a :: l1), c, l2. repeat split; assumption.
Qed.

(** ** The invariant of the loop of [merge] *)

(** A record offered by an input is a record of its run, and its key is
    above [prev] once the first scan is made. *)
Lemma cand_in_run (first : bool) (prev : string) (run : list record) (a : acursor)
    (d : record) :
  cinv first prev run a -> acand prev a = Some d ->
  In d run /\ (first = false -> String.ltb prev (fst d) = true).
Proof.
  destruct a as [hd rest].
  intros (done & HR & Hhd & Hs & F2 & F3 & F4 & F5) Hc. simpl in *.
  destruct (String.ltb prev (fst hd)) eqn:Ep.
  - inversion Hc; subst d; clear Hc. split; [|auto].
    assert (Hne : done <> []).
    { intros ->. simpl in Hhd. rewrite Hhd in Ep. simpl in Ep.
      rewrite ltb_empty in Ep. discriminate. }
    rewrite HR, Hhd. apply in_or_app. left. now apply last_in.
  - destruct rest as [|r rest']; [discriminate|].
    destruct (negb (concat_records (r :: rest') =? "")%string) eqn:Hne; [|discriminate].
    inversion Hc; subst d; clear Hc. split.
    + rewrite HR. apply in_or_app. right. now left.
    + intros ->. apply negb_true_iff, String.eqb_neq in Hne.
      assert (Hd : done <> []).
      { intros E. destruct (F4 E) as [H|H]; [contradiction|discriminate]. }
      destruct (F3 Hd) as [H|H]; [contradiction|].
      rewrite (le_antisym _ _ Ep H).
      rewrite HR in Hs. apply sorted_keys_app in Hs. destruct Hs as (_ & _ & Hs).
      rewrite Hhd. apply Hs; [now apply last_in|now left].
Qed.

(** One turn of the loop keeps the invariant of an input and does not
    increase its measure; the measure of the input that offers the selected
    key decreases. *)
Lemma cinv_step (first : bool) (prev k : string) (run : list record) (a : acursor) :
  cinv first prev run a ->
  (first = false -> String.ltb prev k = true) ->
  (forall d, acand prev a = Some d -> String.ltb (fst d) k = false) ->
  cinv false k run (anext prev a) /\
  (mu k (anext prev a) <= mu prev a)%nat /\
  (forall d, acand prev a = Some d -> fst d = k ->
     (mu k (anext prev a) < mu prev a)%nat).
Proof.
  destruct a as [hd rest].
  intros (done & HR & Hhd & Hs & F2 & F3 & F4 & F5) Hk Hmin.
  unfold anext, acand, mu in *. simpl in *.
  assert (HA : forall r, In r (removelast done) -> String.ltb k (fst r) = false).
  { intros r Hin. destruct first.
    - rewrite (F5 eq_refl) in Hin. destruct Hin.
    - apply lt_le. apply le_lt_trans with prev; [now apply F2|now apply Hk]. }
  assert (HB : done <> [] -> String.ltb prev (fst hd) = false ->
               String.ltb k (fst hd) = false).
  { intros Hd Hp. destruct first.
    - now specialize (F5 eq_refl).
    - apply lt_le. apply le_lt_trans with prev; [exact Hp|now apply Hk]. }
  destruct (String.ltb prev (fst hd)) eqn:Ep.
  - (* the head is pending *)
    assert (Hne : done <> []).
    { intros ->. simpl in Hhd. rewrite Hhd in Ep. simpl in Ep.
      rewrite ltb_empty in Ep. discriminate. }
    split; [|split].
    + exists done. simpl. repeat split; try assumption.
      * intros _. right. now apply Hmin.
      * intros E. contradiction.
      * discriminate.
    + simpl. destruct (String.ltb k (fst hd)); lia.
    + intros d [= <-] E. simpl. rewrite E, ltb_irrefl. lia.
  - destruct rest as [|r rest'].
    + (* nothing left to read *)
      split; [|split].
      * exists done. simpl. repeat split; try assumption; try discriminate.
        -- intros _. now left.
        -- intros _. now left.
      * simpl. destruct done as [|x done'].
        -- simpl in Hhd. rewrite Hhd. simpl. rewrite ltb_empty. lia.
        -- rewrite HB; [lia|discriminate|reflexivity].
      * discriminate.
    + destruct (negb (concat_records (r :: rest') =? "")%string) eqn:Hne.
      * (* the next record is read *)
        split; [|split].
        -- exists (done ++ [r])%list. simpl. repeat split.
           ++ now rewrite <- app_assoc.
           ++ now rewrite last_last.
           ++ assumption.
           ++ rewrite removelast_last. intros x Hin.
              assert (Hd : done <> []) by (intros ->; destruct Hin).
              destruct (in_removelast_or_last x done ("", "") Hin) as [H|H].
              ** now apply HA.
              ** rewrite H, <- Hhd. now apply HB.
           ++ intros _. right. now apply Hmin.
           ++ intros E. now destruct done.
           ++ discriminate.
        -- simpl. destruct (String.ltb k (fst r)); lia.
        -- intros d [= <-] E. simpl. rewrite E, ltb_irrefl. lia.
      * (* the data file is at its end *)
        apply negb_false_iff, String.eqb_eq in Hne.
        split; [|split].
        -- exists done. simpl. repeat split; try assumption; try discriminate.
           ++ intros _. now left.
           ++ intros _. now left.
        -- simpl. destruct done as [|x done'].
           ++ simpl in Hhd. rewrite Hhd. simpl. rewrite ltb_empty. lia.
           ++ rewrite HB; [lia|discriminate|reflexivity].
        -- discriminate.
Qed.

(** An input that offers nothing, or a record above the key [k], does not
    hold [k], unless it is the run of the single empty record. *)
Lemma newer_no_key (first : bool) (prev k : string) (run : list record)
    (a : acursor) :
  cinv first prev run a ->
  run <> empty_record_run ->
  (first = false -> String.ltb prev k = true) ->
  (forall d, acand prev a = Some d -> String.ltb k (fst d) = true) ->
  ~ In k (List.map fst run).
Proof.
  destruct a as [hd rest].
  intros (done & HR & Hhd & Hs & F2 & F3 & F4 & F5) Hrun Hk Hstrict Hin.
  unfold acand in Hstrict. simpl in *.
  apply in_map_iff in Hin. destruct Hin as ([k' v'] & E & Hin). simpl in E. subst k'.
  pose proof Hs as Hs'. rewrite HR in Hs'. apply sorted_keys_app in Hs'.
  destruct Hs' as (Hsd & Hsr & Hdr).
  rewrite HR in Hin. apply in_app_or in Hin. destruct Hin as [Hin|Hin].
  - (* the key was read *)
    destruct first; [now rewrite (F5 eq_refl) in Hin|].
    specialize (Hk eq_refl).
    destruct (in_removelast_or_last _ done ("", "") Hin) as [H|E].
    + apply F2 in H. simpl in H. congruence.
    + rewrite <- Hhd in E. rewrite <- E in Hstrict. simpl in Hstrict.
      rewrite Hk in Hstrict. specialize (Hstrict _ eq_refl). simpl in Hstrict.
      rewrite ltb_irrefl in Hstrict. discriminate.
  - (* the key is still to be read *)
    destruct (String.ltb prev (fst hd)) eqn:Ep.
    + specialize (Hstrict _ eq_refl).
      assert (Hd : done <> []).
      { intros ->. simpl in Hhd. rewrite Hhd in Ep. simpl in Ep.
        rewrite ltb_empty in Ep. discriminate. }
      assert (H : String.ltb (fst hd) k = true).
      { rewrite Hhd. apply (Hdr _ (k, v')); [now apply last_in|exact Hin]. }
      rewrite (ltb_asym _ _ H) in Hstrict. discriminate.
    + destruct rest as [|r rest']; [destruct Hin|].
      destruct (negb (concat_records (r :: rest') =? "")%string) eqn:Hne.
      * specialize (Hstrict _ eq_refl). destruct Hin as [->|Hin].
        -- simpl in Hstrict. rewrite ltb_irrefl in Hstrict. discriminate.
        -- apply sorted_keys_cons in Hsr. destruct Hsr as [Hsr _].
           specialize (Hsr _ Hin). simpl in Hsr.
           rewrite (ltb_asym _ _ Hsr) in Hstrict. discriminate.
      * apply negb_false_iff, String.eqb_eq in Hne.
        destruct (concat_records_empty _ Hsr Hne) as [E|E]; [discriminate|].
        apply Hrun. rewrite HR, E. destruct done as [|x done']; [reflexivity|].
        exfalso. assert (Hd : x :: done' <> []) by discriminate.
        pose proof (Hdr _ ("", "") (last_in _ ("", "") Hd)) as H.
        rewrite E in H. specialize (H (or_introl eq_refl)). simpl in H.
        rewrite ltb_empty in H. discriminate.
Qed.

Lemma Forall2_in_left {A B : Type} (P : A -> B -> Prop) (l : list A) (l' : list B)
    (x : A) :
  Forall2 P l l' -> In x l -> exists y, In y l' /\ P x y.
Proof.
  induction 1 as [|a b l l' Hab Hl IH]; intros Hin; [destruct Hin|].
  destruct Hin as [<-|Hin].
  - exists b. split; [now left|exact Hab].
  - destruct (IH Hin) as (y & Hy & Hp). exists y. split; [now right|exact Hp].
Qed.

Lemma in_tl_app {A : Type} (x r : A) (l1 l2 : list A) :
  In x l2 -> In x (tl (l1 ++ r :: l2)).
Proof.
  intros H. destruct l1 as [|y l1]; simpl; [exact H|].
  apply in_or_app. right. now right.
Qed.

(** One turn of the loop on all the inputs. *)
Lemma cinv_step_all (first : bool) (prev k : string) (runs : list (list record))
    (cs : list acursor) :
  Forall2 (cinv first prev) runs cs ->
  (first = false -> String.ltb prev k = true) ->
  (forall c d, In c cs -> acand prev c = Some d -> String.ltb (fst d) k = false) ->
  Forall2 (cinv false k) runs (List.map (anext prev) cs) /\
  (mu_all k (List.map (anext prev) cs) <= mu_all prev cs)%nat /\
  (forall c d, In c cs -> acand prev c = Some d -> fst d = k ->
     (mu_all k (List.map (anext prev) cs) < mu_all prev cs)%nat).
Proof.
  intros H Hk. induction H as [|run a runs cs Ha Hcs IH]; intros Hmin.
  - simpl. repeat split; [constructor|lia|intros ? ? []].
  - destruct (cinv_step first prev k run a Ha Hk) as (H1 & H2 & H3).
    { intros d. apply Hmin. now left. }
    destruct IH as (I1 & I2 & I3).
    { intros c d Hin. apply Hmin. now right. }
    simpl. repeat split.
    + now constructor.
    + lia.
    + intros c d [<-|Hin] Hc E.
      * specialize (H3 d Hc E). lia.
      * specialize (I3 c d Hin Hc E). lia.
Qed.

(** The loop of [merge] on runs with increasing keys: it terminates within
    the fuel that the measure gives; the keys that it selects increase; and
    each selected record comes from a run after which no run holds its key,
    the run of the single empty record apart. *)
Lemma aloop_spec (fuel : nat) (first : bool) (prev : string)
    (runs : list (list record)) (cs : list acursor) :
  Forall2 (cinv first prev) runs cs ->
  (mu_all prev cs < fuel)%nat ->
  exists sels,
    aloop fuel cs prev = Some sels /\
    sorted_keys sels /\
    (first = false -> forall r, In r sels -> String.ltb prev (fst r) = true) /\
    (forall k v, In (k, v) sels ->
       exists older r newer,
         runs = (older ++ r :: newer)%list /\ In (k, v) r /\
         forall r', In r' newer -> r' <> empty_record_run ->
           ~ In k (List.map fst r')).
Proof.
  revert first prev cs. induction fuel as [|fuel IH]; intros first prev cs Hinv Hmu;
    [lia|].
  simpl. destruct (aselect prev cs) as [[k v]|] eqn:Es.
  - destruct (aselect_split _ _ _ Es) as (l1 & c & l2 & Ecs & Hc & Hl2).
    assert (Hin : In c cs) by (rewrite Ecs; apply in_or_app; right; now left).
    pose proof Hinv as Hinv'. rewrite Ecs in Hinv'.
    apply Forall2_app_inv_r in Hinv'.
    destruct Hinv' as (runs1 & runs2' & Hr1 & Hr2 & Eruns).
    inversion Hr2 as [|run c0 runs2 l2' Hrun Hruns2 E1 E2]; subst c0 l2' runs2'.
    destruct (cand_in_run _ _ _ _ _ Hrun Hc) as [Hkv Hk]. simpl in Hk.
    destruct (cinv_step_all first prev k runs cs Hinv Hk) as (Hnext & _ & Hlt).
    { intros c' d' Hin' Hc'. exact (aselect_bound _ _ _ Es c' d' Hin' Hc'). }
    specialize (Hlt c (k, v) Hin Hc eq_refl).
    destruct (IH false k _ Hnext) as (sels & Hloop & Hsorted & Hbound & Hnew);
      [lia|].
    rewrite Hloop. simpl. exists ((k, v) :: sels). split; [reflexivity|].
    specialize (Hbound eq_refl). split; [|split].
    + apply sorted_keys_cons. split; [|exact Hsorted].
      intros r' Hr'. now apply Hbound.
    + intros Hf r [<-|Hr]; [now apply Hk|].
      apply ltb_trans with k; [now apply Hk|now apply Hbound].
    + intros k' v' [[= <- <-]|Hkv']; [|now apply Hnew].
      exists runs1, run, runs2. split; [exact Eruns|]. split; [exact Hkv|].
      intros r' Hr' Hne.
      destruct (Forall2_in_left _ _ _ _ Hruns2 Hr') as (c' & Hc' & Hinv').
      apply (newer_no_key first prev k r' c' Hinv' Hne Hk).
      intros d' Hd'. exact (Hl2 c' d' Hc' Hd').
  - exists []. split; [reflexivity|]. split; [exact I|].
    split; [intros _ r []|intros k v []].
Qed.

(** The state in which [merge] enters its loop. *)
Lemma cinv_init (runs : list (list record)) :
  Forall sorted_keys runs ->
  Forall2 (cinv true "") runs (List.map (fun rs => (("", ""), rs)) runs).
Proof.
  induction 1 as [|run runs Hs _ IH]; simpl; constructor; [|exact IH].
  exists []. simpl. repeat split; try assumption; tauto.
Qed.

Lemma mu_all_init (runs : list (list record)) :
  mu_all "" (List.map (fun rs => (("", ""), rs)) runs) = total_records runs.
Proof.
  induction runs as [|run runs IH]; simpl; [reflexivity|].
  rewrite IH. unfold mu. simpl. lia.
Qed.

Lemma merge_fuel_enough (src : list SortedRun) (runs : list (list record)) :
  Forall2 holds src runs -> (total_records runs < merge_fuel src)%nat.
Proof.
  unfold merge_fuel. induction 1 as [|r rs src runs [_ [c Hm]] _ IH]; simpl; [lia|].
  rewrite Hm. simpl. rewrite length_app, offsets_length. simpl. lia.
Qed.

Lemma sorted_keys_filter (f : record -> bool) (l : list record) :
  sorted_keys l -> sorted_keys (filter f l).
Proof.
  induction l as [|r l IH]; [tauto|]. intros H.
  apply sorted_keys_cons in H. destruct H as [H1 H2]. simpl.
  destruct (f r); [|now apply IH].
  apply sorted_keys_cons. split; [|now apply IH].
  intros r' Hr'. apply filter_In in Hr'. now apply H1.
Qed.

(** [merge] on input runs that are in the format and have increasing keys:
    it returns a run in the format whose records have strictly increasing
    keys; and, when no input run but the oldest is the run of the single
    empty record, the value emitted for a key is the one of the newest input
    run that holds the key. *)
Lemma merge_on_sorted_runs (src : list SortedRun) (runs : list (list record))
    (temp0 : BloomFilter) (last : bool) :
  Forall2 holds src runs ->
  Forall sorted_keys runs ->
  exists run f,
    merge' src temp0 last = Ret (run, f) /\
    holds run (run_records run) /\
    sorted_keys (run_records run) /\
    (Forall (fun r => r <> empty_record_run) (tl runs) ->
     forall k v, In (k, v) (run_records run) -> newest runs k v).
Proof.
  intros Hholds Hsorted.
  pose proof (merge_selects_run src temp0 last) as Hrun.
  rewrite (merge_selects_crep _ _ _ "" (None, None) (open_cursors_crep _ _ Hholds))
    in Hrun.
  destruct (aloop_spec (merge_fuel src) true "" runs _ (cinv_init runs Hsorted))
    as (sels & Hloop & Hs & _ & Hnew).
  { rewrite mu_all_init. now apply merge_fuel_enough. }
  rewrite Hloop in Hrun. destruct Hrun as (run & f & Hm & Hh & _).
  exists run, f. rewrite (run_records_holds _ _ Hh).
  split; [exact Hm|]. split; [exact Hh|]. split.
  - destruct last; [now apply sorted_keys_filter|exact Hs].
  - intros Hne k v Hin.
    assert (Hin' : In (k, v) sels).
    { destruct last; [now apply filter_In in Hin|exact Hin]. }
    destruct (Hnew k v Hin') as (older & r & newer & E & Hr & Hnewer).
    exists older, r, newer. split; [exact E|]. split; [exact Hr|].
    intros r' Hr'. apply Hnewer; [exact Hr'|].
    rewrite Forall_forall in Hne. apply Hne. rewrite E. now apply in_tl_app.
Qed.

(** ** Database::compact *)

Local Abbreviation compact_step' := (compact_step std_hash).

Lemma list_set_length {A : Type} (n : nat) (x : A) (l : list A) :
  List.length (list_set n x l) = List.length l.
Proof.
  revert n. induction l as [|y l IH]; intros [|n]; simpl; try reflexivity.
  now rewrite IH.
Qed.

Lemma nth_list_set_same {A : Type} (n : nat) (x d : A) (l : list A) :
  (n < List.length l)%nat -> nth n (list_set n x l) d = x.
Proof.
  revert n. induction l as [|y l IH]; intros [|n] H; simpl in *; try lia.
  - reflexivity.
  - apply IH. lia.
Qed.

Lemma nth_list_set_other {A : Type} (n m : nat) (x d : A) (l : list A) :
  n <> m -> nth m (list_set n x l) d = nth m l d.
Proof.
  revert n m. induction l as [|y l IH]; intros [|n] [|m] H; simpl; try reflexivity.
  - congruence.
  - apply IH. congruence.
Qed.

(** The last word of the index of a run written by [merge] is twice the
    number of its records: [count] is advanced before the call of [Write]
    and once more in it. *)
Lemma merge_count_doubles (src : list SortedRun) (temp0 : BloomFilter) (last : bool)
    (run : SortedRun) (f : BloomFilter) :
  merge' src temp0 last = Ret (run, f) ->
  holds run (run_records run) /\
  run_count run = 2 * N.of_nat (List.length (run_records run)).
Proof.
  intros H. pose proof (merge_selects_run src temp0 last) as Hrun.
  destruct (merge_selects _ _ _ _) as [sels| |]; try congruence.
  destruct Hrun as (run' & f' & Hm & Hh & Hc). rewrite H in Hm.
  inversion Hm; subst run' f'. now rewrite (run_records_holds _ _ Hh).
Qed.


(** ** Start-up *)

Local Abbreviation replay' := (replay std_hash).
Local Abbreviation flush_if_full' := (flush_if_full std_hash).
Local Abbreviation initializer_helper' := (initializer_helper std_hash).
Local Abbreviation initialize_memtable' := (initialize_memtable std_hash).

Lemma replay_app (l1 l2 : list record) (st : Database) :
  replay' (l1 ++ l2) st = replay' l2 (replay' l1 st).
Proof. unfold replay. apply fold_left_app. Qed.

(** The replay leaves the log files alone. *)
Lemma replay_files (recs : list record) (st : Database) :
  WAL (replay' recs st) = WAL st /\ wal (replay' recs st) = wal st /\
  dir (replay' recs st) = dir st.
Proof.
  revert st. induction recs as [|[k v] recs IH]; intros st; [now repeat split|].
  unfold replay in *. simpl. destruct (IH (set_filter_write
    (BloomFilter_add std_hash k (filter_write st))
    (set_write_memtable (map_insert k v (write_memtable st))
       (set_mem_size (mem_size st + strlen k + strlen v) st)))) as (H1 & H2 & H3).
  simpl in *. now rewrite H1, H2, H3.
Qed.

(** What the replay does to the buffer, the filter and [mem_size]. *)
Lemma replay_fields (recs : list record) (st : Database) :
  write_memtable (replay' recs st) =
    fold_left (fun m '(k, v) => map_insert k v m) recs (write_memtable st) /\
  filter_write (replay' recs st) =
    BloomFilter_add_all std_hash (List.map fst recs) (filter_write st) /\
  mem_size (replay' recs st) =
    fold_left (fun n '(k, v) => n + strlen k + strlen v) recs (mem_size st) /\
  read_memtable (replay' recs st) = read_memtable st /\
  filter_read (replay' recs st) = filter_read st /\
  tiers (replay' recs st) = tiers st.
Proof.
  revert st. induction recs as [|[k v] recs IH]; intros st; [now repeat split|].
  unfold replay in *. simpl. destruct (IH (set_filter_write
    (BloomFilter_add std_hash k (filter_write st))
    (set_write_memtable (map_insert k v (write_memtable st))
       (set_mem_size (mem_size st + strlen k + strlen v) st))))
    as (H1 & H2 & H3 & H4 & H5 & H6).
  simpl in *. now rewrite H1, H2, H3, H4, H5, H6.
Qed.

(** Later records of a log overwrite earlier ones. *)
Lemma replay_last_value (recs : list record) (st : Database) (k : string) :
  map_find k (write_memtable (replay' recs st)) =
  match last_value k recs with
  | Some v => Some v
  | None => map_find k (write_memtable st)
  end.
Proof.
  destruct (replay_fields recs st) as (-> & _). generalize (write_memtable st).
  induction recs as [|[k' v'] recs IH]; intros m; simpl; [reflexivity|].
  rewrite IH. destruct (last_value k recs); [reflexivity|].
  destruct (String.eqb_spec k k') as [->|Hne].
  - apply map_find_insert_same.
  - now apply map_find_insert_other.
Qed.

(** The filter of the active buffer answers true on every replayed key. *)
Lemma replay_filter (recs : list record) (st : Database) (k : string) :
  In k (List.map fst recs) ->
  BloomFilter_contains std_hash k (filter_write (replay' recs st)) = true.
Proof.
  destruct (replay_fields recs st) as (_ & -> & _).
  apply BloomFilter_add_all_contains.
Qed.

Lemma replay_memory (recs : list record) (st st' : Database) :
  memory st = memory st' -> memory (replay' recs st) = memory (replay' recs st').
Proof.
  revert st st'. induction recs as [|[k v] recs IH]; intros st st' H; [exact H|].
  unfold replay in *. simpl. apply IH.
  unfold memory in *. simpl. inversion H. reflexivity.
Qed.

Lemma flush_if_full_memory (st st' : Database) :
  memory st = memory st' -> memory (flush_if_full' st) = memory (flush_if_full' st').
Proof.
  unfold memory, flush_if_full, await_swap, signal_flush. intros H. inversion H.
  rewrite H5. destruct (MAX <=? mem_size st'); [|exact H]. simpl.
  rewrite H7. destruct (ifread_memtable st'); unfold FLUSH_write; simpl;
    rewrite ?H1, ?H2, ?H3, ?H4, ?H5, ?H6, ?H8, ?H9, ?H10, ?H11, ?H12; reflexivity.
Qed.

(** [initializer_helper] on an existing log: the memory is the one after the
    replay of the log and the flush that it may trigger; [WAL_temp1.bin] is
    not touched; on [WAL.bin] the log is left empty and open. *)
Lemma initializer_helper_spec (st : Database) (recs : list record) :
  dir_get (WAL st) (dir st) = Some recs ->
  WAL st = WAL_temp_bin \/ WAL st = WAL_bin ->
  memory (initializer_helper' st) = memory (flush_if_full' (replay' recs st)) /\
  WAL (initializer_helper' st) = WAL st /\
  dir_get WAL_temp1_bin (dir (initializer_helper' st)) = dir_get WAL_temp1_bin (dir st) /\
  (WAL st = WAL_bin ->
   wal (initializer_helper' st) = Some WAL_bin /\
   dir_get WAL_bin (dir (initializer_helper' st)) = Some []).
Proof.
  intros Hrecs HW. destruct (replay_files recs st) as (EW & Ew & Ed).
  unfold initializer_helper. rewrite Hrecs.
  set (s1 := replay' recs st) in *.
  split; [now apply flush_if_full_memory|].
  unfold flush_if_full, await_swap, signal_flush.
  destruct (MAX <=? _); [destruct (ifread_memtable _)|]; simpl;
    rewrite ?EW, ?Ed; destruct HW as [E|E]; rewrite E;
    destruct (dir st); simpl; repeat split; congruence.
Qed.

(** The size that the replay counts. *)
Lemma replay_mem_size (recs : list record) (st : Database) :
  mem_size (replay' recs st) = mem_size st + size_of recs.
Proof.
  destruct (replay_fields recs st) as (_ & _ & -> & _). unfold size_of.
  assert (H : forall n m,
             fold_left (fun a '(k, v) => a + strlen k + strlen v) recs (n + m) =
             n + fold_left (fun a '(k, v) => a + strlen k + strlen v) recs m).
  { induction recs as [|[k v] recs IH]; intros n m; simpl; [reflexivity|].
    rewrite <- IH. f_equal. lia. }
  rewrite <- H. now rewrite N.add_0_r.
Qed.

(** C7.  On start-up with a staged [WAL_temp.bin] next to an active
    [WAL.bin], the active log is renamed to [WAL_temp1.bin], and the engine
    comes out of [initialize_memtable] with the memory that results from
    replaying the staged log, then the active log, into the active buffer,
    its filter and [mem_size], a flush being triggered and its swap awaited
    after each log that leaves [mem_size >= MAX].  The replay maps a key to
    the value of its last record, sets the filter for every key and adds the
    sizes of the keys and values of all the records to [mem_size].  The
    trigger sets [flushrunning] and signals the Flusher on [flushid] and on
    the merge lock of Tier 0; the Flusher takes both signals, freezes the
    replayed buffer with its filter and clears [flushrunning] and
    [mem_size].  At the end the log [WAL.bin] is empty and open for the
    writes to come and [WAL_temp1.bin] is gone. *)
Theorem initialize_memtable_replays_both (st : Database) (staged active : list record) :
  dir_get WAL_temp_bin (dir st) = Some staged ->
  dir_get WAL_bin (dir st) = Some active ->
  (* the renaming *)
  (let '(st1, WAL1) := stage_logs (set_WAL WAL_temp_bin st) in
   WAL1 = WAL_temp1_bin /\
   dir_get WAL_temp1_bin (dir st1) = Some active /\
   dir_get WAL_bin (dir st1) = None /\
   dir_get WAL_temp_bin (dir st1) = Some staged) /\
  (* the replay, staged log first *)
  memory (initialize_memtable' st) =
    memory (flush_if_full' (replay' active (flush_if_full' (replay' staged st)))) /\
  (forall recs s k,
     map_find k (write_memtable (replay' recs s)) =
     match last_value k recs with
     | Some v => Some v
     | None => map_find k (write_memtable s)
     end) /\
  (forall recs s k, In k (List.map fst recs) ->
     BloomFilter_contains std_hash k (filter_write (replay' recs s)) = true) /\
  (forall recs s, mem_size (replay' recs s) = mem_size s + size_of recs) /\
  (* the flush *)
  (forall s,
     flushrunning (signal_flush s) = true /\
     flushid (signal_flush s) = flushid s + 1 /\
     semid0 (signal_flush s) = semid0 s + 1 /\
     memory (signal_flush s) =
       (filter_write s, filter_read s, write_memtable s, read_memtable s,
        mem_size s, (true, ifread_memtable s), tiers s, flush_temp s,
        (semid0 s + 1, flushid s + 1, compactid s))) /\
  (forall s,
     (mem_size s < MAX -> flush_if_full' s = s) /\
     (MAX <= mem_size s ->
      flush_if_full' s = await_swap std_hash (signal_flush s) /\
      read_memtable (flush_if_full' s) = write_memtable s /\
      filter_read (flush_if_full' s) = filter_write s /\
      ifread_memtable (flush_if_full' s) = true /\
      flushrunning (flush_if_full' s) = false /\
      mem_size (flush_if_full' s) = 0 /\
      flushid (flush_if_full' s) = flushid s /\
      semid0 (flush_if_full' s) = semid0 s)) /\
  (* the log files at the end *)
  WAL (initialize_memtable' st) = WAL_bin /\
  wal (initialize_memtable' st) = Some WAL_bin /\
  dir_get WAL_bin (dir (initialize_memtable' st)) = Some [] /\
  dir_get WAL_temp1_bin (dir (initialize_memtable' st)) = None.
Proof.
  intros Hstaged Hactive.
  assert (Hstage : stage_logs (set_WAL WAL_temp_bin st) =
            (set_dir (dir_rename WAL_bin WAL_temp1_bin (dir st)) (set_WAL WAL_temp_bin st),
             WAL_temp1_bin)).
  { unfold stage_logs, dir_exists.
    change (dir (set_WAL WAL_temp_bin st)) with (dir st).
    now rewrite Hstaged, Hactive. }
  set (st1 := set_dir (dir_rename WAL_bin WAL_temp1_bin (dir st))
                (set_WAL WAL_temp_bin st)) in *.
  assert (Hd1 : dir_get WAL_temp1_bin (dir st1) = Some active /\
                dir_get WAL_bin (dir st1) = None /\
                dir_get WAL_temp_bin (dir st1) = Some staged).
  { unfold st1, dir_rename. simpl in *. rewrite Hactive.
    destruct (dir st); simpl in *. now repeat split. }
  destruct Hd1 as (Hd1a & Hd1b & Hd1c).
  split; [rewrite Hstage; now repeat split|].
  (* first call of the helper, on the staged log *)
  destruct (initializer_helper_spec st1 staged Hd1c (or_introl eq_refl))
    as (Hm1 & HW1 & Ht1 & _).
  set (h1 := initializer_helper' st1) in *.
  set (st3 := set_dir (dir_rename WAL_temp1_bin WAL_bin
                 (dir (set_WAL WAL_bin (set_dir (dir_set WAL_bin None (dir h1))
                                          (set_wal None h1)))))
                (set_WAL WAL_bin (set_dir (dir_set WAL_bin None (dir h1))
                                    (set_wal None h1)))).
  assert (Hinit : initialize_memtable' st = initializer_helper' st3).
  { unfold initialize_memtable. rewrite Hstage. cbv beta iota zeta.
    assert (Hex : dir_exists WAL_temp_bin (dir st1) = true)
      by (unfold dir_exists; now rewrite Hd1c).
    rewrite Hex. fold h1.
    assert (Hex' : dir_exists WAL_temp1_bin
              (dir (set_WAL WAL_bin (set_dir (dir_set WAL_bin None (dir h1))
                                       (set_wal None h1)))) = true).
    { unfold dir_exists. simpl. rewrite Hd1a in Ht1.
      destruct (dir h1); simpl in *. now rewrite Ht1. }
    rewrite Hex'. reflexivity. }
  assert (Hd3 : dir_get (WAL st3) (dir st3) = Some active /\
                dir_get WAL_temp1_bin (dir st3) = None).
  { unfold st3, dir_rename. simpl. rewrite Hd1a in Ht1.
    destruct (dir h1); simpl in *. rewrite Ht1. simpl. now split. }
  destruct Hd3 as [Hd3a Hd3b].
  destruct (initializer_helper_spec st3 active Hd3a (or_intror eq_refl))
    as (Hm3 & HW3 & Ht3 & Hf3).
  destruct (Hf3 eq_refl) as [Hwal3 Hdir3].
  rewrite Hinit. split.
  - rewrite Hm3. apply flush_if_full_memory, replay_memory.
    transitivity (memory h1); [reflexivity|].
    rewrite Hm1. apply flush_if_full_memory, replay_memory. reflexivity.
  - split; [exact replay_last_value|]. split; [exact replay_filter|].
    split; [exact replay_mem_size|]. split; [intros s; now repeat split|]. split.
    + intros s. unfold flush_if_full. split.
      * intros H. apply N.leb_gt in H. now rewrite H.
      * intros H. apply N.leb_le in H. rewrite H. split; [reflexivity|].
        unfold await_swap, signal_flush.
        destruct (ifread_memtable _) eqn:E; simpl; repeat split; lia.
    + rewrite HW3, Ht3. now repeat split.
Qed.

(** ** The runs of the engine are sorted runs *)

Lemma run_sorted_FLUSH_run (m : map) : sorted_keys m -> run_sorted (FLUSH_run m).
Proof.
  intros Hs. destruct (FLUSH_run_holds m) as [H _]. unfold run_sorted.
  rewrite (run_records_holds _ _ H). now split.
Qed.

Lemma sorted_runs_inputs (src : list SortedRun) :
  (forall r, In r src -> run_sorted r) ->
  Forall2 holds src (List.map run_records src) /\
  Forall sorted_keys (List.map run_records src).
Proof.
  induction src as [|r src IH]; intros H; simpl; [split; constructor|].
  destruct IH as [I1 I2]; [intros r' Hr'; apply H; now right|].
  destruct (H r (or_introl eq_refl)) as [H1 H2]. split; now constructor.
Qed.

Lemma merge_run_sorted (src : list SortedRun) (temp0 : BloomFilter) (last : bool) :
  (forall r, In r src -> run_sorted r) ->
  exists run f, merge' src temp0 last = Ret (run, f) /\ run_sorted run.
Proof.
  intros H. destruct (sorted_runs_inputs src H) as [H1 H2].
  destruct (merge_on_sorted_runs src _ temp0 last H1 H2) as (run & f & Hm & Hh & Hs & _).
  exists run, f. split; [exact Hm|now split].
Qed.

Lemma in_list_set {A : Type} (n : nat) (x t : A) (l : list A) :
  In t (list_set n x l) -> t = x \/ In t l.
Proof.
  revert n. induction l as [|y l IH]; intros [|n]; simpl; try tauto.
  - intros [<-|H]; auto.
  - intros [<-|H]; auto. destruct (IH n H); auto.
Qed.

Lemma tier_push_sorted (t : Tier) (run : SortedRun) (f : BloomFilter) :
  (forall rf, In rf t -> run_sorted (fst rf)) -> run_sorted run ->
  forall rf, In rf (t ++ [(run, f)])%list -> run_sorted (fst rf).
Proof.
  intros Ht Hr rf Hin. apply in_app_or in Hin. destruct Hin as [Hin|[<-|[]]].
  - now apply Ht.
  - exact Hr.
Qed.

(** The tier table after a compaction step. *)
Lemma compact_tiers_sorted (i : nat) (ts1 : list Tier) (run : SortedRun)
    (f : BloomFilter) :
  tiers_sorted ts1 -> run_sorted run ->
  tiers_sorted
    (list_set i (nth i (list_set (i - 1) [] ts1) [] ++ [(run, f)])%list
       (list_set (i - 1) [] ts1)).
Proof.
  intros H1 Hrun.
  assert (H2 : tiers_sorted (list_set (i - 1) [] ts1)).
  { intros t Hin. apply in_list_set in Hin. destruct Hin as [->|Hin].
    - intros rf [].
    - now apply H1. }
  intros t Hin. apply in_list_set in Hin. destruct Hin as [->|Hin]; [|now apply H2].
  apply tier_push_sorted; [|exact Hrun].
  destruct (nth_in_or_default i (list_set (i - 1) [] ts1) []) as [H|H].
  - now apply H2.
  - rewrite H. intros rf [].
Qed.

(** A compaction step keeps the runs sorted. *)
Lemma compact_step_inv (i : nat) (st st' : Database) :
  engine_inv st -> compact_step' i st = Ret st' -> engine_inv st'.
Proof.
  intros (Hw & Hr & Ht). unfold compact_step. destruct i as [|i']; [discriminate|].
  destruct (nth_error (tiers st) (S i' - 1)) as [tier_i|] eqn:En; [|discriminate].
  destruct (merge_run_sorted (List.map fst tier_i) BloomFilter_new
              (compact_last (S i') st)) as (run & f & Hm & Hrun).
  { intros r Hin. apply in_map_iff in Hin. destruct Hin as (rf & <- & Hrf).
    apply (Ht tier_i); [|exact Hrf]. eapply nth_error_In; eauto. }
  fold (compact_last (S i') st). rewrite Hm. cbn [bind]. intros E.
  assert (E' : st' = set_tiers
            (list_set (S i')
               (nth (S i') (list_set (S i' - 1) []
                  (if compact_last (S i') st then (tiers st ++ [[]])%list
                   else tiers st)) [] ++ [(run, f)])%list
               (list_set (S i' - 1) []
                  (if compact_last (S i') st then (tiers st ++ [[]])%list
                   else tiers st))) st) by (inversion E; reflexivity).
  rewrite E'. split; [exact Hw|]. split; [exact Hr|].
  apply (compact_tiers_sorted (S i')); [|exact Hrun].
  intros t Hin. destruct (compact_last (S i') st); [|now apply Ht].
  apply in_app_or in Hin. destruct Hin as [Hin|[<-|[]]]; [now apply Ht|].
  intros rf [].
Qed.

Lemma compact_rec_inv (fuel i : nat) (st st' : Database) :
  engine_inv st -> compact_rec std_hash fuel i st = Ret st' -> engine_inv st'.
Proof.
  revert i st. induction fuel as [|fuel IH]; intros i st Hinv; [discriminate|].
  cbn [compact_rec].
  destruct (compact_step' i st) as [st1| |] eqn:E; cbn [bind]; try discriminate.
  pose proof (compact_step_inv i st st1 Hinv E) as Hinv1.
  destruct (Nat.leb MIN_TH _); [now apply IH|]. now intros [= <-].
Qed.

Lemma SET_inv (key value : string) (st : Database) :
  engine_inv st -> engine_inv (snd (SET' key value st)).
Proof.
  intros (Hw & Hr & Ht). destruct (fst (SET' key value st)) eqn:E.
  - destruct (SET_accepted_fields key value st E) as (E1 & _ & _ & E4 & E5 & _).
    unfold engine_inv. rewrite E1, E4, E5. split; [now apply map_insert_sorted|].
    now split.
  - rewrite (SET_rejected_state _ _ _ E). exact (conj Hw (conj Hr Ht)).
Qed.

Lemma FLUSH_write_inv (st : Database) :
  engine_inv st -> engine_inv (FLUSH_write std_hash st).
Proof.
  intros (Hw & Hr & Ht). unfold engine_inv, FLUSH_write. simpl.
  split; [exact Hw|]. split; [exact I|].
  intros t Hin rf Hrf. unfold push_run_1, get_folder_1 in Hin.
  destruct (tiers st) as [|t1 ts] eqn:E.
  - destruct Hin as [<-|[]]. destruct Hrf as [<-|[]]. simpl.
    now apply run_sorted_FLUSH_run.
  - destruct Hin as [<-|Hin].
    + revert rf Hrf. apply tier_push_sorted; [|now apply run_sorted_FLUSH_run].
      apply Ht. now left.
    + apply (Ht t); [now right|exact Hrf].
Qed.

(** ** A restart keeps the runs sorted *)

Lemma compact_inv (i : nat) (st st' : Database) :
  engine_inv st -> compact std_hash i st = Ret st' -> engine_inv st'.
Proof. unfold compact. apply compact_rec_inv. Qed.

Lemma initialize_folder_runs (runs : list SortedRun) (t : Tier) :
  initialize_folder std_hash runs = Ret t -> List.map fst t = runs.
Proof.
  revert t. induction runs as [|run runs IH]; intros t; simpl.
  - now intros [= <-].
  - destruct (initialize_filter std_hash run) as [f| |]; simpl; try discriminate.
    destruct (initialize_folder std_hash runs) as [t'| |]; simpl; try discriminate.
    intros [= <-]. simpl. now rewrite (IH t' eq_refl).
Qed.

Lemma initialize_folders_sorted (ts : list Tier) (ts' : list Tier) :
  tiers_sorted ts ->
  initialize_folders std_hash (List.map (List.map fst) ts) = Ret ts' ->
  tiers_sorted ts'.
Proof.
  revert ts'. induction ts as [|t ts IH]; intros ts' Hs; simpl.
  - intros [= <-]. intros t [].
  - destruct (initialize_folder std_hash (List.map fst t)) as [t'| |] eqn:E; simpl;
      try discriminate.
    destruct (initialize_folders std_hash (List.map (List.map fst) ts)) as [ts''| |];
      simpl; try discriminate.
    intros [= <-]. intros u [<-|Hu] rf Hrf.
    + apply initialize_folder_runs in E.
      assert (Hin : In (fst rf) (List.map fst t)) by (rewrite <- E; now apply in_map).
      apply in_map_iff in Hin. destruct Hin as (rf' & <- & Hrf').
      apply (Hs t); [now left|exact Hrf'].
    + assert (Hs' : tiers_sorted ts) by (intros v Hv; apply Hs; now right).
      exact (IH ts'' Hs' eq_refl u Hu rf Hrf).
Qed.

Lemma startup_compactions_inv (j : nat) (st st' : Database) :
  engine_inv st -> startup_compactions std_hash j st = Ret st' -> engine_inv st'.
Proof.
  revert st. induction j as [|j IH]; intros st Hinv; cbn [startup_compactions].
  - now intros [= <-].
  - destruct (Nat.leb MIN_TH _).
    + destruct (compact std_hash (S j) st) as [st1| |] eqn:E; cbn [bind];
        try discriminate.
      apply IH. now apply (compact_inv (S j) st).
    + cbn [bind]. now apply IH.
Qed.

Lemma replay_inv (recs : list record) (st : Database) :
  engine_inv st -> engine_inv (replay' recs st).
Proof.
  intros (Hw & Hr & Ht). destruct (replay_fields recs st) as (E1 & _ & _ & E4 & _ & E6).
  unfold engine_inv. rewrite E1, E4, E6. split; [|now split].
  clear E1 E4 E6. revert Hw. generalize (write_memtable st).
  induction recs as [|[k v] recs IH]; intros m Hm; simpl; [exact Hm|].
  apply IH. now apply map_insert_sorted.
Qed.

Lemma flush_if_full_inv (st : Database) :
  engine_inv st -> engine_inv (flush_if_full' st).
Proof.
  intros Hinv. unfold flush_if_full. destruct (MAX <=? mem_size st); [|exact Hinv].
  unfold await_swap.
  assert (H : engine_inv (signal_flush st)) by exact Hinv.
  destruct (ifread_memtable (signal_flush st)).
  - destruct (FLUSH_write_inv _ H) as (Hw & Hr & Ht). exact (conj Hr (conj Hw Ht)).
  - destruct H as (Hw & Hr & Ht). exact (conj Hr (conj Hw Ht)).
Qed.

Lemma initializer_helper_inv (st : Database) :
  engine_inv st -> engine_inv (initializer_helper' st).
Proof.
  intros Hinv. unfold initializer_helper. apply flush_if_full_inv.
  exact (replay_inv _ st Hinv).
Qed.

Lemma initialize_memtable_inv (st : Database) :
  engine_inv st -> engine_inv (initialize_memtable' st).
Proof.
  intros Hinv. unfold initialize_memtable.
  destruct (stage_logs (set_WAL WAL_temp_bin st)) as [st1 WAL1] eqn:E.
  assert (H1 : engine_inv st1).
  { unfold stage_logs in E. destruct (_ && _); [|destruct (negb _)];
      inversion E; subst; exact Hinv. }
  set (st2 := if dir_exists WAL_temp_bin (dir st1)
              then set_dir (dir_set WAL_bin None (dir (initializer_helper' st1)))
                     (set_wal None (initializer_helper' st1))
              else st1).
  assert (H2 : engine_inv st2).
  { unfold st2. destruct (dir_exists WAL_temp_bin (dir st1)); [|exact H1].
    exact (initializer_helper_inv st1 H1). }
  destruct (dir_exists WAL1 _).
  - apply initializer_helper_inv. exact H2.
  - destruct (negb _); exact H2.
Qed.

Lemma Database_restart_inv (st st' : Database) :
  engine_inv st -> Database_restart std_hash st = Ret st' -> engine_inv st'.
Proof.
  intros (Hw & Hr & Ht). unfold Database_restart.
  destruct (initialize_folders std_hash _) as [ts| |] eqn:E; cbn [bind];
    try discriminate.
  destruct (startup_compactions std_hash _ _) as [st1| |] eqn:E1; cbn [bind];
    try discriminate.
  intros [= <-]. apply initialize_memtable_inv.
  apply (startup_compactions_inv _ _ _) with (2 := E1).
  split; [exact I|]. split; [exact I|].
  exact (initialize_folders_sorted _ _ Ht E).
Qed.

Lemma exec_event_inv (e : event) (st st' : Database) :
  engine_inv st -> exec_event std_hash e st = Some st' -> engine_inv st'.
Proof.
  intros Hinv. destruct e as [k v|k| | | |]; simpl.
  - destruct (flushrunning st); [discriminate|]. intros [= <-]. now apply SET_inv.
  - destruct (flushrunning st); [discriminate|]. intros [= <-]. now apply SET_inv.
  - destruct (_ && _); [|discriminate]. intros [= <-].
    destruct Hinv as (Hw & Hr & Ht). exact (conj Hr (conj Hw Ht)).
  - destruct (ifread_memtable st); [|discriminate]. intros [= <-].
    now apply FLUSH_write_inv.
  - destruct (0 <? compactid st); [|discriminate].
    destruct (compact std_hash 1 _) as [st1| |] eqn:E; try discriminate.
    intros [= <-]. eapply compact_inv; [|exact E].
    destruct Hinv as (Hw & Hr & Ht). exact (conj Hw (conj Hr Ht)).
  - destruct (Database_restart std_hash st) as [st1| |] eqn:E; try discriminate.
    intros [= <-]. now apply (Database_restart_inv st).
Qed.

Lemma exec_inv (es : list event) (st st' : Database) :
  engine_inv st -> exec std_hash es st = Some st' -> engine_inv st'.
Proof.
  revert st. induction es as [|e es IH]; intros st Hinv; simpl.
  - now intros [= <-].
  - destruct (exec_event std_hash e st) as [st1|] eqn:E; [|discriminate].
    apply IH. now apply (exec_event_inv e st).
Qed.

Lemma Database_init_inv : engine_inv (Database_init std_hash).
Proof. split; [exact I|]. split; [exact I|]. intros t []. Qed.

(** Every run of every tier, in every state that the engine reaches from an
    empty directory by writes, flushes, compactions and restarts, is a sorted
    run: in the format, with strictly increasing keys. *)
Lemma runs_stay_sorted (es : list event) (st : Database) :
  exec std_hash es (Database_init std_hash) = Some st ->
  forall t rf, In t (tiers st) -> In rf t ->
    holds (fst rf) (run_records (fst rf)) /\ sorted_keys (run_records (fst rf)).
Proof.
  intros Hex t rf Ht Hrf.
  destruct (exec_inv es _ st Database_init_inv Hex) as (_ & _ & H).
  exact (H t Ht rf Hrf).
Qed.

(** ** The filter as a function of the set of keys added *)

(** The bits of a filter after [add]: those it had, and the [NOFILTERS] bits
    of the key. *)
Lemma set_bits_testbit (key : string) (l : list nat) (f : BloomFilter) (b : N) :
  N.testbit
    (bitArray (fold_left
       (fun g i => mk_BloomFilter (N.setbit (bitArray g) (bit_index std_hash key i)))
       l f)) b =
  N.testbit (bitArray f) b || existsb (fun i => bit_index std_hash key i =? b) l.
Proof.
  revert f. induction l as [|i l IH]; intros f; simpl.
  - now rewrite orb_false_r.
  - rewrite IH. simpl. rewrite N.setbit_eqb.
    destruct (bit_index std_hash key i =? b), (N.testbit (bitArray f) b); reflexivity.
Qed.

Lemma BloomFilter_add_testbit (key : string) (f : BloomFilter) (b : N) :
  N.testbit (bitArray (add key f)) b =
  N.testbit (bitArray f) b ||
  existsb (fun i => bit_index std_hash key i =? b) (seq 0 NOFILTERS).
Proof. apply set_bits_testbit. Qed.

Lemma BloomFilter_add_all_testbit (keys : list string) (f : BloomFilter) (b : N) :
  N.testbit (bitArray (add_all keys f)) b =
  N.testbit (bitArray f) b ||
  existsb (fun k => existsb (fun i => bit_index std_hash k i =? b) (seq 0 NOFILTERS))
          keys.
Proof.
  revert f. induction keys as [|k keys IH]; intros f.
  - simpl. now rewrite orb_false_r.
  - change (add_all (k :: keys) f) with (add_all keys (add k f)).
    rewrite IH, BloomFilter_add_testbit. rewrite <- orb_assoc. reflexivity.
Qed.

Lemma existsb_same_elements {A : Type} (p : A -> bool) (l l' : list A) :
  (forall x, In x l <-> In x l') -> existsb p l = existsb p l'.
Proof.
  intros H. apply eq_true_iff_eq. rewrite !existsb_exists.
  split; intros (x & Hx & Hp); exists x; (split; [now apply H|exact Hp]).
Qed.

Lemma BloomFilter_eq (f g : BloomFilter) :
  (forall b, N.testbit (bitArray f) b = N.testbit (bitArray g) b) -> f = g.
Proof.
  destruct f as [a], g as [a']. simpl. intros H. f_equal. now apply N.bits_inj.
Qed.

Lemma BloomFilter_add_all_same_set (keys keys' : list string) (f : BloomFilter) :
  (forall k, In k keys <-> In k keys') -> add_all keys f = add_all keys' f.
Proof.
  intros H. apply BloomFilter_eq. intros b. rewrite !BloomFilter_add_all_testbit.
  f_equal. now apply existsb_same_elements.
Qed.

(** [contains] on a filter that started clear: the key is reported exactly
    when each of its bits is a bit of a key that was added. *)
Lemma BloomFilter_contains_add_all_new (key : string) (keys : list string) :
  contains key (add_all keys BloomFilter_new) = true <->
  forall i, (i < NOFILTERS)%nat ->
    exists k j, In k keys /\ (j < NOFILTERS)%nat /\
      bit_index std_hash k j = bit_index std_hash key i.
Proof.
  unfold BloomFilter_contains. rewrite forallb_forall. split.
  - intros H i Hi. specialize (H i). rewrite in_seq in H.
    specialize (H (conj (Nat.le_0_l i) Hi)).
    rewrite BloomFilter_add_all_testbit in H.
    unfold BloomFilter_new in H. cbn [bitArray] in H. rewrite N.bits_0, orb_false_l in H.
    apply existsb_exists in H. destruct H as (k & Hk & H).
    apply existsb_exists in H. destruct H as (j & Hj & H).
    apply in_seq in Hj. apply N.eqb_eq in H. exists k, j.
    split; [exact Hk|]. split; [apply Hj|exact H].
  - intros H i Hi. apply in_seq in Hi. destruct (H i (proj2 Hi)) as (k & j & Hk & Hj & E).
    rewrite BloomFilter_add_all_testbit.
    unfold BloomFilter_new. cbn [bitArray]. rewrite N.bits_0, orb_false_l.
    apply existsb_exists. exists k. split; [exact Hk|].
    apply existsb_exists. exists j. split; [apply in_seq; lia|now apply N.eqb_eq].
Qed.

(** ** The binary search on a run in the format *)

Lemma nth_error_skipn {A : Type} (l : list A) (i : nat) (x : A) :
  nth_error l i = Some x -> skipn i l = x :: skipn (S i) l.
Proof.
  revert l. induction i as [|i IH]; intros [|y l]; simpl; try discriminate.
  - now intros [= ->].
  - intros H. now rewrite (IH l H).
Qed.

Lemma concat_firstn_skipn (rs : list record) (i : nat) :
  concat_records rs = concat_records (firstn i rs) ++ concat_records (skipn i rs).
Proof. now rewrite <- concat_records_app, firstn_skipn. Qed.

Lemma start_off_le (rs : list record) (i : nat) :
  start_off rs i <= strlen (concat_records rs).
Proof.
  unfold start_off.
  replace (strlen (concat_records rs))
    with (strlen (concat_records (firstn i rs)) + strlen (concat_records (skipn i rs))).
  - lia.
  - now rewrite <- strlen_append, <- concat_firstn_skipn.
Qed.

(** The words of an index from the word [2 * i] on: the start of the record
    [i], then the offsets of the records from [i] on. *)
Lemma skipn_index (rs : list record) (i : nat) (off c : N) :
  (i <= List.length rs)%nat ->
  skipn (2 * i) (off :: offsets off rs ++ [c])%list =
  ((off + strlen (concat_records (firstn i rs)))
     :: offsets (off + strlen (concat_records (firstn i rs))) (skipn i rs) ++ [c])%list.
Proof.
  revert rs off. induction i as [|i IH]; intros rs off Hi.
  - simpl. now rewrite N.add_0_r.
  - destruct rs as [|[k v] rs]; [simpl in Hi; lia|].
    replace (2 * S i)%nat with (S (S (2 * i))) by lia.
    cbn [offsets app skipn firstn concat_records].
    rewrite IH by (simpl in Hi; lia).
    rewrite !strlen_append, !N.add_assoc. reflexivity.
Qed.

Lemma sorted_keys_nth (rs : list record) (i j : nat) (r r' : record) :
  sorted_keys rs -> (i < j)%nat ->
  nth_error rs i = Some r -> nth_error rs j = Some r' ->
  String.ltb (fst r) (fst r') = true.
Proof.
  revert i j. induction rs as [|x rs IH]; intros i j Hs Hij Hi Hj.
  - destruct i; discriminate.
  - apply sorted_keys_cons in Hs. destruct Hs as [Hx Hs].
    destruct j as [|j]; [lia|]. simpl in Hj. destruct i as [|i].
    + simpl in Hi. injection Hi as <-. apply Hx. now apply nth_error_In in Hj.
    + simpl in Hi. apply (IH i j Hs); [lia|exact Hi|exact Hj].
Qed.

(** A read of exactly the bytes that are next in the file. *)
Lemma fread_exact (s t buf : string) (f : ifstream) :
  f_good f = true -> f_rest f = s ++ t ->
  exists f', fread (strlen s) buf f = (s, f') /\ f_good f' = true /\
             f_bytes f' = f_bytes f /\ f_rest f' = t.
Proof.
  intros Hg Hr. unfold fread. rewrite Hg, Hr.
  assert (Hle : (strlen s <=? strlen (s ++ t)) = true).
  { apply N.leb_le. rewrite strlen_append. lia. }
  rewrite Hle. exists (mk_ifstream (f_bytes f) (f_pos f + strlen s) true).
  split; [|split; [reflexivity|split; [reflexivity|]]].
  - now rewrite strlen_to_nat, take_append.
  - unfold f_rest in *. cbn [f_pos f_bytes].
    rewrite N2Nat.inj_add, <- drop_drop, Hr, strlen_to_nat. apply drop_append.
Qed.

Lemma sint32_small (z : Z) : (0 <= z < 2 ^ 31)%Z -> sint32 z = z.
Proof.
  intros H. unfold sint32. rewrite Z.mod_small; lia.
Qed.

Lemma mseek_good (z : Z) (m : mstream) :
  m_good m = true -> (0 <= z < 2 ^ 31)%Z ->
  mseek z m = mk_mstream (m_words m) (2 * Z.to_N z) true.
Proof.
  intros Hg Hz. unfold mseek. rewrite Hg, sint32_small by exact Hz.
  destruct (Z.ltb_spec z 0); [lia|reflexivity].
Qed.

Lemma mread3_three (idx : N * N * N) (m : mstream) (a b c : N) (l : list N) :
  m_good m = true -> m_rest m = a :: b :: c :: l ->
  mread3 idx m = ((a, b, c), mk_mstream (m_words m) (m_pos m + 3) true).
Proof.
  intros Hg Hr. unfold mread3. destruct idx as [[i0 i1] i2]. now rewrite Hg, Hr.
Qed.

(** The words that a probe of the record [i] reads. *)
Lemma mread3_record (run : SortedRun) (rs : list record) (c : N)
    (metadata : mstream) (idx : N * N * N) (i : nat) (k v : string) :
  run_meta run = (0 :: offsets 0 rs ++ [c])%list ->
  N.of_nat (List.length rs) < 2 ^ 31 ->
  m_words metadata = run_meta run -> m_good metadata = true ->
  nth_error rs i = Some (k, v) ->
  exists metadata',
    mread3 idx (mseek (Z.of_nat i) metadata) =
      ((start_off rs i, start_off rs i + strlen k,
        start_off rs i + strlen k + strlen v), metadata') /\
    m_words metadata' = run_meta run /\ m_good metadata' = true.
Proof.
  intros Hmeta Hn Hw Hg Hi.
  assert (Hlt : (i < List.length rs)%nat) by (apply nth_error_Some; congruence).
  rewrite (mseek_good _ _ Hg) by lia.
  assert (Hrest : m_rest (mk_mstream (m_words metadata) (2 * Z.to_N (Z.of_nat i)) true) =
                  start_off rs i :: (start_off rs i + strlen k)
                    :: (start_off rs i + strlen k + strlen v)
                    :: (offsets (start_off rs i + strlen k + strlen v) (skipn (S i) rs)
                        ++ [c])%list).
  { change (m_rest (mk_mstream (m_words metadata) (2 * Z.to_N (Z.of_nat i)) true))
      with (skipn (N.to_nat (2 * Z.to_N (Z.of_nat i))) (m_words metadata)).
    replace (N.to_nat (2 * Z.to_N (Z.of_nat i))) with (2 * i)%nat by lia.
    rewrite Hw, Hmeta, skipn_index by lia.
    rewrite (nth_error_skipn rs i _ Hi). cbn [offsets app]. rewrite !N.add_0_l.
    reflexivity. }
  rewrite (mread3_three idx (mk_mstream (m_words metadata) (2 * Z.to_N (Z.of_nat i)) true)
             _ _ _ _ eq_refl Hrest).
  eexists. split; [reflexivity|]. split; [exact Hw|reflexivity].
Qed.

(** One probe of the search, on the record [i]. *)
Lemma binary_search_probe (run : SortedRun) (rs : list record) (c : N)
    (fuel : nat) (key : string) (In : ifstream) (metadata : mstream)
    (idx : N * N * N) (lo hi : Z) (value : string) (i : nat) (k v : string) :
  run_data run = concat_records rs ->
  run_meta run = (0 :: offsets 0 rs ++ [c])%list ->
  strlen (concat_records rs) < 2 ^ 63 ->
  N.of_nat (List.length rs) < 2 ^ 31 ->
  search_streams run In metadata ->
  (lo <= hi)%Z ->
  Z.shiftr (lo + hi) 1 = Z.of_nat i ->
  nth_error rs i = Some (k, v) ->
  exists In' metadata' idx',
    search_streams run In' metadata' /\
    binary_search_loop (S fuel) key In metadata idx lo hi value =
      if String.ltb key k
      then binary_search_loop fuel key In' metadata' idx' lo (Z.of_nat i - 1) k
      else if (key =? k)%string then Ret (true, v)
      else binary_search_loop fuel key In' metadata' idx' (Z.of_nat i + 1) hi k.
Proof.
  intros Hdata Hmeta Hsize Hn (Hb & Hg & Hw & Hmg) Hle Hmid Hi.
  destruct (mread3_record run rs c metadata idx i k v Hmeta Hn Hw Hmg Hi)
    as (metadata' & Hread & Hw' & Hg').
  pose proof (start_off_le rs i) as Hoff.
  (* the seek to the start of the record, and the read of its key *)
  assert (Hseek : fseek (start_off rs i) In =
                  mk_ifstream (run_data run) (start_off rs i) true).
  { unfold fseek. rewrite Hg, Hb.
    destruct (N.ltb_spec (start_off rs i) (2 ^ 63)); [reflexivity|lia]. }
  assert (Hrest : f_rest (mk_ifstream (run_data run) (start_off rs i) true) =
                  k ++ v ++ concat_records (skipn (S i) rs)).
  { unfold f_rest. cbn [f_pos f_bytes]. rewrite Hdata.
    rewrite (concat_firstn_skipn rs i) at 1. unfold start_off.
    rewrite strlen_to_nat, drop_append, (nth_error_skipn rs i _ Hi). reflexivity. }
  destruct (fread_exact k _ value
              (mk_ifstream (run_data run) (start_off rs i) true) eq_refl Hrest)
    as (In1 & Hk & Hg1 & Hb1 & Hr1).
  simpl in Hb1.
  destruct (fread_exact v _ k In1 Hg1 Hr1) as (In2 & Hv & _).
  exists In1, metadata',
    (start_off rs i, start_off rs i + strlen k, start_off rs i + strlen k + strlen v).
  split; [exact (conj Hb1 (conj Hg1 (conj Hw' Hg')))|].
  assert (Hi' : (Z.of_nat i < 2 ^ 31)%Z).
  { assert (H : (i < List.length rs)%nat) by (apply nth_error_Some; congruence).
    change (2 ^ 31)%Z with (Z.of_N (2 ^ 31)). lia. }
  assert (Hsum : (0 <= lo + hi < 2 ^ 32)%Z).
  { rewrite Z.shiftr_div_pow2 in Hmid by lia. change (2 ^ 1)%Z with 2%Z in Hmid.
    pose proof (Z.div_mod (lo + hi) 2) as H1.
    pose proof (Z.mod_pos_bound (lo + hi) 2) as H2.
    change (2 ^ 32)%Z with (2 * 2 ^ 31)%Z. lia. }
  cbn [binary_search_loop].
  destruct (Z.leb_spec lo hi) as [_|Hgt]; [|lia].
  rewrite (long_long_small (lo + hi))
    by (split; [apply (Z.le_trans _ 0); [discriminate|lia]
               |apply (Z.lt_trans _ (2 ^ 32)); [lia|reflexivity]]).
  cbn [bind]. cbv zeta.
  rewrite Hmid, Hread, Hseek.
  destruct (N.ltb_spec (start_off rs i + strlen k) (start_off rs i)) as [Hbad|_]; [lia|].
  replace (start_off rs i + strlen k - start_off rs i) with (strlen k) by lia.
  rewrite Hk.
  rewrite (long_long_small (Z.of_nat i - 1))
    by (split; [apply (Z.le_trans _ (-1)); [discriminate|lia]
               |apply (Z.lt_trans _ (2 ^ 31)); [lia|reflexivity]]).
  rewrite (long_long_small (Z.of_nat i + 1))
    by (split; [apply (Z.le_trans _ 0); [discriminate|lia]
               |apply (Z.le_lt_trans _ (2 ^ 31)); [lia|reflexivity]]).
  cbn [bind].
  destruct (String.ltb key k); [reflexivity|].
  destruct (key =? k)%string; [|reflexivity].
  destruct (N.ltb_spec (start_off rs i + strlen k + strlen v)
                       (start_off rs i + strlen k)) as [Hbad|_]; [lia|].
  replace (start_off rs i + strlen k + strlen v - (start_off rs i + strlen k))
    with (strlen v) by lia.
  now rewrite Hv.
Qed.

Lemma shiftr_mid (lo hi : Z) :
  (lo <= hi)%Z ->
  (lo <= Z.shiftr (lo + hi) 1 <= hi)%Z /\
  (2 * Z.shiftr (lo + hi) 1 <= lo + hi < 2 * Z.shiftr (lo + hi) 1 + 2)%Z.
Proof.
  intros Hle. rewrite Z.shiftr_div_pow2 by lia. change (2 ^ 1)%Z with 2%Z.
  pose proof (Z.div_mod (lo + hi) 2) as H1.
  pose proof (Z.mod_pos_bound (lo + hi) 2) as H2. lia.
Qed.

(** The loop of the search on a run in the format with increasing keys, when
    the interval lies within the records and the key can only be inside it:
    the loop returns the value that the records map the key to. *)
Lemma binary_search_loop_correct (run : SortedRun) (rs : list record) (c : N)
    (key : string) (fuel : nat) (In : ifstream) (metadata : mstream)
    (idx : N * N * N) (lo hi : Z) (value : string) :
  run_data run = concat_records rs ->
  run_meta run = (0 :: offsets 0 rs ++ [c])%list ->
  strlen (concat_records rs) < 2 ^ 63 ->
  N.of_nat (List.length rs) < 2 ^ 31 ->
  sorted_keys rs ->
  search_streams run In metadata ->
  (0 <= lo <= hi + 1)%Z -> (hi < Z.of_nat (List.length rs))%Z ->
  (hi - lo + 1 < 2 ^ Z.of_nat fuel)%Z ->
  (forall i r, nth_error rs i = Some r -> (Z.of_nat i < lo)%Z ->
     String.ltb (fst r) key = true) ->
  (forall i r, nth_error rs i = Some r -> (hi < Z.of_nat i)%Z ->
     String.ltb key (fst r) = true) ->
  exists value',
    binary_search_loop fuel key In metadata idx lo hi value =
    Ret (match map_find key rs with
         | Some v => (true, v)
         | None => (false, value')
         end).
Proof.
  intros Hdata Hmeta Hsize Hn Hs.
  revert In metadata idx lo hi value.
  induction fuel as [|fuel IH]; intros In metadata idx lo hi value Hst Hlo Hhi Hfuel Hlow Hup.
  - change (2 ^ Z.of_nat 0)%Z with 1%Z in Hfuel. assert (Hgt : (hi < lo)%Z) by lia.
    exists value. simpl. destruct (Z.leb_spec lo hi); [lia|].
    destruct (map_find key rs) as [v|] eqn:E; [|reflexivity].
    apply (map_find_In _ _ _ Hs) in E. apply In_nth_error in E. destruct E as [i E].
    destruct (Z.lt_ge_cases (Z.of_nat i) lo) as [H1|H1].
    + pose proof (Hlow i _ E H1) as H2. simpl in H2. now rewrite ltb_irrefl in H2.
    + assert (H3 : (hi < Z.of_nat i)%Z) by lia.
      pose proof (Hup i _ E H3) as H2. simpl in H2. now rewrite ltb_irrefl in H2.
  - destruct (Z.lt_ge_cases hi lo) as [Hgt|Hle].
    + exists value. simpl. destruct (Z.leb_spec lo hi); [lia|].
      destruct (map_find key rs) as [v|] eqn:E; [|reflexivity].
      apply (map_find_In _ _ _ Hs) in E. apply In_nth_error in E. destruct E as [i E].
      destruct (Z.lt_ge_cases (Z.of_nat i) lo) as [H1|H1].
      * pose proof (Hlow i _ E H1) as H2. simpl in H2. now rewrite ltb_irrefl in H2.
      * assert (H3 : (hi < Z.of_nat i)%Z) by lia.
        pose proof (Hup i _ E H3) as H2. simpl in H2. now rewrite ltb_irrefl in H2.
    + destruct (shiftr_mid lo hi Hle) as [Hmid Hhalf].
      rewrite Nat2Z.inj_succ, Z.pow_succ_r in Hfuel by lia.
      set (i := Z.to_nat (Z.shiftr (lo + hi) 1)).
      assert (Ei : Z.shiftr (lo + hi) 1 = Z.of_nat i) by (unfold i; lia).
      assert (Hi : (i < List.length rs)%nat) by lia.
      destruct (nth_error rs i) as [[k v]|] eqn:Enth;
        [|apply nth_error_None in Enth; lia].
      destruct (binary_search_probe run rs c fuel key In metadata idx lo hi value
                  i k v Hdata Hmeta Hsize Hn Hst Hle Ei Enth)
        as (In' & metadata' & idx' & Hst' & Eq).
      rewrite Eq. destruct (String.ltb key k) eqn:Elt.
      * apply IH; [exact Hst'|lia|lia|lia|exact Hlow|].
        intros j r Hj Hgt. destruct (Nat.eq_dec j i) as [->|Hne].
        -- rewrite Enth in Hj. injection Hj as <-. exact Elt.
        -- apply (ltb_trans _ k _ Elt).
           apply (sorted_keys_nth rs i j (k, v) r Hs); [lia|exact Enth|exact Hj].
      * destruct (key =? k)%string eqn:Eeq.
        -- apply String.eqb_eq in Eeq. subst k. exists value.
           assert (Hin : List.In (key, v) rs) by (eapply nth_error_In; exact Enth).
           apply (map_find_In _ _ _ Hs) in Hin. now rewrite Hin.
        -- apply String.eqb_neq in Eeq.
           assert (Hgt : String.ltb k key = true).
           { destruct (ltb_total key k) as [H|[H|H]]; [congruence|contradiction|exact H]. }
           apply IH; [exact Hst'|lia|lia|lia| |exact Hup].
           intros j r Hj Hlt. destruct (Nat.eq_dec j i) as [->|Hne].
           ++ rewrite Enth in Hj. injection Hj as <-. exact Hgt.
           ++ apply (ltb_trans _ k _); [|exact Hgt].
              apply (sorted_keys_nth rs j i r (k, v) Hs); [lia|exact Hj|exact Enth].
Qed.

Lemma sint64_small (x : N) : x < 2 ^ 63 -> sint64 x = Z.of_N x.
Proof.
  intros H. unfold sint64.
  assert (H1 : (0 <= Z.of_N x < 2 ^ 63)%Z).
  { split; [lia|]. change (2 ^ 63)%Z with (Z.of_N (2 ^ 63)). lia. }
  rewrite Z.mod_small by lia.
  destruct (Z.ltb_spec (Z.of_N x) (2 ^ 63)); [reflexivity|lia].
Qed.

(** [Find] on a run in the format: the search runs on the last word of the
    index. *)
Lemma Find_holds (run : SortedRun) (rs : list record) (c : N) (key value : string) :
  run_meta run = (0 :: offsets 0 rs ++ [c])%list ->
  Find run key value =
  binary_search (open_data (run_data run))
    (mk_mstream (run_meta run) (N.of_nat (List.length (run_meta run))) true)
    c key value /\
  search_streams run (open_data (run_data run))
    (mk_mstream (run_meta run) (N.of_nat (List.length (run_meta run))) true).
Proof.
  intros Hmeta. split; [|repeat split].
  unfold Find. rewrite Hmeta at 1.
  change (0 :: offsets 0 rs ++ [c])%list with ((0 :: offsets 0 rs) ++ [c])%list.
  rewrite rev_app_distr. reflexivity.
Qed.

(** [Find] on a run whose index ends with the number of its records, as the
    Flusher writes it: the search returns the value of the key when the run
    holds it, and false otherwise. *)
Lemma Find_count_exact (run : SortedRun) (rs : list record) (key value : string) :
  run_data run = concat_records rs ->
  run_meta run = (0 :: offsets 0 rs ++ [N.of_nat (List.length rs)])%list ->
  sorted_keys rs ->
  strlen (concat_records rs) < 2 ^ 63 ->
  N.of_nat (List.length rs) < 2 ^ 31 ->
  exists value',
    Find run key value =
    Ret (match map_find key rs with
         | Some v => (true, v)
         | None => (false, value')
         end).
Proof.
  intros Hdata Hmeta Hs Hsize Hn.
  destruct (Find_holds run rs _ key value Hmeta) as [-> Hst].
  unfold binary_search.
  rewrite sint64_small by (apply (N.lt_trans _ _ _ Hn); reflexivity).
  rewrite long_long_small
    by (split; [apply (Z.le_trans _ (-1)); [discriminate|lia]
               |apply (Z.lt_trans _ (2 ^ 31));
                [change (2 ^ 31)%Z with (Z.of_N (2 ^ 31)); lia|reflexivity]]).
  cbn [bind].
  apply (binary_search_loop_correct run rs _ key 64 _ _ _ _ _ _
           Hdata Hmeta Hsize Hn Hs Hst).
  - lia.
  - lia.
  - change (2 ^ Z.of_nat 64)%Z with (Z.of_N (2 ^ 64)).
    assert (N.of_nat (List.length rs) < 2 ^ 64)
      by (apply (N.lt_trans _ _ _ Hn); reflexivity). lia.
  - intros i r _ Hi. lia.
  - intros i r Hi Hgt. assert (i < List.length rs)%nat
      by (apply nth_error_Some; congruence). lia.
Qed.

(** [Find] on a run whose index ends with twice the number of its records,
    as [merge] writes it, for a key that is not above the last key of the
    run: the first probe is on the last record, and the search stays within
    the records. *)
Lemma Find_count_double (run : SortedRun) (rs : list record) (key value : string)
    (r : record) :
  run_data run = concat_records rs ->
  run_meta run = (0 :: offsets 0 rs ++ [2 * N.of_nat (List.length rs)])%list ->
  sorted_keys rs ->
  strlen (concat_records rs) < 2 ^ 63 ->
  N.of_nat (List.length rs) < 2 ^ 31 ->
  List.In r rs -> String.ltb (fst r) key = false ->
  exists value',
    Find run key value =
    Ret (match map_find key rs with
         | Some v => (true, v)
         | None => (false, value')
         end).
Proof.
  intros Hdata Hmeta Hs Hsize Hn Hr Hle.
  destruct (Find_holds run rs _ key value Hmeta) as [-> Hst].
  unfold binary_search.
  assert (Hpos : (0 < List.length rs)%nat) by (destruct rs; [destruct Hr|simpl; lia]).
  assert (H32 : 2 * N.of_nat (List.length rs) < 2 ^ 63).
  { apply (N.lt_trans _ (2 * 2 ^ 31)); [lia|reflexivity]. }
  rewrite sint64_small by exact H32.
  rewrite long_long_small
    by (split; [apply (Z.le_trans _ (-1)); [discriminate|lia]
               |apply (Z.lt_trans _ (2 ^ 32));
                [change (2 ^ 32)%Z with (Z.of_N (2 * 2 ^ 31)); lia|reflexivity]]).
  cbn [bind].
  set (n := List.length rs) in *.
  assert (Ei : Z.shiftr (0 + (Z.of_N (2 * N.of_nat n) - 1)) 1 = Z.of_nat (n - 1)).
  { rewrite Z.shiftr_div_pow2 by lia. change (2 ^ 1)%Z with 2%Z.
    symmetry. apply Z.div_unique with (r := 1%Z); lia. }
  destruct (nth_error rs (n - 1)) as [[k v]|] eqn:Enth;
    [|apply nth_error_None in Enth; fold n in Enth; lia].
  destruct (binary_search_probe run rs _ 63 key _ _ (0, 0, 0) 0%Z
              (Z.of_N (2 * N.of_nat n) - 1)%Z value (n - 1) k v
              Hdata Hmeta Hsize Hn Hst ltac:(lia) Ei Enth)
    as (In' & metadata' & idx' & Hst' & Eq).
  change 64%nat with (S 63). rewrite Eq. clear Eq.
  destruct (String.ltb key k) eqn:Elt.
  - apply (binary_search_loop_correct run rs _ key 63 _ _ _ _ _ _
             Hdata Hmeta Hsize Hn Hs Hst').
    + lia.
    + fold n. lia.
    + change (2 ^ Z.of_nat 63)%Z with (Z.of_N (2 ^ 63)). lia.
    + intros i r' _ Hi. lia.
    + intros j r' Hj Hgt.
      assert (Hjn : (j < n)%nat) by (apply nth_error_Some; congruence).
      replace j with (n - 1)%nat in Hj by lia.
      rewrite Enth in Hj. injection Hj as <-. exact Elt.
  - destruct (key =? k)%string eqn:Eeq.
    + apply String.eqb_eq in Eeq. subst k. exists value.
      assert (Hin : List.In (key, v) rs) by (eapply nth_error_In; exact Enth).
      apply (map_find_In _ _ _ Hs) in Hin. now rewrite Hin.
    + exfalso. apply String.eqb_neq in Eeq.
      assert (Hgt : String.ltb k key = true).
      { destruct (ltb_total key k) as [H|[H|H]]; [congruence|contradiction|exact H]. }
      apply In_nth_error in Hr. destruct Hr as [j Hj].
      assert (Hjn : (j < n)%nat) by (apply nth_error_Some; congruence).
      destruct (Nat.eq_dec j (n - 1)) as [->|Hne].
      * rewrite Enth in Hj. injection Hj as <-. simpl in Hle. congruence.
      * assert (H : String.ltb (fst r) k = true).
        { apply (sorted_keys_nth rs j (n - 1) r (k, v) Hs); [lia|exact Hj|exact Enth]. }
        rewrite (ltb_trans _ _ _ H Hgt) in Hle. discriminate.
Qed.

(** ** The filters rebuilt at a start *)

Local Abbreviation initialize_filter' := (initialize_filter std_hash).
Local Abbreviation initialize_filter_loop' := (initialize_filter_loop std_hash).

Lemma mread_next (cur : N) (m : mstream) (w : N) (ws : list N) :
  m_good m = true -> m_rest m = w :: ws ->
  exists m', mread cur m = (w, m') /\ m_good m' = true /\ m_rest m' = ws.
Proof.
  intros Hg Hr. unfold mread. rewrite Hg, Hr.
  eexists. split; [reflexivity|]. split; [reflexivity|]. now apply m_rest_next with w.
Qed.

(** The loop of [initialize_filter] on the records [rest] that it has not
    read, none of which starts at the end of the data file: it adds the key
    of each of them. *)
Lemma initialize_filter_loop_spec (rest : list record) (c : N) (fuel : nat)
    (file : ifstream) (metadata : mstream) (idx : option N) (pre_idx : N)
    (key : string) (filter : BloomFilter) :
  (forall i, (i < List.length rest)%nat -> concat_records (skipn i rest) <> "") ->
  f_good file = true -> f_pos file = pre_idx ->
  f_rest file = concat_records rest ->
  m_good metadata = true ->
  m_rest metadata = (offsets pre_idx rest ++ [c])%list ->
  pre_idx + strlen (concat_records rest) < 2 ^ 63 ->
  (List.length rest <= fuel)%nat ->
  initialize_filter_loop' fuel file metadata idx pre_idx key filter =
  Ret (add_all (List.map fst rest) filter).
Proof.
  revert fuel file metadata idx pre_idx key filter.
  induction rest as [|[k v] rest IH];
    intros fuel file metadata idx pre_idx key filter Hne Hg Hpos Hrest Hmg Hmr Hsize Hfuel.
  - assert (Hpeek : peek_not_eof file = false).
    { unfold peek_not_eof. now rewrite Hg, Hrest. }
    destruct fuel; simpl; now rewrite Hpeek.
  - assert (Hpeek : peek_not_eof file = true).
    { unfold peek_not_eof. rewrite Hg, Hrest. apply negb_true_iff, String.eqb_neq.
      apply (Hne 0%nat). simpl. lia. }
    destruct fuel as [|fuel]; [simpl in Hfuel; lia|].
    cbn [initialize_filter_loop]. rewrite Hpeek.
    cbn [offsets app] in Hmr.
    destruct (mread_scratch_next idx metadata _ _ Hmg Hmr) as (m1 & -> & Hg1 & Hr1).
    destruct (N.ltb_spec (pre_idx + strlen k) pre_idx) as [Hbad|_]; [lia|].
    replace (pre_idx + strlen k - pre_idx) with (strlen k) by lia.
    cbn [concat_records] in Hrest.
    destruct (fread_exact k _ key file Hg Hrest) as (file1 & -> & Hgf & Hbf & _).
    destruct (mread_next pre_idx m1 _ _ Hg1 Hr1) as (m2 & -> & Hg2 & Hr2).
    cbn [concat_records] in Hsize. rewrite !strlen_append in Hsize.
    assert (Hseek : fseek (pre_idx + strlen k + strlen v) file1 =
                    mk_ifstream (f_bytes file) (pre_idx + strlen k + strlen v) true).
    { unfold fseek. rewrite Hgf, Hbf.
      destruct (N.ltb_spec (pre_idx + strlen k + strlen v) (2 ^ 63)); [reflexivity|lia]. }
    rewrite Hseek.
    apply IH.
    + intros i Hi. apply (Hne (S i)). simpl. lia.
    + reflexivity.
    + reflexivity.
    + unfold f_rest in *. cbn [f_pos f_bytes]. rewrite <- Hpos.
      rewrite <- N.add_assoc, N2Nat.inj_add, <- drop_drop, Hrest.
      rewrite <- append_assoc, <- strlen_append, strlen_to_nat. apply drop_append.
    + exact Hg2.
    + exact Hr2.
    + lia.
    + simpl in Hfuel. lia.
Qed.

(** The records of a run with increasing keys, from any of them on, take
    bytes in the data file, unless the run is the run of the empty record. *)
Lemma sorted_suffix_bytes (rs : list record) (i : nat) :
  sorted_keys rs -> rs <> empty_record_run -> (i < List.length rs)%nat ->
  concat_records (skipn i rs) <> "".
Proof.
  intros Hs Hne Hi Hc. destruct i as [|i].
  - simpl in Hc. destruct (concat_records_empty rs Hs Hc) as [->| ->].
    + simpl in Hi. lia.
    + now apply Hne.
  - destruct (nth_error rs (S i)) as [[k v]|] eqn:E;
      [|apply nth_error_None in E; lia].
    rewrite (nth_error_skipn _ _ _ E) in Hc. cbn [concat_records] in Hc.
    apply append_is_empty in Hc. destruct Hc as [-> _].
    destruct (nth_error rs 0) as [r0|] eqn:E0;
      [|apply nth_error_None in E0; lia].
    pose proof (sorted_keys_nth rs 0 (S i) r0 ("", v) Hs ltac:(lia) E0 E) as H.
    simpl in H. now rewrite ltb_empty in H.
Qed.

(** [initialize_filter] on a run in the format with increasing keys: the
    filter of the keys of the run. *)
Lemma initialize_filter_sorted (run : SortedRun) (rs : list record) :
  holds run rs -> sorted_keys rs -> rs <> empty_record_run ->
  strlen (concat_records rs) < 2 ^ 63 ->
  initialize_filter' run = Ret (add_all (List.map fst rs) BloomFilter_new).
Proof.
  intros [Hdata [c Hmeta]] Hs Hne Hsize. unfold initialize_filter.
  destruct (mread_next 0 (open_meta (run_meta run)) 0 (offsets 0 rs ++ [c])%list eq_refl)
    as (m & -> & Hg & Hr).
  { unfold m_rest. simpl. exact Hmeta. }
  apply (initialize_filter_loop_spec rs c).
  - intros i Hi. now apply sorted_suffix_bytes.
  - reflexivity.
  - reflexivity.
  - unfold f_rest. simpl. exact Hdata.
  - exact Hg.
  - exact Hr.
  - lia.
  - rewrite Hmeta. simpl. rewrite length_app, offsets_length. lia.
Qed.

(** [initialize_filter] on a run whose data file is empty: the loop is not
    entered and the filter stays clear. *)
Lemma initialize_filter_empty_data (run : SortedRun) :
  run_data run = "" -> initialize_filter' run = Ret BloomFilter_new.
Proof.
  intros Hd. unfold initialize_filter.
  destruct (mread 0 (open_meta (run_meta run))) as [pre_idx m].
  assert (Hpeek : peek_not_eof (open_data (run_data run)) = false).
  { unfold peek_not_eof, f_rest. rewrite Hd. reflexivity. }
  cbn [initialize_filter_loop]. now rewrite Hpeek.
Qed.

(** ** Lookups in the runs of the engine *)

(** [Find] on a run that the Flusher wrote for the buffer [m]. *)
Lemma Find_FLUSH_run (m : map) (key value : string) :
  sorted_keys m ->
  strlen (concat_records m) < 2 ^ 63 ->
  N.of_nat (List.length m) < 2 ^ 31 ->
  exists value',
    Find (FLUSH_run m) key value =
    Ret (match map_find key m with
         | Some v => (true, v)
         | None => (false, value')
         end).
Proof.
  intros Hs Hsize Hn.
  destruct (FLUSH_run_holds m) as [[Hdata [c Hmeta]] Hc].
  rewrite (run_count_holds _ _ _ Hmeta) in Hc. subst c.
  now apply Find_count_exact.
Qed.

(** [Find] on a run that [merge] wrote, for a key that the run holds. *)
Lemma Find_merge_run (src : list SortedRun) (temp0 : BloomFilter) (last : bool)
    (run : SortedRun) (f : BloomFilter) (key v value : string) :
  merge' src temp0 last = Ret (run, f) ->
  sorted_keys (run_records run) ->
  strlen (run_data run) < 2 ^ 63 ->
  N.of_nat (List.length (run_records run)) < 2 ^ 31 ->
  List.In (key, v) (run_records run) ->
  Find run key value = Ret (true, v).
Proof.
  intros Hm Hs Hsize Hn Hin.
  destruct (merge_count_doubles _ _ _ _ _ Hm) as [[Hdata [c Hmeta]] Hc].
  rewrite (run_count_holds _ _ _ Hmeta) in Hc. subst c.
  rewrite Hdata in Hsize.
  destruct (Find_count_double run (run_records run) key value (key, v)
              Hdata Hmeta Hs Hsize Hn Hin (ltb_irrefl key)) as [value' ->].
  apply (map_find_In _ _ _ Hs) in Hin. now rewrite Hin.
Qed.

(** [GET] after the Flusher has written a frozen buffer: a key that the
    frozen buffer held, and that the active buffer does not hold, is found
    in the new run, the newest of Tier 1. *)
Lemma get_after_FLUSH_write (key v : string) (st : Database) :
  sorted_keys (read_memtable st) ->
  strlen (concat_records (read_memtable st)) < 2 ^ 63 ->
  N.of_nat (List.length (read_memtable st)) < 2 ^ 31 ->
  map_find key (write_memtable st) = None ->
  map_find key (read_memtable st) = Some v ->
  get' key (FLUSH_write std_hash st) =
  Ret (if (v =? TOMBSTONE)%string then None else Some v).
Proof.
  intros Hs Hsize Hn Hw Hr.
  unfold get, GET. change (write_memtable (FLUSH_write std_hash st)) with (write_memtable st).
  rewrite Hw. destruct (BloomFilter_contains std_hash key _); cbv iota.
  1, 2: (
    change (tiers (FLUSH_write std_hash st))
      with (push_run_1 (FLUSH_run (read_memtable st))
              (add_all (List.map fst (read_memtable st)) (flush_temp st))
              (get_folder_1 (tiers st)));
    assert (Hc : contains key (add_all (List.map fst (read_memtable st)) (flush_temp st))
                 = true)
      by (apply BloomFilter_add_all_contains;
          apply (map_find_In _ _ _ Hs) in Hr;
          change key with (fst (key, v)); now apply in_map);
    destruct (Find_FLUSH_run (read_memtable st) key "" Hs Hsize Hn) as [value' Hf];
    rewrite Hr in Hf;
    destruct (tiers st) as [|t1 ts]; cbn [get_folder_1 push_run_1 GET_tiers];
    rewrite ?rev_app_distr; cbn [rev app GET_tier];
    rewrite Hc, Hf; cbn [bind andb];
    destruct (v =? TOMBSTONE)%string; reflexivity).
Qed.

(** [SET] on a key leaves the answer of [GET] for every other key as it
    was, in a state where the filter of the active buffer covers it. *)
Lemma SET_frame (key value key' : string) (st : Database) :
  filter_covers std_hash st -> key' <> key ->
  get' key' (snd (SET' key value st)) = get' key' st.
Proof.
  intros Hcov Hne.
  destruct (fst (SET' key value st)) eqn:Eok;
    [|now rewrite (SET_rejected_state _ _ _ Eok)].
  destruct (SET_accepted_fields key value st Eok) as (Em & Ef & _ & _ & Et & _).
  unfold get, GET. rewrite Em, Ef, Et, (map_find_insert_other key' key value _ Hne).
  destruct (contains key' (filter_write st)) eqn:Ec.
  - now rewrite (BloomFilter_contains_keeps key' key _ Ec).
  - destruct (map_find key' (write_memtable st)) as [w|] eqn:Ew.
    + rewrite (Hcov key' w Ew) in Ec. discriminate.
    + destruct (contains key' (add key (filter_write st))); reflexivity.
Qed.

(** ** The buffers and their filters in the states that the engine reaches *)

Local Abbreviation filter_covers' := (filter_covers std_hash).
Local Abbreviation buffers_inv' := (buffers_inv std_hash).

Lemma SET_other_fields (key value : string) (st : Database) :
  tiers (snd (SET' key value st)) = tiers st /\
  compactid (snd (SET' key value st)) = compactid st /\
  ifread_memtable (snd (SET' key value st)) = ifread_memtable st /\
  read_memtable (snd (SET' key value st)) = read_memtable st.
Proof.
  unfold SET, append_to_WAL. destruct (MAX <=? _); [repeat split|].
  destruct (wal st) as [p|]; [destruct (dir_get p (dir st))|];
    cbn -[N.add]; destruct (MAX <=? _); repeat split.
Qed.

(** One insertion with its [add] keeps the filter over the buffer. *)
Lemma insert_covers (key value : string) (m : map) (f : BloomFilter) :
  (forall k v, map_find k m = Some v -> contains k f = true) ->
  forall k v, map_find k (map_insert key value m) = Some v ->
    contains k (add key f) = true.
Proof.
  intros H k v Hf. destruct (String.eqb_spec k key) as [->|Hne].
  - apply BloomFilter_contains_add.
  - rewrite (map_find_insert_other k key value m Hne) in Hf.
    apply BloomFilter_contains_keeps. exact (H k v Hf).
Qed.

Lemma SET_buffers_inv (key value : string) (st : Database) :
  buffers_inv' st -> buffers_inv' (snd (SET' key value st)).
Proof.
  intros [Hc Hr]. destruct (SET_other_fields key value st) as (_ & _ & Ei & Er).
  split; [|now rewrite Ei, Er].
  destruct (fst (SET' key value st)) eqn:Eok;
    [|now rewrite (SET_rejected_state _ _ _ Eok)].
  destruct (SET_accepted_fields key value st Eok) as (Em & Ef & _).
  unfold filter_covers. rewrite Em, Ef. now apply insert_covers.
Qed.

Lemma replay_buffers_inv (recs : list record) (st : Database) :
  buffers_inv' st -> buffers_inv' (replay' recs st).
Proof.
  revert st. induction recs as [|[k v] recs IH]; intros st H; [exact H|].
  change (replay' ((k, v) :: recs) st) with
    (replay' recs
       (set_filter_write (add k (filter_write st))
          (set_write_memtable (map_insert k v (write_memtable st))
             (set_mem_size (mem_size st + strlen k + strlen v) st)))).
  apply IH. destruct H as [Hc Hr]. split; [|exact Hr].
  unfold filter_covers. cbn [filter_write write_memtable set_filter_write
    set_write_memtable set_mem_size]. now apply insert_covers.
Qed.

Lemma covers_empty (st : Database) : write_memtable st = [] -> filter_covers' st.
Proof. intros E k v. rewrite E. discriminate. Qed.

Lemma FLUSH_swap_buffers_inv (st : Database) :
  read_memtable st = [] -> buffers_inv' (FLUSH_swap st).
Proof.
  intros Hr. split; [now apply covers_empty|]. discriminate.
Qed.

Lemma FLUSH_write_buffers_inv (st : Database) :
  buffers_inv' st -> buffers_inv' (FLUSH_write std_hash st).
Proof. intros [Hc _]. split; [exact Hc|reflexivity]. Qed.

Lemma flush_if_full_buffers_inv (st : Database) :
  buffers_inv' st -> buffers_inv' (flush_if_full' st).
Proof.
  intros H. unfold flush_if_full. destruct (MAX <=? mem_size st); [|exact H].
  unfold await_swap. apply FLUSH_swap_buffers_inv.
  destruct (ifread_memtable (signal_flush st)) eqn:E; [reflexivity|].
  destruct H as [_ Hr]. exact (Hr E).
Qed.

Lemma initializer_helper_buffers_inv (st : Database) :
  buffers_inv' st -> buffers_inv' (initializer_helper' st).
Proof.
  intros H. unfold initializer_helper. apply flush_if_full_buffers_inv.
  exact (replay_buffers_inv _ st H).
Qed.

Lemma initialize_memtable_buffers_inv (st : Database) :
  buffers_inv' st -> buffers_inv' (initialize_memtable' st).
Proof.
  intros Hinv. unfold initialize_memtable.
  destruct (stage_logs (set_WAL WAL_temp_bin st)) as [st1 WAL1] eqn:E.
  assert (H1 : buffers_inv' st1).
  { unfold stage_logs in E. destruct (_ && _); [|destruct (negb _)];
      inversion E; subst; exact Hinv. }
  set (st2 := if dir_exists WAL_temp_bin (dir st1)
              then set_dir (dir_set WAL_bin None (dir (initializer_helper' st1)))
                     (set_wal None (initializer_helper' st1))
              else st1).
  assert (H2 : buffers_inv' st2).
  { unfold st2. destruct (dir_exists WAL_temp_bin (dir st1)); [|exact H1].
    exact (initializer_helper_buffers_inv st1 H1). }
  destruct (dir_exists WAL1 _).
  - apply initializer_helper_buffers_inv. exact H2.
  - destruct (negb _); exact H2.
Qed.

(** A compaction touches the tiers only. *)
Lemma compact_rec_memory (fuel i : nat) (st st' : Database) :
  compact_rec std_hash fuel i st = Ret st' ->
  write_memtable st' = write_memtable st /\ filter_write st' = filter_write st /\
  read_memtable st' = read_memtable st /\ ifread_memtable st' = ifread_memtable st /\
  compactid st' = compactid st /\ dir st' = dir st.
Proof.
  revert i st. induction fuel as [|fuel IH]; intros i st; [discriminate|].
  cbn [compact_rec].
  destruct (compact_step' i st) as [st1| |] eqn:E; cbn [bind]; try discriminate.
  assert (H1 : write_memtable st1 = write_memtable st /\
               filter_write st1 = filter_write st /\
               read_memtable st1 = read_memtable st /\
               ifread_memtable st1 = ifread_memtable st /\
               compactid st1 = compactid st /\ dir st1 = dir st).
  { unfold compact_step in E. destruct i as [|i']; [discriminate|].
    destruct (nth_error (tiers st) (S i' - 1)); [|discriminate].
    destruct (merge' _ _ _) as [[run f]| |]; cbn [bind] in E; try discriminate.
    inversion E. repeat split. }
  destruct (Nat.leb MIN_TH _).
  - intros H. destruct (IH _ _ H) as (E1 & E2 & E3 & E4 & E5 & E6).
    destruct H1 as (F1 & F2 & F3 & F4 & F5 & F6).
    rewrite E1, E2, E3, E4, E5, E6. repeat split; assumption.
  - now intros [= <-].
Qed.

Lemma compact_buffers_inv (i : nat) (st st' : Database) :
  buffers_inv' st -> compact std_hash i st = Ret st' -> buffers_inv' st'.
Proof.
  intros [Hc Hr] H. destruct (compact_rec_memory _ _ _ _ H) as (E1 & E2 & E3 & E4 & _).
  unfold buffers_inv, filter_covers. rewrite E1, E2, E3, E4. split; assumption.
Qed.

(** ** The shape of the tiers in the states that the engine reaches *)

Lemma nth_app_nil (ts : list Tier) (j : nat) :
  nth j (ts ++ [[]])%list [] = nth j ts [].
Proof.
  destruct (Nat.lt_ge_cases j (List.length ts)) as [H|H].
  - now apply app_nth1.
  - rewrite app_nth2 by exact H. rewrite (nth_overflow ts) by exact H.
    destruct (j - List.length ts)%nat as [|[|n]]; reflexivity.
Qed.

(** The tiers after one step of a compaction: the tier [i] is empty, the
    tier [i + 1] has one run more, and the other tiers are as they were. *)
Lemma compact_step_tiers (i : nat) (st st' : Database) :
  compact_step' i st = Ret st' ->
  (1 <= i)%nat /\
  List.length (nth i (tiers st') []) = S (List.length (nth i (tiers st) [])) /\
  nth (i - 1) (tiers st') [] = [] /\
  (forall j, j <> i -> j <> (i - 1)%nat -> nth j (tiers st') [] = nth j (tiers st) []) /\
  (List.length (tiers st) <= List.length (tiers st'))%nat /\
  (i < List.length (tiers st'))%nat.
Proof.
  unfold compact_step. destruct i as [|i']; [discriminate|].
  destruct (nth_error (tiers st) (S i' - 1)) as [tier_i|] eqn:En; [|discriminate].
  fold (compact_last (S i') st).
  destruct (merge' _ _ _) as [[run f]| |]; cbn [bind]; try discriminate.
  set (ts1 := if compact_last (S i') st then (tiers st ++ [[]])%list else tiers st).
  intros E.
  assert (E' : tiers st' =
               list_set (S i') (nth (S i') (list_set (S i' - 1) [] ts1) [] ++ [(run, f)])%list
                 (list_set (S i' - 1) [] ts1)) by (inversion E; reflexivity).
  clear E.
  assert (Hlt : (S i' - 1 < List.length (tiers st))%nat)
    by (apply nth_error_Some; congruence).
  assert (Hlast : compact_last (S i') st = Nat.eqb (S i') (List.length (tiers st))).
  { unfold compact_last, levels_main_size. f_equal. lia. }
  assert (Hnth : forall j, nth j ts1 [] = nth j (tiers st) []).
  { intros j. unfold ts1. destruct (compact_last (S i') st); [apply nth_app_nil|reflexivity]. }
  assert (Hlen : (List.length (tiers st) <= List.length ts1)%nat /\
                 (S i' < List.length ts1)%nat).
  { unfold ts1. rewrite Hlast. destruct (Nat.eqb_spec (S i') (List.length (tiers st))).
    - rewrite length_app. simpl. lia.
    - lia. }
  rewrite E'. split; [lia|]. split; [|split; [|split; [|split]]].
  - rewrite nth_list_set_same by (rewrite list_set_length; lia).
    rewrite length_app, nth_list_set_other, Hnth by lia. simpl. lia.
  - rewrite nth_list_set_other by lia.
    rewrite nth_list_set_same by lia. reflexivity.
  - intros j H1 H2. rewrite !nth_list_set_other by lia. apply Hnth.
  - rewrite !list_set_length. lia.
  - rewrite !list_set_length. lia.
Qed.

(** A compaction, with the compactions that it starts, leaves fewer than
    [MIN_TH] runs in every tier below Tier 1, when the tier it starts on is
    the only one that can have more. *)
Lemma compact_rec_bounded (fuel i : nat) (st st' : Database) :
  (forall j, (1 <= j)%nat -> j <> (i - 1)%nat ->
     (List.length (nth j (tiers st) []) < MIN_TH)%nat) ->
  compact_rec std_hash fuel i st = Ret st' ->
  tiers_bounded (tiers st') /\ tiers st' <> [].
Proof.
  revert i st. induction fuel as [|fuel IH]; intros i st Hb; [discriminate|].
  cbn [compact_rec].
  destruct (compact_step' i st) as [st1| |] eqn:E; cbn [bind]; try discriminate.
  destruct (compact_step_tiers i st st1 E) as (Hi & Hn & Hz & Ho & _ & Hlen).
  destruct (Nat.leb_spec MIN_TH (List.length (nth i (tiers st1) []))) as [Hfull|Hnot].
  - apply IH. intros j Hj Hne. replace (i + 1 - 1)%nat with i in Hne by lia.
    destruct (Nat.eq_dec j (i - 1)) as [->|Hne'].
    + rewrite Hz. simpl. unfold MIN_TH. lia.
    + rewrite Ho by lia. now apply Hb.
  - intros [= <-]. split; [|intros E0; rewrite E0 in Hlen; simpl in Hlen; lia].
    intros j Hj. destruct (Nat.eq_dec j i) as [->|Hne]; [exact Hnot|].
    destruct (Nat.eq_dec j (i - 1)) as [->|Hne'].
    + rewrite Hz. simpl. unfold MIN_TH. lia.
    + rewrite Ho by lia. now apply Hb.
Qed.

Lemma compact_bounded (i : nat) (st st' : Database) :
  tiers_bounded (tiers st) -> compact std_hash i st = Ret st' ->
  tiers_bounded (tiers st') /\ tiers st' <> [].
Proof.
  intros Hb. unfold compact. apply compact_rec_bounded.
  intros j Hj _. now apply Hb.
Qed.

(** The Flusher appends to Tier 1. *)
Lemma push_run_1_nth (run : SortedRun) (f : BloomFilter) (ts : list Tier) (j : nat) :
  (1 <= j)%nat ->
  nth j (push_run_1 run f (get_folder_1 ts)) [] = nth j ts [].
Proof.
  intros Hj. destruct j as [|j]; [lia|].
  destruct ts as [|t ts]; [destruct j; reflexivity|reflexivity].
Qed.

Lemma push_run_1_not_nil (run : SortedRun) (f : BloomFilter) (ts : list Tier) :
  push_run_1 run f (get_folder_1 ts) <> [].
Proof. destruct ts; discriminate. Qed.

Lemma FLUSH_write_tiers (st : Database) :
  tiers_bounded (tiers st) ->
  tiers_bounded (tiers (FLUSH_write std_hash st)) /\
  compaction_has_input (FLUSH_write std_hash st).
Proof.
  intros Hb. split.
  - intros j Hj.
    change (tiers (FLUSH_write std_hash st))
      with (push_run_1 (FLUSH_run (read_memtable st))
              (add_all (List.map fst (read_memtable st)) (flush_temp st))
              (get_folder_1 (tiers st))).
    rewrite push_run_1_nth by exact Hj. now apply Hb.
  - intros E. exfalso. revert E. apply push_run_1_not_nil.
Qed.

Local Abbreviation tiers_inv st :=
  (tiers_bounded (tiers st) /\ compaction_has_input st).

Lemma replay_compactid (recs : list record) (st : Database) :
  compactid (replay' recs st) = compactid st.
Proof.
  revert st. induction recs as [|[k v] recs IH]; intros st; [reflexivity|].
  change (replay' ((k, v) :: recs) st) with
    (replay' recs
       (set_filter_write (add k (filter_write st))
          (set_write_memtable (map_insert k v (write_memtable st))
             (set_mem_size (mem_size st + strlen k + strlen v) st)))).
  now rewrite IH.
Qed.

Lemma replay_tiers_inv (recs : list record) (st : Database) :
  tiers_inv st -> tiers_inv (replay' recs st).
Proof.
  intros [Hb Hc]. destruct (replay_fields recs st) as (_ & _ & _ & _ & _ & Et).
  unfold compaction_has_input. rewrite Et, replay_compactid. split; assumption.
Qed.

Lemma flush_if_full_tiers_inv (st : Database) :
  tiers_inv st -> tiers_inv (flush_if_full' st).
Proof.
  intros H. unfold flush_if_full. destruct (MAX <=? mem_size st); [|exact H].
  unfold await_swap. destruct (ifread_memtable (signal_flush st)); [|exact H].
  destruct H as [Hb _]. exact (FLUSH_write_tiers (signal_flush st) Hb).
Qed.

Lemma initializer_helper_tiers_inv (st : Database) :
  tiers_inv st -> tiers_inv (initializer_helper' st).
Proof.
  intros H. unfold initializer_helper. apply flush_if_full_tiers_inv.
  exact (replay_tiers_inv _ st H).
Qed.

Lemma initialize_memtable_tiers_inv (st : Database) :
  tiers_inv st -> tiers_inv (initialize_memtable' st).
Proof.
  intros Hinv. unfold initialize_memtable.
  destruct (stage_logs (set_WAL WAL_temp_bin st)) as [st1 WAL1] eqn:E.
  assert (H1 : tiers_inv st1).
  { unfold stage_logs in E. destruct (_ && _); [|destruct (negb _)];
      inversion E; subst; exact Hinv. }
  set (st2 := if dir_exists WAL_temp_bin (dir st1)
              then set_dir (dir_set WAL_bin None (dir (initializer_helper' st1)))
                     (set_wal None (initializer_helper' st1))
              else st1).
  assert (H2 : tiers_inv st2).
  { unfold st2. destruct (dir_exists WAL_temp_bin (dir st1)); [|exact H1].
    exact (initializer_helper_tiers_inv st1 H1). }
  destruct (dir_exists WAL1 _).
  - apply initializer_helper_tiers_inv. exact H2.
  - destruct (negb _); exact H2.
Qed.

Lemma startup_compactions_bounded (j : nat) (st st' : Database) :
  tiers_bounded (tiers st) -> startup_compactions std_hash j st = Ret st' ->
  tiers_bounded (tiers st') /\ compactid st' = compactid st.
Proof.
  revert st. induction j as [|j IH]; intros st Hb; cbn [startup_compactions].
  - intros [= <-]. split; [exact Hb|reflexivity].
  - destruct (Nat.leb MIN_TH _).
    + destruct (compact std_hash (S j) st) as [st1| |] eqn:E; cbn [bind];
        try discriminate.
      intros H. destruct (compact_bounded _ _ _ Hb E) as [Hb1 _].
      destruct (compact_rec_memory _ _ _ _ E) as (_ & _ & _ & _ & Ec & _).
      destruct (IH st1 Hb1 H) as [H1 H2]. split; [exact H1|congruence].
    + cbn [bind]. now apply IH.
Qed.

Lemma initialize_folders_runs (tss : list (list SortedRun)) (ts : list Tier) :
  initialize_folders std_hash tss = Ret ts -> List.map (List.map fst) ts = tss.
Proof.
  revert ts. induction tss as [|runs tss IH]; intros ts; simpl.
  - now intros [= <-].
  - destruct (initialize_folder std_hash runs) as [t| |] eqn:E; simpl; try discriminate.
    destruct (initialize_folders std_hash tss) as [ts'| |]; simpl; try discriminate.
    intros [= <-]. simpl. now rewrite (initialize_folder_runs _ _ E), (IH ts' eq_refl).
Qed.

Lemma same_runs_same_lengths (ts ts' : list Tier) (j : nat) :
  List.map (List.map fst) ts' = List.map (List.map fst) ts ->
  List.length (nth j ts' []) = List.length (nth j ts []).
Proof.
  intros H.
  assert (E : forall l : list Tier,
             List.length (nth j l []) =
             List.length (nth j (List.map (List.map fst) l) [])).
  { intros l. change (@nil SortedRun) with (List.map (@fst SortedRun BloomFilter) []).
    now rewrite map_nth, length_map. }
  now rewrite (E ts'), (E ts), H.
Qed.

Lemma startup_compactions_memory (j : nat) (st st' : Database) :
  startup_compactions std_hash j st = Ret st' ->
  write_memtable st' = write_memtable st /\ filter_write st' = filter_write st /\
  read_memtable st' = read_memtable st /\ ifread_memtable st' = ifread_memtable st /\
  compactid st' = compactid st /\ dir st' = dir st.
Proof.
  revert st. induction j as [|j IH]; intros st; cbn [startup_compactions].
  - intros [= <-]. repeat split.
  - destruct (Nat.leb MIN_TH _).
    + destruct (compact std_hash (S j) st) as [st1| |] eqn:E; cbn [bind];
        try discriminate.
      intros H. destruct (compact_rec_memory _ _ _ _ E) as (F1 & F2 & F3 & F4 & F5 & F6).
      destruct (IH st1 H) as (E1 & E2 & E3 & E4 & E5 & E6).
      rewrite E1, E2, E3, E4, E5, E6. repeat split; assumption.
    + cbn [bind]. now apply IH.
Qed.

Lemma Database_restart_reach (st st' : Database) :
  tiers_bounded (tiers st) -> Database_restart std_hash st = Ret st' ->
  reach_inv std_hash st'.
Proof.
  intros Hb. unfold Database_restart.
  destruct (initialize_folders std_hash _) as [ts| |] eqn:E; cbn [bind];
    try discriminate.
  destruct (startup_compactions std_hash _ _) as [st1| |] eqn:E1; cbn [bind];
    try discriminate.
  intros [= <-]. apply initialize_folders_runs in E.
  assert (Hts : tiers_bounded (tiers (Database_boot ts (dir st)))).
  { intros j Hj. simpl. rewrite (same_runs_same_lengths (tiers st) ts j E). now apply Hb. }
  destruct (startup_compactions_bounded _ _ _ Hts E1) as [Hb1 _].
  destruct (startup_compactions_memory _ _ _ E1) as (E2 & _ & E4 & E5 & E6 & _).
  simpl in E2, E4, E5, E6.
  assert (H1 : buffers_inv' st1).
  { split; [now apply covers_empty|]. intros _. exact E4. }
  assert (H2 : tiers_inv st1).
  { split; [exact Hb1|]. intros _. exact E6. }
  pose proof (initialize_memtable_buffers_inv st1 H1) as H3.
  pose proof (initialize_memtable_tiers_inv st1 H2) as [H4 H5].
  exact (conj H3 (conj H4 H5)).
Qed.

Lemma exec_event_reach (e : event) (st st' : Database) :
  reach_inv std_hash st -> exec_event std_hash e st = Some st' -> reach_inv std_hash st'.
Proof.
  intros (Hbuf & Hb & Hc). destruct e as [k v|k| | | |]; simpl.
  - destruct (flushrunning st); [discriminate|]. intros [= <-].
    destruct (SET_other_fields k v st) as (Et & Ec & _).
    split; [now apply SET_buffers_inv|].
    unfold compaction_has_input. rewrite Et, Ec. split; assumption.
  - destruct (flushrunning st); [discriminate|]. intros [= <-].
    destruct (SET_other_fields k TOMBSTONE st) as (Et & Ec & _).
    split; [now apply SET_buffers_inv|].
    unfold compaction_has_input, DELETE. rewrite Et, Ec. split; assumption.
  - destruct (ifread_memtable st) eqn:Ei; [rewrite andb_false_r; discriminate|].
    destruct (0 <? semid0 st); [|discriminate]. intros [= <-].
    split; [apply FLUSH_swap_buffers_inv; now apply Hbuf|]. split; assumption.
  - destruct (ifread_memtable st); [|discriminate]. intros [= <-].
    split; [now apply FLUSH_write_buffers_inv|]. now apply FLUSH_write_tiers.
  - destruct (0 <? compactid st); [|discriminate].
    destruct (compact std_hash 1 _) as [st1| |] eqn:E; try discriminate.
    intros [= <-].
    split; [exact (compact_buffers_inv 1 (set_compactid (compactid st - 1) st) _ Hbuf E)|].
    destruct (compact_bounded 1 (set_compactid (compactid st - 1) st) _ Hb E) as [H1 H2].
    split; [exact H1|]. intros E0. contradiction.
  - destruct (Database_restart std_hash st) as [st1| |] eqn:E; try discriminate.
    intros [= <-]. now apply (Database_restart_reach st).
Qed.

Lemma exec_reach (es : list event) (st st' : Database) :
  reach_inv std_hash st -> exec std_hash es st = Some st' -> reach_inv std_hash st'.
Proof.
  revert st. induction es as [|e es IH]; intros st Hinv; simpl.
  - now intros [= <-].
  - destruct (exec_event std_hash e st) as [st1|] eqn:E; [|discriminate].
    apply IH. now apply (exec_event_reach e st).
Qed.

Lemma Database_init_reach : reach_inv std_hash (Database_init std_hash).
Proof.
  unfold Database_init.
  set (st0 := Database_boot [] (mk_wal_dir None None None)).
  assert (H1 : buffers_inv' st0) by (split; [now apply covers_empty|intros _; reflexivity]).
  assert (H2 : tiers_inv st0).
  { split; [|intros _; reflexivity]. intros j _. destruct j; simpl; unfold MIN_TH; lia. }
  pose proof (initialize_memtable_buffers_inv st0 H1) as H3.
  pose proof (initialize_memtable_tiers_inv st0 H2) as [H4 H5].
  exact (conj H3 (conj H4 H5)).
Qed.

(** ** A compaction returns *)

Lemma compact_step_returns (i : nat) (st : Database) :
  engine_inv st -> (1 <= i <= List.length (tiers st))%nat ->
  exists st', compact_step' i st = Ret st' /\
    List.length (tiers st') =
      (if Nat.eqb i (List.length (tiers st)) then S (List.length (tiers st))
       else List.length (tiers st)).
Proof.
  intros (_ & _ & Ht) Hi. unfold compact_step. destruct i as [|i']; [lia|].
  destruct (nth_error (tiers st) (S i' - 1)) as [tier_i|] eqn:En;
    [|apply nth_error_None in En; lia].
  destruct (merge_run_sorted (List.map fst tier_i) BloomFilter_new
              (compact_last (S i') st)) as (run & f & Hm & _).
  { intros r Hin. apply in_map_iff in Hin. destruct Hin as (rf & <- & Hrf).
    apply (Ht tier_i); [|exact Hrf]. eapply nth_error_In; eauto. }
  fold (compact_last (S i') st). rewrite Hm. cbn [bind].
  eexists. split; [reflexivity|]. cbn [tiers set_tiers].
  rewrite !list_set_length.
  assert (Hlast : compact_last (S i') st = Nat.eqb (S i') (List.length (tiers st))).
  { unfold compact_last, levels_main_size. f_equal. lia. }
  rewrite Hlast. destruct (Nat.eqb (S i') (List.length (tiers st))); [|reflexivity].
  rewrite length_app. simpl. lia.
Qed.

Lemma compact_rec_returns (fuel i : nat) (st : Database) :
  engine_inv st -> (1 <= i <= List.length (tiers st))%nat ->
  (List.length (tiers st) - i < fuel)%nat ->
  exists st', compact_rec std_hash fuel i st = Ret st'.
Proof.
  revert i st. induction fuel as [|fuel IH]; intros i st Hinv Hi Hfuel; [lia|].
  cbn [compact_rec].
  destruct (compact_step_returns i st Hinv Hi) as (st1 & E & Hlen).
  rewrite E. cbn [bind].
  destruct (compact_step_tiers i st st1 E) as (_ & Hn & _ & _ & _ & Hlt).
  destruct (Nat.leb_spec MIN_TH (List.length (nth i (tiers st1) []))) as [Hfull|_];
    [|eexists; reflexivity].
  destruct (Nat.eqb_spec i (List.length (tiers st))) as [Elast|Hne].
  - rewrite Hn, (nth_overflow (tiers st)) in Hfull by lia.
    simpl in Hfull. unfold MIN_TH in Hfull. lia.
  - apply IH; [exact (compact_step_inv i st st1 Hinv E)|lia|lia].
Qed.

(** [compact(i)] on an existing tier of an engine whose runs are sorted runs
    returns: no input faults, and the recursion ends. *)
Lemma compact_returns (i : nat) (st : Database) :
  engine_inv st -> (1 <= i <= List.length (tiers st))%nat ->
  exists st', compact std_hash i st = Ret st'.
Proof.
  intros Hinv Hi. unfold compact. apply compact_rec_returns; [exact Hinv|exact Hi|lia].
Qed.

(** ** The merge loses no key *)

(** The records of an input that are still to come out: those above [prev]
    and those not read. *)
Lemma pending_done (first : bool) (prev : string) (run : list record) (a : acursor)
    (r : record) :
  cinv first prev run a -> In r run ->
  String.ltb prev (fst r) = true \/ In r (snd a) ->
  In r (snd a) \/ (r = fst a /\ String.ltb prev (fst (fst a)) = true).
Proof.
  destruct a as [hd rest].
  intros (done & HR & Hhd & Hs & F2 & _) Hin [Hp|Hrest]; [|now left]. simpl in *.
  rewrite HR in Hin. apply in_app_or in Hin. destruct Hin as [Hd|Hr]; [|now left].
  destruct (in_removelast_or_last r done ("", "") Hd) as [H|H].
  - rewrite (F2 r H) in Hp. discriminate.
  - right. rewrite Hhd, <- H. split; [reflexivity|exact Hp].
Qed.

Lemma key_trichotomy (k : string) (r : record) :
  String.ltb (fst r) k = false ->
  fst r = k \/ String.ltb k (fst r) = true.
Proof.
  intros H. destruct (ltb_total k (fst r)) as [H1|[H1|H1]]; [now right|now left|].
  rewrite H1 in H. discriminate.
Qed.

(** One turn of the loop, for one input: a pending record is the one
    selected, or is pending after the turn. *)
Lemma complete_step (first : bool) (prev k : string) (run : list record)
    (a : acursor) (r : record) :
  cinv first prev run a ->
  (forall d, acand prev a = Some d -> String.ltb (fst d) k = false) ->
  In r run ->
  String.ltb prev (fst r) = true \/ In r (snd a) ->
  fst r = k \/ String.ltb k (fst r) = true \/ In r (snd (anext prev a)).
Proof.
  intros Hinv Hmin Hin Hp.
  destruct (pending_done _ _ _ _ _ Hinv Hin Hp) as [Hrest|[-> Hhd]].
  - destruct a as [hd rest]. unfold acand, anext in *. simpl in *.
    destruct (String.ltb prev (fst hd)); [now right; right|].
    destruct rest as [|r0 rest']; [destruct Hrest|].
    destruct (negb (concat_records (r0 :: rest') =? "")%string);
      [|now right; right].
    destruct Hrest as [<-|Hr']; [|now right; right].
    destruct (key_trichotomy k r0 (Hmin r0 eq_refl)) as [H|H]; [now left|now right; left].
  - destruct a as [hd rest]. unfold acand in Hmin. simpl in *. rewrite Hhd in Hmin.
    destruct (key_trichotomy k hd (Hmin hd eq_refl)) as [H|H]; [now left|now right; left].
Qed.

(** An input that offers nothing has no pending record, unless its run is
    the run of the empty record. *)
Lemma complete_end (first : bool) (prev : string) (run : list record)
    (a : acursor) (r : record) :
  cinv first prev run a -> run <> empty_record_run ->
  acand prev a = None -> In r run ->
  String.ltb prev (fst r) = true \/ In r (snd a) -> False.
Proof.
  intros Hinv Hne Hc Hin Hp.
  destruct (pending_done _ _ _ _ _ Hinv Hin Hp) as [Hrest|[-> Hhd]].
  - destruct a as [hd rest]. destruct Hinv as (done & HR & Hl & Hs & _).
    unfold acand in Hc. simpl in *.
    destruct (String.ltb prev (fst hd)); [discriminate|].
    destruct rest as [|r0 rest']; [destruct Hrest|].
    destruct (negb (concat_records (r0 :: rest') =? "")%string) eqn:Eb; [discriminate|].
    apply negb_false_iff, String.eqb_eq in Eb.
    rewrite HR in Hs. apply sorted_keys_app in Hs. destruct Hs as (_ & Hs2 & Hs3).
    destruct (concat_records_empty _ Hs2 Eb) as [E|E]; [discriminate|].
    destruct done as [|d done].
    + apply Hne. rewrite HR. exact E.
    + specialize (Hs3 d r0 (or_introl eq_refl) (or_introl eq_refl)).
      injection E as -> _. simpl in Hs3. rewrite ltb_empty in Hs3. discriminate.
  - destruct a as [hd rest]. unfold acand in Hc. simpl in *. rewrite Hhd in Hc.
    discriminate.
Qed.

Lemma Forall2_step {A B : Type} (P Q R : A -> B -> Prop) (f : B -> B)
    (l : list A) (l' : list B) :
  Forall2 P l l' -> Forall2 Q l (List.map f l') ->
  (forall x y, In y l' -> P x y -> Q x (f y) -> R x y) ->
  Forall2 R l l'.
Proof.
  induction 1 as [|x y l l' Hxy Hl IH]; intros HQ HR; [constructor|].
  simpl in HQ. inversion HQ; subst. constructor.
  - apply HR; [now left|assumption|assumption].
  - apply IH; [assumption|]. intros x' y' Hin. apply HR. now right.
Qed.

(** The loop of [merge] selects the key of every pending record of every
    input, the run of the empty record apart. *)
Lemma aloop_complete (fuel : nat) (first : bool) (prev : string)
    (runs : list (list record)) (cs : list acursor) (sels : list record) :
  Forall2 (cinv first prev) runs cs ->
  (mu_all prev cs < fuel)%nat ->
  aloop fuel cs prev = Some sels ->
  Forall2 (fun run a =>
             run <> empty_record_run ->
             forall r, In r run ->
               String.ltb prev (fst r) = true \/ In r (snd a) ->
               In (fst r) (List.map fst sels)) runs cs.
Proof.
  revert first prev cs sels.
  induction fuel as [|fuel IH]; intros first prev cs sels Hinv Hmu; [lia|].
  simpl. destruct (aselect prev cs) as [[k v]|] eqn:Es.
  - destruct (aselect_split _ _ _ Es) as (l1 & c & l2 & Ecs & Hc & _).
    assert (Hin : In c cs) by (rewrite Ecs; apply in_or_app; right; now left).
    destruct (Forall2_in_left (fun a run => cinv first prev run a) cs runs c)
      as (run & _ & Hrun); [|exact Hin|].
    { clear -Hinv. induction Hinv; constructor; assumption. }
    destruct (cand_in_run _ _ _ _ _ Hrun Hc) as [_ Hk]. simpl in Hk.
    assert (Hmin : forall c' d', In c' cs -> acand prev c' = Some d' ->
                     String.ltb (fst d') k = false).
    { intros c' d' Hin' Hc'. exact (aselect_bound _ _ _ Es c' d' Hin' Hc'). }
    destruct (cinv_step_all first prev k runs cs Hinv Hk Hmin) as (Hnext & _ & Hlt).
    specialize (Hlt c (k, v) Hin Hc eq_refl).
    destruct (aloop fuel (List.map (anext prev) cs) k) as [sels'|] eqn:El;
      [|discriminate].
    simpl. intros [= <-].
    assert (Hfuel : (mu_all k (List.map (anext prev) cs) < fuel)%nat) by lia.
    pose proof (IH false k _ sels' Hnext Hfuel El) as HQ.
    apply Forall2_step
      with (P := cinv first prev)
           (Q := fun run a =>
                   run <> empty_record_run ->
                   forall r, In r run ->
                     String.ltb k (fst r) = true \/ In r (snd a) ->
                     In (fst r) (List.map fst sels'))
           (f := anext prev); [exact Hinv|exact HQ|].
    intros run' a Ha Hcinv Hq Hne r Hr Hp. simpl.
    destruct (complete_step _ _ k _ _ r Hcinv (fun d Hd => Hmin a d Ha Hd) Hr Hp) as [H|H].
    + now left.
    + right. now apply Hq.
  - intros [= <-].
    pose proof (aselect_none _ _ Es) as Hnone.
    assert (HT : Forall2 (fun (_ : list record) (_ : acursor) => True) runs
                   (List.map (fun a => a) cs)).
    { rewrite map_id. clear -Hinv. induction Hinv; constructor; auto. }
    apply Forall2_step
      with (P := cinv first prev) (Q := fun _ _ => True) (f := fun a => a);
      [exact Hinv|exact HT|].
    intros run a Ha Hcinv _ Hne r Hr Hp. exfalso.
    exact (complete_end _ _ _ _ r Hcinv Hne (Hnone a Ha) Hr Hp).
Qed.

(** ** What [merge] writes *)

Lemma Forall2_map_same {A B : Type} (R : A -> B -> Prop) (g : A -> B) (l : list A) :
  Forall2 R l (List.map g l) -> forall x, In x l -> R x (g x).
Proof.
  induction l as [|y l IH]; intros H x Hx; [destruct Hx|].
  simpl in H. inversion H; subst. destruct Hx as [<-|Hx]; [assumption|now apply IH].
Qed.

(** The newest value of a key is unique. *)
Lemma newest_unique (runs : list (list record)) (k v v' : string) :
  Forall sorted_keys runs -> newest runs k v -> newest runs k v' -> v = v'.
Proof.
  intros Hs (o1 & r1 & n1 & E1 & H1 & N1) (o2 & r2 & n2 & E2 & H2 & N2).
  revert runs o2 Hs E1 E2. induction o1 as [|x o1 IH]; intros runs o2 Hs E1 E2.
  - destruct o2 as [|y o2]; simpl in *.
    + rewrite E1 in E2. injection E2 as -> _.
      rewrite E1 in Hs. apply Forall_inv in Hs.
      apply (map_find_In _ _ _ Hs) in H1, H2. congruence.
    + rewrite E1 in E2. injection E2 as _ ->. exfalso.
      apply (N1 r2); [apply in_or_app; right; now left|].
      change k with (fst (k, v')). now apply in_map.
  - destruct o2 as [|y o2]; simpl in *.
    + rewrite E2 in E1. injection E1 as _ ->. exfalso.
      apply (N2 r1); [apply in_or_app; right; now left|].
      change k with (fst (k, v)). now apply in_map.
    + rewrite E1 in E2. injection E2 as _ E2.
      apply (IH (o1 ++ r1 :: n1)%list o2); [|reflexivity|exact E2].
      rewrite E1 in Hs. now apply Forall_inv_tail in Hs.
Qed.

(** [merge] on runs in the format with increasing keys, none of which is the
    run of the empty record: the run written holds, in increasing order of
    the keys, exactly the newest record of each key of the inputs, the
    tombstones being left out when [last] is set. *)
Lemma merge_newest_union (src : list SortedRun) (runs : list (list record))
    (temp0 : BloomFilter) (last : bool) :
  Forall2 holds src runs ->
  Forall sorted_keys runs ->
  Forall (fun r => r <> empty_record_run) runs ->
  exists run f,
    merge' src temp0 last = Ret (run, f) /\
    sorted_keys (run_records run) /\
    forall k v,
      In (k, v) (run_records run) <->
      newest runs k v /\ (last = true -> v <> TOMBSTONE).
Proof.
  intros Hholds Hsorted Hne.
  pose proof (merge_selects_run src temp0 last) as Hrun.
  rewrite (merge_selects_crep _ _ _ "" (None, None) (open_cursors_crep _ _ Hholds))
    in Hrun.
  assert (Hfuel : (mu_all "" (List.map (fun rs => (("", ""), rs)) runs)
                   < merge_fuel src)%nat).
  { rewrite mu_all_init. now apply merge_fuel_enough. }
  destruct (aloop_spec (merge_fuel src) true "" runs _ (cinv_init runs Hsorted) Hfuel)
    as (sels & Hloop & Hs & _ & Hnew).
  pose proof (aloop_complete (merge_fuel src) true "" runs _ sels
                (cinv_init runs Hsorted) Hfuel Hloop) as Hall.
  rewrite Hloop in Hrun. destruct Hrun as (run & f & Hm & Hh & _).
  exists run, f. rewrite (run_records_holds _ _ Hh).
  split; [exact Hm|]. split; [destruct last; [now apply sorted_keys_filter|exact Hs]|].
  rewrite Forall_forall in Hne.
  assert (Hsel : forall k v, In (k, v) sels <-> newest runs k v).
  { intros k v. split.
    - intros Hin. destruct (Hnew k v Hin) as (older & r & newer & E & Hr & Hnewer).
      exists older, r, newer. split; [exact E|]. split; [exact Hr|].
      intros r' Hr'. apply Hnewer; [exact Hr'|].
      apply Hne. rewrite E. apply in_or_app. right. now right.
    - intros Hn. pose proof Hn as (older & r & newer & E & Hr & _).
      assert (Hrin : In r runs) by (rewrite E; apply in_or_app; right; now left).
      pose proof (Forall2_map_same _ _ _ Hall r Hrin (Hne r Hrin) (k, v) Hr
                    (or_intror Hr)) as Hk.
      simpl in Hk. apply in_map_iff in Hk. destruct Hk as ([k' v'] & Ek & Hin).
      simpl in Ek. subst k'.
      assert (Hn' : newest runs k v').
      { destruct (Hnew k v' Hin) as (older' & r' & newer' & E' & Hr' & Hnewer').
        exists older', r', newer'. split; [exact E'|]. split; [exact Hr'|].
        intros r'' Hr''. apply Hnewer'; [exact Hr''|].
        apply Hne. rewrite E'. apply in_or_app. right. now right. }
      now rewrite (newest_unique runs k v v' Hsorted Hn Hn'). }
  intros k v. destruct last.
  - rewrite filter_In, Hsel. unfold live. simpl. split.
    + intros [Hn Hl]. split; [exact Hn|]. intros _.
      apply negb_true_iff in Hl. now apply String.eqb_neq.
    + intros [Hn Hl]. split; [exact Hn|].
      apply negb_true_iff, String.eqb_neq. now apply Hl.
  - rewrite Hsel. split; [intros H; split; [exact H|discriminate]|now intros [H _]].
Qed.

(** The filter that [merge] fills. *)
Lemma fold_emit_temp (last : bool) (sels : list record) (o : merge_out) :
  temp (fold_left (emit' last) sels o) =
  add_all (List.map fst (if last then filter live sels else sels)) (temp o).
Proof.
  revert o. induction sels as [|[k v] sels IH]; intros o.
  - destruct last; reflexivity.
  - cbn [fold_left]. rewrite IH. unfold emit. cbn [fst snd]. destruct last.
    + cbn [andb filter]. unfold live at 2. cbn [snd].
      destruct (v =? TOMBSTONE)%string; reflexivity.
    + reflexivity.
Qed.

(** When [merge] returns, the filter it returns is the one it was given with
    the key of every record of the run added. *)
Lemma merge_filter (src : list SortedRun) (temp0 : BloomFilter) (last : bool)
    (run : SortedRun) (f : BloomFilter) :
  merge' src temp0 last = Ret (run, f) ->
  f = add_all (List.map fst (run_records run)) temp0.
Proof.
  unfold merge. rewrite merge_loop_selects.
  destruct (merge_selects _ _ _ _) as [sels| |]; cbn [bind]; try discriminate.
  intros [= <- <-]. rewrite fold_emit_temp.
  pose proof (fold_emit_out_holds last sels _ [] (merge_out_init_holds temp0)) as H.
  rewrite app_nil_l in H. destruct H as (Hd & Hm & _).
  assert (Hh : holds (mk_SortedRun
                        (dest (fold_left (emit' last) sels (merge_out_init temp0)))
                        (meta_dest (fold_left (emit' last) sels (merge_out_init temp0))
                           ++ [count (fold_left (emit' last) sels
                                        (merge_out_init temp0))])%list)
                     (if last then filter live sels else sels)).
  { split; [exact Hd|]. eexists. cbn [run_meta]. rewrite Hm. reflexivity. }
  unfold merge_out_init in Hh. rewrite (run_records_holds _ _ Hh). reflexivity.
Qed.

(** ** Lookups after a merge *)

Lemma sorted_keys_NoDup (l : list record) : sorted_keys l -> NoDup l.
Proof.
  induction l as [|x l IH]; intros Hs; [constructor|].
  apply sorted_keys_cons in Hs. destruct Hs as [Hx Hs]. constructor; [|now apply IH].
  intros Hin. specialize (Hx x Hin). now rewrite ltb_irrefl in Hx.
Qed.

(** Distinct records taken from a list take no more bytes than the list. *)
Lemma concat_bytes_incl (l l' : list record) :
  NoDup l -> incl l l' ->
  strlen (concat_records l) <= strlen (concat_records l').
Proof.
  revert l'. induction l as [|[k v] l IH]; intros l' Hnd Hincl.
  - simpl. change (strlen "") with 0. lia.
  - inversion Hnd as [|x l0 Hx Hnd']; subst.
    destruct (in_split (k, v) l' (Hincl _ (or_introl eq_refl))) as (l1 & l2 & ->).
    assert (Hincl' : incl l (l1 ++ l2)).
    { intros y Hy. specialize (Hincl y (or_intror Hy)).
      apply in_app_or in Hincl. apply in_or_app.
      destruct Hincl as [H|[H|H]]; [now left|subst y; contradiction|now right]. }
    specialize (IH _ Hnd' Hincl').
    rewrite concat_records_app in IH |- *. cbn [concat_records].
    rewrite !strlen_append in IH |- *. rewrite !strlen_append. lia.
Qed.

Lemma length_concat_runs (runs : list (list record)) :
  List.length (List.concat runs) = total_records runs.
Proof.
  induction runs as [|r runs IH]; [reflexivity|].
  simpl. now rewrite length_app, IH.
Qed.

Lemma newest_in_concat (runs : list (list record)) (k v : string) :
  newest runs k v -> In (k, v) (List.concat runs).
Proof.
  intros (older & r & newer & -> & Hr & _). apply in_concat.
  exists r. split; [apply in_or_app; right; now left|exact Hr].
Qed.

(** A key of the inputs is found in the run that [merge] writes, with its
    newest value, by the filter and by [Find], whatever the last word of the
    index says; the tombstones apart when [last] is set. *)
Lemma merge_then_Find (src : list SortedRun) (runs : list (list record))
    (temp0 : BloomFilter) (last : bool) (k v : string) :
  Forall2 holds src runs ->
  Forall sorted_keys runs ->
  Forall (fun r => r <> empty_record_run) runs ->
  strlen (concat_records (List.concat runs)) < 2 ^ 63 ->
  N.of_nat (total_records runs) < 2 ^ 31 ->
  newest runs k v -> (last = true -> v <> TOMBSTONE) ->
  exists run f,
    merge' src temp0 last = Ret (run, f) /\
    contains k f = true /\
    forall value, Find run k value = Ret (true, v).
Proof.
  intros Hholds Hsorted Hne Hbytes Hcount Hnew Hlive.
  destruct (merge_newest_union src runs temp0 last Hholds Hsorted Hne)
    as (run & f & Hm & Hs & Hiff).
  exists run, f. split; [exact Hm|].
  assert (Hin : In (k, v) (run_records run)) by (apply Hiff; now split).
  assert (Hincl : incl (run_records run) (List.concat runs)).
  { intros [k' v'] H. apply Hiff in H. now apply newest_in_concat. }
  pose proof (sorted_keys_NoDup _ Hs) as Hnd. split.
  - rewrite (merge_filter _ _ _ _ _ Hm). apply BloomFilter_add_all_contains.
    change k with (fst (k, v)). now apply in_map.
  - intros value. apply (Find_merge_run src temp0 last run f k v value Hm Hs);
      [| |exact Hin].
    + destruct (merge_count_doubles _ _ _ _ _ Hm) as [[Hdata _] _]. rewrite Hdata.
      apply N.le_lt_trans with (2 := Hbytes). now apply concat_bytes_incl.
    + apply N.le_lt_trans with (2 := Hcount).
      pose proof (NoDup_incl_length Hnd Hincl) as Hlen.
      rewrite length_concat_runs in Hlen. lia.
Qed.

(** [GET] after the step of [compact(1)]: a key of the runs of Tier 1 whose
    newest value there is not the tombstone, and that the active buffer does
    not hold, is returned with that value from the run written to Tier 2. *)
Lemma get_after_compact_step (key v : string) (st : Database) (t1 : Tier)
    (ts : list Tier) :
  tiers st = t1 :: ts ->
  (forall rf, In rf t1 -> run_sorted (fst rf)) ->
  Forall (fun r => r <> empty_record_run) (List.map run_records (List.map fst t1)) ->
  strlen (concat_records (List.concat (List.map run_records (List.map fst t1))))
    < 2 ^ 63 ->
  N.of_nat (total_records (List.map run_records (List.map fst t1))) < 2 ^ 31 ->
  map_find key (write_memtable st) = None ->
  newest (List.map run_records (List.map fst t1)) key v ->
  v <> TOMBSTONE ->
  exists st', compact_step' 1 st = Ret st' /\ get' key st' = Ret (Some v).
Proof.
  intros Et Hruns Hne Hbytes Hcount Hw Hnew Hv.
  destruct (sorted_runs_inputs (List.map fst t1)) as [Hholds Hsorted].
  { intros r Hin. apply in_map_iff in Hin. destruct Hin as (rf & <- & Hrf).
    now apply Hruns. }
  destruct (merge_then_Find (List.map fst t1) _ BloomFilter_new (compact_last 1 st)
              key v Hholds Hsorted Hne Hbytes Hcount Hnew (fun _ => Hv))
    as (run & f & Hm & Hc & Hfind).
  unfold compact_step. rewrite Et. cbn [nth_error Nat.sub].
  fold (compact_last 1 st). rewrite <- Et, Hm. cbn [bind].
  eexists. split; [reflexivity|].
  unfold get, GET. cbn [write_memtable filter_write set_tiers tiers].
  rewrite Hw.
  assert (Hv' : (v =? TOMBSTONE)%string = false) by now apply String.eqb_neq.
  assert (Htiers : forall value,
            GET_tiers std_hash key
              (list_set 1
                 (nth 1 (list_set 0 []
                           (if compact_last 1 st then (tiers st ++ [[]])%list
                            else tiers st)) [] ++ [(run, f)])%list
                 (list_set 0 []
                    (if compact_last 1 st then (tiers st ++ [[]])%list else tiers st)))
              value = Ret (true, v)).
  { intros value.
    assert (Hlast : compact_last 1 st = match ts with [] => true | _ :: _ => false end).
    { unfold compact_last, levels_main_size. rewrite Et. now destruct ts. }
    rewrite Hlast, Et. destruct ts as [|t2 ts'];
      cbn [app list_set nth GET_tiers rev GET_tier bind];
      rewrite ?rev_app_distr; cbn [rev app GET_tier];
      rewrite Hc, Hfind; cbn [bind andb]; rewrite Hv'; reflexivity. }
  destruct (contains key (filter_write st)); cbv iota; rewrite Htiers; reflexivity.
Qed.

(** ** The log and the start that replays it *)

Local Abbreviation logged' := (logged std_hash).
Local Abbreviation Database_restart' := (Database_restart std_hash).

Lemma SET_wal_fields (key value : string) (st : Database) :
  wal (snd (SET' key value st)) = wal st /\
  (fst (SET' key value st) = true ->
   flushrunning (snd (SET' key value st)) = false ->
   mem_size (snd (SET' key value st)) < MAX).
Proof.
  unfold SET. destruct (MAX <=? strlen key + strlen value); [split; [reflexivity|discriminate]|].
  cbv zeta.
  set (st4 := set_filter_write _ _).
  assert (Hw : wal st4 = wal st).
  { unfold st4. cbn [wal set_filter_write set_mem_size set_write_memtable].
    apply (append_to_WAL_fields key value st). }
  destruct (N.leb_spec MAX (mem_size st4)) as [Hfull|Hnot].
  - split; [exact Hw|]. intros _. discriminate.
  - split; [exact Hw|]. intros _ _. exact Hnot.
Qed.

Lemma Database_init_logged : logged' [] (Database_init std_hash).
Proof. repeat split. Qed.

Lemma SET_logged (key value : string) (recs : list record) (st : Database) :
  logged' recs st -> fst (SET' key value st) = true ->
  logged' (recs ++ [(key, value)]) (snd (SET' key value st)).
Proof.
  intros (Hd & Hw & Ht & Hm & Hf & Hs & _) Hok.
  destruct (SET_accepted_fields key value st Hok) as (Em & Ef & Es & _ & Et & Ed).
  destruct (SET_wal_fields key value st) as [Ew Efl].
  unfold logged. rewrite Em, Ef, Es, Et, Ed, Ew, Hm, Hf, Hs.
  unfold buffer_of, size_of, BloomFilter_add_all.
  rewrite map_app, !fold_left_app. cbn [fold_left List.map fst].
  rewrite N.add_assoc.
  split; [|split; [exact Hw|split; [exact Ht|split; [reflexivity|split;
    [reflexivity|split; [reflexivity|]]]]]].
  - unfold append_to_WAL. rewrite Hw, Hd. reflexivity.
  - intros Hfl. specialize (Efl Hok Hfl). rewrite Es, Hs in Efl.
    unfold size_of in Efl. now rewrite N.add_assoc in Efl.
Qed.

(** A trace of writes on the engine started on an empty directory leaves, in
    the log, the records that it has accepted. *)
Lemma exec_writes_logged (es : list event) (recs : list record) (st st' : Database) :
  writes_only es = true -> logged' recs st -> exec std_hash es st = Some st' ->
  exists recs', logged' recs' st'.
Proof.
  revert recs st. induction es as [|e es IH]; intros recs st Hw Hl; simpl.
  - intros [= <-]. now exists recs.
  - simpl in Hw. apply andb_true_iff in Hw. destruct Hw as [He Hes].
    assert (Hstep : forall k v, flushrunning st = false ->
              exists recs1, logged' recs1 (snd (SET' k v st))).
    { intros k v _. destruct (fst (SET' k v st)) eqn:Eok.
      - exists (recs ++ [(k, v)])%list. apply SET_logged; [exact Hl|exact Eok].
      - rewrite (SET_rejected_state _ _ _ Eok). now exists recs. }
    destruct e as [k v|k| | | |]; try discriminate; simpl;
      destruct (flushrunning st) eqn:Ef; try discriminate.
    + destruct (Hstep k v eq_refl) as [recs1 H1]. now apply (IH recs1).
    + destruct (Hstep k TOMBSTONE eq_refl) as [recs1 H1]. now apply (IH recs1).
Qed.

Lemma initializer_helper_not_full (recs : list record) (st : Database) :
  dir_get (WAL st) (dir st) = Some recs ->
  mem_size (replay' recs st) < MAX ->
  initializer_helper' st =
  set_wal (Some (WAL st)) (set_dir (dir_set (WAL st) (Some []) (dir st)) (replay' recs st)).
Proof.
  intros Hd Hs. unfold initializer_helper. rewrite Hd.
  destruct (replay_files recs st) as (E1 & _ & E3). rewrite E1, E3.
  unfold flush_if_full. cbn [mem_size set_wal set_dir].
  destruct (N.leb_spec MAX (mem_size (replay' recs st))); [lia|reflexivity].
Qed.

(** A start on a directory that holds only the active log, when the log
    does not fill the buffer. *)
Lemma initialize_memtable_one_log (recs : list record) :
  size_of recs < MAX ->
  initialize_memtable' (Database_boot [] (mk_wal_dir (Some recs) None None)) =
  set_wal (Some WAL_bin)
    (set_dir (mk_wal_dir (Some []) None None)
       (replay' recs (Database_boot [] (mk_wal_dir (Some recs) None None)))).
Proof.
  intros Hs. unfold initialize_memtable, stage_logs.
  cbn [dir set_WAL Database_boot dir_exists dir_get file_WAL file_WAL_temp andb negb
       set_dir dir_rename wal_path_eqb].
  change (initializer_helper' (Database_boot [] (mk_wal_dir (Some recs) None None)) =
          set_wal (Some WAL_bin)
            (set_dir (mk_wal_dir (Some []) None None)
               (replay' recs (Database_boot [] (mk_wal_dir (Some recs) None None))))).
  apply (initializer_helper_not_full recs); [reflexivity|].
  destruct (replay_fields recs (Database_boot [] (mk_wal_dir (Some recs) None None)))
    as (_ & _ & E & _).
  rewrite E. exact Hs.
Qed.

(** A start of the engine on the files of a state that has made no flush
    and whose log does not fill the buffer: the buffer, its filter and
    [mem_size] are rebuilt from the log, and the log is left empty. *)
Lemma restart_from_log (recs : list record) (st : Database) :
  dir st = mk_wal_dir (Some recs) None None -> tiers st = [] ->
  size_of recs < MAX ->
  exists st',
    Database_restart' st = Ret st' /\
    dir st' = mk_wal_dir (Some []) None None /\
    tiers st' = [] /\
    write_memtable st' = buffer_of recs /\
    filter_write st' = add_all (List.map fst recs) BloomFilter_new /\
    mem_size st' = size_of recs.
Proof.
  intros Hd Ht Hs. unfold Database_restart. rewrite Ht, Hd.
  cbn [List.map initialize_folders bind List.length startup_compactions].
  rewrite (initialize_memtable_one_log recs Hs).
  eexists. split; [reflexivity|].
  destruct (replay_fields recs (Database_boot [] (mk_wal_dir (Some recs) None None)))
    as (E1 & E2 & E3 & _ & _ & E6).
  cbn [dir tiers write_memtable filter_write mem_size set_wal set_dir].
  rewrite E1, E2, E3, E6. repeat split.
Qed.

(** ** The protocol *)

Local Abbreviation handle_client' := (handle_client std_hash).
Local Abbreviation handle_client_turn' := (handle_client_turn std_hash).
Local Abbreviation parse_arguments' := (parse_arguments std_hash).
Local Abbreviation run_command' := (run_command std_hash).

(** *** Decimal numbers *)

Lemma leading_digits_step (c : ascii) (d : N) (s : string) (acc : N) (count : nat) :
  digit_of c = Some d ->
  leading_digits (String c s) acc count = leading_digits s (10 * acc + d) (S count).
Proof. intros H. cbn [leading_digits]. now rewrite H. Qed.

Lemma leading_digits_stop (rest : string) (acc : N) (count : nat) :
  no_leading_digit rest = true -> leading_digits rest acc count = (acc, count, rest).
Proof.
  destruct rest as [|c rest]; [reflexivity|]. cbn [no_leading_digit leading_digits].
  destruct (digit_of c); [discriminate|reflexivity].
Qed.

Ltac digit_case c d :=
  cbn [NilEmpty.string_of_uint append Decimal.nb_digits Pos.of_uint_acc Pos.of_uint];
  rewrite (leading_digits_step c d _ _ _ eq_refl).

Lemma leading_digits_pos (u : Decimal.uint) (p : positive) (count : nat)
    (rest : string) :
  no_leading_digit rest = true ->
  leading_digits (NilEmpty.string_of_uint u ++ rest) (N.pos p) count =
  (N.pos (Pos.of_uint_acc u p), (count + Decimal.nb_digits u)%nat, rest).
Proof.
  intros Hrest. revert p count.
  induction u as [|u IH|u IH|u IH|u IH|u IH|u IH|u IH|u IH|u IH|u IH]; intros p count.
  - cbn [NilEmpty.string_of_uint append Decimal.nb_digits Pos.of_uint_acc].
    rewrite Nat.add_0_r. now apply leading_digits_stop.
  - digit_case "0"%char 0. replace (10 * N.pos p + 0) with (N.pos (10 * p)) by lia.
    rewrite IH. now rewrite Nat.add_succ_r.
  - digit_case "1"%char 1. replace (10 * N.pos p + 1) with (N.pos (1 + 10 * p)) by lia.
    rewrite IH. now rewrite Nat.add_succ_r.
  - digit_case "2"%char 2. replace (10 * N.pos p + 2) with (N.pos (2 + 10 * p)) by lia.
    rewrite IH. now rewrite Nat.add_succ_r.
  - digit_case "3"%char 3. replace (10 * N.pos p + 3) with (N.pos (3 + 10 * p)) by lia.
    rewrite IH. now rewrite Nat.add_succ_r.
  - digit_case "4"%char 4. replace (10 * N.pos p + 4) with (N.pos (4 + 10 * p)) by lia.
    rewrite IH. now rewrite Nat.add_succ_r.
  - digit_case "5"%char 5. replace (10 * N.pos p + 5) with (N.pos (5 + 10 * p)) by lia.
    rewrite IH. now rewrite Nat.add_succ_r.
  - digit_case "6"%char 6. replace (10 * N.pos p + 6) with (N.pos (6 + 10 * p)) by lia.
    rewrite IH. now rewrite Nat.add_succ_r.
  - digit_case "7"%char 7. replace (10 * N.pos p + 7) with (N.pos (7 + 10 * p)) by lia.
    rewrite IH. now rewrite Nat.add_succ_r.
  - digit_case "8"%char 8. replace (10 * N.pos p + 8) with (N.pos (8 + 10 * p)) by lia.
    rewrite IH. now rewrite Nat.add_succ_r.
  - digit_case "9"%char 9. replace (10 * N.pos p + 9) with (N.pos (9 + 10 * p)) by lia.
    rewrite IH. now rewrite Nat.add_succ_r.
Qed.

(** The digits of a number, read back. *)
Lemma leading_digits_uint (u : Decimal.uint) (count : nat) (rest : string) :
  no_leading_digit rest = true ->
  leading_digits (NilEmpty.string_of_uint u ++ rest) 0 count =
  (N.of_uint u, (count + Decimal.nb_digits u)%nat, rest).
Proof.
  intros Hrest. unfold N.of_uint. revert count.
  induction u as [|u IH|u IH|u IH|u IH|u IH|u IH|u IH|u IH|u IH|u IH]; intros count.
  - cbn [NilEmpty.string_of_uint append Decimal.nb_digits Pos.of_uint].
    rewrite Nat.add_0_r. now apply leading_digits_stop.
  - digit_case "0"%char 0. change (10 * 0 + 0) with 0. rewrite IH. now rewrite Nat.add_succ_r.
  - digit_case "1"%char 1. change (10 * 0 + 1) with (N.pos 1).
    rewrite (leading_digits_pos _ _ _ _ Hrest). now rewrite Nat.add_succ_r.
  - digit_case "2"%char 2. change (10 * 0 + 2) with (N.pos 2).
    rewrite (leading_digits_pos _ _ _ _ Hrest). now rewrite Nat.add_succ_r.
  - digit_case "3"%char 3. change (10 * 0 + 3) with (N.pos 3).
    rewrite (leading_digits_pos _ _ _ _ Hrest). now rewrite Nat.add_succ_r.
  - digit_case "4"%char 4. change (10 * 0 + 4) with (N.pos 4).
    rewrite (leading_digits_pos _ _ _ _ Hrest). now rewrite Nat.add_succ_r.
  - digit_case "5"%char 5. change (10 * 0 + 5) with (N.pos 5).
    rewrite (leading_digits_pos _ _ _ _ Hrest). now rewrite Nat.add_succ_r.
  - digit_case "6"%char 6. change (10 * 0 + 6) with (N.pos 6).
    rewrite (leading_digits_pos _ _ _ _ Hrest). now rewrite Nat.add_succ_r.
  - digit_case "7"%char 7. change (10 * 0 + 7) with (N.pos 7).
    rewrite (leading_digits_pos _ _ _ _ Hrest). now rewrite Nat.add_succ_r.
  - digit_case "8"%char 8. change (10 * 0 + 8) with (N.pos 8).
    rewrite (leading_digits_pos _ _ _ _ Hrest). now rewrite Nat.add_succ_r.
  - digit_case "9"%char 9. change (10 * 0 + 9) with (N.pos 9).
    rewrite (leading_digits_pos _ _ _ _ Hrest). now rewrite Nat.add_succ_r.
Qed.

Lemma to_uint_not_Nil (n : N) : N.to_uint n <> Decimal.Nil.
Proof.
  intros H. pose proof (DecimalN.Unsigned.of_to n) as E. rewrite H in E.
  destruct n; [discriminate H|discriminate E].
Qed.

Lemma string_of_uint_length (u : Decimal.uint) :
  String.length (NilEmpty.string_of_uint u) = Decimal.nb_digits u.
Proof. induction u; simpl; congruence. Qed.

Lemma to_string_length (n : N) : (1 <= String.length (to_string n))%nat.
Proof.
  unfold to_string. rewrite string_of_uint_length.
  pose proof (to_uint_not_Nil n) as H. destruct (N.to_uint n); simpl; try lia.
  contradiction.
Qed.

(** The position of the end of a line that starts with a number. *)
Lemma find_CRLF_digits (u : Decimal.uint) (rest : string) :
  find_CRLF (NilEmpty.string_of_uint u ++ CRLF ++ rest) =
  Some (String.length (NilEmpty.string_of_uint u)).
Proof.
  induction u; cbn [NilEmpty.string_of_uint append String.length];
    try (cbn [find_CRLF]; rewrite IHu; reflexivity).
  reflexivity.
Qed.

Lemma find_CRLF_to_string (n : N) (rest : string) :
  find_CRLF (to_string n ++ CRLF ++ rest) = Some (String.length (to_string n)).
Proof. apply find_CRLF_digits. Qed.

(** [stoi] reads back what [to_string] writes, within the range of [int]. *)
Lemma stoi_to_string (n : N) : n < 2 ^ 31 -> stoi (to_string n) = Ret (Z.of_N n).
Proof.
  intros Hn. unfold stoi, to_string.
  pose proof (to_uint_not_Nil n) as Hnil.
  pose proof (DecimalN.Unsigned.of_to n) as Hof.
  pose proof (leading_digits_uint (N.to_uint n) O "" eq_refl) as Hd.
  rewrite append_empty_r in Hd.
  assert (Hcount : exists c, Decimal.nb_digits (N.to_uint n) = S c).
  { destruct (N.to_uint n); try contradiction; simpl; eexists; reflexivity. }
  destruct Hcount as [c Hc]. rewrite Hc, Hof in Hd. simpl Nat.add in Hd.
  assert (Hrange : ((Z.of_N n <? - 2 ^ 31) || (2 ^ 31 - 1 <? Z.of_N n))%Z = false).
  { apply orb_false_iff. split; apply Z.ltb_ge.
    - lia.
    - change (2 ^ 31)%Z with (Z.of_N (2 ^ 31)). lia. }
  destruct (N.to_uint n); try contradiction;
    cbn [NilEmpty.string_of_uint skip_spaces] in Hd |- *;
    match goal with
    | |- context [is_space ?c] => change (is_space c) with false
    end; cbv iota; cbv beta;
    rewrite Hd, Hrange; reflexivity.
Qed.

Lemma size_t_of_int_N (n : N) : n < 2 ^ 64 -> size_t_of_int (Z.of_N n) = n.
Proof.
  intros H. unfold size_t_of_int. rewrite Z.mod_small; [lia|].
  split; [lia|]. change (2 ^ 64)%Z with (Z.of_N (2 ^ 64)). lia.
Qed.

(** *** One argument *)

Lemma length_append (s t : string) :
  String.length (s ++ t) = (String.length s + String.length t)%nat.
Proof. induction s as [|c s IH]; simpl; [reflexivity|now rewrite IH]. Qed.

Lemma serialize_part_eq (part rest : string) :
  serialize_part part ++ rest =
  String "$" (to_string (strlen part) ++ CRLF ++ part ++ CRLF ++ rest).
Proof.
  unfold serialize_part. cbn [append]. f_equal. now rewrite !append_assoc.
Qed.

(** The turn of the loop over the arguments on a buffer that starts with a
    serialized argument: the argument is moved to [args]. *)
Lemma parse_arguments_part (fuel : nat) (part rest : string) (a : list string)
    (ebl : N) (n : Z) (st : Database) (out : list string) :
  strlen part < 2 ^ 31 -> n <> 0%Z -> n <> (- 2 ^ 31)%Z ->
  parse_arguments' (S fuel)
    (mk_server (mk_ClientContext (serialize_part part ++ rest) a ebl n PARSE_ARGUMENTS)
       st out) =
  parse_arguments' fuel
    (mk_server (mk_ClientContext rest (a ++ [part]) (strlen part) (n - 1)
                  PARSE_ARGUMENTS) st out).
Proof.
  intros Hlen Hn0 Hmin. rewrite serialize_part_eq.
  set (digits := to_string (strlen part)).
  set (tail := part ++ CRLF ++ rest).
  cbn [parse_arguments ctx state expected_args buffer args expected_bulk_length].
  destruct (Z.eqb_spec n 0) as [E|_]; [contradiction|].
  assert (Hsize : (String.length (String "$" (digits ++ CRLF ++ tail)) <? 4)%nat = false).
  { apply Nat.ltb_ge. cbn [String.length]. rewrite !length_append.
    pose proof (to_string_length (strlen part)). fold digits in H. simpl. lia. }
  rewrite Hsize. cbn [starts_with negb Ascii.eqb Bool.eqb andb].
  assert (Hfind : find_CRLF (String "$" (digits ++ CRLF ++ tail)) =
                  Some (S (String.length digits))).
  { cbn [find_CRLF starts_with CRLF Ascii.eqb Bool.eqb andb].
    unfold digits. now rewrite find_CRLF_to_string. }
  rewrite Hfind.
  assert (Hsub : substr 1 (S (String.length digits) - 1)
                   (String "$" (digits ++ CRLF ++ tail)) = digits).
  { unfold substr. cbn [drop]. replace (S (String.length digits) - 1)%nat
      with (String.length digits) by lia. apply take_append. }
  rewrite Hsub. unfold digits at 1. rewrite stoi_to_string by exact Hlen.
  cbn [bind]. rewrite size_t_of_int_N
    by (apply (N.lt_trans _ _ _ Hlen); reflexivity).
  assert (Hdrop : drop (S (String.length digits) + 2) (String "$" (digits ++ CRLF ++ tail))
                  = tail).
  { cbn [Nat.add drop]. rewrite <- drop_drop, drop_append. reflexivity. }
  rewrite Hdrop.
  assert (Htail : strlen tail = strlen part + 2 + strlen rest).
  { unfold tail. rewrite !strlen_append. change (strlen CRLF) with 2. lia. }
  assert (Hwrap : wrap64 (strlen part + 2) = strlen part + 2).
  { unfold wrap64. apply N.mod_small.
    apply (N.lt_trans _ (2 ^ 31 + 2)); [lia|reflexivity]. }
  rewrite Hwrap, Htail.
  destruct (N.ltb_spec (strlen part + 2 + strlen rest) (strlen part + 2)) as [Hbad|_];
    [lia|].
  destruct (Z.eqb_spec n (- 2 ^ 31)) as [E|_]; [contradiction|].
  rewrite !N.min_l by lia.
  assert (Harg : substr 0 (N.to_nat (strlen part)) tail = part).
  { unfold substr, tail. cbn [drop]. rewrite strlen_to_nat. apply take_append. }
  assert (Hrest : drop (N.to_nat (strlen part + 2)) tail = rest).
  { unfold tail. rewrite N2Nat.inj_add, strlen_to_nat, <- drop_drop, drop_append.
    reflexivity. }
  rewrite Harg, Hrest. reflexivity.
Qed.
(** *** A whole command *)

Local Abbreviation answer' := (answer std_hash).
Local Abbreviation answers' := (answers std_hash).

Lemma concat_cons (x : string) (xs : list string) :
  String.concat "" (x :: xs) = x ++ String.concat "" xs.
Proof.
  destruct xs; cbn [String.concat]; [now rewrite append_empty_r|reflexivity].
Qed.

Lemma concat_parts_length (parts : list string) (rest : string) :
  (List.length parts <=
   String.length (String.concat "" (List.map serialize_part parts) ++ rest))%nat.
Proof.
  induction parts as [|p parts IH]; [cbn; lia|].
  cbn [List.map List.length]. rewrite concat_cons, append_assoc.
  unfold serialize_part at 1. cbn [append String.length]. rewrite !length_append in *.
  lia.
Qed.

(** The loop over the arguments on serialized parts, [m] more being
    expected after them. *)
Lemma parse_arguments_parts (parts : list string) :
  forall (fuel : nat) (a : list string) (ebl : N) (m : Z) (st : Database)
         (out : list string) (rest : string),
  Forall (fun p => strlen p < 2 ^ 31) parts ->
  (List.length parts <= fuel)%nat ->
  (0 <= m)%Z ->
  exists ebl',
    parse_arguments' fuel
      (mk_server (mk_ClientContext
                    (String.concat "" (List.map serialize_part parts) ++ rest) a ebl
                    (Z.of_nat (List.length parts) + m) PARSE_ARGUMENTS) st out) =
    parse_arguments' (fuel - List.length parts)
      (mk_server (mk_ClientContext rest (a ++ parts) ebl' m PARSE_ARGUMENTS) st out).
Proof.
  induction parts as [|p parts IH]; intros fuel a ebl m st out rest Hall Hfuel Hm.
  - exists ebl. cbn [List.map String.concat append List.length Z.of_nat Z.add].
    now rewrite app_nil_r, Nat.sub_0_r.
  - inversion Hall as [|? ? Hp Hps]; subst.
    destruct fuel as [|fuel]; [cbn in Hfuel; lia|].
    cbn [List.map List.length] in *. rewrite concat_cons, append_assoc.
    rewrite parse_arguments_part; [|exact Hp|lia|lia].
    replace (Z.of_nat (S (List.length parts)) + m - 1)%Z
      with (Z.of_nat (List.length parts) + m)%Z by lia.
    destruct (IH fuel (a ++ [p])%list (strlen p) m st out rest Hps) as [ebl' E];
      [lia|lia|].
    exists ebl'. rewrite E. rewrite <- app_assoc. reflexivity.
Qed.

(** The command does not look at the buffer, the sizes or the state. *)
Lemma run_command_answer (b : string) (parts : list string) (e : N) (n : Z)
    (ps : parse_state) (st : Database) (out : list string) :
  run_command' (mk_server (mk_ClientContext b parts e n ps) st out) =
  '(st', out') <- answer' parts (st, out) ;;
  Ret (mk_server (mk_ClientContext b parts e n ps) st' out').
Proof.
  unfold answer, run_command.
  cbn [ctx args r sent fst snd send_response].
  destruct parts as [|command rest]; [reflexivity|].
  destruct ((command =? "SET")%string && Nat.eqb (List.length rest) 2).
  - destruct (SET_call _ _ _ st) as [ok st']. reflexivity.
  - destruct ((command =? "GET")%string && Nat.eqb (List.length rest) 1);
      [|reflexivity].
    destruct (GET _ _ _ st) as [[res value]| |]; reflexivity.
Qed.

Lemma parse_arguments_done (fuel : nat) (b : string) (parts : list string) (e : N)
    (st : Database) (out : list string) :
  parse_arguments' fuel (mk_server (mk_ClientContext b parts e 0 PARSE_ARGUMENTS) st out) =
  '(st', out') <- answer' parts (st, out) ;;
  Ret (mk_server (mk_ClientContext b parts e 0 PARSE_TYPE) st' out').
Proof.
  destruct fuel; cbn [parse_arguments ctx state expected_args Z.eqb];
    rewrite run_command_answer;
    destruct (answer' parts (st, out)) as [[st' out']| |]; reflexivity.
Qed.

Lemma serialize_command_eq (parts : list string) (rest : string) :
  serialize_command parts ++ rest =
  String "*" (to_string (N.of_nat (List.length parts)) ++ CRLF
              ++ String.concat "" (List.map serialize_part parts) ++ rest).
Proof.
  unfold serialize_command. cbn [append]. f_equal. now rewrite !append_assoc.
Qed.

(** One turn of [handle_client] on a buffer that starts with the first line
    of a command and some of its parts: the loop over the arguments goes on
    after these parts. *)
Lemma handle_client_turn_parts (parts a : list string) (ebl m : N) (n : Z)
    (st : Database) (out : list string) (rest : string) :
  Forall (fun p => strlen p < 2 ^ 31) parts ->
  N.of_nat (List.length parts) + m < 2 ^ 31 ->
  exists ebl' fuel,
    handle_client_turn'
      (mk_server (mk_ClientContext
                    (String "*" (to_string (N.of_nat (List.length parts) + m) ++ CRLF
                                 ++ String.concat "" (List.map serialize_part parts)
                                 ++ rest)) a ebl n PARSE_TYPE)
         st out) =
    s2 <- parse_arguments' fuel
            (mk_server (mk_ClientContext rest parts ebl' (Z.of_N m) PARSE_ARGUMENTS)
               st out) ;;
    Ret (false, s2).
Proof.
  intros Hall Hn.
  set (digits := to_string (N.of_nat (List.length parts) + m)).
  set (body := String.concat "" (List.map serialize_part parts) ++ rest).
  destruct (parse_arguments_parts parts (String.length body) [] ebl (Z.of_N m) st out
              rest Hall)
    as [ebl' E]; [apply concat_parts_length|lia|].
  exists ebl', (String.length body - List.length parts)%nat. unfold handle_client_turn.
  cbn [ctx state buffer args expected_bulk_length expected_args Ascii.eqb Bool.eqb andb].
  unfold digits at 1. rewrite find_CRLF_to_string. fold digits.
  assert (Hsub : substr 0 (String.length digits) (digits ++ CRLF ++ body) = digits).
  { unfold substr. cbn [drop]. apply take_append. }
  rewrite Hsub. unfold digits at 1. rewrite stoi_to_string by exact Hn.
  cbn [bind set_ctx r sent].
  assert (Hdrop : drop (String.length digits + 2) (digits ++ CRLF ++ body) = body).
  { rewrite <- drop_drop, drop_append. reflexivity. }
  rewrite Hdrop. cbn [ctx buffer]. rewrite N2Z.inj_add, nat_N_Z.
  fold body in E. unfold set_ctx. cbn [ctx buffer r sent]. rewrite E. cbn [app]. reflexivity.
Qed.

(** One turn of [handle_client] on a buffer that starts with a serialized
    command. *)
Lemma handle_client_turn_command (parts a : list string) (ebl : N) (n : Z)
    (st : Database) (out : list string) (rest : string) :
  Forall (fun p => strlen p < 2 ^ 31) parts ->
  N.of_nat (List.length parts) < 2 ^ 31 ->
  exists ebl',
    handle_client_turn'
      (mk_server (mk_ClientContext (serialize_command parts ++ rest) a ebl n PARSE_TYPE)
         st out) =
    '(st', out') <- answer' parts (st, out) ;;
    Ret (false, mk_server (mk_ClientContext rest parts ebl' 0 PARSE_TYPE) st' out').
Proof.
  intros Hall Hn. rewrite serialize_command_eq.
  destruct (handle_client_turn_parts parts a ebl 0 n st out rest Hall) as (ebl' & fuel & E);
    [now rewrite N.add_0_r|].
  exists ebl'. rewrite N.add_0_r in E. rewrite E. cbn [Z.of_N].
  rewrite parse_arguments_done.
  destruct (answer' parts (st, out)) as [[st' out']| |]; reflexivity.
Qed.

(** *** Commands one after the other *)

Lemma handle_client_commands (cmds : list (list string)) :
  forall (fuel : nat) (a : list string) (ebl : N) (n : Z) (st : Database)
         (out : list string),
  Forall (fun parts => N.of_nat (List.length parts) < 2 ^ 31 /\
                       Forall (fun p => strlen p < 2 ^ 31) parts) cmds ->
  (List.length cmds < fuel)%nat ->
  leaves_behind
    (handle_client' fuel
       (mk_server (mk_ClientContext (String.concat "" (List.map serialize_command cmds))
                     a ebl n PARSE_TYPE) st out)) =
  '(st', out') <- answers' cmds (st, out) ;; Ret (st', out', "").
Proof.
  induction cmds as [|parts cmds IH]; intros fuel a ebl n st out Hall Hfuel;
    (destruct fuel as [|fuel]; [cbn in Hfuel; lia|]).
  - reflexivity.
  - inversion Hall as [|? ? [Hn Hparts] Hcmds]; subst.
    cbn [List.map List.length answers] in *. rewrite concat_cons.
    destruct (handle_client_turn_command parts a ebl n st out
                (String.concat "" (List.map serialize_command cmds)) Hparts Hn)
      as [ebl' E].
    cbn [handle_client]. rewrite E.
    destruct (answer' parts (st, out)) as [[st' out']| |]; [|reflexivity..].
    cbn [bind]. apply IH; [exact Hcmds|lia].
Qed.

(** *** The two commands *)

Local Abbreviation SET_call' := (SET_call std_hash).

Lemma answer_SET (key value : string) (st : Database) (out : list string) :
  answer' ["SET"; key; value] (st, out) =
  Ret (snd (SET_call' key value st),
       (out ++ [(if fst (SET_call' key value st) then "+OK" ++ CRLF
                 else "-ERR" ++ CRLF)%string])%list).
Proof.
  unfold answer, run_command.
  cbn [ctx args r sent fst snd String.eqb Ascii.eqb Bool.eqb andb List.length Nat.eqb nth].
  destruct (SET_call' key value st) as [ok st']. reflexivity.
Qed.

Lemma answer_GET (key : string) (st : Database) (out : list string) :
  answer' ["GET"; key] (st, out) =
  '(res, value) <- GET' key "" st ;;
  Ret (st, (out ++ [(if res
                     then "$" ++ to_string (strlen value) ++ CRLF ++ value ++ CRLF
                     else "$-1" ++ CRLF)%string])%list).
Proof.
  unfold answer, run_command.
  cbn [ctx args r sent fst snd String.eqb Ascii.eqb Bool.eqb andb List.length Nat.eqb nth].
  destruct (GET' key "" st) as [[res value]| |]; reflexivity.
Qed.

Lemma SET_call_accepts (key value : string) (st : Database) :
  strlen key + strlen value < MAX ->
  fst (SET_call' key value st) = true /\
  active_holds' key value (snd (SET_call' key value st)).
Proof.
  intros Hsize. unfold SET_call.
  set (st0 := if flushrunning st then _ else st).
  assert (H : fst (SET' key value st0) = true).
  { unfold SET. destruct (N.leb_spec MAX (strlen key + strlen value)) as [Hbad|_];
      [lia|]. now destruct (MAX <=? _). }
  split; [exact H|now apply SET_active_holds].
Qed.

(** *** Waiting for bytes *)

Lemma parse_arguments_waits (fuel : nat) (s : server) :
  waits_for_bytes (ctx s) = true -> parse_arguments' fuel s = Ret s.
Proof.
  destruct s as [[b a e n ps] st out]. unfold waits_for_bytes, incomplete_size.
  cbn [ctx state expected_args buffer]. destruct ps; [discriminate|].
  intros H. apply andb_prop in H. destruct H as [Hn H].
  destruct fuel; cbn [parse_arguments ctx state expected_args buffer];
    destruct (n =? 0)%Z; try discriminate;
    (destruct (String.length b <? 4)%nat; [reflexivity|]);
    cbn [orb] in H; apply andb_prop in H; destruct H as [Hs Hf]; rewrite Hs;
    cbn [negb]; destruct (find_CRLF b); (discriminate || reflexivity).
Qed.

Lemma handle_client_turn_waits (s : server) :
  waits_for_bytes (ctx s) = true -> handle_client_turn' s = Ret (false, s).
Proof.
  intros H. unfold handle_client_turn.
  assert (Hst : state (ctx s) = PARSE_ARGUMENTS).
  { unfold waits_for_bytes in H. now destruct (state (ctx s)). }
  rewrite Hst. cbn [bind]. now rewrite parse_arguments_waits.
Qed.

Lemma handle_client_waits (fuel : nat) (s : server) :
  waits_for_bytes (ctx s) = true -> handle_client' fuel s = OutOfFuel.
Proof.
  intros H. induction fuel as [|fuel IH]; [reflexivity|].
  cbn [handle_client]. now rewrite handle_client_turn_waits.
Qed.

(** *** The first line in two pieces *)

Lemma to_string_first (n : N) :
  exists (c : ascii) (rest : string) (d : N),
    to_string n = String c rest /\ digit_of c = Some d.
Proof.
  unfold to_string. pose proof (to_uint_not_Nil n) as H.
  destruct (N.to_uint n); [contradiction| ..]; cbn [NilEmpty.string_of_uint];
    do 3 eexists; split; reflexivity.
Qed.

Lemma find_CRLF_prefix (s t : string) :
  find_CRLF (s ++ t) = None -> find_CRLF s = None.
Proof.
  induction s as [|c s IH]; [reflexivity|].
  cbn [append find_CRLF]. intros H.
  destruct (starts_with CRLF (String c (s ++ t))) eqn:E; [discriminate|].
  destruct (find_CRLF (s ++ t)); [discriminate|]. rewrite IH by reflexivity.
  destruct (starts_with CRLF (String c s)) eqn:E'; [|reflexivity].
  exfalso. unfold CRLF in *. cbn [starts_with] in E, E'.
  destruct (Ascii.eqb _ c); [|discriminate]. cbn [andb] in E, E'.
  destruct s as [|c' s]; [discriminate|]. cbn [append] in E.
  destruct (Ascii.eqb _ c'); discriminate.
Qed.

(** *** The client's reading of a response *)

Lemma take_ge (n : nat) (s : string) : (String.length s <= n)%nat -> take n s = s.
Proof.
  revert n. induction s as [|c s IH]; intros [|n] H; cbn [take String.length] in *;
    try reflexivity; [lia|]. now rewrite IH by lia.
Qed.

Lemma c_string_no_zero (s : string) : no_zero_byte s = true -> c_string s = s.
Proof.
  induction s as [|c s IH]; [reflexivity|]. cbn [no_zero_byte c_string].
  destruct (Ascii.eqb c zero); [discriminate|]. cbn [negb andb]. intros H.
  now rewrite IH.
Qed.

Lemma no_zero_byte_append (s t : string) :
  no_zero_byte (s ++ t) = no_zero_byte s && no_zero_byte t.
Proof.
  induction s as [|c s IH]; [reflexivity|]. cbn [append no_zero_byte].
  now rewrite IH, andb_assoc.
Qed.

Lemma no_zero_byte_uint (u : Decimal.uint) :
  no_zero_byte (NilEmpty.string_of_uint u) = true.
Proof. induction u; cbn [NilEmpty.string_of_uint no_zero_byte]; auto. Qed.

(** What the client prints for the response to a [GET]. *)
Lemma parse_response_bulk (value : string) :
  no_zero_byte value = true ->
  (String.length ("$" ++ to_string (strlen value) ++ CRLF ++ value ++ CRLF) <= 4095)%nat ->
  parse_response (Some ("$" ++ to_string (strlen value) ++ CRLF ++ value ++ CRLF)) =
  Ret (value ++ LF).
Proof.
  intros Hz Hfit.
  set (digits := to_string (strlen value)) in *.
  set (response := ("$" ++ digits ++ CRLF ++ value ++ CRLF)%string) in *.
  assert (Hlen : strlen value < 2 ^ 31).
  { unfold response in Hfit. cbn [append String.length] in Hfit.
    rewrite !length_append in Hfit. rewrite <- (strlen_to_nat value) in Hfit.
    apply (N.lt_trans _ 4096); [lia|reflexivity]. }
  unfold parse_response.
  assert (Hresp : response = String "$" (digits ++ CRLF ++ value ++ CRLF))
    by reflexivity.
  rewrite Hresp at 1. cbv beta iota. fold response.
  rewrite (take_ge _ _ Hfit).
  assert (Hc : c_string response = response).
  { apply c_string_no_zero. rewrite Hresp. cbn [no_zero_byte Ascii.eqb Bool.eqb negb andb].
    rewrite !no_zero_byte_append, Hz. unfold digits, to_string.
    now rewrite no_zero_byte_uint. }
  rewrite Hc.
  assert (Hfind : find_CRLF response = Some (S (String.length digits))).
  { rewrite Hresp. cbn [find_CRLF starts_with CRLF Ascii.eqb Bool.eqb andb].
    unfold digits. now rewrite find_CRLF_to_string. }
  rewrite Hfind, Hresp. cbn [Ascii.eqb Bool.eqb andb]. rewrite <- Hresp.
  assert (Hnot : (substr 1 2 response =? "-1")%string = false).
  { rewrite Hresp. unfold substr. cbn [drop].
    destruct (to_string_first (strlen value)) as (c & rest & d & E & Hd).
    fold digits in E. rewrite E. cbn [append take String.eqb].
    destruct (Ascii.eqb_spec c "-") as [->|_]; [discriminate|reflexivity]. }
  rewrite Hnot.
  assert (Hsub : substr 1 (S (String.length digits) - 1) response = digits).
  { rewrite Hresp. unfold substr. cbn [drop].
    replace (S (String.length digits) - 1)%nat with (String.length digits) by lia.
    apply take_append. }
  rewrite Hsub. unfold digits at 1. rewrite stoi_to_string by exact Hlen.
  cbn [bind]. rewrite size_t_of_int_N
    by (apply (N.lt_trans _ _ _ Hlen); reflexivity).
  assert (Hmin : N.min (strlen value) (strlen response) = strlen value).
  { apply N.min_l. rewrite Hresp. unfold strlen. cbn [String.length].
    rewrite !length_append. lia. }
  rewrite Hmin, strlen_to_nat.
  assert (Hval : substr (S (String.length digits) + 2) (String.length value) response
                 = value).
  { rewrite Hresp. unfold substr. cbn [Nat.add drop].
    rewrite <- drop_drop, drop_append. cbn [CRLF drop append]. apply take_append. }
  now rewrite Hval.
Qed.
(** ** The sizes of the buffers and the filter of the frozen buffer *)

Local Abbreviation frozen_covers' := (frozen_covers std_hash).
Local Abbreviation store_inv' := (store_inv std_hash).
Local Abbreviation GET_two_buffers' := (GET_two_buffers std_hash).
Local Abbreviation get_two_buffers' := (get_two_buffers std_hash).

Lemma concat_records_insert (k v : string) (m : map) :
  strlen (concat_records (map_insert k v m)) <=
  strlen (concat_records m) + strlen k + strlen v.
Proof.
  induction m as [|[k' v'] m IH]; cbn [map_insert concat_records].
  - rewrite !strlen_append. lia.
  - destruct (String.compare k k'); cbn [concat_records]; rewrite !strlen_append in *; lia.
Qed.




(** What [SET] leaves of the frozen buffer and of the flags. *)
Lemma SET_frozen_fields (key value : string) (st : Database) :
  filter_read (snd (SET' key value st)) = filter_read st /\
  read_memtable (snd (SET' key value st)) = read_memtable st /\
  ifread_memtable (snd (SET' key value st)) = ifread_memtable st /\
  flush_temp (snd (SET' key value st)) = flush_temp st /\
  (flushrunning (snd (SET' key value st)) = false ->
   flushrunning st = false /\ mem_size (snd (SET' key value st)) < MAX \/
   snd (SET' key value st) = st).
Proof.
  unfold SET, append_to_WAL. destruct (MAX <=? _); [repeat split; now right|].
  destruct (wal st) as [p|]; [destruct (dir_get p (dir st))|];
    cbn -[N.add N.leb];
    match goal with |- context [MAX <=? ?x] => destruct (N.leb_spec MAX x) end;
    cbn -[N.add]; repeat split; try discriminate; intros E; left; (split; [exact E|lia]).
Qed.

Lemma SET_store_inv (key value : string) (st : Database) :
  flushrunning st = false -> store_inv' st -> store_inv' (snd (SET' key value st)).
Proof.
  intros Hfl [Hc (Hb & Hf & Hm)].
  destruct (SET_frozen_fields key value st) as (Ef & Er & _ & _ & Hfr).
  split; [unfold frozen_covers; now rewrite Ef, Er|].
  destruct (fst (SET' key value st)) eqn:Eok;
    [|rewrite (SET_rejected_state _ _ _ Eok); now repeat split].
  destruct (SET_accepted_fields key value st Eok) as (Em & _ & Es & _).
  assert (Hsize : strlen key + strlen value < MAX).
  { rewrite SET_result in Eok. apply negb_true_iff, N.leb_gt in Eok. exact Eok. }
  specialize (Hf Hfl). pose proof (concat_records_insert key value (write_memtable st)).
  unfold size_inv. rewrite Em, Es. split; [lia|]. split; [|lia].
  intros E. destruct (Hfr E) as [[_ H1]|H1]; [now rewrite Es in H1|].
  rewrite H1 in Es. lia.
Qed.

Lemma FLUSH_swap_store_inv (st : Database) :
  filter_covers' st -> read_memtable st = [] -> size_inv st ->
  store_inv' (FLUSH_swap st) /\
  strlen (concat_records (read_memtable (FLUSH_swap st))) < 2 * MAX.
Proof.
  intros Hc Hr (Hb & Hf & Hm). split; [split|].
  - exact Hc.
  - unfold size_inv. cbn [FLUSH_swap write_memtable mem_size flushrunning].
    rewrite Hr. cbn. unfold MAX. repeat split; lia.
  - cbn [FLUSH_swap read_memtable]. lia.
Qed.

Lemma FLUSH_write_store_inv (st : Database) :
  store_inv' st -> store_inv' (FLUSH_write std_hash st).
Proof.
  intros [_ Hs]. split; [intros k v; discriminate|exact Hs].
Qed.

(** A compaction changes the tiers and nothing else. *)
Lemma compact_rec_only_tiers (fuel i : nat) (st st' : Database) :
  compact_rec std_hash fuel i st = Ret st' -> st' = set_tiers (tiers st') st.
Proof.
  revert i st. induction fuel as [|fuel IH]; intros i st; [discriminate|].
  cbn [compact_rec].
  destruct (compact_step' i st) as [st1| |] eqn:E; cbn [bind]; try discriminate.
  assert (H1 : st1 = set_tiers (tiers st1) st).
  { unfold compact_step in E. destruct i as [|i']; [discriminate|].
    destruct (nth_error (tiers st) (S i' - 1)); [|discriminate].
    destruct (merge' _ _ _) as [[run f]| |]; cbn [bind] in E; try discriminate.
    inversion E. reflexivity. }
  destruct (Nat.leb MIN_TH _).
  - intros H. rewrite (IH _ _ H). rewrite H1. reflexivity.
  - intros [= <-]. exact H1.
Qed.

Lemma startup_compactions_only_tiers (j : nat) (st st' : Database) :
  startup_compactions std_hash j st = Ret st' -> st' = set_tiers (tiers st') st.
Proof.
  revert st. induction j as [|j IH]; intros st; cbn [startup_compactions].
  - intros [= <-]. now destruct st.
  - destruct (Nat.leb MIN_TH _).
    + destruct (compact std_hash (S j) st) as [st1| |] eqn:E; cbn [bind];
        try discriminate.
      intros H. rewrite (IH st1 H). rewrite (compact_rec_only_tiers _ _ _ _ E).
      reflexivity.
    + cbn [bind]. apply IH.
Qed.

Lemma replay_store (recs : list record) (st : Database) :
  frozen_covers' st ->
  strlen (concat_records (write_memtable st)) <= mem_size st ->
  frozen_covers' (replay' recs st) /\
  strlen (concat_records (write_memtable (replay' recs st))) <=
    mem_size (replay' recs st).
Proof.
  revert st. induction recs as [|[k v] recs IH]; intros st Hc Hb; [now split|].
  change (replay' ((k, v) :: recs) st) with
    (replay' recs
       (set_filter_write (add k (filter_write st))
          (set_write_memtable (map_insert k v (write_memtable st))
             (set_mem_size (mem_size st + strlen k + strlen v) st)))).
  apply IH; [exact Hc|].
  cbn [write_memtable mem_size set_filter_write set_write_memtable set_mem_size].
  pose proof (concat_records_insert k v (write_memtable st)). lia.
Qed.

Lemma flush_if_full_store (st : Database) :
  buffers_inv' st -> frozen_covers' st ->
  strlen (concat_records (write_memtable st)) <= mem_size st ->
  store_inv' (flush_if_full' st).
Proof.
  intros [Hc Hr] Hfc Hb. unfold flush_if_full.
  destruct (N.leb_spec MAX (mem_size st)) as [Hfull|Hlt].
  - unfold await_swap.
    destruct (ifread_memtable (signal_flush st)) eqn:Ei.
    + split; [exact Hc|]. unfold size_inv, MAX. cbn. repeat split; lia.
    + split; [exact Hc|]. unfold size_inv, MAX.
      cbn [FLUSH_swap write_memtable mem_size flushrunning signal_flush read_memtable
           set_semid0 set_flushid set_flushrunning].
      rewrite (Hr Ei). cbn. repeat split; lia.
  - split; [exact Hfc|]. unfold size_inv, MAX in *. repeat split; lia.
Qed.

Lemma initializer_helper_store (st : Database) :
  buffers_inv' st -> frozen_covers' st ->
  strlen (concat_records (write_memtable st)) <= mem_size st ->
  store_inv' (initializer_helper' st).
Proof.
  intros Hbuf Hfc Hb. unfold initializer_helper.
  set (recs := match dir_get (WAL st) (dir st) with Some r => r | None => [] end).
  destruct (replay_store recs st Hfc Hb) as [H1 H2].
  pose proof (replay_buffers_inv recs st Hbuf) as H3.
  now apply flush_if_full_store.
Qed.

Lemma initialize_memtable_store (st : Database) :
  buffers_inv' st -> store_inv' st -> store_inv' (initialize_memtable' st).
Proof.
  intros Hbuf Hst. unfold initialize_memtable.
  destruct (stage_logs (set_WAL WAL_temp_bin st)) as [st1 WAL1] eqn:E.
  assert (H1 : buffers_inv' st1 /\ store_inv' st1).
  { unfold stage_logs in E. destruct (_ && _); [|destruct (negb _)];
      inversion E; subst; split; assumption. }
  destruct H1 as [H1 H1'].
  set (st2 := if dir_exists WAL_temp_bin (dir st1)
              then set_dir (dir_set WAL_bin None (dir (initializer_helper' st1)))
                     (set_wal None (initializer_helper' st1))
              else st1).
  assert (H2 : buffers_inv' st2 /\ store_inv' st2).
  { unfold st2. destruct (dir_exists WAL_temp_bin (dir st1)); [|now split].
    split; [exact (initializer_helper_buffers_inv st1 H1)|].
    destruct H1' as [Hfc (Hb & _)]. exact (initializer_helper_store st1 H1 Hfc Hb). }
  destruct H2 as [H2 [Hfc (Hb & Hq)]].
  destruct (dir_exists WAL1 _).
  - now apply initializer_helper_store.
  - destruct (negb _); exact (conj Hfc (conj Hb Hq)).
Qed.

Lemma Database_restart_store (st st' : Database) :
  Database_restart' st = Ret st' -> store_inv' st'.
Proof.
  unfold Database_restart.
  destruct (initialize_folders std_hash _) as [ts| |] eqn:E; cbn [bind];
    try discriminate.
  destruct (startup_compactions std_hash _ _) as [st1| |] eqn:E1; cbn [bind];
    try discriminate.
  intros [= <-]. rewrite (startup_compactions_only_tiers _ _ _ E1).
  apply initialize_memtable_store.
  - split; [now apply covers_empty|]. intros _. reflexivity.
  - split; [intros k v; discriminate|].
    unfold size_inv, MAX. cbn. repeat split; lia.
Qed.

Lemma Database_init_store : store_inv' (Database_init std_hash).
Proof.
  unfold Database_init. apply initialize_memtable_store.
  - split; [now apply covers_empty|]. intros _. reflexivity.
  - split; [intros k v; discriminate|].
    unfold size_inv, MAX. cbn. repeat split; lia.
Qed.

Lemma exec_event_store (e : event) (st st' : Database) :
  buffers_inv' st -> store_inv' st -> exec_event std_hash e st = Some st' ->
  store_inv' st'.
Proof.
  intros [Hc Hr] Hst. destruct e as [k v|k| | | |]; simpl.
  - destruct (flushrunning st) eqn:Ef; [discriminate|]. intros [= <-].
    now apply SET_store_inv.
  - destruct (flushrunning st) eqn:Ef; [discriminate|]. intros [= <-].
    now apply SET_store_inv.
  - destruct (ifread_memtable st) eqn:Ei; [rewrite andb_false_r; discriminate|].
    destruct (0 <? semid0 st); [|discriminate]. intros [= <-].
    destruct Hst as [_ Hs]. exact (proj1 (FLUSH_swap_store_inv st Hc (Hr eq_refl) Hs)).
  - destruct (ifread_memtable st); [|discriminate]. intros [= <-].
    now apply FLUSH_write_store_inv.
  - destruct (0 <? compactid st); [|discriminate].
    destruct (compact std_hash 1 _) as [st1| |] eqn:E; try discriminate.
    intros [= <-]. rewrite (compact_rec_only_tiers _ _ _ _ E). exact Hst.
  - destruct (Database_restart std_hash st) as [st1| |] eqn:E; try discriminate.
    intros [= <-]. exact (Database_restart_store st _ E).
Qed.

Lemma exec_store (es : list event) (st st' : Database) :
  reach_inv std_hash st -> store_inv' st -> exec std_hash es st = Some st' ->
  store_inv' st'.
Proof.
  revert st. induction es as [|e es IH]; intros st Hr Hst; simpl.
  - now intros [= <-].
  - destruct (exec_event std_hash e st) as [st1|] eqn:E; [|discriminate].
    apply IH; [now apply (exec_event_reach e st)|].
    exact (exec_event_store e st st1 (proj1 Hr) Hst E).
Qed.

Lemma Database_init_inv_all :
  engine_inv (Database_init std_hash) /\ reach_inv std_hash (Database_init std_hash) /\
  store_inv' (Database_init std_hash).
Proof.
  split; [exact Database_init_inv|]. split; [exact Database_init_reach|].
  exact Database_init_store.
Qed.

Lemma exec_inv_all (es : list event) (st st' : Database) :
  engine_inv st /\ reach_inv std_hash st /\ store_inv' st ->
  exec std_hash es st = Some st' ->
  engine_inv st' /\ reach_inv std_hash st' /\ store_inv' st'.
Proof.
  intros (H1 & H2 & H3) Hex. split; [exact (exec_inv es st st' H1 Hex)|].
  split; [exact (exec_reach es st st' H2 Hex)|exact (exec_store es st st' H2 H3 Hex)].
Qed.

(** ** The lookup with the frozen buffer *)

(** The lookup of the spec in a state that the engine reaches: the active
    buffer, then the frozen buffer, then the tiers. *)
Lemma GET_two_buffers_order (key value : string) (st : Database) :
  buffers_inv' st -> frozen_covers' st -> ifread_memtable st = true ->
  match map_find key (write_memtable st), map_find key (read_memtable st)
        return Prop with
  | Some w, _ =>
      GET_two_buffers' key value st =
      Ret (if (w =? TOMBSTONE)%string then (false, value) else (true, w))
  | None, Some v =>
      GET_two_buffers' key value st =
      Ret (if (v =? TOMBSTONE)%string then (false, value) else (true, v))
  | None, None => GET_two_buffers' key value st = GET_tiers std_hash key (tiers st) value
  end.
Proof.
  intros [Hc _] Hfc Hi. unfold GET_two_buffers. rewrite Hi. cbn [andb].
  destruct (map_find key (write_memtable st)) as [w|] eqn:Ew.
  - rewrite (Hc key w Ew). now destruct (w =? TOMBSTONE)%string.
  - assert (E : (if contains key (filter_write st) then @None string else None) = None)
      by now destruct (contains key (filter_write st)).
    rewrite E. destruct (map_find key (read_memtable st)) as [v|] eqn:Ev.
    + rewrite (Hfc key v Ev). now destruct (v =? TOMBSTONE)%string.
    + now destruct (contains key (filter_read st)).
Qed.


(** ** A record from the active buffer to a run of Tier 1 *)

Local Abbreviation record_visible' := (record_visible std_hash).
Local Abbreviation GET_tiers' := (GET_tiers std_hash).






(** ** What a compaction does with the tombstones *)

(** The record of a key in its newest run is the one that [merge] selects
    for the key, unless it is the empty record. *)
Lemma newest_is_read (runs : list (list record)) (k v v' : string) :
  Forall sorted_keys runs ->
  newest runs k v ->
  (k, v) <> ("", "") ->
  (exists older r newer,
     runs = (older ++ r :: newer)%list /\ In (k, v') r /\
     forall r', In r' newer -> r' <> empty_record_run -> ~ In k (List.map fst r')) ->
  v = v'.
Proof.
  intros Hs (o1 & r1 & n1 & E1 & H1 & N1) Hne (o2 & r2 & n2 & E2 & H2 & N2).
  assert (Hr1 : r1 <> empty_record_run).
  { intros ->. destruct H1 as [H1|[]]. now symmetry in H1. }
  revert runs o2 Hs E1 E2. induction o1 as [|x o1 IH]; intros runs o2 Hs E1 E2.
  - destruct o2 as [|y o2]; simpl in *.
    + rewrite E1 in E2. injection E2 as -> _.
      rewrite E1 in Hs. apply Forall_inv in Hs.
      apply (map_find_In _ _ _ Hs) in H1, H2. congruence.
    + rewrite E1 in E2. injection E2 as _ ->. exfalso.
      apply (N1 r2); [apply in_or_app; right; now left|].
      change k with (fst (k, v')). now apply in_map.
  - destruct o2 as [|y o2]; simpl in *.
    + rewrite E2 in E1. injection E1 as _ ->. exfalso.
      apply (N2 r1); [apply in_or_app; right; now left|exact Hr1|].
      change k with (fst (k, v)). now apply in_map.
    + rewrite E1 in E2. injection E2 as _ E2.
      apply (IH (o1 ++ r1 :: n1)%list o2); [|reflexivity|exact E2].
      rewrite E1 in Hs. now apply Forall_inv_tail in Hs.
Qed.

(** [merge] on runs in the format with increasing keys, the run of the empty
    record allowed among them: every record written is a record of an input,
    and the newest record of every key is written, the empty record apart
    and, when [last] is set, the tombstones apart. *)
Lemma merge_keeps_newest (src : list SortedRun) (runs : list (list record))
    (temp0 : BloomFilter) (last : bool) :
  Forall2 holds src runs ->
  Forall sorted_keys runs ->
  exists run f,
    merge' src temp0 last = Ret (run, f) /\
    (forall k v, In (k, v) (run_records run) ->
       (last = true -> v <> TOMBSTONE) /\ exists r, In r runs /\ In (k, v) r) /\
    (forall k v, newest runs k v -> (k, v) <> ("", "") ->
       (last = true -> v <> TOMBSTONE) -> In (k, v) (run_records run)).
Proof.
  intros Hholds Hsorted.
  pose proof (merge_selects_run src temp0 last) as Hrun.
  rewrite (merge_selects_crep _ _ _ "" (None, None) (open_cursors_crep _ _ Hholds))
    in Hrun.
  assert (Hfuel : (mu_all "" (List.map (fun rs => (("", ""), rs)) runs)
                   < merge_fuel src)%nat).
  { rewrite mu_all_init. now apply merge_fuel_enough. }
  destruct (aloop_spec (merge_fuel src) true "" runs _ (cinv_init runs Hsorted) Hfuel)
    as (sels & Hloop & Hs & _ & Hnew).
  pose proof (aloop_complete (merge_fuel src) true "" runs _ sels
                (cinv_init runs Hsorted) Hfuel Hloop) as Hall.
  rewrite Hloop in Hrun. destruct Hrun as (run & f & Hm & Hh & _).
  exists run, f. rewrite (run_records_holds _ _ Hh).
  split; [exact Hm|].
  assert (Hsel : forall k v, newest runs k v -> (k, v) <> ("", "") -> In (k, v) sels).
  { intros k v Hn Hne. pose proof Hn as (older & r & newer & E & Hr & _).
    assert (Hrin : In r runs) by (rewrite E; apply in_or_app; right; now left).
    assert (Hre : r <> empty_record_run).
    { intros ->. destruct Hr as [Hr|[]]. now symmetry in Hr. }
    pose proof (Forall2_map_same _ _ _ Hall r Hrin Hre (k, v) Hr (or_intror Hr)) as Hk.
    simpl in Hk. apply in_map_iff in Hk. destruct Hk as ([k' v'] & Ek & Hin).
    simpl in Ek. subst k'.
    now rewrite (newest_is_read runs k v v' Hsorted Hn Hne (Hnew k v' Hin)). }
  split.
  - intros k v Hin.
    assert (Hin' : In (k, v) sels /\ (last = true -> v <> TOMBSTONE)).
    { destruct last.
      - apply filter_In in Hin. destruct Hin as [Hin Hl]. split; [exact Hin|].
        intros _. unfold live in Hl. simpl in Hl.
        now apply negb_true_iff, String.eqb_neq in Hl.
      - split; [exact Hin|discriminate]. }
    destruct Hin' as [Hin' Hl]. split; [exact Hl|].
    destruct (Hnew k v Hin') as (older & r & newer & E & Hr & _).
    exists r. split; [rewrite E; apply in_or_app; right; now left|exact Hr].
  - intros k v Hn Hne Hl. specialize (Hsel k v Hn Hne). destruct last; [|exact Hsel].
    apply filter_In. split; [exact Hsel|]. unfold live. simpl.
    apply negb_true_iff, String.eqb_neq. now apply Hl.
Qed.

(** C4.  [compact(i)] on an existing tier [i] whose runs are sorted runs
    passes [last = true] to [merge] exactly when tier [i] is the last tier
    there is, that is when the target tier [i + 1] does not exist yet and is
    created, as the new last tier, by this compaction; in particular the flag
    is false when the target exists already and is the last tier.  The
    compaction returns, empties tier [i] and appends one run to tier [i + 1].
    Every record of that run is a record of a run of tier [i]; a tombstone
    that is the newest record of its key in tier [i] is in that run exactly
    when the target existed before; when the target is new, no record of the
    run is a tombstone; and in both cases the newest record of every other
    key is in the run, the record with empty key and empty value apart. *)
Theorem compact_drops_tombstones_iff_new_tier (i : nat) (st : Database)
    (tier_i : Tier) :
  (1 <= i)%nat ->
  nth_error (tiers st) (i - 1) = Some tier_i ->
  (forall rf, In rf tier_i -> run_sorted (fst rf)) ->
  (compact_last i st = true <-> i = List.length (tiers st)) /\
  (S i = List.length (tiers st) -> compact_last i st = false) /\
  exists st' run f,
    compact_step' i st = Ret st' /\
    nth (i - 1) (tiers st') [] = [] /\
    nth i (tiers st') [] = (nth i (tiers st) [] ++ [(run, f)])%list /\
    (forall k v, In (k, v) (run_records run) ->
       exists rf, In rf tier_i /\ In (k, v) (run_records (fst rf))) /\
    (forall k, newest (List.map run_records (List.map fst tier_i)) k TOMBSTONE ->
       (In (k, TOMBSTONE) (run_records run) <-> i <> List.length (tiers st))) /\
    (i = List.length (tiers st) ->
     forall r, In r (run_records run) -> snd r <> TOMBSTONE) /\
    (forall k v, newest (List.map run_records (List.map fst tier_i)) k v ->
       v <> TOMBSTONE -> (k, v) <> ("", "") -> In (k, v) (run_records run)).
Proof.
  intros Hi Hnth Hruns.
  assert (Hlt : (i - 1 < List.length (tiers st))%nat).
  { apply nth_error_Some. congruence. }
  assert (Hlast : compact_last i st = Nat.eqb i (List.length (tiers st))).
  { unfold compact_last, levels_main_size. f_equal. lia. }
  split; [rewrite Hlast; apply Nat.eqb_eq|].
  split; [intros E; rewrite Hlast; apply Nat.eqb_neq; lia|].
  destruct (sorted_runs_inputs (List.map fst tier_i)) as [Hholds Hsorted].
  { intros r Hin. apply in_map_iff in Hin. destruct Hin as (rf & <- & Hrf).
    now apply Hruns. }
  destruct (merge_keeps_newest (List.map fst tier_i) _ BloomFilter_new
              (compact_last i st) Hholds Hsorted) as (run & f & Hm & Hfrom & Hkeep).
  destruct i as [|i']; [lia|].
  unfold compact_step. fold (compact_last (S i') st).
  replace (S i' - 1)%nat with i' in * by lia. rewrite Hnth, Hm. cbn [bind].
  eexists. exists run, f. split; [reflexivity|].
  cbn [tiers set_tiers].
  set (ts1 := if compact_last (S i') st then (tiers st ++ [[]])%list else tiers st).
  assert (Hlen : (S i' < List.length ts1)%nat /\ nth (S i') ts1 [] = nth (S i') (tiers st) []).
  { unfold ts1. rewrite Hlast. destruct (Nat.eqb (S i') (List.length (tiers st))) eqn:E.
    - apply Nat.eqb_eq in E. rewrite length_app. simpl. split; [lia|].
      rewrite app_nth2 by lia. rewrite E, Nat.sub_diag. simpl.
      symmetry. apply nth_overflow. lia.
    - apply Nat.eqb_neq in E. split; [lia|reflexivity]. }
  destruct Hlen as [Hlen Hsame].
  assert (Hflag : compact_last (S i') st = true <-> S i' = List.length (tiers st))
    by (rewrite Hlast; apply Nat.eqb_eq).
  split; [|split; [|split; [|split; [|split]]]].
  - rewrite nth_list_set_other by lia. apply nth_list_set_same.
    unfold ts1. destruct (compact_last (S i') st); [rewrite length_app|]; simpl; lia.
  - rewrite nth_list_set_same by (rewrite list_set_length; exact Hlen).
    rewrite nth_list_set_other by lia. f_equal. exact Hsame.
  - intros k v Hin. destruct (Hfrom k v Hin) as (_ & r & Hr & Hkv).
    apply in_map_iff in Hr. destruct Hr as (run' & <- & Hr).
    apply in_map_iff in Hr. destruct Hr as (rf & <- & Hrf).
    exists rf. split; assumption.
  - intros k Hn. split.
    + intros Hin E. destruct (Hfrom k TOMBSTONE Hin) as (Hl & _).
      now apply Hl; [apply Hflag|].
    + intros Hne. apply Hkeep; [exact Hn|discriminate|].
      intros E. apply Hflag in E. contradiction.
  - intros E [k v] Hin. simpl. destruct (Hfrom k v Hin) as (Hl & _).
    apply Hl. now apply Hflag.
  - intros k v Hn Hv Hne. apply Hkeep; [exact Hn|exact Hne|]. intros _. exact Hv.
Qed.

(** ** A write and the lookups that follow *)


(** C2.  While a flush is in progress, in every state that the engine
    reaches, the lookup of the spec answers from the active buffer when it
    holds the key; from the frozen buffer when the active buffer does not
    hold the key and the frozen buffer does, whatever the tiers hold: the
    value of the record, or no value when it is the tombstone; and from the
    tiers when neither buffer holds the key.  The filters of the two buffers
    never hide a record: each covers its buffer. *)
Theorem GET_consults_frozen_buffer (es : list event) (st : Database)
    (key value : string) :
  exec std_hash es (Database_init std_hash) = Some st ->
  ifread_memtable st = true ->
  match map_find key (write_memtable st), map_find key (read_memtable st)
        return Prop with
  | Some w, _ =>
      GET_two_buffers' key value st =
      Ret (if (w =? TOMBSTONE)%string then (false, value) else (true, w))
  | None, Some v =>
      GET_two_buffers' key value st =
      Ret (if (v =? TOMBSTONE)%string then (false, value) else (true, v))
  | None, None => GET_two_buffers' key value st = GET_tiers std_hash key (tiers st) value
  end.
Proof.
  intros Hex Hi.
  destruct (exec_inv_all es _ st Database_init_inv_all Hex) as (_ & (Hb & _) & (Hfc & _)).
  now apply GET_two_buffers_order.
Qed.

(** ** Further properties of the engine *)

(** X1.  The filter is a function of the set of keys added: two sequences of
    [add] with the same keys, in any order and with any repetitions, started
    on the same filter, give the same filter. *)
Theorem BloomFilter_set_of_keys (keys keys' : list string) (f : BloomFilter) :
  (forall k, In k keys <-> In k keys') -> add_all keys f = add_all keys' f.
Proof. exact (BloomFilter_add_all_same_set keys keys' f). Qed.

(** X2.  On a filter that was clear before the keys [keys] were added,
    [contains(key)] returns true exactly when each of the [NOFILTERS] bits of
    [key] is a bit of one of the keys added; in particular a clear filter
    reports no key. *)
Theorem BloomFilter_contains_exactly (key : string) (keys : list string) :
  (contains key (add_all keys BloomFilter_new) = true <->
   forall i, (i < NOFILTERS)%nat ->
     exists k j, In k keys /\ (j < NOFILTERS)%nat /\
       bit_index std_hash k j = bit_index std_hash key i) /\
  contains key (BloomFilter_clear (add_all keys BloomFilter_new)) = false.
Proof.
  split; [apply BloomFilter_contains_add_all_new|reflexivity].
Qed.

(** X3.  The run that the Flusher writes for a buffer decodes to the records
    of the buffer, in their order, and its index ends with their number. *)
Theorem FLUSH_run_round_trip (m : map) :
  run_records (FLUSH_run m) = m /\
  run_count (FLUSH_run m) = N.of_nat (List.length m) /\
  run_data (FLUSH_run m) = concat_records m.
Proof.
  destruct (FLUSH_run_holds m) as [Hh Hc].
  split; [exact (run_records_holds _ _ Hh)|]. split; [exact Hc|exact (proj1 Hh)].
Qed.

(** X4.  [Find] on the run that the Flusher wrote for a buffer with fewer
    than [2^31] records and fewer than [2^63] bytes: the binary search
    returns true and the value of the key when the buffer held the key, and
    false when it did not. *)
Theorem Find_after_FLUSH (m : map) (key value : string) :
  sorted_keys m ->
  strlen (concat_records m) < 2 ^ 63 ->
  N.of_nat (List.length m) < 2 ^ 31 ->
  exists value',
    Find (FLUSH_run m) key value =
    Ret (match map_find key m with
         | Some v => (true, v)
         | None => (false, value')
         end).
Proof. exact (Find_FLUSH_run m key value). Qed.

(** X5.  [Find] on a run that [merge] wrote, whose index ends with twice the
    number of its records: for a key that is not above the last key of the
    run, the search returns true and the value when the run holds the key,
    and false when it does not. *)
Theorem Find_after_merge (src : list SortedRun) (temp0 : BloomFilter) (last : bool)
    (run : SortedRun) (f : BloomFilter) (key value : string) (r : record) :
  merge' src temp0 last = Ret (run, f) ->
  sorted_keys (run_records run) ->
  strlen (run_data run) < 2 ^ 63 ->
  N.of_nat (List.length (run_records run)) < 2 ^ 31 ->
  In r (run_records run) -> String.ltb (fst r) key = false ->
  exists value',
    Find run key value =
    Ret (match map_find key (run_records run) with
         | Some v => (true, v)
         | None => (false, value')
         end).
Proof.
  intros Hm Hs Hsize Hn Hin Hle.
  destruct (merge_count_doubles _ _ _ _ _ Hm) as [[Hdata [c Hmeta]] Hc].
  rewrite (run_count_holds _ _ _ Hmeta) in Hc. subst c.
  rewrite Hdata in Hsize.
  exact (Find_count_double run (run_records run) key value r
           Hdata Hmeta Hs Hsize Hn Hin Hle).
Qed.

(** X6.  [initialize_filter] on a run in the format with increasing keys and
    fewer than [2^63] bytes: the filter rebuilt at a start holds the keys of
    the run, except that it stays clear when the data file is empty, as it
    is for the run of the single record with an empty key and an empty
    value. *)
Theorem initialize_filter_rebuilds (run : SortedRun) (rs : list record) :
  holds run rs -> sorted_keys rs ->
  strlen (concat_records rs) < 2 ^ 63 ->
  initialize_filter' run =
  Ret (if (run_data run =? "")%string then BloomFilter_new
       else add_all (List.map fst rs) BloomFilter_new).
Proof.
  intros Hh Hs Hsize. destruct (String.eqb_spec (run_data run) "") as [E|E].
  - now apply initialize_filter_empty_data.
  - apply initialize_filter_sorted; try assumption.
    intros ->. apply E. now rewrite (proj1 Hh).
Qed.

(** X7.  After the Flusher has written the frozen buffer as a run of Tier 1,
    [GET] on a key that the frozen buffer held, and that the active buffer
    does not hold, returns the value that the frozen buffer held, or reports
    the key absent when that value is the tombstone. *)
Theorem GET_after_FLUSH_write (key v : string) (st : Database) :
  sorted_keys (read_memtable st) ->
  strlen (concat_records (read_memtable st)) < 2 ^ 63 ->
  N.of_nat (List.length (read_memtable st)) < 2 ^ 31 ->
  map_find key (write_memtable st) = None ->
  map_find key (read_memtable st) = Some v ->
  get' key (FLUSH_write std_hash st) =
  Ret (if (v =? TOMBSTONE)%string then None else Some v).
Proof. exact (get_after_FLUSH_write key v st). Qed.

(** X8.  In every state of the engine, whatever its buffers and runs hold, a
    value that [GET] returns is not the tombstone. *)
Theorem GET_never_returns_TOMBSTONE (key v : string) (st : Database) :
  get' key st = Ret (Some v) -> v <> TOMBSTONE.
Proof. exact (get_not_TOMBSTONE key v st). Qed.

(** X9.  After [DELETE(key)] returns true, [GET(key)] reports the key absent,
    also after any sequence of writes on other keys, as long as the
    tombstone is in the active buffer. *)
Theorem DELETE_then_GET (key : string) (es : list event) (st st' : Database) :
  fst (DELETE' key st) = true ->
  forallb (write_off key) es = true ->
  exec std_hash es (snd (DELETE' key st)) = Some st' ->
  get' key st' = Ret None.
Proof.
  intros Hok Hes Hex.
  pose proof (SET_active_holds key TOMBSTONE st Hok) as H0.
  destruct (exec_writes_active_holds key TOMBSTONE es _ st' Hes Hex H0) as [Hc Hf].
  rewrite (get_active_hit key TOMBSTONE st' Hc Hf). now rewrite String.eqb_refl.
Qed.

(** X10.  In every state that the engine reaches from an empty directory,
    [SET] on a key, accepted or not, leaves the answer of [GET] for every
    other key as it was. *)
Theorem SET_does_not_change_other_keys (es : list event) (st : Database)
    (key value key' : string) :
  exec std_hash es (Database_init std_hash) = Some st ->
  key' <> key ->
  get' key' (snd (SET' key value st)) = get' key' st.
Proof.
  intros Hex Hne.
  destruct (exec_reach es _ st Database_init_reach Hex) as [[Hcov _] _].
  now apply SET_frame.
Qed.

(** X11.  In every state that the engine reaches from an empty directory, a
    key that the active buffer holds is answered from the active buffer:
    [GET] returns its value there, or reports it absent when that value is
    the tombstone, whatever the frozen buffer and the tiers hold. *)
Theorem GET_answers_from_active_buffer (es : list event) (st : Database)
    (key v : string) :
  exec std_hash es (Database_init std_hash) = Some st ->
  map_find key (write_memtable st) = Some v ->
  get' key st = Ret (if (v =? TOMBSTONE)%string then None else Some v).
Proof.
  intros Hex Hf.
  destruct (exec_reach es _ st Database_init_reach Hex) as [[Hcov _] _].
  exact (get_active_hit key v st (Hcov key v Hf) Hf).
Qed.

(** X12.  [merge] on input runs in the format with increasing keys returns;
    the run it writes is in the format and its keys are strictly increasing;
    and when no input run but the oldest is the run of the single empty
    record, every record written is the record of its key in the newest
    input run that holds the key. *)
Theorem merge_returns_sorted_newest (src : list SortedRun) (runs : list (list record))
    (temp0 : BloomFilter) (last : bool) :
  Forall2 holds src runs ->
  Forall sorted_keys runs ->
  exists run f,
    merge' src temp0 last = Ret (run, f) /\
    holds run (run_records run) /\
    sorted_keys (run_records run) /\
    (Forall (fun r => r <> empty_record_run) (tl runs) ->
     forall k v, In (k, v) (run_records run) -> newest runs k v).
Proof. exact (merge_on_sorted_runs src runs temp0 last). Qed.

(** X13.  [merge] loses no key: on input runs in the format with increasing
    keys, none of which is the run of the single empty record, the run
    written holds exactly the newest record of each key of the inputs, the
    records whose value is the tombstone being left out when [last] is
    set. *)
Theorem merge_writes_newest_of_each_key (src : list SortedRun)
    (runs : list (list record)) (temp0 : BloomFilter) (last : bool) :
  Forall2 holds src runs ->
  Forall sorted_keys runs ->
  Forall (fun r => r <> empty_record_run) runs ->
  exists run f,
    merge' src temp0 last = Ret (run, f) /\
    sorted_keys (run_records run) /\
    forall k v,
      In (k, v) (run_records run) <->
      newest runs k v /\ (last = true -> v <> TOMBSTONE).
Proof. exact (merge_newest_union src runs temp0 last). Qed.

(** X14.  Whenever [merge] returns, on any input, the run it has written is
    in the format and the last word of its index is twice the number of its
    records. *)
Theorem merge_count_is_twice (src : list SortedRun) (temp0 : BloomFilter)
    (last : bool) (run : SortedRun) (f : BloomFilter) :
  merge' src temp0 last = Ret (run, f) ->
  holds run (run_records run) /\
  run_count run = 2 * N.of_nat (List.length (run_records run)).
Proof. exact (merge_count_doubles src temp0 last run f). Qed.

(** X15.  Whenever [merge] returns, the filter it has filled is the filter
    it was given with the key of each record of the run added: the filter of
    a compacted run has no false negative. *)
Theorem merge_fills_filter (src : list SortedRun) (temp0 : BloomFilter)
    (last : bool) (run : SortedRun) (f : BloomFilter) :
  merge' src temp0 last = Ret (run, f) ->
  f = add_all (List.map fst (run_records run)) temp0 /\
  forall k v, In (k, v) (run_records run) -> contains k f = true.
Proof.
  intros Hm. pose proof (merge_filter _ _ _ _ _ Hm) as E. split; [exact E|].
  intros k v Hin. rewrite E. apply BloomFilter_add_all_contains.
  change k with (fst (k, v)). now apply in_map.
Qed.

(** X16.  A key of the inputs of [merge] is found afterwards in the run
    written: the filter reports it and [Find] returns its newest value,
    although the index ends with twice the number of records; for inputs
    with fewer than [2^31] records and [2^63] bytes in all, none of which is
    the run of the single empty record, and a value that is not a tombstone
    dropped by [last]. *)
Theorem merge_then_lookup (src : list SortedRun) (runs : list (list record))
    (temp0 : BloomFilter) (last : bool) (k v : string) :
  Forall2 holds src runs ->
  Forall sorted_keys runs ->
  Forall (fun r => r <> empty_record_run) runs ->
  strlen (concat_records (List.concat runs)) < 2 ^ 63 ->
  N.of_nat (total_records runs) < 2 ^ 31 ->
  newest runs k v -> (last = true -> v <> TOMBSTONE) ->
  exists run f,
    merge' src temp0 last = Ret (run, f) /\
    contains k f = true /\
    forall value, Find run k value = Ret (true, v).
Proof. exact (merge_then_Find src runs temp0 last k v). Qed.

(** X17.  After the step of [compact(1)], [GET] returns, from the run
    written to Tier 2, the newest value that the runs of Tier 1 held for a
    key, when that value is not the tombstone and the active buffer does not
    hold the key; for a Tier 1 of sorted runs with fewer than [2^31] records
    and [2^63] bytes in all, none of which is the run of the single empty
    record. *)
Theorem GET_after_compact_step (key v : string) (st : Database) (t1 : Tier)
    (ts : list Tier) :
  tiers st = t1 :: ts ->
  (forall rf, In rf t1 -> run_sorted (fst rf)) ->
  Forall (fun r => r <> empty_record_run) (List.map run_records (List.map fst t1)) ->
  strlen (concat_records (List.concat (List.map run_records (List.map fst t1))))
    < 2 ^ 63 ->
  N.of_nat (total_records (List.map run_records (List.map fst t1))) < 2 ^ 31 ->
  map_find key (write_memtable st) = None ->
  newest (List.map run_records (List.map fst t1)) key v ->
  v <> TOMBSTONE ->
  exists st', compact_step' 1 st = Ret st' /\ get' key st' = Ret (Some v).
Proof. exact (get_after_compact_step key v st t1 ts). Qed.

(** X18.  In every state that the engine reaches from an empty directory by
    writes, flushes, compactions and restarts, both buffers are maps with
    strictly increasing keys and every run of every tier is a sorted run:
    its index delimits, in the data file, records whose keys are strictly
    increasing. *)
Theorem reachable_runs_are_sorted (es : list event) (st : Database) :
  exec std_hash es (Database_init std_hash) = Some st ->
  sorted_keys (write_memtable st) /\
  sorted_keys (read_memtable st) /\
  forall t rf, In t (tiers st) -> In rf t ->
    holds (fst rf) (run_records (fst rf)) /\ sorted_keys (run_records (fst rf)).
Proof.
  intros Hex. destruct (exec_inv es _ st Database_init_inv Hex) as (Hw & Hr & Ht).
  split; [exact Hw|]. split; [exact Hr|].
  intros t rf Hin Hrf. exact (Ht t Hin rf Hrf).
Qed.

(** X19.  In every state that the engine reaches from an empty directory,
    every tier below Tier 1 holds fewer than [MIN_TH] runs, and the frozen
    buffer is empty unless a flush is between its swap and its write. *)
Theorem reachable_tiers_are_bounded (es : list event) (st : Database) :
  exec std_hash es (Database_init std_hash) = Some st ->
  (forall j, (1 <= j)%nat -> (List.length (nth j (tiers st) []) < MIN_TH)%nat) /\
  (ifread_memtable st = false -> read_memtable st = []).
Proof.
  intros Hex.
  destruct (exec_reach es _ st Database_init_reach Hex) as [[_ Hr] [Hb _]].
  split; [exact Hb|exact Hr].
Qed.

(** X20.  [compact(i)] on an existing tier of an engine whose buffers are
    maps and whose runs are sorted runs returns: [merge] does not fault on
    its inputs and the recursion on the next tiers ends; the runs are sorted
    runs afterwards, the buffers are untouched, and if every tier below
    Tier 1 held fewer than [MIN_TH] runs before, every one does after. *)
Theorem compact_returns_and_keeps_shape (i : nat) (st : Database) :
  engine_inv st -> (1 <= i <= List.length (tiers st))%nat ->
  exists st',
    compact std_hash i st = Ret st' /\
    engine_inv st' /\
    write_memtable st' = write_memtable st /\
    read_memtable st' = read_memtable st /\
    (tiers_bounded (tiers st) -> tiers_bounded (tiers st')).
Proof.
  intros Hinv Hi. destruct (compact_returns i st Hinv Hi) as [st' E].
  exists st'. split; [exact E|]. split; [exact (compact_inv i st st' Hinv E)|].
  destruct (compact_rec_memory _ _ _ _ E) as (E1 & _ & E3 & _).
  split; [exact E1|]. split; [exact E3|].
  intros Hb. exact (proj1 (compact_bounded i st st' Hb E)).
Qed.

(** X21.  Durability of the log: after any sequence of writes on the engine
    started on an empty directory that has not filled the buffer, a start on
    the files left rebuilds the active buffer, its filter and [mem_size]
    from the log, and [GET] answers every key as before. *)
Theorem restart_restores_buffer (es : list event) (st : Database) :
  writes_only es = true ->
  exec std_hash es (Database_init std_hash) = Some st ->
  flushrunning st = false ->
  exists st',
    Database_restart' st = Ret st' /\
    write_memtable st' = write_memtable st /\
    filter_write st' = filter_write st /\
    mem_size st' = mem_size st /\
    forall k, get' k st' = get' k st.
Proof.
  intros Hw Hex Hfl.
  destruct (exec_writes_logged es [] _ st Hw Database_init_logged Hex)
    as (recs & Hd & _ & Ht & Hm & Hf & Hs & Hfull).
  specialize (Hfull Hfl). rewrite Hs in Hfull.
  destruct (restart_from_log recs st Hd Ht Hfull)
    as (st' & E & _ & Ht' & Hm' & Hf' & Hs').
  exists st'. split; [exact E|].
  split; [congruence|]. split; [congruence|]. split; [congruence|].
  intros k. unfold get, GET. now rewrite Hm', Hf', Ht', Hm, Hf, Ht.
Qed.

(** X22.  A start truncates the log that it replays: after a start on the
    files of such a state the recovered records are in the buffer only, and
    a second start, with no write in between, finds an empty log and comes
    up with an empty buffer, so that [GET] reports every key absent. *)
Theorem second_restart_loses_buffer (es : list event) (st : Database) :
  writes_only es = true ->
  exec std_hash es (Database_init std_hash) = Some st ->
  flushrunning st = false ->
  exists st' st'',
    Database_restart' st = Ret st' /\
    write_memtable st' = write_memtable st /\
    dir_get WAL_bin (dir st') = Some [] /\
    Database_restart' st' = Ret st'' /\
    write_memtable st'' = [] /\
    forall k, get' k st'' = Ret None.
Proof.
  intros Hw Hex Hfl.
  destruct (exec_writes_logged es [] _ st Hw Database_init_logged Hex)
    as (recs & Hd & _ & Ht & Hm & Hf & Hs & Hfull).
  specialize (Hfull Hfl). rewrite Hs in Hfull.
  destruct (restart_from_log recs st Hd Ht Hfull)
    as (st' & E & Hd' & Ht' & Hm' & _).
  destruct (restart_from_log [] st' Hd' Ht' eq_refl)
    as (st'' & E' & _ & Ht'' & Hm'' & Hf'' & _).
  exists st', st''. split; [exact E|]. split; [congruence|].
  split; [now rewrite Hd'|]. split; [exact E'|]. split; [exact Hm''|].
  intros k. unfold get, GET. rewrite Hm'', Ht''. cbn [buffer_of fold_left map_find].
  now destruct (contains k (filter_write st'')).
Qed.

(** X23.  The binary search ends: on every run, in the format or not, and
    for every key, [Find] returns or faults within the 64 probes that a
    64-bit count allows, and so does [GET] in every state. *)
Theorem Find_and_GET_terminate (run : SortedRun) (key value : string)
    (st : Database) :
  Find run key value <> OutOfFuel /\ GET' key value st <> OutOfFuel.
Proof. split; [apply Find_returns|apply GET_returns]. Qed.

(** X24.  The commands that the client serializes are the commands that the
    server runs: when the buffer of a client that is between two commands
    receives the serialized forms of a list of commands, [handle_client]
    runs each of them in order on exactly the parts the client serialized,
    whatever bytes they hold, sends their responses in that order and
    returns with an empty buffer. The parts are shorter than [2 ^ 31] bytes
    and fewer than [2 ^ 31]. *)
Theorem handle_client_answers_commands_in_order (cmds : list (list string))
    (s : server) (fuel : nat) :
  state (ctx s) = PARSE_TYPE ->
  buffer (ctx s) = "" ->
  Forall (fun parts => N.of_nat (List.length parts) < 2 ^ 31 /\
                       Forall (fun p => strlen p < 2 ^ 31) parts) cmds ->
  (List.length cmds < fuel)%nat ->
  leaves_behind
    (handle_client' fuel
       (receive (String.concat "" (List.map serialize_command cmds)) s)) =
  '(st', out') <- answers' cmds (r s, sent s) ;; Ret (st', out', "").
Proof.
  destruct s as [[b a e n ps] st out]. cbn [ctx state buffer r sent].
  intros -> -> Hall Hfuel. unfold receive, set_ctx.
  cbn [ctx state buffer args expected_bulk_length expected_args r sent append].
  now apply handle_client_commands.
Qed.

(** X25.  A [SET] and a [GET] of the same key sent one after the other, with
    a key and a value that have fewer than [MAX] bytes together: the server
    answers [+OK] and then the value as a bulk string, or the null bulk
    string when the value is the two bytes of the tombstone. *)
Theorem SET_then_GET_over_the_wire (key value : string) (s : server) (fuel : nat) :
  state (ctx s) = PARSE_TYPE ->
  buffer (ctx s) = "" ->
  strlen key + strlen value < MAX ->
  (2 < fuel)%nat ->
  leaves_behind
    (handle_client' fuel
       (receive (serialize_command ["SET"; key; value]
                 ++ serialize_command ["GET"; key]) s)) =
  Ret (snd (SET_call' key value (r s)),
       (sent s ++ [("+OK" ++ CRLF)%string;
                   (if (value =? TOMBSTONE)%string then "$-1" ++ CRLF
                    else "$" ++ to_string (strlen value) ++ CRLF ++ value ++ CRLF)%string])%list,
       "").
Proof.
  intros Hst Hb Hsize Hfuel.
  assert (Hmax : MAX < 2 ^ 31) by reflexivity.
  assert (Hk : strlen key < 2 ^ 31) by lia.
  assert (Hv : strlen value < 2 ^ 31) by lia.
  assert (H3 : strlen "SET" < 2 ^ 31) by reflexivity.
  change (serialize_command ["SET"; key; value] ++ serialize_command ["GET"; key])
    with (String.concat "" (List.map serialize_command [["SET"; key; value]; ["GET"; key]])).
  destruct s as [[b a e n ps] st out]. cbn [ctx state buffer r sent] in *. subst b ps.
  unfold receive, set_ctx.
  cbn [ctx state buffer args expected_bulk_length expected_args r sent append].
  rewrite handle_client_commands;
    [|repeat constructor; (exact Hk || exact Hv || reflexivity)|exact Hfuel].
  cbn [answers]. rewrite answer_SET. cbn [bind]. rewrite answer_GET.
  destruct (SET_call_accepts key value st Hsize) as [Hok [Hc Hf]].
  rewrite Hok, (GET_active_hit key value "" _ Hc Hf).
  destruct (value =? TOMBSTONE)%string; cbn [negb bind];
    rewrite <- app_assoc; reflexivity.
Qed.

(** X26.  The client prints what the engine answered: for a [GET] on which
    the engine returns a value that holds no zero byte and whose response
    fits into the 4095 bytes of one [recv], the server sends a response on
    which [parse_response] prints that value; and on the response to a [GET]
    that the engine answers with false, [parse_response] prints [(nil)]. *)
Theorem client_prints_the_answer_of_GET (key : string) (s : server) (res : bool)
    (value : string) :
  args (ctx s) = ["GET"; key] ->
  GET' key "" (r s) = Ret (res, value) ->
  (res = true ->
   no_zero_byte value = true /\
   (String.length ("$" ++ to_string (strlen value) ++ CRLF ++ value ++ CRLF) <= 4095)%nat) ->
  exists response,
    run_command' s = Ret (send_response response s) /\
    parse_response (Some response) = Ret ((if res then value else "(nil)") ++ LF).
Proof.
  intros Ha Hg Hres. unfold run_command. rewrite Ha.
  cbn [String.eqb Ascii.eqb Bool.eqb andb List.length Nat.eqb nth]. rewrite Hg.
  cbn [bind]. eexists. split; [reflexivity|].
  destruct res.
  - destruct (Hres eq_refl) as [Hz Hfit]. now apply parse_response_bulk.
  - reflexivity.
Qed.

(** X27.  A request that arrives cut inside the size of an argument makes
    [handle_client] spin: when the buffer of a client between two commands
    receives the first line of a command, some of its arguments, and then
    fewer than four bytes or the start of a size with no end of line, while
    more arguments are expected, no number of turns of the loop of
    [handle_client] ends it, as long as nothing is added to the buffer. *)
Theorem handle_client_spins_on_a_cut_request (parts : list string) (m : N)
    (partial : string) (s : server) (fuel : nat) :
  state (ctx s) = PARSE_TYPE ->
  buffer (ctx s) = "" ->
  Forall (fun p => strlen p < 2 ^ 31) parts ->
  0 < m ->
  N.of_nat (List.length parts) + m < 2 ^ 31 ->
  incomplete_size partial = true ->
  handle_client' fuel
    (receive ("*" ++ to_string (N.of_nat (List.length parts) + m) ++ CRLF
              ++ String.concat "" (List.map serialize_part parts) ++ partial) s)
  = OutOfFuel.
Proof.
  destruct s as [[b a e n ps] st out]. cbn [ctx state buffer r sent].
  intros -> -> Hall Hm Hn Hinc. unfold receive, set_ctx.
  cbn [ctx state buffer args expected_bulk_length expected_args r sent append].
  destruct fuel as [|fuel]; [reflexivity|].
  destruct (handle_client_turn_parts parts a e m n st out partial Hall Hn)
    as (ebl' & fuel' & E).
  cbn [handle_client]. rewrite E.
  assert (Hw : waits_for_bytes
                 (ctx (mk_server (mk_ClientContext partial parts ebl' (Z.of_N m)
                                    PARSE_ARGUMENTS) st out)) = true).
  { unfold waits_for_bytes. cbn [ctx state expected_args buffer]. rewrite Hinc.
    destruct (Z.eqb_spec (Z.of_N m) 0); [lia|reflexivity]. }
  rewrite (parse_arguments_waits _ _ Hw). cbn [bind].
  now apply handle_client_waits.
Qed.

(** X28.  A request that arrives cut inside its first line is rejected:
    [handle_client] removes the [*] and returns; when the rest has arrived
    the buffer starts with a digit, so the next call answers [-ERR
    Unsupported command], drops the whole buffer and runs no command. *)
Theorem request_cut_in_its_first_line_is_rejected (parts : list string)
    (d1 d2 : string) (s : server) (fuel1 fuel2 : nat) :
  state (ctx s) = PARSE_TYPE ->
  buffer (ctx s) = "" ->
  serialize_command parts = String "*" d1 ++ d2 ->
  find_CRLF d1 = None ->
  exists s1,
    handle_client' (S fuel1) (receive (String "*" d1) s) = Ret s1 /\
    leaves_behind (handle_client' (S fuel2) (receive d2 s1)) =
    Ret (r s, (sent s ++ [("-ERR Unsupported command" ++ CRLF)%string])%list, "").
Proof.
  destruct s as [[b a e n ps] st out]. cbn [ctx state buffer r sent].
  intros -> -> Hser Hfind. unfold receive, set_ctx.
  cbn [ctx state buffer args expected_bulk_length expected_args r sent append].
  eexists. split.
  - cbn [handle_client]. unfold handle_client_turn.
    cbn [ctx state buffer Ascii.eqb Bool.eqb andb]. rewrite Hfind. reflexivity.
  - cbn [set_ctx ctx state buffer args expected_bulk_length expected_args r sent].
    destruct (to_string_first (N.of_nat (List.length parts))) as (c & rest & d & E & Hd).
    assert (Hbuf : exists rest', d1 ++ d2 = String c rest').
    { pose proof (serialize_command_eq parts "") as H.
      rewrite append_empty_r, Hser, E in H. cbn [append] in H.
      injection H as H. eexists. exact H. }
    destruct Hbuf as [rest' ->].
    cbn [handle_client]. unfold handle_client_turn. cbn [ctx state buffer].
    destruct (Ascii.eqb_spec c "*") as [->|_]; [discriminate|]. reflexivity.
Qed.

End EngineFacts.

(** * Concrete inputs in the format *)

Lemma runs4_hold : Forall2 holds runs4 buffers4.
Proof.
  unfold runs4, buffers4. simpl List.map.
  repeat (constructor; [exact (proj1 (FLUSH_run_holds _))|]). constructor.
Qed.

Lemma buffers4_sorted : Forall sorted_keys buffers4.
Proof. unfold buffers4. repeat constructor. Qed.

Lemma buffers4_not_empty_record : Forall (fun r => r <> empty_record_run) buffers4.
Proof. unfold buffers4. repeat constructor; discriminate. Qed.

Lemma buffers4_newest_c : newest buffers4 "c" "3".
Proof.
  exists [ [("a", "1"); ("b", TOMBSTONE)] ], [("a", "2"); ("c", "3")],
         [ [("d", "4")]; [("a", TOMBSTONE); ("e", "5")] ].
  split; [reflexivity|]. split; [right; left; reflexivity|].
  intros r' [<-|[<-|[]]]; simpl; intuition discriminate.
Qed.

Lemma tier4_runs : List.map run_records (List.map fst tier4) = buffers4.
Proof. vm_compute. reflexivity. Qed.

Lemma tier4_sorted : forall rf, In rf tier4 -> run_sorted (fst rf).
Proof.
  intros rf H. unfold tier4, buffers4 in H. cbn [List.map In] in H.
  destruct H as [<-|[<-|[<-|[<-|[]]]]]; cbn [fst];
    apply run_sorted_FLUSH_run; simpl; repeat split.
Qed.

Lemma one_full_tier_inv : engine_inv one_full_tier.
Proof.
  split; [exact I|]. split; [exact I|].
  intros t [<-|[]] rf Hrf. now apply tier4_sorted.
Qed.

Lemma buffers4_newest_a : newest buffers4 "a" TOMBSTONE.
Proof.
  exists [ [("a", "1"); ("b", TOMBSTONE)]; [("a", "2"); ("c", "3")]; [("d", "4")] ],
         [("a", TOMBSTONE); ("e", "5")], [].
  split; [reflexivity|]. split; [left; reflexivity|]. intros r' [].
Qed.

(** What is computed of the state that a trace leads to holds of
    [reached_from]. *)
Lemma exec_reached (P : Database -> Prop) (st : Database) (es : list event) :
  match exec sample_hash es st return Prop with
  | Some st' => P st'
  | None => False
  end ->
  exec sample_hash es st = Some (reached_from st es) /\ P (reached_from st es).
Proof.
  unfold reached_from. destruct (exec sample_hash es st); [|contradiction].
  intros H. split; [reflexivity|exact H].
Qed.

Lemma trace_flush_in_progress_facts :
  match exec sample_hash trace_flush_in_progress init0 return Prop with
  | Some st' => flush_in_progress_facts st'
  | None => False
  end.
Proof. vm_compute. repeat split. Qed.



Lemma trace_two_tiers_facts :
  match exec sample_hash trace_two_tiers init0 return Prop with
  | Some st' => two_tiers_facts st'
  | None => False
  end.
Proof. vm_compute. repeat split. Qed.

Lemma boot_full_log_facts :
  full_log_facts (initialize_memtable sample_hash boot_full_log).
Proof. vm_compute. repeat split. Qed.

(** * The engine on concrete inputs *)



(** A use of [GET_consults_frozen_buffer]: two writes fill the active
    buffer and the Flusher makes its swap; the flush is in progress, the
    frozen buffer holds ["a"] with the value ["1"], the active buffer is
    empty and there is no run yet. *)
Lemma GET_consults_frozen_buffer_witness :
  exec sample_hash trace_flush_in_progress init0 =
    Some (reached_from init0 trace_flush_in_progress) /\
  ifread_memtable (reached_from init0 trace_flush_in_progress) = true /\
  map_find "a" (write_memtable (reached_from init0 trace_flush_in_progress)) = None /\
  map_find "a" (read_memtable (reached_from init0 trace_flush_in_progress)) =
    Some "1" /\
  tiers (reached_from init0 trace_flush_in_progress) = [] /\
  match map_find "a" (write_memtable (reached_from init0 trace_flush_in_progress)),
        map_find "a" (read_memtable (reached_from init0 trace_flush_in_progress))
        return Prop with
  | Some w, _ =>
      GET_two_buffers sample_hash "a" "" (reached_from init0 trace_flush_in_progress) =
      Ret (if (w =? TOMBSTONE)%string then (false, "") else (true, w))
  | None, Some v =>
      GET_two_buffers sample_hash "a" "" (reached_from init0 trace_flush_in_progress) =
      Ret (if (v =? TOMBSTONE)%string then (false, "") else (true, v))
  | None, None =>
      GET_two_buffers sample_hash "a" "" (reached_from init0 trace_flush_in_progress) =
      GET_tiers sample_hash "a" (tiers (reached_from init0 trace_flush_in_progress)) ""
  end /\
  GET_two_buffers sample_hash "a" "" (reached_from init0 trace_flush_in_progress) =
    Ret (true, "1").
Proof.
  destruct (exec_reached flush_in_progress_facts init0 trace_flush_in_progress
              trace_flush_in_progress_facts)
    as (H1 & H2 & H3 & H4 & H5 & H6).
  split; [exact H1|]. split; [exact H2|]. split; [exact H3|].
  split; [exact H4|]. split; [exact H5|]. split; [|exact H6].
  exact (GET_consults_frozen_buffer sample_hash trace_flush_in_progress
           (reached_from init0 trace_flush_in_progress) "a" "" H1 H2).
Defined.

(** C3.  [merge] on four runs that each hold the record [("a", "1")] writes
    a run with that one record and an index that ends with the word 2; the
    run that the Flusher writes for the same record ends with the word 1. *)
Theorem merge_count_is_twice_the_records :
  match merge sample_hash runs_a1 BloomFilter_new false return Prop with
  | Ret (run, _) =>
      run_data run = "a1" /\
      run_meta run = [0; 1; 2; 2] /\
      run_records run = [("a", "1")] /\
      run_count run = 2 /\
      run_count (FLUSH_run [("a", "1")]) = 1
  | _ => False
  end.
Proof. vm_compute. repeat split. Qed.

(** A use of [compact_drops_tombstones_iff_new_tier], twice.  Tier 1 holds
    four runs in which the newest records of the keys ["a"] and ["b"] are
    tombstones.  When Tier 1 is the only tier, its compaction creates Tier 2
    and the run written holds no tombstone; when Tier 2 exists already, the
    run appended to it holds both tombstones. *)
Lemma compact_drops_tombstones_witness :
  ((1 <= 1)%nat /\
   nth_error (tiers one_full_tier) (1 - 1) = Some tier4 /\
   (forall rf, In rf tier4 -> run_sorted (fst rf)) /\
   compact_last 1 one_full_tier = true /\
   (exists st' run f,
      compact_step sample_hash 1 one_full_tier = Ret st' /\
      nth 1 (tiers st') [] = (nth 1 (tiers one_full_tier) [] ++ [(run, f)])%list /\
      ~ In ("a", TOMBSTONE) (run_records run) /\
      In ("c", "3") (run_records run)) /\
   match compact_step sample_hash 1 one_full_tier return Prop with
   | Ret st' =>
       List.map (fun rf => run_records (fst rf)) (nth 1 (tiers st') []) =
         [[("c", "3"); ("d", "4"); ("e", "5")]]
   | _ => False
   end) /\
  ((1 <= 1)%nat /\
   nth_error (tiers full_tier_before_tier2) (1 - 1) = Some tier4 /\
   (forall rf, In rf tier4 -> run_sorted (fst rf)) /\
   compact_last 1 full_tier_before_tier2 = false /\
   (exists st' run f,
      compact_step sample_hash 1 full_tier_before_tier2 = Ret st' /\
      nth 1 (tiers st') [] =
        (nth 1 (tiers full_tier_before_tier2) [] ++ [(run, f)])%list /\
      In ("a", TOMBSTONE) (run_records run) /\
      In ("c", "3") (run_records run)) /\
   match compact_step sample_hash 1 full_tier_before_tier2 return Prop with
   | Ret st' =>
       List.map (fun rf => run_records (fst rf)) (nth 1 (tiers st') []) =
         [[("a", TOMBSTONE); ("b", TOMBSTONE); ("c", "3"); ("d", "4"); ("e", "5")];
          [("a", TOMBSTONE); ("b", TOMBSTONE); ("c", "3"); ("d", "4"); ("e", "5")]]
   | _ => False
   end).
Proof.
  assert (H1 : (1 <= 1)%nat) by apply le_n.
  assert (H2 : nth_error (tiers one_full_tier) (1 - 1) = Some tier4) by reflexivity.
  assert (H2' : nth_error (tiers full_tier_before_tier2) (1 - 1) = Some tier4)
    by reflexivity.
  assert (Ha : newest (List.map run_records (List.map fst tier4)) "a" TOMBSTONE)
    by (rewrite tier4_runs; exact buffers4_newest_a).
  assert (Hc : newest (List.map run_records (List.map fst tier4)) "c" "3")
    by (rewrite tier4_runs; exact buffers4_newest_c).
  assert (Hc3 : "3" <> TOMBSTONE) by discriminate.
  assert (Hce : ("c", "3") <> ("", "")) by discriminate.
  split.
  - destruct (compact_drops_tombstones_iff_new_tier sample_hash 1 one_full_tier tier4
                H1 H2 tier4_sorted)
      as (Hlast & _ & st' & run & f & Hstep & _ & Happ & _ & Htomb & _ & Hkeep).
    split; [exact H1|]. split; [exact H2|]. split; [exact tier4_sorted|].
    split; [exact (proj2 Hlast eq_refl)|]. split.
    + exists st', run, f. split; [exact Hstep|]. split; [exact Happ|]. split.
      * intros Hin. exact (proj1 (Htomb "a" Ha) Hin eq_refl).
      * exact (Hkeep "c" "3" Hc Hc3 Hce).
    + vm_compute. reflexivity.
  - destruct (compact_drops_tombstones_iff_new_tier sample_hash 1 full_tier_before_tier2
                tier4 H1 H2' tier4_sorted)
      as (_ & Hlast & st' & run & f & Hstep & _ & Happ & _ & Htomb & _ & Hkeep).
    split; [exact H1|]. split; [exact H2'|]. split; [exact tier4_sorted|].
    split; [exact (Hlast eq_refl)|]. split.
    + exists st', run, f. split; [exact Hstep|]. split; [exact Happ|]. split.
      * apply (proj2 (Htomb "a" Ha)). discriminate.
      * exact (Hkeep "c" "3" Hc Hc3 Hce).
    + vm_compute. reflexivity.
Defined.

(** C5.  Tier 1 holds four runs; the newest run with the key [""] is the run
    of the single record [("", "")], whose data file is empty, and [GET("")]
    returns [""].  [merge] tests [src[j].peek() != EOF] before it reads a
    record, so it never reads this run: the run that the compaction writes
    holds the older record [("", "wx")], and [GET("")] returns ["wx"]
    afterwards. *)
Theorem merge_skips_empty_record_run :
  match exec sample_hash trace_empty_record_run init0 return Prop with
  | Some st =>
      List.map (List.map (fun rf => run_records (fst rf))) (tiers st) =
        [[ [("", "wx")]; [("", "")]; [("c", "1")]; [("d", "1")] ]] /\
      write_memtable st = [] /\
      ifread_memtable st = false /\
      get sample_hash "" st = Ret (Some "") /\
      match merge sample_hash (List.map fst (nth 0 (tiers st) [])) BloomFilter_new true
            return Prop with
      | Ret (run, _) => run_records run = [("", "wx"); ("c", "1"); ("d", "1")]
      | _ => False
      end /\
      match exec sample_hash [EvCompact] st return Prop with
      | Some st' =>
          List.map (List.map (fun rf => run_records (fst rf))) (tiers st') =
            [[]; [ [("", "wx"); ("c", "1"); ("d", "1")] ]] /\
          get sample_hash "" st' = Ret (Some "wx")
      | None => False
      end
  | None => False
  end.
Proof. vm_compute. repeat split. Qed.

(** A use of [SET_rejected_iff_oversize] on a record of exactly [MAX]
    bytes. *)
Lemma SET_rejected_witness :
  MAX <= strlen "a" + strlen oversize_value /\
  fst (SET sample_hash "a" oversize_value init0) = false /\
  snd (SET sample_hash "a" oversize_value init0) = init0.
Proof.
  assert (H : MAX <= strlen "a" + strlen oversize_value).
  { vm_compute. discriminate. }
  destruct (SET_rejected_iff_oversize sample_hash "a" oversize_value init0) as [H1 H2].
  split; [exact H|]. split; [exact (proj2 H1 H)|].
  exact (proj1 (H2 (proj2 H1 H))).
Defined.

(** A use of [initialize_memtable_replays_both]: the staged log holds ["a"]
    and ["b"] in records of more than [MAX] bytes together, the active log
    holds ["a"] again and ["c"].  The replay of the staged log counts
    4 000 001 bytes and triggers a flush, which freezes the two records; the
    replay of the active log then fills the active buffer. *)
Lemma initialize_memtable_witness :
  dir_get WAL_temp_bin (dir boot_full_log) = Some staged_full_log /\
  dir_get WAL_bin (dir boot_full_log) = Some active_log /\
  memory (initialize_memtable sample_hash boot_full_log) =
    memory (flush_if_full sample_hash
              (replay sample_hash active_log
                 (flush_if_full sample_hash
                    (replay sample_hash staged_full_log boot_full_log)))) /\
  mem_size (replay sample_hash staged_full_log boot_full_log) =
    mem_size boot_full_log + size_of staged_full_log /\
  size_of staged_full_log = 4000001 /\
  MAX <= mem_size (replay sample_hash staged_full_log boot_full_log) /\
  flush_if_full sample_hash (replay sample_hash staged_full_log boot_full_log) =
    await_swap sample_hash
      (signal_flush (replay sample_hash staged_full_log boot_full_log)) /\
  read_memtable
    (flush_if_full sample_hash (replay sample_hash staged_full_log boot_full_log)) =
    write_memtable (replay sample_hash staged_full_log boot_full_log) /\
  List.map fst (read_memtable (initialize_memtable sample_hash boot_full_log)) =
    ["a"; "b"] /\
  map_find "a" (read_memtable (initialize_memtable sample_hash boot_full_log)) =
    Some "1" /\
  ifread_memtable (initialize_memtable sample_hash boot_full_log) = true /\
  write_memtable (initialize_memtable sample_hash boot_full_log) =
    [("a", "3"); ("c", "4")] /\
  mem_size (initialize_memtable sample_hash boot_full_log) = 4.
Proof.
  assert (H1 : dir_get WAL_temp_bin (dir boot_full_log) = Some staged_full_log)
    by reflexivity.
  assert (H2 : dir_get WAL_bin (dir boot_full_log) = Some active_log)
    by reflexivity.
  assert (H3 : size_of staged_full_log = 4000001) by (vm_compute; reflexivity).
  destruct (initialize_memtable_replays_both sample_hash boot_full_log
              staged_full_log active_log H1 H2)
    as (_ & Hmem & _ & _ & Hsize & _ & Hflush & _).
  assert (H4 : MAX <= mem_size (replay sample_hash staged_full_log boot_full_log)).
  { rewrite (Hsize staged_full_log boot_full_log), H3. vm_compute. discriminate. }
  destruct (proj2 (Hflush (replay sample_hash staged_full_log boot_full_log)) H4)
    as (E1 & E2 & _).
  split; [exact H1|]. split; [exact H2|]. split; [exact Hmem|].
  split; [exact (Hsize staged_full_log boot_full_log)|]. split; [exact H3|].
  split; [exact H4|]. split; [exact E1|]. split; [exact E2|].
  exact boot_full_log_facts.
Defined.

(** A use of [BloomFilter_no_false_negative]. *)
Lemma BloomFilter_no_false_negative_witness :
  In "b" ["a"; "b"; "c"] /\
  BloomFilter_contains sample_hash "b"
    (BloomFilter_add_all sample_hash ["a"; "b"; "c"] BloomFilter_new) = true.
Proof.
  assert (H : In "b" ["a"; "b"; "c"]) by (right; left; reflexivity).
  split; [exact H|].
  exact (BloomFilter_no_false_negative sample_hash "b" ["a"; "b"; "c"]
           BloomFilter_new H).
Defined.

(** C9.  The value ["1"] of the key ["a"] is flushed to Tier 1 and the
    key is then deleted: [DELETE] returns true, the tombstone is in the
    active buffer and in the log [WAL.bin], and [GET("a")] reports the key
    absent.  The process ends and starts again: the tombstone is replayed
    into the active buffer, [GET("a")] still reports the key absent, but the
    log that was replayed is empty now.  The process ends and starts again:
    nothing is replayed, both buffers are empty, and [GET("a")] returns
    ["1"] from the run of Tier 1, the value that the last write on ["a"]
    deleted; the lookup of the spec returns it as well. *)
Theorem GET_returns_deleted_value :
  match exec sample_hash trace_flushed init0 return Prop with
  | Some st0 =>
      get sample_hash "a" st0 = Ret (Some "1") /\
      flushrunning st0 = false /\
      fst (DELETE sample_hash "a" st0) = true /\
      match exec sample_hash [EvDELETE "a"] st0 return Prop with
      | Some st1 =>
          map_find "a" (write_memtable st1) = Some TOMBSTONE /\
          dir_get WAL_bin (dir st1) = Some [("a", TOMBSTONE)] /\
          get sample_hash "a" st1 = Ret None /\
          match exec sample_hash [EvRestart] st1 return Prop with
          | Some st2 =>
              map_find "a" (write_memtable st2) = Some TOMBSTONE /\
              dir_get WAL_bin (dir st2) = Some [] /\
              get sample_hash "a" st2 = Ret None /\
              match exec sample_hash [EvRestart] st2 return Prop with
              | Some st3 =>
                  write_memtable st3 = [] /\
                  read_memtable st3 = [] /\
                  ifread_memtable st3 = false /\
                  List.map (List.map (fun rf => List.map fst (run_records (fst rf))))
                    (tiers st3) = [[["a"; "b"]]] /\
                  get sample_hash "a" st3 = Ret (Some "1") /\
                  get_two_buffers sample_hash "a" st3 = Ret (Some "1")
              | None => False
              end
          | None => False
          end
      | None => False
      end
  | None => False
  end.
Proof. vm_compute. repeat split. Qed.

(** A use of [DELETE_is_SET_TOMBSTONE] on a key that the store does not
    hold. *)
Lemma DELETE_absent_key_witness :
  get sample_hash "k" init0 = Ret None /\
  strlen "k" + 2 < MAX /\
  fst (DELETE sample_hash "k" init0) = true /\
  map_find "k" (write_memtable (snd (DELETE sample_hash "k" init0))) = Some TOMBSTONE /\
  dir_get WAL_bin (dir (snd (DELETE sample_hash "k" init0))) = Some [("k", TOMBSTONE)].
Proof.
  assert (H1 : get sample_hash "k" init0 = Ret None) by (vm_compute; reflexivity).
  assert (H2 : strlen "k" + 2 < MAX) by (vm_compute; reflexivity).
  destruct (DELETE_is_SET_TOMBSTONE sample_hash "k" init0) as (_ & _ & H).
  destruct (H H1 H2) as (H3 & H4 & H5).
  split; [exact H1|]. split; [exact H2|]. split; [exact H3|]. split; [exact H4|].
  exact (H5 WAL_bin [] eq_refl eq_refl).
Defined.

(** * The further properties on concrete inputs *)

(** A use of [BloomFilter_set_of_keys]. *)
Lemma BloomFilter_set_of_keys_witness :
  (forall k, In k ["a"; "b"; "a"] <-> In k ["b"; "a"]) /\
  BloomFilter_add_all sample_hash ["a"; "b"; "a"] BloomFilter_new =
  BloomFilter_add_all sample_hash ["b"; "a"] BloomFilter_new.
Proof.
  assert (H : forall k, In k ["a"; "b"; "a"] <-> In k ["b"; "a"]) by (simpl; tauto).
  split; [exact H|].
  exact (BloomFilter_set_of_keys sample_hash _ _ BloomFilter_new H).
Defined.

(** A use of [Find_after_FLUSH]. *)
Lemma Find_after_FLUSH_witness :
  sorted_keys buffer_abc /\
  strlen (concat_records buffer_abc) < 2 ^ 63 /\
  N.of_nat (List.length buffer_abc) < 2 ^ 31 /\
  exists value',
    Find (FLUSH_run buffer_abc) "c" "" =
    Ret (match map_find "c" buffer_abc with
         | Some v => (true, v)
         | None => (false, value')
         end).
Proof.
  assert (H1 : sorted_keys buffer_abc) by (simpl; repeat split).
  assert (H2 : strlen (concat_records buffer_abc) < 2 ^ 63) by reflexivity.
  assert (H3 : N.of_nat (List.length buffer_abc) < 2 ^ 31) by reflexivity.
  split; [exact H1|]. split; [exact H2|]. split; [exact H3|].
  exact (Find_after_FLUSH buffer_abc "c" "" H1 H2 H3).
Defined.

(** A use of [Find_after_merge]. *)
Lemma Find_after_merge_witness :
  merge sample_hash runs4 BloomFilter_new false = Ret (merged4, filter4) /\
  sorted_keys (run_records merged4) /\
  strlen (run_data merged4) < 2 ^ 63 /\
  N.of_nat (List.length (run_records merged4)) < 2 ^ 31 /\
  In ("e", "5") (run_records merged4) /\
  String.ltb (fst ("e", "5")) "b" = false /\
  exists value',
    Find merged4 "b" "" =
    Ret (match map_find "b" (run_records merged4) with
         | Some v => (true, v)
         | None => (false, value')
         end).
Proof.
  assert (H1 : merge sample_hash runs4 BloomFilter_new false = Ret (merged4, filter4))
    by (vm_compute; reflexivity).
  assert (H2 : sorted_keys (run_records merged4)) by (vm_compute; repeat split).
  assert (H3 : strlen (run_data merged4) < 2 ^ 63) by (vm_compute; reflexivity).
  assert (H4 : N.of_nat (List.length (run_records merged4)) < 2 ^ 31)
    by (vm_compute; reflexivity).
  assert (H5 : In ("e", "5") (run_records merged4)) by (vm_compute; tauto).
  assert (H6 : String.ltb (fst ("e", "5")) "b" = false) by reflexivity.
  split; [exact H1|]. split; [exact H2|]. split; [exact H3|]. split; [exact H4|].
  split; [exact H5|]. split; [exact H6|].
  exact (Find_after_merge sample_hash runs4 BloomFilter_new false merged4 filter4
           "b" "" ("e", "5") H1 H2 H3 H4 H5 H6).
Defined.

(** A use of [initialize_filter_rebuilds]. *)
Lemma initialize_filter_rebuilds_witness :
  holds (FLUSH_run buffer_abc) buffer_abc /\
  sorted_keys buffer_abc /\
  strlen (concat_records buffer_abc) < 2 ^ 63 /\
  initialize_filter sample_hash (FLUSH_run buffer_abc) =
  Ret (if (run_data (FLUSH_run buffer_abc) =? "")%string then BloomFilter_new
       else BloomFilter_add_all sample_hash (List.map fst buffer_abc) BloomFilter_new).
Proof.
  assert (H1 : holds (FLUSH_run buffer_abc) buffer_abc)
    by exact (proj1 (FLUSH_run_holds buffer_abc)).
  assert (H2 : sorted_keys buffer_abc) by (simpl; repeat split).
  assert (H3 : strlen (concat_records buffer_abc) < 2 ^ 63) by reflexivity.
  split; [exact H1|]. split; [exact H2|]. split; [exact H3|].
  exact (initialize_filter_rebuilds sample_hash (FLUSH_run buffer_abc) buffer_abc
           H1 H2 H3).
Defined.

(** A use of [GET_after_FLUSH_write]. *)
Lemma GET_after_FLUSH_write_witness :
  sorted_keys (read_memtable swapped_a) /\
  strlen (concat_records (read_memtable swapped_a)) < 2 ^ 63 /\
  N.of_nat (List.length (read_memtable swapped_a)) < 2 ^ 31 /\
  map_find "a" (write_memtable swapped_a) = None /\
  map_find "a" (read_memtable swapped_a) = Some "1" /\
  get sample_hash "a" (FLUSH_write sample_hash swapped_a) =
  Ret (if ("1" =? TOMBSTONE)%string then None else Some "1").
Proof.
  assert (H1 : sorted_keys (read_memtable swapped_a)) by (vm_compute; repeat split).
  assert (H2 : strlen (concat_records (read_memtable swapped_a)) < 2 ^ 63)
    by (vm_compute; reflexivity).
  assert (H3 : N.of_nat (List.length (read_memtable swapped_a)) < 2 ^ 31)
    by (vm_compute; reflexivity).
  assert (H4 : map_find "a" (write_memtable swapped_a) = None)
    by (vm_compute; reflexivity).
  assert (H5 : map_find "a" (read_memtable swapped_a) = Some "1")
    by (vm_compute; reflexivity).
  split; [exact H1|]. split; [exact H2|]. split; [exact H3|]. split; [exact H4|].
  split; [exact H5|].
  exact (GET_after_FLUSH_write sample_hash "a" "1" swapped_a H1 H2 H3 H4 H5).
Defined.

(** A use of [GET_never_returns_TOMBSTONE]. *)
Lemma GET_never_returns_TOMBSTONE_witness :
  get sample_hash "a" after_SET_a = Ret (Some "1") /\ "1" <> TOMBSTONE.
Proof.
  assert (H : get sample_hash "a" after_SET_a = Ret (Some "1"))
    by (vm_compute; reflexivity).
  split; [exact H|].
  exact (GET_never_returns_TOMBSTONE sample_hash "a" "1" after_SET_a H).
Defined.

(** A use of [DELETE_then_GET]. *)
Lemma DELETE_then_GET_witness :
  fst (DELETE sample_hash "a" after_SET_a) = true /\
  forallb (write_off "a") trace_other_keys = true /\
  exec sample_hash trace_other_keys (snd (DELETE sample_hash "a" after_SET_a)) =
    Some (snd (DELETE sample_hash "c"
                 (snd (SET sample_hash "b" "2"
                         (snd (DELETE sample_hash "a" after_SET_a)))))) /\
  get sample_hash "a"
    (snd (DELETE sample_hash "c"
            (snd (SET sample_hash "b" "2"
                    (snd (DELETE sample_hash "a" after_SET_a)))))) = Ret None.
Proof.
  assert (H1 : fst (DELETE sample_hash "a" after_SET_a) = true)
    by (vm_compute; reflexivity).
  assert (H2 : forallb (write_off "a") trace_other_keys = true)
    by (vm_compute; reflexivity).
  assert (H3 : exec sample_hash trace_other_keys
                 (snd (DELETE sample_hash "a" after_SET_a)) =
               Some (snd (DELETE sample_hash "c"
                            (snd (SET sample_hash "b" "2"
                                    (snd (DELETE sample_hash "a" after_SET_a)))))))
    by (vm_compute; reflexivity).
  split; [exact H1|]. split; [exact H2|]. split; [exact H3|].
  exact (DELETE_then_GET sample_hash "a" trace_other_keys after_SET_a _ H1 H2 H3).
Defined.

(** A use of [SET_does_not_change_other_keys]. *)
Lemma SET_does_not_change_other_keys_witness :
  exec sample_hash trace_two_writes init0 = Some after_two_writes /\
  "a" <> "c" /\
  get sample_hash "a" (snd (SET sample_hash "c" "3" after_two_writes)) =
  get sample_hash "a" after_two_writes.
Proof.
  assert (H1 : exec sample_hash trace_two_writes init0 = Some after_two_writes)
    by (vm_compute; reflexivity).
  assert (H2 : "a" <> "c") by discriminate.
  split; [exact H1|]. split; [exact H2|].
  exact (SET_does_not_change_other_keys sample_hash trace_two_writes after_two_writes
           "c" "3" "a" H1 H2).
Defined.

(** A use of [GET_answers_from_active_buffer]. *)
Lemma GET_answers_from_active_buffer_witness :
  exec sample_hash trace_two_writes init0 = Some after_two_writes /\
  map_find "b" (write_memtable after_two_writes) = Some TOMBSTONE /\
  get sample_hash "b" after_two_writes =
  Ret (if (TOMBSTONE =? TOMBSTONE)%string then None else Some TOMBSTONE).
Proof.
  assert (H1 : exec sample_hash trace_two_writes init0 = Some after_two_writes)
    by (vm_compute; reflexivity).
  assert (H2 : map_find "b" (write_memtable after_two_writes) = Some TOMBSTONE)
    by (vm_compute; reflexivity).
  split; [exact H1|]. split; [exact H2|].
  exact (GET_answers_from_active_buffer sample_hash trace_two_writes after_two_writes
           "b" TOMBSTONE H1 H2).
Defined.

(** A use of [merge_returns_sorted_newest]. *)
Lemma merge_returns_sorted_newest_witness :
  Forall2 holds runs4 buffers4 /\
  Forall sorted_keys buffers4 /\
  exists run f,
    merge sample_hash runs4 BloomFilter_new true = Ret (run, f) /\
    holds run (run_records run) /\
    sorted_keys (run_records run) /\
    (Forall (fun r => r <> empty_record_run) (tl buffers4) ->
     forall k v, In (k, v) (run_records run) -> newest buffers4 k v).
Proof.
  split; [exact runs4_hold|]. split; [exact buffers4_sorted|].
  exact (merge_returns_sorted_newest sample_hash runs4 buffers4 BloomFilter_new true
           runs4_hold buffers4_sorted).
Defined.

(** A use of [merge_writes_newest_of_each_key]. *)
Lemma merge_writes_newest_of_each_key_witness :
  Forall2 holds runs4 buffers4 /\
  Forall sorted_keys buffers4 /\
  Forall (fun r => r <> empty_record_run) buffers4 /\
  exists run f,
    merge sample_hash runs4 BloomFilter_new true = Ret (run, f) /\
    sorted_keys (run_records run) /\
    forall k v,
      In (k, v) (run_records run) <->
      newest buffers4 k v /\ (true = true -> v <> TOMBSTONE).
Proof.
  split; [exact runs4_hold|]. split; [exact buffers4_sorted|].
  split; [exact buffers4_not_empty_record|].
  exact (merge_writes_newest_of_each_key sample_hash runs4 buffers4 BloomFilter_new true
           runs4_hold buffers4_sorted buffers4_not_empty_record).
Defined.

(** A use of [merge_count_is_twice]. *)
Lemma merge_count_is_twice_witness :
  merge sample_hash runs4 BloomFilter_new false = Ret (merged4, filter4) /\
  holds merged4 (run_records merged4) /\
  run_count merged4 = 2 * N.of_nat (List.length (run_records merged4)).
Proof.
  assert (H : merge sample_hash runs4 BloomFilter_new false = Ret (merged4, filter4))
    by (vm_compute; reflexivity).
  split; [exact H|].
  exact (merge_count_is_twice sample_hash runs4 BloomFilter_new false merged4 filter4 H).
Defined.

(** A use of [merge_fills_filter]. *)
Lemma merge_fills_filter_witness :
  merge sample_hash runs4 BloomFilter_new false = Ret (merged4, filter4) /\
  filter4 = BloomFilter_add_all sample_hash (List.map fst (run_records merged4))
              BloomFilter_new /\
  forall k v, In (k, v) (run_records merged4) ->
    BloomFilter_contains sample_hash k filter4 = true.
Proof.
  assert (H : merge sample_hash runs4 BloomFilter_new false = Ret (merged4, filter4))
    by (vm_compute; reflexivity).
  split; [exact H|].
  exact (merge_fills_filter sample_hash runs4 BloomFilter_new false merged4 filter4 H).
Defined.

(** A use of [merge_then_lookup]. *)
Lemma merge_then_lookup_witness :
  Forall2 holds runs4 buffers4 /\
  Forall sorted_keys buffers4 /\
  Forall (fun r => r <> empty_record_run) buffers4 /\
  strlen (concat_records (List.concat buffers4)) < 2 ^ 63 /\
  N.of_nat (total_records buffers4) < 2 ^ 31 /\
  newest buffers4 "c" "3" /\
  (true = true -> "3" <> TOMBSTONE) /\
  exists run f,
    merge sample_hash runs4 BloomFilter_new true = Ret (run, f) /\
    BloomFilter_contains sample_hash "c" f = true /\
    forall value, Find run "c" value = Ret (true, "3").
Proof.
  assert (H4 : strlen (concat_records (List.concat buffers4)) < 2 ^ 63) by reflexivity.
  assert (H5 : N.of_nat (total_records buffers4) < 2 ^ 31) by reflexivity.
  assert (H7 : true = true -> "3" <> TOMBSTONE) by (intros _; discriminate).
  split; [exact runs4_hold|]. split; [exact buffers4_sorted|].
  split; [exact buffers4_not_empty_record|]. split; [exact H4|]. split; [exact H5|].
  split; [exact buffers4_newest_c|]. split; [exact H7|].
  exact (merge_then_lookup sample_hash runs4 buffers4 BloomFilter_new true "c" "3"
           runs4_hold buffers4_sorted buffers4_not_empty_record H4 H5
           buffers4_newest_c H7).
Defined.

(** A use of [GET_after_compact_step]. *)
Lemma GET_after_compact_step_witness :
  tiers one_full_tier = tier4 :: [] /\
  (forall rf, In rf tier4 -> run_sorted (fst rf)) /\
  Forall (fun r => r <> empty_record_run) (List.map run_records (List.map fst tier4)) /\
  strlen (concat_records (List.concat (List.map run_records (List.map fst tier4))))
    < 2 ^ 63 /\
  N.of_nat (total_records (List.map run_records (List.map fst tier4))) < 2 ^ 31 /\
  map_find "c" (write_memtable one_full_tier) = None /\
  newest (List.map run_records (List.map fst tier4)) "c" "3" /\
  "3" <> TOMBSTONE /\
  exists st', compact_step sample_hash 1 one_full_tier = Ret st' /\
              get sample_hash "c" st' = Ret (Some "3").
Proof.
  assert (H1 : tiers one_full_tier = tier4 :: []) by reflexivity.
  assert (H3 : Forall (fun r => r <> empty_record_run)
                 (List.map run_records (List.map fst tier4)))
    by (rewrite tier4_runs; exact buffers4_not_empty_record).
  assert (H4 : strlen (concat_records
                 (List.concat (List.map run_records (List.map fst tier4)))) < 2 ^ 63)
    by (rewrite tier4_runs; reflexivity).
  assert (H5 : N.of_nat (total_records (List.map run_records (List.map fst tier4)))
               < 2 ^ 31) by (rewrite tier4_runs; reflexivity).
  assert (H6 : map_find "c" (write_memtable one_full_tier) = None) by reflexivity.
  assert (H7 : newest (List.map run_records (List.map fst tier4)) "c" "3")
    by (rewrite tier4_runs; exact buffers4_newest_c).
  assert (H8 : "3" <> TOMBSTONE) by discriminate.
  split; [exact H1|]. split; [exact tier4_sorted|]. split; [exact H3|].
  split; [exact H4|]. split; [exact H5|]. split; [exact H6|]. split; [exact H7|].
  split; [exact H8|].
  exact (GET_after_compact_step sample_hash "c" "3" one_full_tier tier4 []
           H1 tier4_sorted H3 H4 H5 H6 H7 H8).
Defined.

(** A use of [reachable_runs_are_sorted], after five flushes, two ends of
    the process and a compaction: Tier 1 holds the run of the fifth flush
    and Tier 2 the run that the compaction wrote. *)
Lemma reachable_runs_are_sorted_witness :
  exec sample_hash trace_two_tiers init0 = Some (reached_from init0 trace_two_tiers) /\
  List.map (List.map (fun rf => List.map fst (run_records (fst rf))))
    (tiers (reached_from init0 trace_two_tiers)) = [[["e"]]; [[""; "c"; "d"]]] /\
  sorted_keys (write_memtable (reached_from init0 trace_two_tiers)) /\
  sorted_keys (read_memtable (reached_from init0 trace_two_tiers)) /\
  forall t rf, In t (tiers (reached_from init0 trace_two_tiers)) -> In rf t ->
    holds (fst rf) (run_records (fst rf)) /\ sorted_keys (run_records (fst rf)).
Proof.
  destruct (exec_reached two_tiers_facts init0 trace_two_tiers trace_two_tiers_facts) as (H1 & H2 & _).
  split; [exact H1|]. split; [exact H2|].
  exact (reachable_runs_are_sorted sample_hash trace_two_tiers
           (reached_from init0 trace_two_tiers) H1).
Defined.

(** A use of [reachable_tiers_are_bounded], in the same state: the frozen
    buffer of the fifth flush has been written and cleared, and Tier 2
    holds one run. *)
Lemma reachable_tiers_are_bounded_witness :
  exec sample_hash trace_two_tiers init0 = Some (reached_from init0 trace_two_tiers) /\
  List.map (@List.length (SortedRun * BloomFilter))
    (tiers (reached_from init0 trace_two_tiers)) = [1%nat; 1%nat] /\
  ifread_memtable (reached_from init0 trace_two_tiers) = false /\
  (forall j, (1 <= j)%nat ->
     (List.length (nth j (tiers (reached_from init0 trace_two_tiers)) []) < MIN_TH)%nat) /\
  (ifread_memtable (reached_from init0 trace_two_tiers) = false ->
   read_memtable (reached_from init0 trace_two_tiers) = []).
Proof.
  destruct (exec_reached two_tiers_facts init0 trace_two_tiers trace_two_tiers_facts)
    as (H1 & _ & H3 & H4).
  split; [exact H1|]. split; [exact H3|]. split; [exact H4|].
  exact (reachable_tiers_are_bounded sample_hash trace_two_tiers
           (reached_from init0 trace_two_tiers) H1).
Defined.

(** A use of [compact_returns_and_keeps_shape]. *)
Lemma compact_returns_and_keeps_shape_witness :
  engine_inv one_full_tier /\
  (1 <= 1 <= List.length (tiers one_full_tier))%nat /\
  exists st',
    compact sample_hash 1 one_full_tier = Ret st' /\
    engine_inv st' /\
    write_memtable st' = write_memtable one_full_tier /\
    read_memtable st' = read_memtable one_full_tier /\
    (tiers_bounded (tiers one_full_tier) -> tiers_bounded (tiers st')).
Proof.
  assert (H2 : (1 <= 1 <= List.length (tiers one_full_tier))%nat) by (simpl; lia).
  split; [exact one_full_tier_inv|]. split; [exact H2|].
  exact (compact_returns_and_keeps_shape sample_hash 1 one_full_tier
           one_full_tier_inv H2).
Defined.

(** A use of [restart_restores_buffer]. *)
Lemma restart_restores_buffer_witness :
  writes_only trace_two_writes = true /\
  exec sample_hash trace_two_writes init0 = Some after_two_writes /\
  flushrunning after_two_writes = false /\
  exists st',
    Database_restart sample_hash after_two_writes = Ret st' /\
    write_memtable st' = write_memtable after_two_writes /\
    filter_write st' = filter_write after_two_writes /\
    mem_size st' = mem_size after_two_writes /\
    forall k, get sample_hash k st' = get sample_hash k after_two_writes.
Proof.
  assert (H1 : writes_only trace_two_writes = true) by reflexivity.
  assert (H2 : exec sample_hash trace_two_writes init0 = Some after_two_writes)
    by (vm_compute; reflexivity).
  assert (H3 : flushrunning after_two_writes = false) by (vm_compute; reflexivity).
  split; [exact H1|]. split; [exact H2|]. split; [exact H3|].
  exact (restart_restores_buffer sample_hash trace_two_writes after_two_writes H1 H2 H3).
Defined.

(** A use of [second_restart_loses_buffer]. *)
Lemma second_restart_loses_buffer_witness :
  writes_only trace_two_writes = true /\
  exec sample_hash trace_two_writes init0 = Some after_two_writes /\
  flushrunning after_two_writes = false /\
  exists st' st'',
    Database_restart sample_hash after_two_writes = Ret st' /\
    write_memtable st' = write_memtable after_two_writes /\
    dir_get WAL_bin (dir st') = Some [] /\
    Database_restart sample_hash st' = Ret st'' /\
    write_memtable st'' = [] /\
    forall k, get sample_hash k st'' = Ret None.
Proof.
  assert (H1 : writes_only trace_two_writes = true) by reflexivity.
  assert (H2 : exec sample_hash trace_two_writes init0 = Some after_two_writes)
    by (vm_compute; reflexivity).
  assert (H3 : flushrunning after_two_writes = false) by (vm_compute; reflexivity).
  split; [exact H1|]. split; [exact H2|]. split; [exact H3|].
  exact (second_restart_loses_buffer sample_hash trace_two_writes after_two_writes
           H1 H2 H3).
Defined.

(** A use of [handle_client_answers_commands_in_order]. *)
Lemma handle_client_answers_commands_in_order_witness :
  state (ctx server0) = PARSE_TYPE /\
  buffer (ctx server0) = "" /\
  Forall (fun parts => N.of_nat (List.length parts) < 2 ^ 31 /\
                       Forall (fun p => strlen p < 2 ^ 31) parts)
    [["SET"; "a"; "1"]; ["PING"]; ["GET"; "a"]] /\
  (List.length [["SET"; "a"; "1"]; ["PING"]; ["GET"; "a"]] < 4)%nat /\
  leaves_behind
    (handle_client sample_hash 4
       (receive (String.concat ""
                   (List.map serialize_command
                      [["SET"; "a"; "1"]; ["PING"]; ["GET"; "a"]])) server0)) =
  '(st', out') <- answers sample_hash [["SET"; "a"; "1"]; ["PING"]; ["GET"; "a"]]
                    (r server0, sent server0) ;;
  Ret (st', out', "").
Proof.
  assert (H1 : state (ctx server0) = PARSE_TYPE) by reflexivity.
  assert (H2 : buffer (ctx server0) = "") by reflexivity.
  assert (H3 : Forall (fun parts => N.of_nat (List.length parts) < 2 ^ 31 /\
                                    Forall (fun p => strlen p < 2 ^ 31) parts)
                 [["SET"; "a"; "1"]; ["PING"]; ["GET"; "a"]])
    by (repeat constructor).
  assert (H4 : (List.length [["SET"; "a"; "1"]; ["PING"]; ["GET"; "a"]] < 4)%nat)
    by (simpl; lia).
  split; [exact H1|]. split; [exact H2|]. split; [exact H3|]. split; [exact H4|].
  exact (handle_client_answers_commands_in_order sample_hash _ server0 4 H1 H2 H3 H4).
Defined.

(** A use of [SET_then_GET_over_the_wire]. *)
Lemma SET_then_GET_over_the_wire_witness :
  state (ctx server0) = PARSE_TYPE /\
  buffer (ctx server0) = "" /\
  strlen "key" + strlen "value" < MAX /\
  (2 < 3)%nat /\
  leaves_behind
    (handle_client sample_hash 3
       (receive (serialize_command ["SET"; "key"; "value"]
                 ++ serialize_command ["GET"; "key"]) server0)) =
  Ret (snd (SET_call sample_hash "key" "value" (r server0)),
       (sent server0
        ++ [("+OK" ++ CRLF)%string;
            (if ("value" =? TOMBSTONE)%string then "$-1" ++ CRLF
             else "$" ++ to_string (strlen "value") ++ CRLF ++ "value" ++ CRLF)%string])%list,
       "").
Proof.
  assert (H1 : state (ctx server0) = PARSE_TYPE) by reflexivity.
  assert (H2 : buffer (ctx server0) = "") by reflexivity.
  assert (H3 : strlen "key" + strlen "value" < MAX) by reflexivity.
  assert (H4 : (2 < 3)%nat) by lia.
  split; [exact H1|]. split; [exact H2|]. split; [exact H3|]. split; [exact H4|].
  exact (SET_then_GET_over_the_wire sample_hash "key" "value" server0 3 H1 H2 H3 H4).
Defined.

(** A use of [client_prints_the_answer_of_GET]. *)
Lemma client_prints_the_answer_of_GET_witness :
  args (ctx server_GET_a) = ["GET"; "a"] /\
  GET sample_hash "a" "" (r server_GET_a) = Ret (true, "1") /\
  (true = true ->
   no_zero_byte "1" = true /\
   (String.length ("$" ++ to_string (strlen "1") ++ CRLF ++ "1" ++ CRLF) <= 4095)%nat) /\
  exists response,
    run_command sample_hash server_GET_a = Ret (send_response response server_GET_a) /\
    parse_response (Some response) = Ret ((if true then "1" else "(nil)") ++ LF).
Proof.
  assert (H1 : args (ctx server_GET_a) = ["GET"; "a"]) by reflexivity.
  assert (H2 : GET sample_hash "a" "" (r server_GET_a) = Ret (true, "1"))
    by (vm_compute; reflexivity).
  assert (H3 : true = true ->
               no_zero_byte "1" = true /\
               (String.length ("$" ++ to_string (strlen "1") ++ CRLF ++ "1" ++ CRLF)
                <= 4095)%nat)
    by (intros _; split; [reflexivity|apply Nat.leb_le; reflexivity]).
  split; [exact H1|]. split; [exact H2|]. split; [exact H3|].
  exact (client_prints_the_answer_of_GET sample_hash "a" server_GET_a true "1" H1 H2 H3).
Defined.

(** A use of [handle_client_spins_on_a_cut_request]: the request
    [GET a] cut after the first byte of the size of its key. *)
Lemma handle_client_spins_on_a_cut_request_witness :
  state (ctx server0) = PARSE_TYPE /\
  buffer (ctx server0) = "" /\
  Forall (fun p => strlen p < 2 ^ 31) ["GET"] /\
  0 < 1 /\
  N.of_nat (List.length ["GET"]) + 1 < 2 ^ 31 /\
  incomplete_size "$1" = true /\
  handle_client sample_hash 1000
    (receive ("*" ++ to_string (N.of_nat (List.length ["GET"]) + 1) ++ CRLF
              ++ String.concat "" (List.map serialize_part ["GET"]) ++ "$1") server0)
  = OutOfFuel.
Proof.
  assert (H1 : state (ctx server0) = PARSE_TYPE) by reflexivity.
  assert (H2 : buffer (ctx server0) = "") by reflexivity.
  assert (H3 : Forall (fun p => strlen p < 2 ^ 31) ["GET"]) by (repeat constructor).
  assert (H4 : 0 < 1) by reflexivity.
  assert (H5 : N.of_nat (List.length ["GET"]) + 1 < 2 ^ 31) by reflexivity.
  assert (H6 : incomplete_size "$1" = true) by reflexivity.
  split; [exact H1|]. split; [exact H2|]. split; [exact H3|]. split; [exact H4|].
  split; [exact H5|]. split; [exact H6|].
  exact (handle_client_spins_on_a_cut_request sample_hash ["GET"] 1 "$1" server0 1000
           H1 H2 H3 H4 H5 H6).
Defined.

(** A use of [request_cut_in_its_first_line_is_rejected]: the request
    [GET a] cut after its second byte. *)
Lemma request_cut_in_its_first_line_is_rejected_witness :
  state (ctx server0) = PARSE_TYPE /\
  buffer (ctx server0) = "" /\
  serialize_command ["GET"; "a"] = String "*" "2" ++ rest_GET_a /\
  find_CRLF "2" = None /\
  exists s1,
    handle_client sample_hash 1 (receive (String "*" "2") server0) = Ret s1 /\
    leaves_behind (handle_client sample_hash 1 (receive rest_GET_a s1)) =
    Ret (r server0,
         (sent server0 ++ [("-ERR Unsupported command" ++ CRLF)%string])%list, "").
Proof.
  assert (H1 : state (ctx server0) = PARSE_TYPE) by reflexivity.
  assert (H2 : buffer (ctx server0) = "") by reflexivity.
  assert (H3 : serialize_command ["GET"; "a"] = String "*" "2" ++ rest_GET_a)
    by reflexivity.
  assert (H4 : find_CRLF "2" = None) by reflexivity.
  split; [exact H1|]. split; [exact H2|]. split; [exact H3|]. split; [exact H4|].
  exact (request_cut_in_its_first_line_is_rejected sample_hash ["GET"; "a"] "2"
           rest_GET_a server0 0 0 H1 H2 H3 H4).
Defined.
